(** * The pnpify hoister ([packages/yarnpkg-pnpify/sources/hoist.ts])

    A shallow embedding of the node_modules hoisting algorithm and the
    properties its specification states about it.

    JavaScript objects live in stores and are named by their index: the
    input graph is a list of [HoisterTree] cells, the work tree a list of
    [HoisterWorkTree] cells (the heap); a [Set] or [Map] keyed by an object
    is keyed by its index.  A JavaScript [Map] is its ordered entry list, in
    which a deleted entry leaves a hole (ECMAScript's [[MapData]]), so that
    insertion order and iteration over a map that is written to meanwhile
    are what they are in the source.

    Recursive closures and loops without a bound take a [fuel] argument,
    one unit per nested call; a run that uses it up is cut short.  That
    some fuel is always enough, and that fuel beyond it changes nothing, is
    proved below ([hoist_terminates], [hoist_mono]).

    Text that only a person reads is kept as the data it is printed from:
    the reasons, the lines of the self check and of the tree dump, the
    events on the console.  [Array.prototype.sort] is the stable sort of
    ECMAScript 2019.  A debug level is an integer or [NaN]. *)

From Stdlib Require Import ZArith Ascii String List Bool Lia.
From stdpp Require Import base option list strings relations.
Local Open Scope Z_scope.

Set Default Proof Using "Type".

(** ** Strings *)

Module Str.

(** [s.indexOf(c, from)] for a one-character search string, as a
    position or -1. *)
Fixpoint indexOfAt (c : ascii) (s : string) (from pos : nat) : Z :=
  match s with
  | EmptyString => -1
  | String a rest =>
      if (from <=? pos)%nat && Ascii.eqb a c
      then Z.of_nat pos
      else indexOfAt c rest from (S pos)
  end.

Definition indexOf (c : ascii) (s : string) (from : nat) : Z :=
  indexOfAt c s from 0.

(** [s.substring(a, b)]: both ends are clamped to [0, length] and
    swapped when out of order. *)
Definition clamp (s : string) (i : Z) : nat :=
  Nat.min (Z.to_nat i) (String.length s).

Definition substring (s : string) (a b : Z) : string :=
  let a' := clamp s a in
  let b' := clamp s b in
  let lo := Nat.min a' b' in
  let hi := Nat.max a' b' in
  String.substring lo (hi - lo) s.

(** [s.substring(a)] *)
Definition substringFrom (s : string) (a : Z) : string :=
  substring s a (Z.of_nat (String.length s)).

Definition len (s : string) : Z := Z.of_nat (String.length s).

End Str.

Abbreviation PackageName := string (only parsing).
Abbreviation Locator := string (only parsing).
Abbreviation Ident := string (only parsing).

Definition makeLocator (name reference : string) : Locator :=
  (name ++ "@" ++ reference)%string.

Definition makeIdent (name reference : string) : Ident :=
  let hashIdx := Str.indexOf "#"%char reference 0 in
  let realReference :=
    if 0 <=? hashIdx then Str.substringFrom reference (hashIdx + 1)
    else reference in
  makeLocator name realReference.

Definition getIdentName (locator : Locator) : string :=
  Str.substring locator 0 (Str.indexOf "@"%char locator 1).

(** ** JavaScript sets and maps *)

Section Containers.
Context {K : Type} `{EqDecision K}.

(** A [Set] is the list of its elements in insertion order. *)
Abbreviation JsSet := (list K).

Definition set_has (x : K) (s : JsSet) : bool := bool_decide (x ∈ s).

Definition set_add (x : K) (s : JsSet) : JsSet :=
  if set_has x s then s else s ++ [x].

Definition set_delete (x : K) (s : JsSet) : JsSet :=
  filter (fun y => y ≠ x) s.

(** [new Set(iterable)] *)
Definition set_of_list (l : list K) : JsSet :=
  fold_left (fun s x => set_add x s) l [].

Context {V : Type}.

(** A [Map] is the list of its entries in insertion order; [None] is the
    hole a deleted entry leaves. *)
Abbreviation JsMap := (list (option (K * V))).

Fixpoint map_get (k : K) (m : JsMap) : option V :=
  match m with
  | [] => None
  | Some (k', v) :: rest => if decide (k' = k) then Some v else map_get k rest
  | None :: rest => map_get k rest
  end.

Definition map_has (k : K) (m : JsMap) : bool :=
  match map_get k m with Some _ => true | None => false end.

Fixpoint map_set (k : K) (v : V) (m : JsMap) : JsMap :=
  match m with
  | [] => [Some (k, v)]
  | Some (k', v') :: rest =>
      if decide (k' = k) then Some (k, v) :: rest
      else Some (k', v') :: map_set k v rest
  | None :: rest => None :: map_set k v rest
  end.

Fixpoint map_delete (k : K) (m : JsMap) : JsMap :=
  match m with
  | [] => []
  | Some (k', v') :: rest =>
      if decide (k' = k) then None :: map_delete k rest
      else Some (k', v') :: map_delete k rest
  | None :: rest => None :: map_delete k rest
  end.

Fixpoint map_entries (m : JsMap) : list (K * V) :=
  match m with
  | [] => []
  | Some kv :: rest => kv :: map_entries rest
  | None :: rest => map_entries rest
  end.
Definition map_keys (m : JsMap) : list K := fst <$> map_entries m.
Definition map_values (m : JsMap) : list V := snd <$> map_entries m.

(** [new Map(m)] and [new Map(entries)] *)
Definition map_of_entries (l : list (K * V)) : JsMap :=
  fold_left (fun m kv => map_set kv.1 kv.2 m) l [].

Definition map_copy (m : JsMap) : JsMap := map_of_entries (map_entries m).

End Containers.

Abbreviation JsSet K := (list K) (only parsing).
Abbreviation JsMap K V := (list (option (K * V))) (only parsing).

(** ** Nodes

    Objects are named by their index in a store. *)

Abbreviation addr := nat (only parsing).

(** An input node; [t_dependencies] is its [Set<HoisterTree>], in
    insertion order, by index into the input store. *)
Record HoisterTree := mkHoisterTree {
  t_name : PackageName;
  t_identName : PackageName;
  t_reference : string;
  t_dependencies : JsSet addr;
  t_peerNames : JsSet PackageName
}.

(** The text of a reason is for diagnostics only; a reason is kept as the
    locators its message is printed from. *)
Inductive Reason :=
| FilledByIdent (by_ : Ident) (at_ : list Locator)
| FilledByHoisted (by_ : Locator) (at_ : list Locator)
| FilledByParent (by_ : Locator) (at_ : Locator)
| PeerNotHoisted (peer : Locator) (parent : Locator) (to_ : list Locator).

Record HoisterWorkTree := mkWork {
  name : PackageName;
  references : JsSet string;
  ident : Ident;
  locator : Locator;
  dependencies : JsMap PackageName addr;
  originalDependencies : JsMap PackageName addr;
  hoistedDependencies : JsMap PackageName addr;
  peerNames : JsSet PackageName;
  decoupled : bool;
  reasons : JsMap PackageName (option Reason)
}.

(** An output node; [r_dependencies] is its [Set<HoisterResult>], by index
    into the output store. *)
Record HoisterResult := mkResult {
  r_name : PackageName;
  r_identName : PackageName;
  r_references : JsSet string;
  r_dependencies : JsSet addr
}.

Abbreviation PopularityMap := (JsMap string (JsSet Ident)) (only parsing).

Inductive HoistInfo :=
| YES
| NO (reason : option Reason)
| DEPENDS (dependsOn : JsSet addr).

Abbreviation Heap := (list HoisterWorkTree) (only parsing).

(** Field updates *)
Definition with_references (r : JsSet string) (n : HoisterWorkTree) :=
  mkWork (name n) r (ident n) (locator n) (dependencies n)
    (originalDependencies n) (hoistedDependencies n) (peerNames n)
    (decoupled n) (reasons n).
Definition with_dependencies (d : JsMap PackageName addr) (n : HoisterWorkTree) :=
  mkWork (name n) (references n) (ident n) (locator n) d
    (originalDependencies n) (hoistedDependencies n) (peerNames n)
    (decoupled n) (reasons n).
Definition with_originalDependencies (d : JsMap PackageName addr) (n : HoisterWorkTree) :=
  mkWork (name n) (references n) (ident n) (locator n) (dependencies n)
    d (hoistedDependencies n) (peerNames n) (decoupled n) (reasons n).
Definition with_hoistedDependencies (d : JsMap PackageName addr) (n : HoisterWorkTree) :=
  mkWork (name n) (references n) (ident n) (locator n) (dependencies n)
    (originalDependencies n) d (peerNames n) (decoupled n) (reasons n).
Definition with_decoupled (b : bool) (n : HoisterWorkTree) :=
  mkWork (name n) (references n) (ident n) (locator n) (dependencies n)
    (originalDependencies n) (hoistedDependencies n) (peerNames n)
    b (reasons n).
Definition with_reasons (r : JsMap PackageName (option Reason)) (n : HoisterWorkTree) :=
  mkWork (name n) (references n) (ident n) (locator n) (dependencies n)
    (originalDependencies n) (hoistedDependencies n) (peerNames n)
    (decoupled n) r.

(** ** Outcomes

    A call returns, throws, or is cut short by the fuel of the model. *)

(** One line of [selfCheck]'s log, as the data its message is printed from. *)
Inductive CheckIssue :=
| BrokenPeerPromise (path : list Locator) (expected found : option Locator)
| MissingRequire (path : list Locator) (required : Locator)
| BrokenRequire (path : list Locator) (depName : PackageName) (expected found : Ident).

(** One line of [dumpDepTree], as the data it is printed from: the columns
    of its prefix ([true] for a column with a bar), whether it is the last
    line of its node, whether the package is on the path to it, the alias
    (when the name is not the ident name), the locator and the reason the
    parent holds for it. *)
Record DumpLine := mkDumpLine {
  dl_prefix : list bool;
  dl_last : bool;
  dl_onPath : bool;
  dl_alias : option PackageName;
  dl_locator : Locator;
  dl_reason : option Reason
}.

Record TreeDump := mkTreeDump {
  dumpLines : list DumpLine;
  dumpTooLarge : bool
}.

Inductive Err :=
| TypeError                         (* a property of [undefined] was read *)
| CheckFailed (log : list CheckIssue) (after : option (list Locator)) (dump : TreeDump)
                                    (* [throw new Error(checkLog ...)] *)
| Dangling.                         (* an index outside its store: no JavaScript run does this *)

Inductive Outcome (A : Type) :=
| Done (a : A)
| Thrown (e : Err)
| Starved.
Arguments Done {A} a.
Arguments Thrown {A} e.
Arguments Starved {A}.

Definition obind {A B} (m : Outcome A) (f : A -> Outcome B) : Outcome B :=
  match m with
  | Done a => f a
  | Thrown e => Thrown e
  | Starved => Starved
  end.

(** Code that writes to a store [S]: a run returns a value, throws, or is
    cut short, and leaves the store as it is then. *)
Inductive Run (S A : Type) :=
| Returned (a : A) (s : S)
| Raised (e : Err) (s : S)
| Exhausted.
Arguments Returned {S A} a s.
Arguments Raised {S A} e s.
Arguments Exhausted {S A}.

Definition M (S A : Type) := S -> Run S A.

Definition ret {S A} (a : A) : M S A := fun s => Returned a s.
Definition bind {S A B} (m : M S A) (f : A -> M S B) : M S B :=
  fun s => match m s with
           | Returned a s' => f a s'
           | Raised e s' => Raised e s'
           | Exhausted => Exhausted
           end.
Definition throw {S A} (e : Err) : M S A := fun s => Raised e s.
Definition starve {S A} : M S A := fun _ => Exhausted.
Definition get_st {S} : M S S := fun s => Returned s s.
Definition lift {S A} (o : Outcome A) : M S A :=
  fun s => match o with
           | Done a => Returned a s
           | Thrown e => Raised e s
           | Starved => Exhausted
           end.

Declare Scope js_scope.
Delimit Scope js_scope with js.
Notation "x <- m ;; k" := (bind m (fun x => k))
  (at level 100, m at next level, right associativity) : js_scope.
Notation "m ;; k" := (bind m (fun _ => k))
  (at level 100, right associativity) : js_scope.
Notation "x <~ m ;; k" := (obind m (fun x => k))
  (at level 100, m at next level, right associativity) : js_scope.
Local Open Scope js_scope.

(** [for (const x of l) body(x)] over a list that the body does not
    write to, for code that only reads, threading an accumulator. *)
Fixpoint foldO {A B} (l : list A) (acc : B) (body : B -> A -> Outcome B) : Outcome B :=
  match l with
  | [] => Done acc
  | x :: rest => acc' <~ body acc x ;; foldO rest acc' body
  end.

(** Reading and writing the heap *)
Definition deref (h : Heap) (a : addr) : Outcome HoisterWorkTree :=
  match h !! a with
  | Some n => Done n
  | None => Thrown Dangling
  end.

Definition read (a : addr) : M Heap HoisterWorkTree :=
  fun h => match h !! a with
           | Some n => Returned n h
           | None => Raised Dangling h
           end.

Definition modify (a : addr) (f : HoisterWorkTree -> HoisterWorkTree) : M Heap unit :=
  fun h => match h !! a with
           | Some n => Returned tt (<[a := f n]> h)
           | None => Raised Dangling h
           end.

Definition alloc (n : HoisterWorkTree) : M Heap addr :=
  fun h => Returned (length h) (h ++ [n]).

Fixpoint foldM {S A B} (l : list A) (acc : B) (body : B -> A -> M S B) : M S B :=
  match l with
  | [] => ret acc
  | x :: rest => acc' <- body acc x ;; foldM rest acc' body
  end.

(** ** The world of one call: the caller's input graph and the work tree *)

Record World := mkWorld {
  inputs : list HoisterTree;
  heap : Heap
}.

Definition readInput (i : addr) : M World HoisterTree :=
  fun w => match inputs w !! i with
           | Some t => Returned t w
           | None => Raised Dangling w
           end.

Definition onHeap {A} (m : M Heap A) : M World A :=
  fun w => match m (heap w) with
           | Returned a h' => Returned a (mkWorld (inputs w) h')
           | Raised e h' => Raised e (mkWorld (inputs w) h')
           | Exhausted => Exhausted
           end.

(** ** cloneTree *)

Definition newWorkNode (t : HoisterTree) : HoisterWorkTree :=
  {| name := t_name t;
     references := [t_reference t];
     ident := makeIdent (t_identName t) (t_reference t);
     locator := makeLocator (t_identName t) (t_reference t);
     dependencies := [];
     originalDependencies := [];
     hoistedDependencies := [];
     peerNames := set_of_list (t_peerNames t);
     decoupled := true;
     reasons := [] |}.

Fixpoint markNodeCoupled (fuel : nat) (node : addr) (seenCoupledNodes : JsSet addr)
  : M Heap (JsSet addr) :=
  match fuel with
  | O => starve
  | S fuel =>
      if set_has node seenCoupledNodes then ret seenCoupledNodes
      else
        let seenCoupledNodes := set_add node seenCoupledNodes in
        modify node (with_decoupled false) ;;
        n <- read node ;;
        foldM (map_values (dependencies n)) seenCoupledNodes (fun seen dep =>
          d <- read dep ;;
          if negb (set_has (name d) (peerNames n))
          then markNodeCoupled fuel dep seen
          else ret seen)
  end.

Definition attach (depName : PackageName) (workNode : addr) (p : HoisterWorkTree) :=
  with_originalDependencies (map_set depName workNode (originalDependencies p))
    (with_dependencies (map_set depName workNode (dependencies p)) p).

Fixpoint addNode (fuel : nat) (node : addr) (parentNode : addr)
    (seenNodes : JsMap addr addr) : M World (JsMap addr addr) :=
  match fuel with
  | O => starve
  | S fuel =>
      t <- readInput node ;;
      let isSeen := map_has node seenNodes in
      ws <- match map_get node seenNodes with
            | Some workNode => ret (workNode, seenNodes)
            | None =>
                workNode <- onHeap (alloc (newWorkNode t)) ;;
                ret (workNode, map_set node workNode seenNodes)
            end ;;
      let workNode := ws.1 in
      let seenNodes := ws.2 in
      onHeap (modify parentNode (attach (t_name t) workNode)) ;;
      if negb isSeen then
        foldM (t_dependencies t) seenNodes (fun seen dep =>
          addNode fuel dep workNode seen)
      else
        onHeap (markNodeCoupled fuel workNode []) ;;
        ret seenNodes
  end.

Definition cloneTree (fuel : nat) (tree : addr) : M World addr :=
  t <- readInput tree ;;
  treeCopy <- onHeap (alloc (newWorkNode t)) ;;
  foldM (t_dependencies t) (map_set tree treeCopy []) (fun seen dep =>
    addNode fuel dep treeCopy seen) ;;
  ret treeCopy.

(** ** buildPopularityMap *)

Definition getPopularityKey (n : HoisterWorkTree) : string :=
  (name n ++ "@" ++ ident n)%string.

Fixpoint addParent (fuel : nat) (h : Heap) (parentNode node : addr)
    (st : PopularityMap * JsSet addr) : Outcome (PopularityMap * JsSet addr) :=
  match fuel with
  | O => Starved
  | S fuel =>
      p <~ deref h parentNode ;;
      n <~ deref h node ;;
      let isSeen := set_has node st.2 in
      let key := getPopularityKey n in
      let parents := default [] (map_get key st.1) in
      let popularityMap := map_set key (set_add (ident p) parents) st.1 in
      if negb isSeen then
        foldO (map_values (dependencies n)) (popularityMap, set_add node st.2)
          (fun st dep =>
             d <~ deref h dep ;;
             if negb (set_has (name d) (peerNames n))
             then addParent fuel h node dep st
             else Done st)
      else Done (popularityMap, st.2)
  end.

Definition buildPopularityMap (fuel : nat) (h : Heap) (rootNode : addr)
  : Outcome PopularityMap :=
  r <~ deref h rootNode ;;
  st <~ foldO (map_values (dependencies r)) ([], [rootNode]) (fun st dep =>
          d <~ deref h dep ;;
          if negb (set_has (name d) (peerNames r))
          then addParent fuel h rootNode dep st
          else Done st) ;;
  Done st.1.

(** ** getHoistedDependencies *)

Fixpoint addHoistedDependencies (fuel : nat) (h : Heap) (rootNode node : addr)
    (st : JsMap PackageName addr * JsSet addr)
  : Outcome (JsMap PackageName addr * JsSet addr) :=
  match fuel with
  | O => Starved
  | S fuel =>
      if set_has node st.2 then Done st
      else
        let seenNodes := set_add node st.2 in
        n <~ deref h node ;;
        r <~ deref h rootNode ;;
        hoisted <~ foldO (map_values (hoistedDependencies n)) st.1 (fun m dep =>
                     d <~ deref h dep ;;
                     if negb (map_has (name d) (dependencies r))
                     then Done (map_set (name d) dep m)
                     else Done m) ;;
        foldO (map_values (dependencies n)) (hoisted, seenNodes) (fun st dep =>
          d <~ deref h dep ;;
          if negb (set_has (name d) (peerNames n))
          then addHoistedDependencies fuel h rootNode dep st
          else Done st)
  end.

Definition getHoistedDependencies (fuel : nat) (h : Heap) (rootNode : addr)
  : Outcome (JsMap PackageName addr) :=
  st <~ addHoistedDependencies fuel h rootNode rootNode ([], []) ;;
  Done st.1.

(** ** getHoistIdentMap *)

(** [Array.prototype.sort] with a comparator: a stable sort (ECMAScript
    2019), here by insertion. *)
Fixpoint insertSorted {A} (cmp : A -> A -> Z) (x : A) (l : list A) : list A :=
  match l with
  | [] => [x]
  | y :: rest =>
      if cmp x y <? 0 then x :: y :: rest
      else y :: insertSorted cmp x rest
  end.

Definition jsSort {A} (cmp : A -> A -> Z) (l : list A) : list A :=
  fold_left (fun acc x => insertSorted cmp x acc) l [].

Definition popularity (popularityMap : PopularityMap) (key : string) : Z :=
  Z.of_nat (length (default [] (map_get key popularityMap))).

(** One step of the walk over the popularity keys. *)
Definition addPopularIdent (r : HoisterWorkTree)
    (identMap : JsMap PackageName (list Ident)) (key : string)
  : JsMap PackageName (list Ident) :=
  let name_ := Str.substring key 0 (Str.indexOf "@"%char key 1) in
  let ident_ := Str.substringFrom key (Str.len name_ + 1) in
  if negb (set_has name_ (peerNames r)) then
    match map_get name_ identMap with
    | None => map_set name_ [ident_] identMap
    | Some idents =>
        if bool_decide (ident_ ∈ idents) then identMap
        else map_set name_ (idents ++ [ident_]) identMap
    end
  else identMap.

Definition getHoistIdentMap (h : Heap) (rootNode : addr) (popularityMap : PopularityMap)
  : Outcome (JsMap PackageName (list Ident)) :=
  r <~ deref h rootNode ;;
  identMap <~ foldO (map_values (dependencies r)) [Some (name r, [ident r])]
                (fun m dep =>
                   d <~ deref h dep ;;
                   if negb (set_has (name d) (peerNames r))
                   then Done (map_set (name d) [ident d] m)
                   else Done m) ;;
  let keyList :=
    jsSort (fun key1 key2 => popularity popularityMap key2 - popularity popularityMap key1)
      (map_keys popularityMap) in
  Done (fold_left (addPopularIdent r) keyList identMap).

(** ** getSortedRegularDependencies *)

Fixpoint addDep (fuel : nat) (h : Heap) (node : HoisterWorkTree) (dep : addr)
    (st : JsSet addr * JsSet addr) : Outcome (JsSet addr * JsSet addr) :=
  match fuel with
  | O => Starved
  | S fuel =>
      if set_has dep st.1 then Done st
      else
        d <~ deref h dep ;;
        st' <~ foldO (peerNames d) (set_add dep st.1, st.2) (fun st peerName =>
                 if negb (set_has peerName (peerNames node)) then
                   match map_get peerName (dependencies node) with
                   | Some peerDep =>
                       if negb (set_has peerDep st.2)
                       then addDep fuel h node peerDep st
                       else Done st
                   | None => Done st
                   end
                 else Done st) ;;
        Done (st'.1, set_add dep st'.2)
  end.

(** The pair threaded through [addDep] is ([seenDeps], [dependencies]);
    each top-level call starts from a new [seenDeps]. *)
Definition getSortedRegularDependencies (fuel : nat) (h : Heap) (node : addr)
  : Outcome (JsSet addr) :=
  n <~ deref h node ;;
  foldO (map_values (dependencies n)) [] (fun deps dep =>
    d <~ deref h dep ;;
    if negb (set_has (name d) (peerNames n)) then
      st <~ addDep fuel h n dep ([], deps) ;;
      Done st.2
    else Done deps).

(** ** decoupleGraphNode *)

(** The clone: new sets and maps with the contents of those of [n]. *)
Definition cloneNode (n : HoisterWorkTree) : HoisterWorkTree :=
  {| name := name n;
     references := set_of_list (references n);
     ident := ident n;
     locator := locator n;
     dependencies := map_copy (dependencies n);
     originalDependencies := map_copy (originalDependencies n);
     hoistedDependencies := map_copy (hoistedDependencies n);
     peerNames := set_of_list (peerNames n);
     decoupled := true;
     reasons := map_copy (reasons n) |}.

Definition decoupleGraphNode (parent node : addr) : M Heap addr :=
  n <- read node ;;
  if decoupled n then ret node
  else
    clone <- alloc (cloneNode n) ;;
    match map_get (name n) (map_copy (dependencies n)) with
    | Some selfDep =>
        s <- read selfDep ;;
        if bool_decide (ident s = ident n)
        then modify clone (fun c => with_dependencies (map_set (name n) clone (dependencies c)) c)
        else ret tt
    | None => ret tt
    end ;;
    modify parent (fun p => with_dependencies (map_set (name n) clone (dependencies p)) p) ;;
    ret clone.

(** ** getNodeHoistInfo *)

(** Truthiness of a [string | undefined]. *)
Definition truthy (s : option string) : bool :=
  match s with
  | Some s => negb (bool_decide (s = ""%string))
  | None => false
  end.

(** The walk over the ancestors strictly between the root and the direct
    parent ([idx] from 1 to [nodePath.length - 2]): the first one that holds
    another version under the node's name. *)
Fixpoint shadowingParent (h : Heap) (n : HoisterWorkTree) (parents : list addr)
  : Outcome (option (HoisterWorkTree * HoisterWorkTree)) :=
  match parents with
  | [] => Done None
  | parent :: rest =>
      p <~ deref h parent ;;
      match map_get (name n) (dependencies p) with
      | Some parentDep =>
          pd <~ deref h parentDep ;;
          if negb (bool_decide (ident pd = ident n)) then Done (Some (pd, p))
          else shadowingParent h n rest
      | None => shadowingParent h n rest
      end
  end.

(** The state of the peer dependency check. *)
Record PeerCheck := mkPeerCheck {
  checkList : JsSet PackageName;
  dependsOn : option (JsSet addr);
  arePeerDepsSatisfied : bool;
  peerReason : option Reason;
  broken : bool
}.

(** One name of [checkList] against one [parent] of the path. *)
Definition checkPeerName (h : Heap) (reasonRoot : list Locator) (outputReason : bool)
    (isDirectParent : bool) (p : HoisterWorkTree) (st : PeerCheck)
    (name_ : PackageName) : Outcome PeerCheck :=
  if broken st then Done st
  else if set_has name_ (peerNames p) && map_has name_ (originalDependencies p)
  then Done st
  else
    match map_get name_ (dependencies p) with
    | Some parentDepNode =>
        if isDirectParent then
          Done (mkPeerCheck (set_delete name_ (checkList st))
                  (set_add parentDepNode <$> dependsOn st)
                  false (peerReason st) false)
        else
          reason <~ (if outputReason then
                       pd <~ deref h parentDepNode ;;
                       Done (Some (PeerNotHoisted (locator pd) (locator p) reasonRoot))
                     else Done (peerReason st)) ;;
          Done (mkPeerCheck (checkList st) None false reason true)
    | None =>
        Done (mkPeerCheck (set_delete name_ (checkList st)) (dependsOn st)
                (arePeerDepsSatisfied st) (peerReason st) false)
    end.

(** The walk from the direct parent up to the first node under the root
    ([idx] from [nodePath.length - 1] down to 1). *)
Fixpoint checkPeers (h : Heap) (reasonRoot : list Locator) (outputReason : bool)
    (isDirectParent : bool) (parents : list addr) (st : PeerCheck) : Outcome PeerCheck :=
  match parents with
  | [] => Done st
  | parent :: rest =>
      p <~ deref h parent ;;
      st <~ foldO (checkList st) st
              (checkPeerName h reasonRoot outputReason isDirectParent p) ;;
      if negb (arePeerDepsSatisfied st) then Done st
      else checkPeers h reasonRoot outputReason false rest st
  end.

Definition getNodeHoistInfo (h : Heap) (rootNodePath : JsSet Locator)
    (nodePath : list addr) (node : addr)
    (hoistedDependencies_ : JsMap PackageName addr)
    (hoistIdents : JsMap PackageName (option Ident))
    (hoistIdentMap : JsMap PackageName (list Ident))
    (outputReason : bool) : Outcome HoistInfo :=
  let reasonRoot := rootNodePath in
  match last nodePath with
  | None => Thrown TypeError
  | Some parentAddr =>
      parentNode <~ deref h parentAddr ;;
      n <~ deref h node ;;
      let isSelfReference := bool_decide (ident n = ident parentNode) in
      let hoistedIdent := mjoin (map_get (name n) hoistIdents) in
      let isHoistable :=
        bool_decide (hoistedIdent = Some (ident n)) && negb isSelfReference in
      reason <~ (if outputReason && negb isHoistable && truthy hoistedIdent then
                   match map_get (name n) hoistIdentMap with
                   | Some (filler :: _) => Done (Some (FilledByIdent filler reasonRoot))
                   | _ => Thrown TypeError
                   end
                 else Done None) ;;
      (* is the name free at the root and on the way up? *)
      avail <~ (if isHoistable then
                  r1 <~ match map_get (name n) hoistedDependencies_ with
                        | None => Done (true, reason)
                        | Some hoistedDep =>
                            hd <~ deref h hoistedDep ;;
                            if bool_decide (ident hd = ident n) then Done (true, reason)
                            else Done (false,
                                       if outputReason
                                       then Some (FilledByHoisted (locator hd) reasonRoot)
                                       else reason)
                        end ;;
                  if r1.1 then
                    sh <~ shadowingParent h n (removelast (tail nodePath)) ;;
                    match sh with
                    | Some (pd, p) =>
                        Done (false,
                              if outputReason
                              then Some (FilledByParent (locator pd) (locator p))
                              else r1.2)
                    | None => Done r1
                    end
                  else Done r1
                else Done (isHoistable, reason)) ;;
      let isHoistable := avail.1 in
      let reason := avail.2 in
      (* do the peer dependencies follow? *)
      pc <~ (if isHoistable then
               checkPeers h reasonRoot outputReason true (rev (tail nodePath))
                 (mkPeerCheck (set_of_list (peerNames n)) (Some []) true reason false)
             else Done (mkPeerCheck [] (Some []) false reason false)) ;;
      let isHoistable := isHoistable && arePeerDepsSatisfied pc in
      match dependsOn pc with
      | Some (d :: ds) => Done (DEPENDS (d :: ds))
      | _ => Done (if isHoistable then YES else NO (peerReason pc))
      end
  end.

(** ** selfCheck *)

Record CheckState := mkCheckState {
  log : list CheckIssue;
  seenChecked : JsSet addr;
  parents : JsSet addr
}.

Definition locatorsOf (h : Heap) (l : list addr) : Outcome (list Locator) :=
  foldO l [] (fun acc a => n <~ deref h a ;; Done (acc ++ [locator n])).

(** The check of one original dependency of [node]. *)
Definition checkOrigDep (h : Heap) (node : addr) (n : HoisterWorkTree)
    (parentDeps dependencies_ : JsMap PackageName addr)
    (st : CheckState) (origDep : addr) : Outcome CheckState :=
  od <~ deref h origDep ;;
  let dep := map_get (name od) dependencies_ in
  treePath <~ locatorsOf h (parents st ++ [node]) ;;
  if set_has (name od) (peerNames n) then
    let parentDep := map_get (name od) parentDeps in
    if negb (bool_decide (parentDep = dep)) then
      match dep with
      | None => Thrown TypeError
      | Some dep =>
          d <~ deref h dep ;;
          found <~ match parentDep with
                   | Some pd => x <~ deref h pd ;; Done (Some (locator x))
                   | None => Done None
                   end ;;
          Done (mkCheckState
                  (log st ++ [BrokenPeerPromise treePath (Some (locator d)) found])
                  (seenChecked st) (parents st))
      end
    else Done st
  else
    match dep with
    | None =>
        Done (mkCheckState (log st ++ [MissingRequire treePath (locator od)])
                (seenChecked st) (parents st))
    | Some dep =>
        d <~ deref h dep ;;
        if negb (bool_decide (ident d = ident od)) then
          Done (mkCheckState
                  (log st ++ [BrokenRequire treePath (name od) (ident od) (ident d)])
                  (seenChecked st) (parents st))
        else Done st
    end.

Fixpoint checkNode (fuel : nat) (h : Heap) (node : addr)
    (parentDeps : JsMap PackageName addr) (st : CheckState) : Outcome CheckState :=
  match fuel with
  | O => Starved
  | S fuel =>
      if set_has node (seenChecked st) then Done st
      else
        let st := mkCheckState (log st) (set_add node (seenChecked st)) (parents st) in
        if set_has node (parents st) then Done st
        else
          n <~ deref h node ;;
          dependencies_ <~ foldO (map_values (dependencies n)) (map_copy parentDeps)
                             (fun m dep =>
                                d <~ deref h dep ;;
                                if negb (set_has (name d) (peerNames n))
                                then Done (map_set (name d) dep m)
                                else Done m) ;;
          st <~ foldO (map_values (originalDependencies n)) st
                  (checkOrigDep h node n parentDeps dependencies_) ;;
          let st := mkCheckState (log st) (seenChecked st) (set_add node (parents st)) in
          st <~ foldO (map_values (dependencies n)) st (fun st dep =>
                  d <~ deref h dep ;;
                  if negb (set_has (name d) (peerNames n))
                  then checkNode fuel h dep dependencies_ st
                  else Done st) ;;
          Done (mkCheckState (log st) (seenChecked st) (set_delete node (parents st)))
  end.

(** The log; the source joins its lines into one string, which is empty
    exactly when the log is. *)
Definition selfCheck (fuel : nat) (h : Heap) (tree : addr) : Outcome (list CheckIssue) :=
  t <~ deref h tree ;;
  st <~ checkNode fuel h tree (dependencies t) (mkCheckState [] [] []) ;;
  Done (log st).

(** ** dumpDepTree *)

Definition MAX_NODES_TO_DUMP : Z := 50000.

(** The nested [dumpPackage].  The pair it returns is its text and
    [nodeCount], which the source keeps in a variable; [parents] is what
    the set holds during the call: [pkg] is added before the loop and
    deleted after it. *)
Fixpoint dumpPackage (fuel : nat) (h : Heap) (pkg : addr) (parents : JsSet addr)
    (prefix : list bool) (nodeCount : Z) : Outcome (list DumpLine * Z) :=
  match fuel with
  | O => Starved
  | S fuel =>
      if (MAX_NODES_TO_DUMP <? nodeCount) || set_has pkg parents then Done ([], nodeCount)
      else
        p <~ deref h pkg ;;
        let dependencies_ := map_values (dependencies p) in
        let parents := set_add pkg parents in
        foldO (imap pair dependencies_) ([], nodeCount + 1) (fun st entry =>
          let idx := entry.1 in
          d <~ deref h entry.2 ;;
          if negb (set_has (name d) (peerNames p)) then
            let reason := mjoin (map_get (name d) (reasons p)) in
            let identName := getIdentName (locator d) in
            let more := (S idx <? length dependencies_)%nat in
            let line :=
              mkDumpLine prefix (negb more) (set_has entry.2 parents)
                (if bool_decide (identName = name d) then None else Some (name d))
                (locator d) reason in
            sub <~ dumpPackage fuel h entry.2 parents (prefix ++ [more]) st.2 ;;
            Done (st.1 ++ line :: sub.1, sub.2)
          else Done st)
  end.

Definition dumpDepTree (fuel : nat) (h : Heap) (tree : addr) : Outcome TreeDump :=
  st <~ dumpPackage fuel h tree [] [] 0 ;;
  Done (mkTreeDump st.1 (MAX_NODES_TO_DUMP <? st.2)).

(** ** Options *)

(** A debug level: an integer, or [NaN] (what [Number] makes of a string
    that is no number). *)
Inductive JsNumber :=
| Num (z : Z)
| NaN.

Definition num_ge (n : JsNumber) (k : Z) : bool :=
  match n with
  | Num z => k <=? z
  | NaN => false
  end.

Definition num_truthy (n : JsNumber) : bool :=
  match n with
  | Num z => negb (z =? 0)
  | NaN => false
  end.

Record HoistOptions := mkHoistOptions {
  opt_check : option bool;
  opt_debugLevel : option JsNumber
}.

Record InternalHoistOptions := mkInternalHoistOptions {
  check : bool;
  debugLevel : JsNumber
}.

(** [throw new Error(...)] with the log of a failed check, the nodes the
    message names and the tree dump. *)
Definition failCheck {A} (fuel : nat) (h : Heap) (tree : addr) (checkLog : list CheckIssue)
    (after : option (list addr)) : M Heap A :=
  after <- match after with
           | Some path => path <- lift (locatorsOf h path) ;; ret (Some path)
           | None => ret None
           end ;;
  dump <- lift (dumpDepTree fuel h tree) ;;
  throw (CheckFailed checkLog after dump).

(** ** hoistGraph *)

(** What [hoistNodeDependencies] does to the parent of a node it hoists. *)
Definition markHoisted (depName : PackageName) (node : addr) (p : HoisterWorkTree)
  : HoisterWorkTree :=
  with_reasons (map_delete depName (reasons p))
    (with_hoistedDependencies (map_set depName node (hoistedDependencies p))
       (with_dependencies (map_delete depName (dependencies p)) p)).

Abbreviation HoistInfos := (JsMap addr HoistInfo) (only parsing).
Abbreviation DependantTree := (JsMap PackageName (JsSet PackageName)) (only parsing).

Section HoistGraph.
Variables (tree rootNode : addr) (rootNodePath : JsSet Locator).
Variable hoistedDependencies_ : JsMap PackageName addr.
Variable hoistIdents : JsMap PackageName (option Ident).
Variable hoistIdentMap : JsMap PackageName (list Ident).
Variable options : InternalHoistOptions.

(** The first loop of [hoistNodeDependencies]: the hoist info of every
    regular dependency of [parentNode], and who waits for whom. *)
Definition classifyDependencies (fuel : nat) (h : Heap) (nodePath : list addr)
    (parentNode : addr) : Outcome (HoistInfos * DependantTree) :=
  sorted <~ getSortedRegularDependencies fuel h parentNode ;;
  foldO sorted ([], []) (fun st subDependency =>
    hoistInfo <~ getNodeHoistInfo h rootNodePath (nodePath ++ [parentNode])
                   subDependency hoistedDependencies_ hoistIdents hoistIdentMap
                   (num_ge (debugLevel options) 2) ;;
    let hoistInfos := map_set subDependency hoistInfo st.1 in
    match hoistInfo with
    | DEPENDS dependsOn_ =>
        dependantTree <~ foldO dependsOn_ st.2 (fun dt node =>
                           nd <~ deref h node ;;
                           sd <~ deref h subDependency ;;
                           let nodeDependants := default [] (map_get (name nd) dt) in
                           Done (map_set (name nd) (set_add (name sd) nodeDependants) dt)) ;;
        Done (hoistInfos, dependantTree)
    | _ => Done (hoistInfos, st.2)
    end).

(** The pair threaded through is ([unhoistableNodes], [hoistInfos]). *)
Fixpoint addUnhoistableNode (fuel : nat) (h : Heap) (p : HoisterWorkTree)
    (dependantTree : DependantTree) (node : addr) (hoistInfo : HoistInfo)
    (st : JsSet addr * HoistInfos) : Outcome (JsSet addr * HoistInfos) :=
  match fuel with
  | O => Starved
  | S fuel =>
      if negb (set_has node st.1) then
        nd <~ deref h node ;;
        foldO (default [] (map_get (name nd) dependantTree))
          (set_add node st.1, map_set node hoistInfo st.2)
          (fun st dependantName =>
             match map_get dependantName (dependencies p) with
             | Some dependant =>
                 addUnhoistableNode fuel h p dependantTree dependant hoistInfo st
             | None => Thrown TypeError
             end)
      else Done st
  end.

(** The loop over [hoistInfos]: an entry is read when the loop reaches
    it; entries the loop body appends are of nodes already marked, for
    which the body does nothing. *)
Definition collectUnhoistable (fuel : nat) (h : Heap) (parentNode : addr)
    (hoistInfos : HoistInfos) (dependantTree : DependantTree)
  : Outcome (JsSet addr * HoistInfos) :=
  p <~ deref h parentNode ;;
  foldO (map_keys hoistInfos) ([], hoistInfos) (fun st node =>
    match map_get node st.2 with
    | Some (NO reason) => addUnhoistableNode fuel h p dependantTree node (NO reason) st
    | _ => Done st
    end).

(** The move of one hoistable node from [parentNode] to the root. *)
Definition hoistNode (parentNode : addr) (nextNewNodes : JsSet addr) (node : addr)
  : M Heap (JsSet addr) :=
  nd <- read node ;;
  modify parentNode (markHoisted (name nd) node) ;;
  r <- read rootNode ;;
  match map_get (name nd) (dependencies r) with
  | None =>
      if negb (bool_decide (ident r = ident nd)) then
        modify rootNode (fun r =>
          with_dependencies (map_set (name nd) node (dependencies r)) r) ;;
        ret (set_add node nextNewNodes)
      else ret nextNewNodes
  | Some hoistedNode =>
      nd <- read node ;;
      modify hoistedNode (fun hn =>
        with_references
          (fold_left (fun refs reference => set_add reference refs)
             (references nd) (references hn)) hn) ;;
      ret nextNewNodes
  end.

Definition runSelfCheck (fuel : nat) (nodePath : list addr) (parentNode : addr)
  : M Heap unit :=
  if check options then
    h <- get_st ;;
    checkLog <- lift (selfCheck fuel h tree) ;;
    match checkLog with
    | [] => ret tt
    | _ => failCheck fuel h tree checkLog (Some (rootNode :: nodePath ++ [parentNode]))
    end
  else ret tt.

(** The pair threaded through is ([seenNodes], [nextNewNodes]): every
    call passes the current [nextNewNodes] as [newNodes]. *)
Fixpoint hoistNodeDependencies (fuel : nat) (nodePath : list addr)
    (locatorPath : list Locator) (parentNode : addr)
    (st : JsSet addr * JsSet addr) : M Heap (JsSet addr * JsSet addr) :=
  match fuel with
  | O => starve
  | S fuel =>
      if set_has parentNode st.1 then ret st
      else
        h <- get_st ;;
        infos <- lift (classifyDependencies fuel h nodePath parentNode) ;;
        un <- lift (collectUnhoistable fuel h parentNode infos.1 infos.2) ;;
        let unhoistableNodes := un.1 in
        let hoistInfos := un.2 in
        nextNewNodes <- foldM (map_keys hoistInfos) st.2 (fun next node =>
                          if negb (set_has node unhoistableNodes)
                          then hoistNode parentNode next node
                          else ret next) ;;
        runSelfCheck fuel nodePath parentNode ;;
        h <- get_st ;;
        children <- lift (getSortedRegularDependencies fuel h parentNode) ;;
        foldM children (st.1, nextNewNodes) (fun st node =>
          if set_has node unhoistableNodes then
            nd <- read node ;;
            if negb (bool_decide (locator nd ∈ locatorPath)) then
              match map_get node hoistInfos with
              | None => throw TypeError
              | Some hoistInfo =>
                  match hoistInfo with
                  | NO reason =>
                      modify parentNode (fun p =>
                        with_reasons (map_set (name nd) reason (reasons p)) p)
                  | _ => ret tt
                  end ;;
                  let seenNodes := set_add parentNode st.1 in
                  decoupledNode <- decoupleGraphNode parentNode node ;;
                  p <- read parentNode ;;
                  st' <- hoistNodeDependencies fuel (nodePath ++ [parentNode])
                           (locatorPath ++ [locator p]) decoupledNode
                           (seenNodes, st.2) ;;
                  ret (set_delete parentNode st'.1, st'.2)
              end
            else ret st
          else ret st)
  end.

(** One round of the do-while loop: every node of [newNodes] is
    decoupled from the root and its dependencies are hoisted. *)
Definition hoistNewNodes (fuel : nat) (newNodes : JsSet addr) (seenNodes : JsSet addr)
  : M Heap (JsSet addr * JsSet addr) :=
  foldM newNodes (seenNodes, []) (fun st dep =>
    d <- read dep ;;
    r <- read rootNode ;;
    if bool_decide (locator d = locator r) then ret st
    else
      decoupledDependency <- decoupleGraphNode rootNode dep ;;
      r <- read rootNode ;;
      hoistNodeDependencies fuel [rootNode] [locator r] decoupledDependency st).

Fixpoint hoistGraphLoop (fuel : nat) (nextNewNodes : JsSet addr) (seenNodes : JsSet addr)
  : M Heap unit :=
  match fuel with
  | O => starve
  | S fuel =>
      st <- hoistNewNodes fuel nextNewNodes seenNodes ;;
      match st.2 with
      | [] => ret tt
      | _ => hoistGraphLoop fuel st.2 st.1
      end
  end.

Definition hoistGraph (fuel : nat) : M Heap unit :=
  h <- get_st ;;
  sorted <- lift (getSortedRegularDependencies fuel h rootNode) ;;
  hoistGraphLoop fuel (set_of_list sorted) [].

End HoistGraph.

(** ** hoistTo *)

(** The candidate lists and the candidate in force for each name. *)
Record Candidates := mkCandidates {
  c_hoistIdents : JsMap PackageName (option Ident);
  c_hoistIdentMap : JsMap PackageName (list Ident);
  wasStateChanged : bool
}.

(** The body of the loop over [hoistIdentMap] after a pass: a name whose
    candidate did not reach the root gets its next candidate. *)
Definition nextCandidate (r : HoisterWorkTree) (c : Candidates) (name_ : PackageName)
  : Candidates :=
  match map_get name_ (c_hoistIdentMap c) with
  | Some idents =>
      if (1 <? length idents)%nat && negb (map_has name_ (dependencies r)) then
        mkCandidates
          (map_set name_ (head (tail idents)) (map_delete name_ (c_hoistIdents c)))
          (map_set name_ (tail idents) (c_hoistIdentMap c))
          true
      else c
  | None => c
  end.

Fixpoint hoistToLoop (fuel : nat) (tree rootNode : addr) (rootNodePath : JsSet Locator)
    (hoistedDependencies_ : JsMap PackageName addr) (c : Candidates)
    (options : InternalHoistOptions) : M Heap unit :=
  match fuel with
  | O => starve
  | S fuel =>
      hoistGraph tree rootNode rootNodePath hoistedDependencies_
        (c_hoistIdents c) (c_hoistIdentMap c) options fuel ;;
      r <- read rootNode ;;
      let c := fold_left (nextCandidate r) (map_keys (c_hoistIdentMap c))
                 (mkCandidates (c_hoistIdents c) (c_hoistIdentMap c) false) in
      if wasStateChanged c
      then hoistToLoop fuel tree rootNode rootNodePath hoistedDependencies_ c options
      else ret tt
  end.

(** [new Map(Array.from(hoistIdentMap.entries()).map(([k, v]) => [k, v[0]]))] *)
Definition headIdents (hoistIdentMap : JsMap PackageName (list Ident))
  : JsMap PackageName (option Ident) :=
  map_of_entries ((fun kv => (kv.1, head kv.2)) <$> map_entries hoistIdentMap).

(** [hoistTo] and its last loop, which runs over the live
    [rootNode.dependencies] (position [i] of its entry list) while the
    nested calls write to the tree.  The result is [rootNodePath], which
    the source updates in place. *)
Fixpoint hoistTo (fuel : nat) (tree rootNode : addr) (rootNodePath : JsSet Locator)
    (options : InternalHoistOptions) (seenNodes : JsSet addr) {struct fuel}
  : M Heap (JsSet Locator) :=
  match fuel with
  | O => starve
  | S fuel =>
      if set_has rootNode seenNodes then ret rootNodePath
      else
        (* [seenNodes.add(rootNode)]: the set is not read again *)
        h <- get_st ;;
        popularityMap <- lift (buildPopularityMap fuel h rootNode) ;;
        hoistIdentMap <- lift (getHoistIdentMap h rootNode popularityMap) ;;
        let hoistIdents := headIdents hoistIdentMap in
        hoistedDependencies_ <- (if bool_decide (rootNode = tree) then ret []
                                 else lift (getHoistedDependencies fuel h rootNode)) ;;
        hoistToLoop fuel tree rootNode rootNodePath hoistedDependencies_
          (mkCandidates hoistIdents hoistIdentMap false) options ;;
        hoistSubRoots fuel tree rootNode 0 rootNodePath options
  end
with hoistSubRoots (fuel : nat) (tree rootNode : addr) (i : nat)
    (rootNodePath : JsSet Locator) (options : InternalHoistOptions) {struct fuel}
  : M Heap (JsSet Locator) :=
  match fuel with
  | O => starve
  | S fuel =>
      r <- read rootNode ;;
      match dependencies r !! i with
      | None => ret rootNodePath
      | Some None => hoistSubRoots fuel tree rootNode (S i) rootNodePath options
      | Some (Some (_, dependency)) =>
          d <- read dependency ;;
          if negb (set_has (name d) (peerNames r))
             && negb (set_has (locator d) rootNodePath)
          then
            rootNodePath <- hoistTo fuel tree dependency
                              (set_add (locator d) rootNodePath) options [] ;;
            hoistSubRoots fuel tree rootNode (S i)
              (set_delete (locator d) rootNodePath) options
          else hoistSubRoots fuel tree rootNode (S i) rootNodePath options
      end
  end.

(** ** shrinkTree *)

Abbreviation Results := (list HoisterResult) (only parsing).

Definition addResultDependency (parentNode resultNode : addr) : M Results unit :=
  fun rs => match rs !! parentNode with
            | Some p =>
                Returned tt (<[parentNode :=
                               mkResult (r_name p) (r_identName p) (r_references p)
                                 (set_add resultNode (r_dependencies p))]> rs)
            | None => Raised Dangling rs
            end.

Definition allocResult (r : HoisterResult) : M Results addr :=
  fun rs => Returned (length rs) (rs ++ [r]).

(** The nested [addNode] of [shrinkTree]; the set threaded through is
    [seenNodes]. *)
Fixpoint addResultNode (fuel : nat) (h : Heap) (node parentWorkNode parentNode : addr)
    (seenNodes : JsSet addr) : M Results (JsSet addr) :=
  match fuel with
  | O => starve
  | S fuel =>
      let isSeen := set_has node seenNodes in
      n <- lift (deref h node) ;;
      resultNode <- (if bool_decide (parentWorkNode = node) then ret parentNode
                     else allocResult (mkResult (name n) (getIdentName (locator n))
                                         (references n) [])) ;;
      addResultDependency parentNode resultNode ;;
      if negb isSeen then
        seenNodes <- foldM (map_values (dependencies n)) (set_add node seenNodes)
                       (fun seen dep =>
                          d <- lift (deref h dep) ;;
                          if negb (set_has (name d) (peerNames n))
                          then addResultNode fuel h dep node resultNode seen
                          else ret seen) ;;
        ret (set_delete node seenNodes)
      else ret seenNodes
  end.

(** The output tree: its root is the first cell of the store. *)
Definition shrinkTree (fuel : nat) (h : Heap) (tree : addr) : Outcome Results :=
  t <~ deref h tree ;;
  let treeCopy := mkResult (name t) (getIdentName (locator t))
                    (set_of_list (references t)) [] in
  match foldM (map_values (dependencies t)) [tree] (fun seen dep =>
                 addResultNode fuel h dep tree 0%nat seen) [treeCopy] with
  | Returned _ rs => Done rs
  | Raised e _ => Thrown e
  | Exhausted => Starved
  end.

(** ** hoist *)

Inductive ConsoleEvent :=
| ConsoleTime
| ConsoleTimeEnd
| ConsoleLog (dump : TreeDump).

(** [opts.debugLevel || Number(process.env.NM_DEBUG_LEVEL || -1)]; [env] is
    the value of the environment variable and [toNumber] is [Number] on
    strings. *)
Definition effectiveDebugLevel (toNumber : string -> JsNumber)
    (env : option string) (opts : HoistOptions) : JsNumber :=
  let fromEnv :=
    if truthy env then toNumber (default ""%string env) else Num (-1) in
  match opt_debugLevel opts with
  | Some level => if num_truthy level then level else fromEnv
  | None => fromEnv
  end.

Definition internalOptions (toNumber : string -> JsNumber)
    (env : option string) (opts : HoistOptions) : InternalHoistOptions :=
  let debugLevel := effectiveDebugLevel toNumber env opts in
  mkInternalHoistOptions (default false (opt_check opts) || num_ge debugLevel 9)
    debugLevel.

Record HoistReturn := mkHoistReturn {
  result : Results;
  console : list ConsoleEvent
}.

(** The events on the console are kept with the result. *)
Definition hoist (fuel : nat) (toNumber : string -> JsNumber) (env : option string)
    (tree : addr) (opts : HoistOptions) : M World HoistReturn :=
  let options := internalOptions toNumber env opts in
  let out := if num_ge (debugLevel options) 0 then [ConsoleTime] else [] in
  treeCopy <- cloneTree fuel tree ;;
  onHeap (t <- read treeCopy ;;
          hoistTo fuel treeCopy treeCopy [locator t] options []) ;;
  let out := if num_ge (debugLevel options) 0 then out ++ [ConsoleTimeEnd] else out in
  (if num_ge (debugLevel options) 1 then
     onHeap (h <- get_st ;;
             checkLog <- lift (selfCheck fuel h treeCopy) ;;
             match checkLog with
             | [] => ret tt
             | _ => failCheck fuel h treeCopy checkLog None
             end)
   else ret tt) ;;
  out <- (if num_ge (debugLevel options) 2 then
            onHeap (h <- get_st ;;
                    dump <- lift (dumpDepTree fuel h treeCopy) ;;
                    ret (out ++ [ConsoleLog dump]))
          else ret out) ;;
  w <- get_st ;;
  rs <- lift (shrinkTree fuel (heap w) treeCopy) ;;
  ret (mkHoistReturn rs out).

(** ** Resolution of a required name

    What [require(name)] finds from a node installed at the end of a path
    of the tree: the node's own dependency of that name, or else that of
    the nearest ancestor that has one.  [path] lists the node first and
    the root last. *)
Fixpoint resolve (h : Heap) (name_ : PackageName) (path : list addr) : option addr :=
  match path with
  | [] => None
  | node :: ancestors =>
      match h !! node with
      | Some n =>
          match map_get name_ (dependencies n) with
          | Some dep => Some dep
          | None => resolve h name_ ancestors
          end
      | None => None
      end
  end.

(** ** Inputs of the scenarios *)

Module Scenarios.
Local Open Scope string_scope.

Definition pkg (name_ reference_ : string) (deps : list addr) (peers : list string)
  : HoisterTree :=
  mkHoisterTree name_ name_ reference_ deps peers.

Definition noNumber (_ : string) : JsNumber := NaN.
Definition noOptions : HoistOptions := mkHoistOptions None None.
Definition withDebugLevel (z : Z) : HoistOptions := mkHoistOptions None (Some (Num z)).

(** [. -> a@1] *)
Definition singleDep : list HoisterTree :=
  [pkg "." "workspace:." [1%nat] []; pkg "a" "1" [] []].

(** S5: [. -> {a@1, b@1}], a and b peer depend on each other *)
Definition cyclicPeers : list HoisterTree :=
  [pkg "." "workspace:." [1; 2]%nat [];
   pkg "a" "1" [2%nat] ["b"];
   pkg "b" "1" [1%nat] ["a"]].

(** [. -> a@1 -> .]: a package that requires the root workspace *)
Definition rootCycle : list HoisterTree :=
  [pkg "." "workspace:." [1%nat] []; pkg "a" "1" [0%nat] []].

(** [. -> {x@1, a@1 -> x@2}]: the root holds another version of x *)
Definition pinnedName : list HoisterTree :=
  [pkg "." "workspace:." [1; 2]%nat [];
   pkg "x" "1" [] [];
   pkg "a" "1" [3%nat] [];
   pkg "x" "2" [] []].

(** [. -> c@1 -> .] where the root lists its own name as a peer name *)
Definition selfPeerRoot : list HoisterTree :=
  [pkg "." "workspace:." [1%nat] ["."]; pkg "c" "1" [0%nat] []].

(** [. -> a@1 -> p@1] where the root has the peer name p *)
Definition rootWithPeer : list HoisterTree :=
  [pkg "." "workspace:." [1%nat] ["p"]; pkg "a" "1" [2%nat] []; pkg "p" "1" [] []].

(** The work tree [cloneTree] builds for an input. *)
Definition workTree (ts : list HoisterTree) : Outcome Heap :=
  match cloneTree 20 0%nat (mkWorld ts []) with
  | Returned _ w => Done (heap w)
  | Raised e _ => Thrown e
  | Exhausted => Starved
  end.

End Scenarios.

(** ** Well-formed nodes and the order of regular dependencies *)

(** Every dependency of [n] is a node of the heap stored under its own
    name, and no name is stored twice. *)
Definition deps_named (h : Heap) (n : HoisterWorkTree) : bool :=
  forallb (fun kd => match h !! kd.2 with
                     | Some d => bool_decide (name d = kd.1)
                     | None => false
                     end)
    (map_entries (dependencies n))
  && bool_decide (NoDup (map_keys (dependencies n))).

(** A direct dependency of [n] that is not one of its peer dependencies. *)
Definition regularDep (h : Heap) (n : HoisterWorkTree) (x : addr) : Prop :=
  exists d, x ∈ map_values (dependencies n) /\ h !! x = Some d
            /\ name d ∉ peerNames n.

(** [P] comes before [D] in the iteration order of [l]. *)
Definition before (l : list addr) (P D : addr) : Prop :=
  exists i j, l !! i = Some P /\ l !! j = Some D /\ (i < j)%nat.

(** Dependency [D] of [n] has a peer name under which [n] holds [P],
    and which is not a peer name of [n] itself. *)
Definition peerEdge (h : Heap) (n : HoisterWorkTree) (D P : addr) : Prop :=
  exists d q, h !! D = Some d /\ q ∈ peerNames d /\ (q ∉ peerNames n)
              /\ map_get q (dependencies n) = Some P.

(** [D] peer depends on [P] directly or through other dependencies of [n]. *)
Definition peerPath (h : Heap) (n : HoisterWorkTree) : addr -> addr -> Prop :=
  rtc (peerEdge h n).

(** The order C6 states: a returned dependency comes after every other
    returned dependency whose name is one of its peer names. *)
Definition peersFirst (h : Heap) (sorted : list addr) : Prop :=
  forall D P d p,
    D ∈ sorted -> P ∈ sorted -> P ≠ D ->
    h !! D = Some d -> h !! P = Some p -> name p ∈ peerNames d ->
    before sorted P D.

(** The same, but for the peer dependencies that depend back. *)
Definition peersFirstUpToCycles (h : Heap) (n : HoisterWorkTree) (sorted : list addr) : Prop :=
  forall D P d p,
    D ∈ sorted -> P ∈ sorted -> P ≠ D ->
    h !! D = Some d -> h !! P = Some p -> name p ∈ peerNames d ->
    before sorted P D \/ peerPath h n P D.

(** ** The writes of hoisting

    Hoisting changes a work tree by four kinds of writes.  [root] is the
    node hoisted to. *)

Definition heap_ok (h : Heap) : bool := forallb (deps_named h) h.

(** The fields no write changes. *)
Definition sameNode (n n' : HoisterWorkTree) : Prop :=
  name n' = name n /\ ident n' = ident n /\ locator n' = locator n
  /\ peerNames n' = peerNames n
  /\ originalDependencies n' = originalDependencies n.

Inductive step (root : addr) : Heap -> Heap -> Prop :=
| step_other h x n n' :
    (* references, reasons, hoisted dependencies, the decoupled flag *)
    h !! x = Some n -> sameNode n n' -> dependencies n' = dependencies n ->
    step root h (<[x := n']> h)
| step_delete h x n n' k :
    (* a dependency leaves a node other than the root *)
    h !! x = Some n -> x ≠ root -> sameNode n n' ->
    dependencies n' = map_delete k (dependencies n) ->
    step root h (<[x := n']> h)
| step_set h x n k d nd :
    (* a node takes the place of a dependency, or the root gets a new
       regular dependency *)
    h !! x = Some n -> h !! d = Some nd -> name nd = k ->
    (map_has k (dependencies n) = true \/ (x = root /\ k ∉ peerNames n)) ->
    step root h (<[x := with_dependencies (map_set k d (dependencies n)) n]> h)
| step_alloc h a n :
    (* a node is cloned *)
    h !! a = Some n ->
    step root h (h ++ [cloneNode n]).

(** Writes of passes that hoist to roots satisfying [Q]. *)
Definition stepTo (Q : Heap -> addr -> Prop) (h h' : Heap) : Prop :=
  exists root, Q h root /\ step root h h'.

(** The number of names the node at [x] has dependencies under. *)
Definition keyCount (h : Heap) (x : addr) : nat :=
  match h !! x with
  | Some n => length (map_keys (dependencies n))
  | None => O
  end.

(** No node of [h] has in [h'] a dependency under one of its peer names
    that it did not have in [h]. *)
Definition noPeerGain (h h' : Heap) : Prop :=
  forall x n p,
    h !! x = Some n -> p ∈ peerNames n -> map_get p (dependencies n) = None ->
    exists n', h' !! x = Some n' /\ map_get p (dependencies n') = None.

(** [h'] has the nodes of [h], with the fields no write changes, and
    otherwise copies of them. *)
Record ext (h h' : Heap) : Prop := mkExt {
  ext_length : (length h <= length h')%nat;
  ext_keep : forall a n, h !! a = Some n -> exists n', h' !! a = Some n' /\ sameNode n n';
  ext_origin : forall a' n', h' !! a' = Some n' ->
               exists a n, h !! a = Some n /\ name n' = name n
                           /\ ident n' = ident n /\ locator n' = locator n
}.

(** ** The order within [getSortedRegularDependencies]

    What holds of the collection while it is built: a member comes after
    the dependencies it peer depends on, unless they depend back on it. *)
Definition Inv (h : Heap) (n : HoisterWorkTree) (deps : list addr) : Prop :=
  forall x P, x ∈ deps -> peerEdge h n x P -> P ≠ x ->
              before deps P x \/ peerPath h n P x.

(** The dependencies of [n] that a walk of [addDep] has not seen yet. *)
Definition unseen (n : HoisterWorkTree) (seen : JsSet addr) : nat :=
  length (filter (fun x => x ∉ seen) (remove_dups (map_values (dependencies n)))).

(** ** Notions the proofs use *)

Local Close Scope Z_scope.

(** The candidate lists of the peer names of the root: none, but for the
    root's own name, which keeps the list it starts with. *)
Definition peersUnlisted (r : HoisterWorkTree) (identMap : JsMap PackageName (list Ident)) : Prop :=
  forall p, p ∈ peerNames r ->
    map_get p identMap = (if decide (p = name r) then Some [ident r] else None).

(** The candidate in force for each name is the head of its list, and the
    peer names of the root have no list (but for the root's own name). *)
Definition candidates_ok (r : HoisterWorkTree) (c : Candidates) : Prop :=
  peersUnlisted r (c_hoistIdentMap c)
  /\ forall p, mjoin (map_get p (c_hoistIdents c)) = map_get p (c_hoistIdentMap c) ≫= head.

(** The node at [x] has a dependency under the name [k]. *)
Definition hasKey (h : list HoisterWorkTree) (x : nat) (k : string) : Prop :=
  exists n, h !! x = Some n /\ map_has k (dependencies n) = true.

(** The length of the entry list of the dependencies of the node at [x]. *)
Definition depsLength (h : list HoisterWorkTree) (x : nat) : option nat :=
  (fun n => length (dependencies n)) <$> h !! x.

Definition depsOf (h : list HoisterWorkTree) (x : nat) : option (list (option (string * nat))) :=
  dependencies <$> h !! x.

Definition isCandidate (h : list HoisterWorkTree)
    (hoistIdents : list (option (string * option string))) (node : nat) : Prop :=
  exists n, h !! node = Some n /\ mjoin (map_get (name n) hoistIdents) = Some (ident n).

Definition notNO (info : HoistInfo) : Prop := forall reason, info ≠ NO reason.

(** The candidate of a peer name of the root, if any, is the root. *)
Definition rootCandidates (r : HoisterWorkTree)
    (hoistIdents : list (option (string * option string))) : Prop :=
  forall q, q ∈ peerNames r ->
    mjoin (map_get q hoistIdents) = if decide (q = name r) then Some (ident r) else None.

(** The nodes that wait for a pass over them are regular dependencies of
    the root. *)
Definition regularNames (h : list HoisterWorkTree) (r : HoisterWorkTree) (l : list nat) : Prop :=
  forall x, x ∈ l -> exists nx, h !! x = Some nx /\ name nx ∉ peerNames r.

(** What a call of [hoistNodeDependencies] does to the tree and to the
    pair it threads. *)
Definition hoistPost (root : nat) (h : list HoisterWorkTree) (r : HoisterWorkTree)
    (st : list nat * list nat) (st' : list nat * list nat)
    (h' : list HoisterWorkTree) : Prop :=
  rtc (step root) h h'
  /\ st'.1 = st.1
  /\ (forall x, x ∈ st.1 -> depsOf h' x = depsOf h x)
  /\ (st'.2 = st.2 \/ (keyCount h root < keyCount h' root)%nat)
  /\ regularNames h' r st'.2.

(** The roots of the passes of [hoistTo] on [D] with path [path]: [D]
    itself, and then nodes whose locator is not on the path. *)
Definition rootOk (path : list string) (D : nat) (h : list HoisterWorkTree) (root : nat) : Prop :=
  root = D \/ exists n, h !! root = Some n /\ locator n ∉ path.

(** The heap keeps its nodes and their names. *)
Definition grows (h h' : list HoisterWorkTree) : Prop :=
  (length h <= length h')%nat
  /\ forall a n, h !! a = Some n -> exists n', h' !! a = Some n' /\ name n' = name n.

(** Every input node seen so far has its work node, of the same name. *)
Definition seenOk (w : World) (seenNodes : list (option (nat * nat))) : Prop :=
  forall i a, map_get i seenNodes = Some a ->
    exists t n, inputs w !! i = Some t /\ heap w !! a = Some n /\ name n = t_name t.

Definition childNames (rs : list HoisterResult) (n : HoisterResult) : list (option string) :=
  (fun c => r_name <$> rs !! c) <$> r_dependencies n.

(** In the output, the children of a node are nodes of the output and no
    two of them have the same name. *)
Definition namesUnique (rs : list HoisterResult) : Prop :=
  forall a n, rs !! a = Some n ->
    NoDup (childNames rs n) /\ forall c, c ∈ r_dependencies n -> is_Some (rs !! c).

Definition nodeOk (rs : list HoisterResult) (n : HoisterResult) : Prop :=
  NoDup (childNames rs n) /\ forall c, c ∈ r_dependencies n -> (c < length rs)%nat.

Definition rgrows (rs rs' : list HoisterResult) : Prop :=
  (length rs <= length rs')%nat
  /\ forall a n, rs !! a = Some n -> exists n', rs' !! a = Some n' /\ r_name n' = r_name n.

(** What a call of the nested [addNode] of [shrinkTree] for the
    dependency [node] does to the output store. *)
Definition addedChild (h : list HoisterWorkTree) (node pn : nat)
    (rs rs' : list HoisterResult) : Prop :=
  exists nd c p p',
    h !! node = Some nd
    /\ rgrows rs rs'
    /\ (forall a n, rs !! a = Some n -> a ≠ pn -> rs' !! a = Some n)
    /\ rs !! pn = Some p /\ rs' !! pn = Some p'
    /\ r_dependencies p' = set_add c (r_dependencies p)
    /\ (c < length rs')%nat
    /\ r_name <$> rs' !! c = Some (name nd)
    /\ (forall a n, (length rs <= a)%nat -> rs' !! a = Some n -> nodeOk rs' n).

(** The store a run leaves. *)
Definition storeAfter {S A} (r : Run S A) : option S :=
  match r with
  | Returned _ s => Some s
  | Raised _ s => Some s
  | Exhausted => None
  end.

(** Code that leaves the input nodes as they are, however it ends. *)
Definition keepsInputs {A} (m : M World A) : Prop :=
  forall w w', storeAfter (m w) = Some w' -> inputs w' = inputs w.

(** The candidates after some passes of the loop of [hoistTo]: each
    update is the root as a pass left it and a name of the map. *)
Definition laterCandidates (c : Candidates) (updates : list (HoisterWorkTree * PackageName))
  : Candidates :=
  fold_left (fun c u => nextCandidate u.1 c u.2) updates c.

(** The work trees of scenarios. *)
Definition cyclicPeersHeap : Heap :=
  Eval vm_compute in
    match Scenarios.workTree Scenarios.cyclicPeers with Done h => h | _ => [] end.

Definition selfPeerRootHeap : Heap :=
  Eval vm_compute in
    match Scenarios.workTree Scenarios.selfPeerRoot with Done h => h | _ => [] end.

Definition pinnedNameHeap : Heap :=
  Eval vm_compute in
    match Scenarios.workTree Scenarios.pinnedName with Done h => h | _ => [] end.

Definition rootWithPeerHeap : Heap :=
  Eval vm_compute in
    match Scenarios.workTree Scenarios.rootWithPeer with Done h => h | _ => [] end.

Definition oleq {A} (o o' : Outcome A) : Prop := o = Starved \/ o = o'.

Definition rleq {S A} (r r' : Run S A) : Prop := r = Exhausted \/ r = r'.

Definition mleq {S A} (m m' : M S A) : Prop := forall s, rleq (m s) (m' s).

(** Code that writes: a run that is not cut short, and what holds of its
    result if it returns. *)
Definition ends {S A} (r : Run S A) (Q : A -> S -> Prop) : Prop :=
  match r with
  | Returned a s' => Q a s'
  | Raised _ _ => True
  | Exhausted => False
  end.

(** Code with fuel: some fuel is enough. *)
Definition halts {S A} (m : nat -> M S A) (s : S) (Q : A -> S -> Prop) : Prop :=
  exists fuel, ends (m fuel s) Q.

Definition monotone {S A} (m : nat -> M S A) : Prop :=
  forall fuel fuel', (fuel <= fuel')%nat -> mleq (m fuel) (m fuel').

(** The nodes of a store of [k] cells that a walk has not seen yet. *)
Definition unvisited (k : nat) (seen : JsSet addr) : nat :=
  length (filter (fun x => x ∉ seen) (seq 0 k)).

(** The members of [U] that are not in [seen]. *)
Definition missing {K} `{EqDecision K} (U seen : list K) : nat :=
  length (filter (fun x => x ∉ seen) (remove_dups U)).

(** The measure of a call of [hoistNodeDependencies]: the locators of the
    tree that are not on the path, counted twice, and whether the parent's
    locator is one of them. *)
Definition depthLeft (h0 : Heap) (locatorPath : list Locator) (l : Locator) : nat :=
  2 * missing (locator <$> h0) (locatorPath ++ [l])
  + (if bool_decide (l ∈ locatorPath) then 0 else 1).

(** The measure of the loop of [hoistTo]: the candidates that are left
    after the one in force, over all names. *)
Definition candidatesLeft (identMap : JsMap PackageName (list Ident)) : nat :=
  sum_list ((fun kv => pred (length kv.2)) <$> map_entries identMap).

(** The candidates a pass of the loop of [hoistTo] leaves. *)
Definition passCandidates (r : HoisterWorkTree) (c : Candidates) : Candidates :=
  fold_left (nextCandidate r) (map_keys (c_hoistIdentMap c))
    (mkCandidates (c_hoistIdents c) (c_hoistIdentMap c) false).

(** The peer name [q] of a node is free along [parents] (the direct
    parent first): a parent that has it as a peer dependency of its own
    passes the question on to the next one, and the walk ends at a parent
    that does not hold the name at all. *)
Fixpoint peerFree (h : Heap) (q : PackageName) (parents : list addr) : Prop :=
  match parents with
  | [] => True
  | a :: rest =>
      exists p, h !! a = Some p
        /\ ((q ∈ peerNames p /\ map_has q (originalDependencies p) = true
             /\ peerFree h q rest)
            \/ map_get q (dependencies p) = None)
  end.

(** The name [q] passes the parent [p]: [p] has it as a peer dependency
    of its own. *)
Definition passes (p : HoisterWorkTree) (q : PackageName) : Prop :=
  q ∈ peerNames p /\ map_has q (originalDependencies p) = true.

(** [. -> a@1 -> {b@1, c@1}], where b peer depends on c *)
Definition waitingPeer : list HoisterTree :=
  [Scenarios.pkg "." "workspace:." [1%nat] [];
   Scenarios.pkg "a" "1" [2; 3]%nat [];
   Scenarios.pkg "b" "1" [3%nat] ["c"%string];
   Scenarios.pkg "c" "1" [] []].

Definition waitingPeerHeap : Heap :=
  Eval vm_compute in
    match Scenarios.workTree waitingPeer with Done h => h | _ => [] end.

(** The tree of [waitingPeer] after c is hoisted from a to the root. *)
Definition hoistedPeerHeap : Heap :=
  Eval vm_compute in
    match hoistNode 0 1 [] 3 waitingPeerHeap with Returned _ h => h | _ => [] end.

(** [b] is a regular dependency of the node at [a]. *)
Definition regEdge (h : Heap) (a b : addr) : Prop :=
  exists n, h !! a = Some n /\ regularDep h n b.

(** The parents a popularity map has for a key. *)
Definition parentsOf (m : PopularityMap) (key : string) : JsSet Ident :=
  default [] (map_get key m).

(** The edge from [a] to [b] is counted in [m]. *)
Definition counted (h : Heap) (m : PopularityMap) (a b : addr) : Prop :=
  exists p n, h !! a = Some p /\ h !! b = Some n
              /\ ident p ∈ parentsOf m (getPopularityKey n).

(** No parent is taken from a popularity map. *)
Definition keepsParents (m m' : PopularityMap) : Prop :=
  forall key i, i ∈ parentsOf m key -> i ∈ parentsOf m' key.

(** Every parent in [m] is the ident of a package reachable from the
    root, for a key of one of its regular dependencies. *)
Definition parentsSound (h : Heap) (rootNode : addr) (m : PopularityMap) : Prop :=
  forall key i, i ∈ parentsOf m key ->
    exists pa p x n, rtc (regEdge h) rootNode pa /\ h !! pa = Some p
      /\ regEdge h pa x /\ h !! x = Some n
      /\ key = getPopularityKey n /\ i = ident p.

(** The popularity map of the tree of [waitingPeer]. *)
Definition waitingPeerPopularity : PopularityMap :=
  Eval vm_compute in
    match buildPopularityMap 10 waitingPeerHeap 0 with Done m => m | _ => [] end.

(** The name and the ident that [getHoistIdentMap] reads from a key of
    the popularity map. *)
Definition keyName (key : string) : PackageName :=
  Str.substring key 0 (Str.indexOf "@"%char key 1).

Definition keyIdent (key : string) : Ident :=
  Str.substringFrom key (Str.len (keyName key) + 1).

(** The list of candidates a map has for a name. *)
Definition identsOf (m : JsMap PackageName (list Ident)) (k : PackageName) : list Ident :=
  default [] (map_get k m).

(** [l] is in order of [pop], the greatest first. *)
Definition descending {A} (pop : A -> Z) (l : list A) : Prop :=
  forall i j a b, l !! i = Some a -> l !! j = Some b -> i < j -> (pop b <= pop a)%Z.

(** The popularity map of the tree of [Scenarios.pinnedName]. *)
Definition pinnedNamePopularity : PopularityMap :=
  Eval vm_compute in
    match buildPopularityMap 10 pinnedNameHeap 0 with Done m => m | _ => [] end.

(** The work node [n] is a new copy of the input node [t]. *)
Definition imageOf (t : HoisterTree) (n : HoisterWorkTree) : Prop :=
  name n = t_name t
  /\ ident n = makeIdent (t_identName t) (t_reference t)
  /\ locator n = makeLocator (t_identName t) (t_reference t)
  /\ references n = [t_reference t]
  /\ peerNames n = set_of_list (t_peerNames t)
  /\ originalDependencies n = dependencies n
  /\ hoistedDependencies n = [] /\ reasons n = [].

(** Every dependency of [n] is the copy, under its name, of a dependency
    of [t]; [copyOf] maps input nodes to their copies. *)
Definition linkedTo (copyOf : JsMap addr addr) (ts : list HoisterTree)
    (t : HoisterTree) (n : HoisterWorkTree) : Prop :=
  forall k b, map_get k (dependencies n) = Some b ->
    exists j tj, j ∈ t_dependencies t /\ ts !! j = Some tj /\ t_name tj = k
                 /\ map_get j copyOf = Some b.

(** [n] has a dependency under the name of every dependency of [t]. *)
Definition full (ts : list HoisterTree) (t : HoisterTree) (n : HoisterWorkTree) : Prop :=
  forall j tj, j ∈ t_dependencies t -> ts !! j = Some tj ->
    map_has (t_name tj) (dependencies n) = true.

(** The nodes differ in the [decoupled] flag at most. *)
Definition sameButFlag (n n' : HoisterWorkTree) : Prop :=
  name n' = name n /\ references n' = references n /\ ident n' = ident n
  /\ locator n' = locator n /\ dependencies n' = dependencies n
  /\ originalDependencies n' = originalDependencies n
  /\ hoistedDependencies n' = hoistedDependencies n
  /\ peerNames n' = peerNames n /\ reasons n' = reasons n.

(** What holds of the copies while [cloneTree] runs: every input node
    seen has its copy, whose dependencies are copies of its dependencies;
    every node of the heap is the copy of one input node. *)
Definition copies (ts : list HoisterTree) (h : Heap) (copyOf : JsMap addr addr) : Prop :=
  (forall i a, map_get i copyOf = Some a ->
     exists t n, ts !! i = Some t /\ h !! a = Some n /\ imageOf t n
                 /\ linkedTo copyOf ts t n)
  /\ (forall a, a < length h -> exists i, map_get i copyOf = Some a)
  /\ (forall i i' a, map_get i copyOf = Some a -> map_get i' copyOf = Some a -> i = i').

(** No node loses a dependency name. *)
Definition namesGrow (h h' : Heap) : Prop :=
  forall a n, h !! a = Some n ->
    exists n', h' !! a = Some n'
      /\ forall k, map_has k (dependencies n) = true -> map_has k (dependencies n') = true.

Definition seenGrows (seen seen' : JsMap addr addr) : Prop :=
  forall i a, map_get i seen = Some a -> map_get i seen' = Some a.

(** [markNodeCoupled] writes the [decoupled] flag only. *)
Definition flagsOnly (h h' : Heap) : Prop :=
  length h' = length h
  /\ forall a n, h !! a = Some n -> exists n', h' !! a = Some n' /\ sameButFlag n n'.

(** The output node [n] is what [shrinkTree] keeps of the work node [nx]. *)
Definition projects (nx : HoisterWorkTree) (n : HoisterResult) : Prop :=
  r_name n = name nx /\ r_identName n = getIdentName (locator nx)
  /\ forall ref, ref ∈ r_references n <-> ref ∈ references nx.

(** Every output node is kept of some work node. *)
Definition projected (h : Heap) (rs : Results) : Prop :=
  forall a n, rs !! a = Some n -> exists x nx, h !! x = Some nx /\ projects nx n.

(** The output nodes differ in their dependencies at most. *)
Definition sameResult (n n' : HoisterResult) : Prop :=
  r_name n' = r_name n /\ r_identName n' = r_identName n
  /\ r_references n' = r_references n.

(** The output store keeps its nodes, but for their dependencies. *)
Definition rkeeps (rs rs' : Results) : Prop :=
  length rs <= length rs'
  /\ forall a n, rs !! a = Some n -> exists n', rs' !! a = Some n' /\ sameResult n n'.

(** A name that is not empty and has no [@] after its first character. *)
Definition plainName (s : string) : Prop :=
  s <> ""%string /\ Str.indexOf "@"%char s 1 = (-1)%Z.

(** The names that wait for the name [k] in a dependant tree. *)
Definition dependantsOf (dt : DependantTree) (k : PackageName) : JsSet PackageName :=
  default [] (map_get k dt).

(** The node [sub] is listed as waiting for the node [d]. *)
Definition waitsFor (h : Heap) (dt : DependantTree) (d sub : addr) : Prop :=
  exists nd nsub, h !! d = Some nd /\ h !! sub = Some nsub
                  /\ name nsub ∈ dependantsOf dt (name nd).

(** The dependencies of [p] that wait for [x] are in [un]. *)
Definition dependantsIn (h : Heap) (p : HoisterWorkTree) (dt : DependantTree)
    (un : JsSet addr) (x : addr) : Prop :=
  forall nx k y, h !! x = Some nx -> k ∈ dependantsOf dt (name nx) ->
                 map_get k (dependencies p) = Some y -> y ∈ un.

(** [s.indexOf(pat)] for a string [pat]: the first position at which
    [pat] starts, counted from [pos], or -1. *)
Fixpoint indexOfStringAt (pat s : string) (pos : nat) : Z :=
  if String.prefix pat s then Z.of_nat pos
  else match s with
       | EmptyString => (-1)%Z
       | String _ rest => indexOfStringAt pat rest (S pos)
       end.

(** [s.replace(pat, by)] for a string [pat]: the first occurrence only. *)
Definition replaceFirst (pat by_ s : string) : string :=
  let idx := indexOfStringAt pat s 0 in
  if (idx <? 0)%Z then s
  else (Str.substring s 0 idx ++ by_ ++ Str.substringFrom s (idx + Str.len pat))%string.

(** [s.split(c)[1]] for a string that has [c]: what is between the first
    [c] and the next one, or the end. *)
Definition splitSecond (c : ascii) (s : string) : string :=
  let rest := Str.substringFrom s (Str.indexOf c s 0 + 1) in
  let next := Str.indexOf c rest 0 in
  if (next <? 0)%Z then rest else Str.substring rest 0 next.

(** [prettyPrintLocator], which the messages print locators with. *)
Definition prettyPrintLocator (locator : Locator) : string :=
  let idx := Str.indexOf "@"%char locator 1 in
  let name_ := Str.substring locator 0 idx in
  let reference := Str.substringFrom locator (idx + 1) in
  if String.eqb reference "workspace:." then "."%string
  else if String.eqb reference "" then name_
  else
    let version :=
      replaceFirst "npm:" ""
        (if (0 <? Str.indexOf "#"%char reference 0)%Z
         then splitSecond "#"%char reference
         else reference) in
    if String.prefix "virtual" reference
    then ("v:" ++ name_ ++ "@" ++ version)%string
    else (name_ ++ "@" ++ version)%string.

(** The nodes of [l] are what [G] allows: each has an ident [G] allows
    under its name. *)
Definition goodNodes (G : PackageName -> Ident -> Prop) (h : Heap) (l : list addr) : Prop :=
  forall x, x ∈ l -> exists nx, h !! x = Some nx /\ G (name nx) (ident nx).

(** Every dependency of the node at [root] has an ident [G] allows under
    the name it is held under. *)
Definition goodRoot (G : PackageName -> Ident -> Prop) (h : Heap) (root : addr) : Prop :=
  exists r, h !! root = Some r
    /\ forall k d, map_get k (dependencies r) = Some d ->
                   exists nd, h !! d = Some nd /\ G k (ident nd).

(** The ident [i] is listed for the name [k] in [identMap], or is the
    ident of what the node [r] of the heap [h] holds under [k]. *)
Definition listedOrHeld (identMap : JsMap PackageName (list Ident)) (h : Heap)
    (r : HoisterWorkTree) (k : PackageName) (i : Ident) : Prop :=
  (exists idents, map_get k identMap = Some idents /\ i ∈ idents)
  \/ (exists d0 nd0, map_get k (dependencies r) = Some d0 /\ h !! d0 = Some nd0
                      /\ ident nd0 = i).

(** [. -> p@1 -> {a@1, b@1}] where a and b peer depend on each other: the
    pair of S5, held by a package and not by the root. *)
Definition heldCyclicPeers : list HoisterTree :=
  [Scenarios.pkg "." "workspace:." [1%nat] [];
   Scenarios.pkg "p" "1" [2; 3]%nat [];
   Scenarios.pkg "a" "1" [3%nat] ["b"];
   Scenarios.pkg "b" "1" [2%nat] ["a"]].

(** The answers [hoistInfos] leave a node where it is: its answer is NO,
    or it is DEPENDS on a node that they leave where it is. *)
Inductive cannotHoist (hoistInfos : JsMap addr HoistInfo) : addr -> Prop :=
| cannot_NO node reason :
    map_get node hoistInfos = Some (NO reason) -> cannotHoist hoistInfos node
| cannot_DEPENDS node ds d :
    map_get node hoistInfos = Some (DEPENDS ds) -> d ∈ ds ->
    cannotHoist hoistInfos d -> cannotHoist hoistInfos node.

(** The node at [parent] gave its dependency of the name [k] to a root:
    the hoist loop took the entry out of its dependencies and filed it
    under its hoisted dependencies. *)
Definition gaveUp (h : Heap) (parent : addr) (k : PackageName) : Prop :=
  exists p, h !! parent = Some p
            /\ map_has k (dependencies p) = false
            /\ map_has k (hoistedDependencies p) = true.

(** The root [r] pins the ident [i] for the name [k]: it is its own ident
    and name, or those of a dependency of it that is no peer dependency. *)
Definition pins (h : Heap) (r : HoisterWorkTree) (k : PackageName) (i : Ident) : Prop :=
  (k = name r /\ i = ident r)
  \/ exists D d, D ∈ map_values (dependencies r) /\ h !! D = Some d
                 /\ name d = k /\ (k ∉ peerNames r) /\ i = ident d.

(** ** A work tree at another place of the store *)

(** A map with its keys and values renamed. *)
Definition map_bimap {K K' V V'} (gk : K -> K') (gv : V -> V') (m : JsMap K V)
  : JsMap K' V' :=
  fmap (M:=list) (fmap (M:=option) (prod_map gk gv)) m.

(** The addresses of a node, [n] cells further. *)
Definition shiftNode (n : nat) (nd : HoisterWorkTree) : HoisterWorkTree :=
  mkWork (name nd) (references nd) (ident nd) (locator nd)
    (map_bimap id (Nat.add n) (dependencies nd))
    (map_bimap id (Nat.add n) (originalDependencies nd))
    (map_bimap id (Nat.add n) (hoistedDependencies nd))
    (peerNames nd) (decoupled nd) (reasons nd).

(** The heap [h], built behind the cells of [h0]. *)
Definition shiftHeap (h0 h : Heap) : Heap := h0 ++ (shiftNode (length h0) <$> h).

Definition shiftWorld (h0 : Heap) (w : World) : World :=
  mkWorld (inputs w) (shiftHeap h0 (heap w)).

Definition shiftInfo (n : nat) (info : HoistInfo) : HoistInfo :=
  match info with
  | DEPENDS ds => DEPENDS (Nat.add n <$> ds)
  | _ => info
  end.

Definition shiftPeerCheck (n : nat) (pc : PeerCheck) : PeerCheck :=
  mkPeerCheck (checkList pc) (fmap (M:=option) (fmap (M:=list) (Nat.add n)) (dependsOn pc))
    (arePeerDepsSatisfied pc) (peerReason pc) (broken pc).

Definition shiftCheckState (n : nat) (st : CheckState) : CheckState :=
  mkCheckState (log st) (Nat.add n <$> seenChecked st) (Nat.add n <$> parents st).

Definition mapOutcome {A B} (f : A -> B) (o : Outcome A) : Outcome B :=
  match o with
  | Done a => Done (f a)
  | Thrown e => Thrown e
  | Starved => Starved
  end.

Definition mapRun {S S' A B} (f : A -> B) (g : S -> S') (r : Run S A) : Run S' B :=
  match r with
  | Returned a s => Returned (f a) (g s)
  | Raised e s => Raised e (g s)
  | Exhausted => Exhausted
  end.

(** [m'] does in the store [g s] what [m] does in [s], with [f] of its
    result. *)
Definition sim {S S' A B} (f : A -> B) (g : S -> S') (m : M S A) (m' : M S' B) : Prop :=
  forall s, m' (g s) = mapRun f g (m s).

(** What a run returns or throws, without the store it leaves. *)
Definition outcomeOf {S A} (r : Run S A) : Outcome A :=
  match r with
  | Returned a _ => Done a
  | Raised e _ => Thrown e
  | Exhausted => Starved
  end.

Local Open Scope Z_scope.

(** * Properties *)

(** ** Facts about sets and maps *)

Section ContainerFacts.
Context {K : Type} `{EqDecision K}.
Implicit Types (x y : K) (s : JsSet K).

Lemma set_has_true x s : set_has x s = true <-> x ∈ s.
Proof. unfold set_has. apply bool_decide_eq_true. Qed.

Lemma set_has_false x s : set_has x s = false <-> x ∉ s.
Proof. unfold set_has. apply bool_decide_eq_false. Qed.

Lemma elem_of_set_add x y s : x ∈ set_add y s <-> x = y \/ x ∈ s.
Proof.
  unfold set_add. destruct (set_has y s) eqn:E.
  - apply set_has_true in E. split; [auto|]. intros [->|]; done.
  - rewrite elem_of_app, list_elem_of_singleton. tauto.
Qed.

Lemma set_add_extends y s : exists t, set_add y s = s ++ t.
Proof.
  unfold set_add. destruct (set_has y s).
  - exists []. by rewrite app_nil_r.
  - by eexists.
Qed.

Lemma set_add_NoDup y s : NoDup s -> NoDup (set_add y s).
Proof.
  intros Hs. unfold set_add. destruct (set_has y s) eqn:E; [done|].
  apply set_has_false in E. apply NoDup_app. split; [done|].
  split; [|apply NoDup_singleton].
  intros z Hz Hy. apply list_elem_of_singleton in Hy. by subst.
Qed.

Lemma elem_of_set_delete x y s : x ∈ set_delete y s <-> x ∈ s /\ x ≠ y.
Proof. unfold set_delete. rewrite list_elem_of_filter. tauto. Qed.

Lemma set_delete_NoDup y s : NoDup s -> NoDup (set_delete y s).
Proof. apply NoDup_filter. Qed.

Lemma fold_set_add_elem (l : list K) s x :
  x ∈ fold_left (fun s x => set_add x s) l s <-> x ∈ l \/ x ∈ s.
Proof.
  revert s. induction l as [|a l IH]; intros s; simpl.
  - rewrite elem_of_nil. tauto.
  - rewrite IH, elem_of_set_add, elem_of_cons. tauto.
Qed.

Lemma fold_set_add_NoDup (l : list K) s :
  NoDup s -> NoDup (fold_left (fun s x => set_add x s) l s).
Proof.
  revert s. induction l as [|a l IH]; intros s Hs; simpl; [done|].
  apply IH. by apply set_add_NoDup.
Qed.

Lemma elem_of_set_of_list (l : list K) x : x ∈ set_of_list l <-> x ∈ l.
Proof. unfold set_of_list. rewrite fold_set_add_elem, elem_of_nil. tauto. Qed.

Lemma set_of_list_NoDup (l : list K) : NoDup (set_of_list l).
Proof. apply fold_set_add_NoDup. constructor. Qed.

Context {V : Type}.
Implicit Types (k : K) (v : V) (m : JsMap K V).

Lemma map_get_entries k v m : map_get k m = Some v -> (k, v) ∈ map_entries m.
Proof.
  induction m as [|[[k' v']|] m IH]; simpl; [done| |].
  - destruct (decide (k' = k)) as [->|].
    + intros [= ->]. left.
    + intros. right. auto.
  - auto.
Qed.

Lemma map_get_None k m : map_get k m = None <-> k ∉ map_keys m.
Proof.
  unfold map_keys.
  induction m as [|[[k' v']|] m IH]; simpl.
  - split; [intros _; apply not_elem_of_nil|done].
  - rewrite not_elem_of_cons.
    destruct (decide (k' = k)) as [->|]; [split; [done|tauto]|].
    rewrite IH. split; [auto|tauto].
  - done.
Qed.

Lemma map_has_true k m : map_has k m = true <-> k ∈ map_keys m.
Proof.
  unfold map_has. destruct (map_get k m) eqn:E.
  - split; [|done]. intros _. apply map_get_entries in E.
    unfold map_keys. apply list_elem_of_fmap. by exists (k, v).
  - apply map_get_None in E. split; [done|tauto].
Qed.

Lemma map_has_false k m : map_has k m = false <-> k ∉ map_keys m.
Proof.
  rewrite <- map_has_true. destruct (map_has k m); naive_solver.
Qed.

Lemma map_entries_get k v m :
  NoDup (map_keys m) -> (k, v) ∈ map_entries m -> map_get k m = Some v.
Proof.
  unfold map_keys.
  induction m as [|[[k' v']|] m IH]; simpl.
  - intros _ Hin. by apply elem_of_nil in Hin.
  - intros Hnd Hin. apply NoDup_cons in Hnd as [Hk' Hnd].
    apply elem_of_cons in Hin as [[= -> ->]|Hin].
    + by rewrite decide_True.
    + destruct (decide (k' = k)) as [->|]; [|auto].
      exfalso. apply Hk'. apply list_elem_of_fmap. by exists (k, v).
  - auto.
Qed.

Lemma map_get_set k k' v m :
  map_get k (map_set k' v m) = if decide (k' = k) then Some v else map_get k m.
Proof.
  induction m as [|[[k0 v0]|] m IH]; simpl.
  - by destruct (decide (k' = k)).
  - destruct (decide (k0 = k')) as [->|Hne]; simpl.
    + by destruct (decide (k' = k)).
    + rewrite IH. destruct (decide (k0 = k)) as [->|]; [|done].
      by rewrite decide_False by done.
  - done.
Qed.

Lemma map_get_delete k k' m :
  map_get k (map_delete k' m) = if decide (k' = k) then None else map_get k m.
Proof.
  induction m as [|[[k0 v0]|] m IH]; simpl.
  - by destruct (decide (k' = k)).
  - destruct (decide (k0 = k')) as [->|Hne]; simpl.
    + rewrite IH. by destruct (decide (k' = k)).
    + rewrite IH. destruct (decide (k0 = k)) as [->|]; [|done].
      by rewrite decide_False by done.
  - done.
Qed.

Lemma map_set_length k v m :
  length (map_set k v m) = if map_has k m then length m else S (length m).
Proof.
  unfold map_has.
  induction m as [|[[k0 v0]|] m IH]; simpl; [done| |].
  - destruct (decide (k0 = k)) as [->|Hne]; simpl; [done|].
    rewrite IH. by destruct (map_get k m).
  - rewrite IH. by destruct (map_get k m).
Qed.

Lemma map_delete_length k m : length (map_delete k m) = length m.
Proof.
  induction m as [|[[k0 v0]|] m IH]; simpl; [done| |].
  - destruct (decide (k0 = k)); simpl; by rewrite IH.
  - by rewrite IH.
Qed.

Lemma map_keys_set k v m :
  map_keys (map_set k v m) = if map_has k m then map_keys m else map_keys m ++ [k].
Proof.
  unfold map_has, map_keys.
  induction m as [|[[k0 v0]|] m IH]; csimpl; [done| |].
  - destruct (decide (k0 = k)) as [->|Hne]; csimpl; [done|].
    rewrite IH. by destruct (map_get k m).
  - done.
Qed.

Lemma map_entries_set k v m kv :
  kv ∈ map_entries (map_set k v m) -> kv = (k, v) \/ kv ∈ map_entries m.
Proof.
  induction m as [|[[k0 v0]|] m IH]; simpl.
  - intros Hin. apply list_elem_of_singleton in Hin. by left.
  - destruct (decide (k0 = k)) as [->|Hne]; simpl.
    + rewrite !elem_of_cons. intros [->|Hin]; auto.
    + rewrite !elem_of_cons. intros [->|Hin]; [auto|].
      destruct (IH Hin); auto.
  - auto.
Qed.

Lemma map_entries_delete k m kv :
  kv ∈ map_entries (map_delete k m) -> kv ∈ map_entries m /\ kv.1 ≠ k.
Proof.
  induction m as [|[[k0 v0]|] m IH]; simpl.
  - intros Hin. by apply elem_of_nil in Hin.
  - destruct (decide (k0 = k)) as [->|Hne]; simpl.
    + intros Hin. destruct (IH Hin). split; [by right|done].
    + rewrite !elem_of_cons. intros [->|Hin]; [auto|].
      destruct (IH Hin); auto.
  - auto.
Qed.

Lemma map_keys_delete_NoDup k m : NoDup (map_keys m) -> NoDup (map_keys (map_delete k m)).
Proof.
  unfold map_keys.
  induction m as [|[[k0 v0]|] m IH]; simpl; [done| |done].
  intros Hnd. apply NoDup_cons in Hnd as [Hk0 Hnd].
  destruct (decide (k0 = k)) as [->|Hne]; simpl; [auto|].
  apply NoDup_cons. split; [|auto].
  intros Hin. apply Hk0. apply list_elem_of_fmap in Hin as [kv [-> Hin]].
  apply map_entries_delete in Hin as [Hin _].
  apply list_elem_of_fmap. by exists kv.
Qed.

Lemma map_keys_set_NoDup k v m : NoDup (map_keys m) -> NoDup (map_keys (map_set k v m)).
Proof.
  intros Hnd. rewrite map_keys_set. destruct (map_has k m) eqn:E; [done|].
  apply map_has_false in E. apply NoDup_app. split; [done|].
  split; [|apply NoDup_singleton].
  intros z Hz Hy. apply list_elem_of_singleton in Hy. by subst.
Qed.

Lemma map_of_entries_keys_NoDup (l : list (K * V)) m :
  NoDup (map_keys m) ->
  NoDup (map_keys (fold_left (fun m kv => map_set kv.1 kv.2 m) l m)).
Proof.
  revert m. induction l as [|kv l IH]; intros m Hm; simpl; [done|].
  apply IH. by apply map_keys_set_NoDup.
Qed.

Lemma map_copy_keys_NoDup m : NoDup (map_keys (map_copy m)).
Proof. apply map_of_entries_keys_NoDup. constructor. Qed.

Lemma map_of_entries_get (l : list (K * V)) m k :
  NoDup (l.*1) ->
  map_get k (fold_left (fun m kv => map_set kv.1 kv.2 m) l m)
  = match list_find (fun kv => kv.1 = k) l with
    | Some (_, kv) => Some kv.2
    | None => map_get k m
    end.
Proof.
  revert m. induction l as [|[k0 v0] l IH]; intros m Hnd; simpl; [done|].
  apply NoDup_cons in Hnd as [Hk0 Hnd].
  rewrite IH by done. simpl. destruct (decide (k0 = k)) as [->|Hne].
  - destruct (list_find _ l) as [[i kv]|] eqn:E.
    + apply list_find_Some in E as (Hl & Hk & _). exfalso. apply Hk0.
      apply list_elem_of_fmap. exists kv. split; [done|].
      by eapply list_elem_of_lookup_2.
    + simpl. rewrite map_get_set. by rewrite decide_True.
  - destruct (list_find _ l) as [[i kv]|] eqn:E; simpl; [done|].
    rewrite map_get_set. by rewrite decide_False.
Qed.

Lemma map_get_find m k :
  map_get k m = (fun ikv => ikv.2.2) <$> list_find (fun kv => kv.1 = k) (map_entries m).
Proof.
  induction m as [|[[k0 v0]|] m IH]; simpl; [done| |done].
  destruct (decide (k0 = k)) as [->|Hne]; [done|].
  rewrite IH. by destruct (list_find _ (map_entries m)).
Qed.

Lemma map_get_copy m k : NoDup (map_keys m) -> map_get k (map_copy m) = map_get k m.
Proof.
  intros Hnd. unfold map_copy, map_of_entries.
  rewrite map_of_entries_get by done. rewrite (map_get_find m).
  by destruct (list_find _ (map_entries m)) as [[i kv]|].
Qed.

Lemma map_entries_set_fresh k v m :
  k ∉ map_keys m -> map_entries (map_set k v m) = map_entries m ++ [(k, v)].
Proof.
  unfold map_keys.
  induction m as [|[[k0 v0]|] m IH]; csimpl; [done| |done].
  rewrite not_elem_of_cons. intros [Hne Hk].
  rewrite decide_False by done. csimpl. by rewrite IH.
Qed.

Lemma map_of_entries_entries (l : list (K * V)) m :
  NoDup (map_keys m ++ l.*1) ->
  map_entries (fold_left (fun m kv => map_set kv.1 kv.2 m) l m) = map_entries m ++ l.
Proof.
  revert m. induction l as [|[k0 v0] l IH]; intros m Hnd; csimpl.
  - by rewrite app_nil_r.
  - csimpl in Hnd. apply NoDup_app in Hnd as (Hm & Hdisj & Hl).
    apply NoDup_cons in Hl as [Hk0 Hl].
    assert (k0 ∉ map_keys m) as Hfresh.
    { intros Hin. apply (Hdisj _ Hin). left. }
    rewrite IH.
    + rewrite map_entries_set_fresh by done. by rewrite <- app_assoc.
    + rewrite map_keys_set. apply map_has_false in Hfresh. rewrite Hfresh.
      rewrite <- app_assoc. apply NoDup_app. split; [done|]. split.
      * intros x Hx Hin. apply (Hdisj _ Hx). done.
      * csimpl. by apply NoDup_cons.
Qed.

Lemma map_entries_copy m : NoDup (map_keys m) -> map_entries (map_copy m) = map_entries m.
Proof.
  intros Hnd. unfold map_copy, map_of_entries.
  rewrite map_of_entries_entries; [done|]. by csimpl.
Qed.

Lemma map_values_elem v m : v ∈ map_values m <-> exists k, (k, v) ∈ map_entries m.
Proof.
  unfold map_values. rewrite list_elem_of_fmap. split.
  - intros [[k v'] [-> Hin]]. by exists k.
  - intros [k Hin]. by exists (k, v).
Qed.

End ContainerFacts.

(** ** Loops and the order of regular dependencies *)

Lemma obind_Done {A B} (m : Outcome A) (f : A -> Outcome B) b :
  obind m f = Done b -> exists a, m = Done a /\ f a = Done b.
Proof. destruct m; simpl; [eauto|done|done]. Qed.

Lemma deref_Done h a n : deref h a = Done n <-> h !! a = Some n.
Proof. unfold deref. destruct (h !! a); split; congruence. Qed.

Lemma foldO_ind {A B} (I : list A -> B -> Prop) (body : B -> A -> Outcome B) :
  forall l done acc r,
    I done acc ->
    (forall d x b b', I d b -> x ∈ l -> body b x = Done b' -> I (d ++ [x]) b') ->
    foldO l acc body = Done r -> I (done ++ l) r.
Proof.
  induction l as [|x l IH]; intros done acc r Hacc Hstep Hfold; simpl in Hfold.
  - injection Hfold as <-. by rewrite app_nil_r.
  - apply obind_Done in Hfold as (acc' & Hb & Hfold).
    rewrite (assoc_L (++) done [x] l : done ++ x :: l = (done ++ [x]) ++ l).
    eapply IH; [| |exact Hfold].
    + eapply Hstep; [exact Hacc|left|exact Hb].
    + intros d y b b' Hd Hy. apply Hstep; [done|by right].
Qed.

Lemma foldO_inv {A B} (I : B -> Prop) (body : B -> A -> Outcome B) l acc r :
  I acc ->
  (forall x b b', I b -> x ∈ l -> body b x = Done b' -> I b') ->
  foldO l acc body = Done r -> I r.
Proof.
  intros Hacc Hstep Hfold.
  apply (foldO_ind (fun _ => I) body l [] acc r); eauto.
Qed.

Lemma before_app l t P D : before l P D -> before (l ++ t) P D.
Proof.
  intros (i & j & Hi & Hj & Hlt). exists i, j.
  split; [by apply lookup_app_l_Some|]. split; [by apply lookup_app_l_Some|done].
Qed.

Lemma before_snoc l P D : P ∈ l -> before (l ++ [D]) P D.
Proof.
  intros HP. apply list_elem_of_lookup in HP as [i Hi].
  exists i, (length l). split; [by apply lookup_app_l_Some|].
  split; [|by eapply lookup_lt_Some].
  rewrite lookup_app_r by lia. by rewrite Nat.sub_diag.
Qed.

Section SortedDeps.
Variables (h : Heap) (n : HoisterWorkTree).
Hypothesis Hnamed : deps_named h n = true.

Lemma named_entry k x :
  (k, x) ∈ map_entries (dependencies n) -> exists d, h !! x = Some d /\ name d = k.
Proof using Hnamed.
  intros Hin. unfold deps_named in Hnamed.
  apply andb_prop in Hnamed as [Hall _].
  rewrite forallb_forall in Hall. apply list_elem_of_In in Hin.
  specialize (Hall _ Hin). simpl in Hall.
  destruct (h !! x) as [d|]; [|done].
  apply bool_decide_eq_true in Hall. eauto.
Qed.

Lemma named_NoDup : NoDup (map_keys (dependencies n)).
Proof using Hnamed.
  unfold deps_named in Hnamed.
  apply andb_prop in Hnamed as [_ Hnd]. by apply bool_decide_eq_true in Hnd.
Qed.

Lemma named_get q P :
  map_get q (dependencies n) = Some P -> exists p, h !! P = Some p /\ name p = q.
Proof using Hnamed. intros Hget. apply map_get_entries in Hget. by apply named_entry. Qed.

Lemma regular_get q P :
  q ∉ peerNames n -> map_get q (dependencies n) = Some P -> regularDep h n P.
Proof using Hnamed.
  intros Hq Hget. destruct (named_get _ _ Hget) as (p & Hp & <-).
  exists p. split; [|done]. apply map_values_elem. exists (name p).
  by apply map_get_entries.
Qed.

Lemma Inv_nil : Inv h n [].
Proof. intros x P Hx. by apply elem_of_nil in Hx. Qed.

Lemma addDep_spec fuel : forall dep seen deps st',
  addDep fuel h n dep (seen, deps) = Done st' ->
  Inv h n deps ->
  (forall s, s ∈ seen -> s ∈ deps \/ peerPath h n s dep) ->
  NoDup deps ->
  (forall x, x ∈ deps -> regularDep h n x) ->
  regularDep h n dep ->
  Inv h n st'.2
  /\ (exists t, st'.2 = deps ++ t)
  /\ (forall s, s ∈ seen -> s ∈ st'.1)
  /\ (forall s, s ∈ st'.1 -> s ∈ seen \/ s ∈ st'.2)
  /\ dep ∈ st'.1
  /\ (dep ∉ seen -> dep ∈ st'.2)
  /\ NoDup st'.2
  /\ (forall x, x ∈ st'.2 -> regularDep h n x).
Proof using Hnamed.
  induction fuel as [|fuel IH]; intros dep seen deps st' Hrun Hinv Hseen Hnd Hreg Hdep;
    [done|].
  simpl in Hrun. destruct (set_has dep seen) eqn:Hhas.
  { injection Hrun as <-. simpl. apply set_has_true in Hhas.
    split; [done|]. split; [exists []; by rewrite app_nil_r|].
    repeat split; auto. done. }
  apply set_has_false in Hhas.
  apply obind_Done in Hrun as (d & Hd & Hrun). apply deref_Done in Hd.
  apply obind_Done in Hrun as (st1 & Hloop & Hrun). injection Hrun as <-. simpl.
  (* the loop over the peer names of [dep] *)
  set (L := fun (qs : list PackageName) (st : JsSet addr * JsSet addr) =>
    Inv h n st.2
    /\ (exists t, st.2 = deps ++ t)
    /\ (forall s, s ∈ seen \/ s = dep -> s ∈ st.1)
    /\ (forall s, s ∈ st.1 -> s ∈ seen \/ s = dep \/ s ∈ st.2)
    /\ NoDup st.2
    /\ (forall x, x ∈ st.2 -> regularDep h n x)
    /\ (forall q P, q ∈ qs -> q ∉ peerNames n ->
                    map_get q (dependencies n) = Some P ->
                    P ∈ st.2 \/ P ∈ seen \/ P = dep)).
  assert (L ([] ++ peerNames d) st1) as HL.
  { eapply foldO_ind; [| |exact Hloop].
    - unfold L; simpl. split; [done|]. split; [exists []; by rewrite app_nil_r|].
      split; [intros s Hs; apply elem_of_set_add; tauto|].
      split; [intros s Hs; apply elem_of_set_add in Hs; tauto|].
      split; [done|]. split; [done|].
      intros q P Hq. by apply elem_of_nil in Hq.
    - intros qs q [seenc depsc] st2 (Linv & [t Lt] & Lsub & Lsrc & Lnd & Lreg & Ldone) Hq Hbody.
      simpl in *.
      assert (forall P, map_get q (dependencies n) = Some P ->
                (P ∈ st2.2 \/ P ∈ seen \/ P = dep) ->
                (forall x, x ∈ depsc -> x ∈ st2.2) ->
                forall q' P', q' ∈ qs ++ [q] -> q' ∉ peerNames n ->
                  map_get q' (dependencies n) = Some P' ->
                  P' ∈ st2.2 \/ P' ∈ seen \/ P' = dep) as Hdone.
      { intros P HP HPin Hmono q' P' Hq' Hnp HP'.
        apply elem_of_app in Hq' as [Hq'|Hq'].
        - destruct (Ldone _ _ Hq' Hnp HP') as [?|?]; auto.
        - apply list_elem_of_singleton in Hq' as ->.
          rewrite HP in HP'. by injection HP' as <-. }
      destruct (set_has q (peerNames n)) eqn:Hpeer; simpl in Hbody.
      { injection Hbody as <-. unfold L; simpl.
        split_and!; try done; [by exists t|].
        intros q' P' Hq' Hnp HP'. apply elem_of_app in Hq' as [Hq'|Hq'].
        - by eapply Ldone.
        - apply list_elem_of_singleton in Hq' as ->.
          apply set_has_true in Hpeer. done. }
      apply set_has_false in Hpeer.
      destruct (map_get q (dependencies n)) as [P|] eqn:HP.
      2:{ injection Hbody as <-. unfold L; simpl.
          split_and!; try done; [by exists t|].
          intros q' P' Hq' Hnp HP'. apply elem_of_app in Hq' as [Hq'|Hq'].
          - by eapply Ldone.
          - apply list_elem_of_singleton in Hq' as ->. congruence. }
      destruct (set_has P depsc) eqn:HPin; simpl in Hbody.
      { injection Hbody as <-. unfold L; simpl.
        split_and!; try done; [by exists t|].
        apply set_has_true in HPin. eapply Hdone; eauto. }
      apply set_has_false in HPin.
      assert (peerEdge h n dep P) as Hedge by (exists d, q; done).
      apply IH in Hbody as (Q1 & [t' Q2] & Q3 & Q4 & Q5 & Q6 & Q7 & Q8); simpl in *.
      + unfold L. split; [done|]. split.
        { exists (t ++ t'). rewrite Q2, Lt. by rewrite <- app_assoc. }
        split; [by auto|].
        split.
        { intros s Hs. destruct (Q4 _ Hs) as [Hs'|Hs']; [|auto].
          destruct (Lsrc _ Hs') as [?|[?|?]]; auto.
          right; right. rewrite Q2. apply elem_of_app. auto. }
        split; [done|]. split; [done|].
        eapply Hdone; [reflexivity| |].
        * destruct (decide (P ∈ seenc)) as [Hin|Hnin]; [|by auto].
          destruct (Lsrc _ Hin) as [?|[?|?]]; auto.
        * intros x Hx. rewrite Q2. apply elem_of_app. auto.
      + done.
      + intros s Hs. destruct (Lsrc _ Hs) as [Hs'|[->|Hs']]; [| |by auto].
        * destruct (Hseen _ Hs') as [Hs''|Hpath].
          -- left. rewrite Lt. apply elem_of_app. auto.
          -- right. eapply rtc_r; eauto.
        * right. by apply rtc_once.
      + done.
      + done.
      + by eapply regular_get. }
  rewrite app_nil_l in HL.
  destruct st1 as [seenf depsf].
  destruct HL as (Linv & [t Lt] & Lsub & Lsrc & Lnd & Lreg & Ldone). simpl in *.
  destruct (set_add_extends dep depsf) as [t' Ht'].
  split.
  { (* the order *)
    intros x P Hx Hedge Hne. apply elem_of_set_add in Hx.
    destruct (decide (x ∈ depsf)) as [Hxin|Hxnin].
    - destruct (Linv _ _ Hxin Hedge Hne) as [Hb|?]; [|by auto].
      left. rewrite Ht'. by apply before_app.
    - destruct Hx as [->|?]; [|done].
      destruct Hedge as (d' & q & Hd' & Hq & Hnp & HP).
      assert (d' = d) as -> by congruence.
      unfold set_add. apply set_has_false in Hxnin. rewrite Hxnin.
      apply set_has_false in Hxnin.
      destruct (Ldone _ _ Hq Hnp HP) as [HPin|[HPin|HPin]]; [| |done].
      + left. by apply before_snoc.
      + destruct (Hseen _ HPin) as [HPd|?]; [|by auto].
        left. apply before_snoc. rewrite Lt. apply elem_of_app. auto. }
  split; [exists (t ++ t'); rewrite Ht', Lt; by rewrite <- app_assoc|].
  split; [by auto|].
  split.
  { intros s Hs. destruct (Lsrc _ Hs) as [?|[->|?]]; [by auto| |].
    - right. apply elem_of_set_add. auto.
    - right. apply elem_of_set_add. auto. }
  split; [by auto|].
  split; [intros _; apply elem_of_set_add; auto|].
  split; [by apply set_add_NoDup|].
  intros x Hx. apply elem_of_set_add in Hx as [->|?]; auto.
Qed.
End SortedDeps.

Lemma foldO_total {A B} (I : B -> Prop) (body : B -> A -> Outcome B) l acc :
  I acc ->
  (forall x b, x ∈ l -> I b -> exists b', body b x = Done b' /\ I b') ->
  exists r, foldO l acc body = Done r /\ I r.
Proof.
  revert acc. induction l as [|x l IH]; intros acc Hacc Hstep; simpl; [eauto|].
  destruct (Hstep x acc) as (b' & -> & Hb'); [left|done|]. simpl.
  apply IH; [done|]. intros y b Hy. apply Hstep. by right.
Qed.

Section SortedDepsTotal.
Variables (h : Heap) (n : HoisterWorkTree).
Hypothesis Hnamed : deps_named h n = true.

Let U := remove_dups (map_values (dependencies n)).

Lemma unseen_lt x seen seen' :
  x ∈ U -> x ∉ seen -> (forall s, s ∈ seen \/ s = x -> s ∈ seen') ->
  (unseen n seen' < unseen n seen)%nat.
Proof.
  intros HxU Hx Hsub. unfold unseen; fold U.
  apply Nat.le_lt_trans
    with (length (filter (fun y => y ≠ x) (filter (fun x => x ∉ seen) U))).
  - apply submseteq_length, NoDup_submseteq.
    + apply NoDup_filter, NoDup_remove_dups.
    + intros y Hy. apply list_elem_of_filter in Hy as [Hy HyU].
      apply list_elem_of_filter. split.
      * intros ->. apply Hy. auto.
      * apply list_elem_of_filter. split; [|done]. intros Hin. apply Hy. auto.
  - apply (length_filter_lt _ _ x); [|auto].
    apply list_elem_of_filter. done.
Qed.

Lemma unseen_le seen : (unseen n seen <= length (dependencies n))%nat.
Proof.
  unfold unseen; fold U. etrans; [apply length_filter|].
  assert (length U <= length (map_values (dependencies n)))%nat as HU.
  { apply submseteq_length, NoDup_submseteq; [apply NoDup_remove_dups|].
    intros x Hx. exact (proj1 (elem_of_remove_dups _ _) Hx). }
  etrans; [exact HU|]. unfold map_values. rewrite length_fmap.
  clear. induction (dependencies n) as [|[kv|] m IH]; simpl; lia.
Qed.

Lemma get_in_U q P : map_get q (dependencies n) = Some P -> P ∈ U.
Proof.
  intros HP. apply elem_of_remove_dups, map_values_elem. exists q.
  by apply map_get_entries.
Qed.

Lemma U_valid x : x ∈ U -> is_Some (h !! x).
Proof using Hnamed.
  intros Hx. apply elem_of_remove_dups, map_values_elem in Hx as [k Hk].
  destruct (named_entry h n Hnamed _ _ Hk) as (d & -> & _). eauto.
Qed.

Lemma addDep_total fuel : forall dep seen deps,
  dep ∈ U -> (unseen n seen < fuel)%nat ->
  exists st', addDep fuel h n dep (seen, deps) = Done st'
              /\ (forall s, s ∈ seen -> s ∈ st'.1).
Proof using Hnamed.
  induction fuel as [|fuel IH]; intros dep seen deps HU Hfuel; [lia|].
  simpl. destruct (set_has dep seen) eqn:Hhas; [eauto|].
  apply set_has_false in Hhas.
  destruct (U_valid _ HU) as [d Hd]. unfold deref. rewrite Hd. simpl.
  match goal with |- context [foldO ?l ?acc ?body] =>
    destruct (foldO_total (fun st : JsSet addr * JsSet addr =>
               forall s, s ∈ seen \/ s = dep -> s ∈ st.1) body l acc)
      as (st1 & -> & Hst1) end;
    [| |simpl; eexists; split; [done|]; simpl; by auto].
  - simpl. intros s Hs. apply elem_of_set_add. tauto.
  - intros q [seenc depsc] Hq Hsub. simpl in *.
    destruct (set_has q (peerNames n)); simpl; [eauto|].
    destruct (map_get q (dependencies n)) as [P|] eqn:HP; [|eauto].
    destruct (set_has P depsc); simpl; [eauto|].
    destruct (IH P seenc depsc) as (st' & -> & Hst').
    + by eapply get_in_U.
    + pose proof (unseen_lt dep seen seenc HU Hhas Hsub). lia.
    + eexists. split; [done|]. auto.
Qed.
End SortedDepsTotal.

Lemma getSortedRegularDependencies_spec fuel h N n sorted :
  h !! N = Some n -> deps_named h n = true ->
  getSortedRegularDependencies fuel h N = Done sorted ->
  NoDup sorted
  /\ (forall D, D ∈ sorted <-> regularDep h n D)
  /\ peersFirstUpToCycles h n sorted.
Proof.
  intros HN Hnamed Hrun. unfold getSortedRegularDependencies in Hrun.
  apply obind_Done in Hrun as (n' & Hn' & Hrun). apply deref_Done in Hn'.
  assert (n' = n) as -> by congruence.
  set (T := fun (vs : list addr) (deps : JsSet addr) =>
    Inv h n deps /\ NoDup deps /\ (forall x, x ∈ deps -> regularDep h n x)
    /\ (forall x, x ∈ vs -> regularDep h n x -> x ∈ deps)).
  assert (T ([] ++ map_values (dependencies n)) sorted) as (Hinv & Hnd & Hreg & Hall).
  { eapply foldO_ind; [| |exact Hrun].
    - unfold T. split; [apply Inv_nil|]. split; [constructor|].
      split; intros x Hx; by apply elem_of_nil in Hx.
    - intros vs dep deps deps' (Tinv & Tnd & Treg & Tall) Hdep Hbody.
      apply obind_Done in Hbody as (d & Hd & Hbody). apply deref_Done in Hd.
      destruct (set_has (name d) (peerNames n)) eqn:Hpeer; simpl in Hbody.
      + injection Hbody as <-. unfold T. split_and!; try done.
        intros x Hx Hxreg. apply elem_of_app in Hx as [Hx|Hx]; [auto|].
        apply list_elem_of_singleton in Hx as ->.
        destruct Hxreg as (d' & _ & Hd' & Hnp). apply set_has_true in Hpeer.
        congruence.
      + apply set_has_false in Hpeer.
        apply obind_Done in Hbody as (st & Hadd & Hbody). injection Hbody as <-.
        assert (regularDep h n dep) as Hdreg by (exists d; done).
        eapply addDep_spec in Hadd as (Q1 & [t Q2] & _ & _ & _ & Q6 & Q7 & Q8); eauto.
        2:{ intros s Hs. by apply elem_of_nil in Hs. }
        unfold T. split_and!; try done.
        intros x Hx Hxreg. apply elem_of_app in Hx as [Hx|Hx].
        * rewrite Q2. apply elem_of_app. auto.
        * apply list_elem_of_singleton in Hx as ->. apply Q6, not_elem_of_nil. }
  split; [done|]. split.
  { intros D. split; [auto|]. intros HD. apply Hall; [|done].
    by destruct HD as (d & Hin & _). }
  intros D P d p HD HP Hne Hd Hp Hpeer.
  apply (Hinv D P); [done| |done].
  exists d, (name p). split; [done|]. split; [done|].
  destruct (Hreg _ HP) as (p' & Hin & Hp' & Hnp).
  assert (p' = p) as -> by congruence. split; [done|].
  apply map_values_elem in Hin as [k Hk].
  destruct (named_entry h n Hnamed _ _ Hk) as (p'' & Hp'' & <-).
  assert (p'' = p) as -> by congruence.
  apply map_entries_get; [|done]. by apply named_NoDup with h.
Qed.

Lemma getSortedRegularDependencies_total fuel h N n :
  h !! N = Some n -> deps_named h n = true ->
  (length (dependencies n) < fuel)%nat ->
  exists sorted, getSortedRegularDependencies fuel h N = Done sorted.
Proof.
  intros HN Hnamed Hfuel. unfold getSortedRegularDependencies, deref.
  rewrite HN. simpl.
  match goal with |- context [foldO ?l ?acc ?body] =>
    destruct (foldO_total (fun _ : JsSet addr => True) body l acc) as (r & Hr & _) end;
    [done| |by exists r].
  intros dep deps Hdep _.
  assert (dep ∈ remove_dups (map_values (dependencies n))) as HU
    by by apply elem_of_remove_dups.
  destruct (U_valid h n Hnamed _ HU) as [d Hd]. rewrite Hd. simpl.
  destruct (set_has (name d) (peerNames n)); simpl; [eauto|].
  assert (unseen n [] < fuel)%nat as Hlt by (pose proof (unseen_le n []); lia).
  destruct (addDep_total h n Hnamed fuel dep [] deps HU Hlt) as (st & Hst & _).
  exists st.2. split; [|done]. by rewrite Hst.
Qed.

(** ** C5: the debug level *)

(** A level the caller gives is the effective one, unless it is 0 or NaN. *)
Lemma effectiveDebugLevel_supplied toNumber env check_ level :
  num_truthy level = true ->
  effectiveDebugLevel toNumber env (mkHoistOptions check_ (Some level)) = level.
Proof. intros Ht. unfold effectiveDebugLevel. simpl. by rewrite Ht. Qed.

(** Without a level, the environment variable decides, and -1 stands in
    when it is unset. *)
Lemma effectiveDebugLevel_absent toNumber env check_ :
  effectiveDebugLevel toNumber env (mkHoistOptions check_ None)
  = match env with
    | Some s => if bool_decide (s = ""%string) then Num (-1) else toNumber s
    | None => Num (-1)
    end.
Proof.
  unfold effectiveDebugLevel. simpl. destruct env as [s|]; simpl; [|done].
  by destruct (bool_decide (s = ""%string)).
Qed.

(** C5, at [hoist(tree, {debugLevel: 0})]: the level 0 of the caller is
    dropped.  With the variable unset the effective level is -1 and nothing
    is timed; with the variable set, the variable decides. *)
Theorem debugLevel_zero_is_dropped :
  (forall toNumber, effectiveDebugLevel toNumber None (Scenarios.withDebugLevel 0) = Num (-1))
  /\ (forall toNumber, effectiveDebugLevel toNumber (Some "5"%string) (Scenarios.withDebugLevel 0)
                       = toNumber "5"%string)
  /\ (exists r w, hoist 20 Scenarios.noNumber None 0%nat (Scenarios.withDebugLevel 0)
                    (mkWorld Scenarios.singleDep []) = Returned r w
                  /\ console r = []).
Proof.
  split; [done|]. split; [done|].
  eexists _, _. split; [vm_compute; reflexivity | reflexivity].
Qed.

(** ** C1: the require promise *)

(** C1, at [. -> a@1 -> .]: the dependency of a@1 on the root is hoisted
    into the root, which does not list itself; afterwards the name resolves
    to nothing from a@1, and the final self check of [hoist] (debug level 1)
    throws its broken require promise. *)
Theorem require_promise_broken_for_root_cycle :
  (exists r w root a,
     hoist 20 Scenarios.noNumber None 0%nat Scenarios.noOptions
       (mkWorld Scenarios.rootCycle []) = Returned r w
     /\ heap w !! 0%nat = Some root
     /\ map_get "a"%string (dependencies root) = Some 2%nat
     /\ heap w !! 2%nat = Some a
     /\ map_get "."%string (originalDependencies a) = Some 0%nat
     /\ set_has "."%string (peerNames a) = false
     /\ resolve (heap w) "."%string [2; 0]%nat = None)
  /\ (exists w dump,
       hoist 20 Scenarios.noNumber None 0%nat (Scenarios.withDebugLevel 1)
         (mkWorld Scenarios.rootCycle [])
       = Raised (CheckFailed
                   [MissingRequire [".@workspace:."; "a@1"]%string ".@workspace:."%string]
                   None dump)
           w).
Proof.
  split; [|eexists _, _; vm_compute; reflexivity].
  eexists _, _, _, _. split; [vm_compute; reflexivity|].
  repeat split; vm_compute; reflexivity.
Qed.

(** ** C4: the candidate list of a name the root holds *)

(** C4, at [. -> {x@1, a@1 -> x@2}]: the root holds x@1, and the walk
    over the popularity keys still appends x@2 to the list of x, which
    then has two elements where the comment of [getHoistIdentMap] says
    it has only one. *)
Theorem pinned_list_grows :
  exists h popularityMap identMap root x,
    Scenarios.workTree Scenarios.pinnedName = Done h
    /\ buildPopularityMap 20 h 0%nat = Done popularityMap
    /\ getHoistIdentMap h 0%nat popularityMap = Done identMap
    /\ h !! 0%nat = Some root
    /\ map_get "x"%string (dependencies root) = Some 1%nat
    /\ h !! 1%nat = Some x
    /\ ident x = "x@1"%string
    /\ set_has "x"%string (peerNames root) = false
    /\ map_get "x"%string identMap = Some ["x@1"; "x@2"]%string.
Proof.
  eexists _, _, _, _, _.
  split; [vm_compute; reflexivity|].
  split; [vm_compute; reflexivity|].
  split; [vm_compute; reflexivity|].
  repeat split; vm_compute; reflexivity.
Qed.

Local Close Scope Z_scope.

(** ** Names that are no candidates *)

Lemma fold_left_inv {A B} (I : B -> Prop) (f : B -> A -> B) l acc :
  I acc -> (forall b x, I b -> x ∈ l -> I (f b x)) -> I (fold_left f l acc).
Proof.
  revert acc. induction l as [|x l IH]; intros acc Hacc Hstep; simpl; [done|].
  apply IH.
  - apply Hstep; [done|left].
  - intros b y Hb Hy. apply Hstep; [done|by right].
Qed.

Lemma addPopularIdent_peersUnlisted r identMap key :
  peersUnlisted r identMap -> peersUnlisted r (addPopularIdent r identMap key).
Proof.
  intros Hun. unfold addPopularIdent.
  destruct (set_has _ (peerNames r)) eqn:Hpeer; simpl; [done|].
  apply set_has_false in Hpeer.
  set (nm := Str.substring key 0 _) in *.
  assert (forall l, peersUnlisted r (map_set nm l identMap)) as Hset.
  { intros l p Hp. rewrite map_get_set. rewrite decide_False; [by apply Hun|].
    intros ->. done. }
  destruct (map_get nm identMap); [|by apply Hset].
  destruct (bool_decide _); [done|by apply Hset].
Qed.

Lemma getHoistIdentMap_peersUnlisted h R r popularityMap identMap :
  h !! R = Some r ->
  getHoistIdentMap h R popularityMap = Done identMap ->
  peersUnlisted r identMap.
Proof.
  intros HR Hrun. unfold getHoistIdentMap in Hrun.
  apply obind_Done in Hrun as (r' & Hr' & Hrun). apply deref_Done in Hr'.
  assert (r' = r) as -> by congruence.
  apply obind_Done in Hrun as (m1 & Hm1 & Hrun). injection Hrun as <-.
  apply fold_left_inv; [|intros; by apply addPopularIdent_peersUnlisted].
  eapply (foldO_inv (peersUnlisted r)); [| |exact Hm1].
  - intros p Hp. simpl. destruct (decide (name r = p)) as [->|Hne].
    + by rewrite decide_True.
    + by rewrite decide_False.
  - intros dep m m' Hm _ Hbody.
    apply obind_Done in Hbody as (d & Hd & Hbody).
    destruct (set_has (name d) (peerNames r)) eqn:Hpeer; simpl in Hbody;
      injection Hbody as <-; [done|].
    apply set_has_false in Hpeer.
    intros p Hp. rewrite map_get_set. rewrite decide_False; [by apply Hm|].
    intros Heq. by rewrite Heq in Hpeer.
Qed.

Lemma headIdents_get identMap p :
  NoDup (map_keys identMap) ->
  map_get p (headIdents identMap) = head <$> map_get p identMap.
Proof.
  intros Hnd. unfold headIdents, map_of_entries.
  rewrite map_of_entries_get.
  - rewrite (map_get_find identMap). rewrite list_find_fmap.
    unfold compose. simpl.
    by destruct (list_find _ (map_entries identMap)) as [[i kv]|].
  - rewrite <- list_fmap_compose. exact Hnd.
Qed.

Lemma addPopularIdent_NoDup r identMap key :
  NoDup (map_keys identMap) -> NoDup (map_keys (addPopularIdent r identMap key)).
Proof.
  intros Hnd. unfold addPopularIdent.
  destruct (negb _); [|done].
  destruct (map_get _ identMap); [|by apply map_keys_set_NoDup].
  destruct (bool_decide _); [done|by apply map_keys_set_NoDup].
Qed.

Lemma getHoistIdentMap_NoDup h R popularityMap identMap :
  getHoistIdentMap h R popularityMap = Done identMap -> NoDup (map_keys identMap).
Proof.
  intros Hrun. unfold getHoistIdentMap in Hrun.
  apply obind_Done in Hrun as (r & Hr & Hrun).
  apply obind_Done in Hrun as (m1 & Hm1 & Hrun). injection Hrun as <-.
  apply fold_left_inv; [|intros; by apply addPopularIdent_NoDup].
  eapply (foldO_inv (fun m : list (option (string * list string)) => NoDup (map_keys m)));
    [| |exact Hm1].
  - apply NoDup_singleton.
  - intros dep m m' Hm _ Hbody.
    apply obind_Done in Hbody as (d & Hd & Hbody).
    destruct (negb _); injection Hbody as <-; [|done].
    by apply map_keys_set_NoDup.
Qed.

Lemma candidates_ok_initial h R r popularityMap identMap :
  h !! R = Some r ->
  getHoistIdentMap h R popularityMap = Done identMap ->
  candidates_ok r (mkCandidates (headIdents identMap) identMap false).
Proof.
  intros HR Hrun. split; simpl.
  - by eapply getHoistIdentMap_peersUnlisted.
  - intros p. rewrite headIdents_get by by eapply getHoistIdentMap_NoDup.
    by destruct (map_get p identMap).
Qed.

Lemma nextCandidate_ok r r' c name_ :
  candidates_ok r c -> candidates_ok r (nextCandidate r' c name_).
Proof.
  intros [Hun Hhead]. unfold nextCandidate.
  destruct (map_get name_ (c_hoistIdentMap c)) as [idents|] eqn:Hget; [|done].
  destruct ((1 <? length idents)%nat && _) eqn:Hcond; [|done].
  apply andb_prop in Hcond as [Hlen _]. apply Nat.ltb_lt in Hlen.
  split; simpl.
  - intros p Hp. rewrite map_get_set. destruct (decide (name_ = p)) as [->|]; [|auto].
    rewrite (Hun p Hp) in Hget. destruct (decide (p = name r)); [|done].
    injection Hget as <-. simpl in Hlen. lia.
  - intros p. rewrite !map_get_set. destruct (decide (name_ = p)) as [->|Hne]; [done|].
    rewrite map_get_delete. by rewrite decide_False.
Qed.

(** The candidate of a peer name of the root, if there is one, is the
    root itself. *)
Lemma candidates_ok_peer r c p :
  candidates_ok r c -> p ∈ peerNames r ->
  mjoin (map_get p (c_hoistIdents c))
  = if decide (p = name r) then Some (ident r) else None.
Proof.
  intros [Hun Hhead] Hp. rewrite Hhead, (Hun p Hp).
  by destruct (decide (p = name r)).
Qed.

(** A node whose name has no candidate is not hoisted. *)
Lemma getNodeHoistInfo_no_candidate h rootNodePath nodePath node n parent pn
    hoistedDependencies_ hoistIdents hoistIdentMap outputReason :
  last nodePath = Some parent -> h !! parent = Some pn -> h !! node = Some n ->
  mjoin (map_get (name n) hoistIdents) = None ->
  getNodeHoistInfo h rootNodePath nodePath node hoistedDependencies_
    hoistIdents hoistIdentMap outputReason = Done (NO None).
Proof.
  intros Hlast Hparent Hnode Hnone. unfold getNodeHoistInfo, deref.
  rewrite Hlast, Hparent, Hnode. simpl. rewrite Hnone. simpl.
  by rewrite !andb_false_r.
Qed.

(** A node that is hoistable, or is so when others are, is the candidate
    of its name. *)
Lemma getNodeHoistInfo_candidate h rootNodePath nodePath node n
    hoistedDependencies_ hoistIdents hoistIdentMap outputReason info :
  h !! node = Some n ->
  getNodeHoistInfo h rootNodePath nodePath node hoistedDependencies_
    hoistIdents hoistIdentMap outputReason = Done info ->
  (forall reason, info ≠ NO reason) ->
  mjoin (map_get (name n) hoistIdents) = Some (ident n).
Proof.
  intros Hnode Hrun Hinfo. unfold getNodeHoistInfo in Hrun.
  destruct (last nodePath) as [parent|]; [|done].
  apply obind_Done in Hrun as (pn & Hpn & Hrun).
  apply obind_Done in Hrun as (n' & Hn' & Hrun). apply deref_Done in Hn'.
  assert (n' = n) as -> by congruence.
  destruct (bool_decide (mjoin (map_get (name n) hoistIdents) = Some (ident n))) eqn:Hcand.
  { by apply bool_decide_eq_true in Hcand. }
  exfalso. simpl in Hrun.
  apply obind_Done in Hrun as (reason & Hreason & Hrun). simpl in Hrun.
  by eapply Hinfo; injection Hrun as <-.
Qed.

(** ** The candidate list of a name the root holds *)

(** The walk over the popularity keys appends to a list, if it changes
    it. *)
Lemma addPopularIdent_head r identMap key k first others :
  map_get k identMap = Some (first :: others) ->
  exists others', map_get k (addPopularIdent r identMap key) = Some (first :: others').
Proof.
  intros Hget. unfold addPopularIdent. cbv zeta.
  destruct (negb _); [|eauto].
  match goal with |- context [map_get ?n identMap] => set (name_ := n) end.
  destruct (map_get name_ identMap) as [idents|] eqn:Hname.
  - destruct (bool_decide _); [eauto|].
    rewrite map_get_set. destruct (decide (name_ = k)) as [Heq|Hne]; [|eauto].
    rewrite Heq in Hname. rewrite Hname in Hget. injection Hget as ->. eauto.
  - rewrite map_get_set. destruct (decide (name_ = k)) as [Heq|Hne]; [|eauto].
    rewrite Heq in Hname. congruence.
Qed.

(** X24: the candidate in force for a name the root holds.  In the map
    [getHoistIdentMap] returns, the list of the name of a direct
    dependency of the root that is no peer dependency starts with the
    ident of that dependency, which is therefore the candidate in force
    for the name; other idents of the name may follow. *)
Theorem pinned_list_starts_with_own_ident h R r popularityMap identMap k D d :
  deps_named h r = true ->
  h !! R = Some r ->
  getHoistIdentMap h R popularityMap = Done identMap ->
  map_get k (dependencies r) = Some D -> h !! D = Some d ->
  k ∉ peerNames r ->
  exists others,
    map_get k identMap = Some (ident d :: others)
    /\ map_get k (headIdents identMap) = Some (Some (ident d)).
Proof.
  intros Hnamed HR Hrun HD Hd Hpeer.
  assert (exists others, map_get k identMap = Some (ident d :: others)) as [others Hget].
  2:{ exists others. split; [done|].
      rewrite headIdents_get by by eapply getHoistIdentMap_NoDup. by rewrite Hget. }
  assert (name d = k) as Hname.
  { apply map_get_entries in HD. destruct (named_entry h r Hnamed _ _ HD) as (d' & Hd' & <-).
    congruence. }
  unfold getHoistIdentMap in Hrun.
  apply obind_Done in Hrun as (r' & Hr' & Hrun). apply deref_Done in Hr'.
  assert (r' = r) as -> by congruence.
  apply obind_Done in Hrun as (m1 & Hm1 & Hrun). injection Hrun as <-.
  apply (fold_left_inv (fun m => exists others, map_get k m = Some (ident d :: others))).
  2:{ intros m key [others Hm] _. by eapply addPopularIdent_head. }
  exists [].
  assert (forall x dx, x ∈ [] ++ map_values (dependencies r) -> h !! x = Some dx ->
            name dx ∉ peerNames r ->
            exists y dy, y ∈ map_values (dependencies r) /\ h !! y = Some dy
                         /\ name dy = name dx /\ map_get (name dx) m1 = Some [ident dy])
    as Hall.
  { eapply (foldO_ind (fun done m =>
      forall x dx, x ∈ done -> h !! x = Some dx -> name dx ∉ peerNames r ->
        exists y dy, y ∈ map_values (dependencies r) /\ h !! y = Some dy
                     /\ name dy = name dx /\ map_get (name dx) m = Some [ident dy]));
      [| |exact Hm1].
    { intros x dx Hx. by apply elem_of_nil in Hx. }
    intros done y m m' IH Hy Hbody x dx Hx Hdx Hxpeer.
    apply obind_Done in Hbody as (dy & Hdy & Hbody). apply deref_Done in Hdy.
    destruct (set_has (name dy) (peerNames r)) eqn:Hypeer; simpl in Hbody;
      injection Hbody as <-.
    - apply set_has_true in Hypeer.
      apply elem_of_app in Hx as [Hx|Hx]; [by eapply IH|].
      apply list_elem_of_singleton in Hx as ->. congruence.
    - rewrite map_get_set. destruct (decide (name dy = name dx)) as [Heq|Hne].
      + exists y, dy. done.
      + apply elem_of_app in Hx as [Hx|Hx]; [by eapply IH|].
        apply list_elem_of_singleton in Hx as ->. congruence. }
  destruct (Hall D d) as (y & dy & Hy & Hdy & Hnm & Hlist).
  { simpl. apply map_values_elem. exists k. by apply map_get_entries. }
  { done. }
  { by rewrite Hname. }
  assert (y = D) as ->.
  { apply map_values_elem in Hy as [ky Hky].
    destruct (named_entry h r Hnamed _ _ Hky) as (dy' & Hdy' & <-).
    assert (dy' = dy) as -> by congruence.
    apply map_entries_get in Hky; [|by eapply named_NoDup].
    rewrite Hnm, Hname, HD in Hky. congruence. }
  assert (dy = d) as -> by congruence. by rewrite <- Hname.
Qed.

Lemma pinned_list_starts_with_own_ident_witness :
  exists popularityMap identMap others,
    buildPopularityMap 20 pinnedNameHeap 0%nat = Done popularityMap
    /\ getHoistIdentMap pinnedNameHeap 0%nat popularityMap = Done identMap
    /\ map_get "x"%string identMap = Some ("x@1"%string :: others)
    /\ map_get "x"%string (headIdents identMap) = Some (Some "x@1"%string).
Proof.
  eexists _, _.
  destruct (pinned_list_starts_with_own_ident pinnedNameHeap 0%nat
              (mkWork "." ["workspace:."%string] ".@workspace:." ".@workspace:."
                 [Some ("x"%string, 1%nat); Some ("a"%string, 2%nat)]
                 [Some ("x"%string, 1%nat); Some ("a"%string, 2%nat)] [] [] true [])
              [Some ("x@x@1"%string, [".@workspace:."%string]);
               Some ("a@a@1"%string, [".@workspace:."%string]);
               Some ("x@x@2"%string, ["a@1"%string])]
              [Some ("."%string, [".@workspace:."%string]);
               Some ("x"%string, ["x@1"; "x@2"]%string);
               Some ("a"%string, ["a@1"%string])]
              "x"%string 1%nat
              (mkWork "x" ["1"%string] "x@1" "x@1" [] [] [] [] true []))
    as (others & Hget & Hhead);
    [reflexivity|reflexivity|reflexivity|reflexivity|reflexivity|apply not_elem_of_nil|].
  exists others. split; [reflexivity|]. split; [reflexivity|]. split; [exact Hget|exact Hhead].
Defined.

(** ** Running code that writes *)

Lemma bind_Done {S A B} (m : M S A) (k : A -> M S B) s b s' :
  bind m k s = Returned b s' ->
  exists a s1, m s = Returned a s1 /\ k a s1 = Returned b s'.
Proof. unfold bind. destruct (m s) as [a s1| |]; [eauto|done|done]. Qed.

Lemma ret_Done {S A} (a : A) (s : S) b s' :
  ret a s = Returned b s' -> b = a /\ s' = s.
Proof. unfold ret. by intros [= -> ->]. Qed.

Lemma lift_Done {S A} (o : Outcome A) (s : S) a s' :
  lift o s = Returned a s' -> o = Done a /\ s' = s.
Proof. unfold lift. destruct o; [|done|done]. by intros [= -> ->]. Qed.

Lemma get_st_Done {S} (s : S) a s' : get_st s = Returned a s' -> a = s /\ s' = s.
Proof. unfold get_st. by intros [= -> ->]. Qed.

Lemma read_Done a (h : list HoisterWorkTree) n h' :
  read a h = Returned n h' -> h !! a = Some n /\ h' = h.
Proof. unfold read. destruct (h !! a); [|done]. by intros [= -> ->]. Qed.

Lemma modify_Done a f (h : list HoisterWorkTree) u h' :
  modify a f h = Returned u h' -> exists n, h !! a = Some n /\ h' = <[a := f n]> h.
Proof. unfold modify. destruct (h !! a) as [n|]; [|done]. intros [= <-]. eauto. Qed.

Lemma alloc_Done n (h : list HoisterWorkTree) a h' :
  alloc n h = Returned a h' -> a = length h /\ h' = h ++ [n].
Proof. unfold alloc. by intros [= <- <-]. Qed.

Lemma failCheck_Returned {A} fuel h tree checkLog after s (a : A) s' :
  failCheck fuel h tree checkLog after s = Returned a s' -> False.
Proof.
  unfold failCheck. intros Hrun.
  apply bind_Done in Hrun as (after' & s1 & _ & Hrun).
  apply bind_Done in Hrun as (dump & s2 & _ & Hrun). done.
Qed.

Lemma foldM_ind {S A B} (I : list A -> B -> S -> Prop) (body : B -> A -> M S B) :
  forall l done acc s r s',
    I done acc s ->
    (forall d x b s b' s', I d b s -> x ∈ l -> body b x s = Returned b' s' ->
                           I (d ++ [x]) b' s') ->
    foldM l acc body s = Returned r s' -> I (done ++ l) r s'.
Proof.
  induction l as [|x l IH]; intros done acc s r s' Hacc Hstep Hfold; simpl in Hfold.
  - apply ret_Done in Hfold as [-> ->]. by rewrite app_nil_r.
  - apply bind_Done in Hfold as (acc' & s1 & Hb & Hfold).
    rewrite (assoc_L (++) done [x] l : done ++ x :: l = (done ++ [x]) ++ l).
    eapply IH; [| |exact Hfold].
    + eapply Hstep; [exact Hacc|left|exact Hb].
    + intros d y b s0 b' s0' Hd Hy. apply Hstep; [done|by right].
Qed.

Lemma foldM_inv {S A B} (I : B -> S -> Prop) (body : B -> A -> M S B) l acc s r s' :
  I acc s ->
  (forall x b s b' s', I b s -> x ∈ l -> body b x s = Returned b' s' -> I b' s') ->
  foldM l acc body s = Returned r s' -> I r s'.
Proof.
  intros Hacc Hstep Hfold.
  apply (foldM_ind (fun _ => I) body l [] acc s r s'); eauto.
Qed.

(** ** Well-formed heaps *)

Lemma deps_named_spec (h : list HoisterWorkTree) n :
  deps_named h n = true <->
  (forall k x, (k, x) ∈ map_entries (dependencies n) ->
               exists d, h !! x = Some d /\ name d = k)
  /\ NoDup (map_keys (dependencies n)).
Proof.
  unfold deps_named. rewrite andb_true_iff, bool_decide_eq_true, forallb_forall.
  split; intros [Hall Hnd]; (split; [|done]).
  - intros k x Hin. apply list_elem_of_In in Hin. specialize (Hall _ Hin). simpl in Hall.
    destruct (h !! x) as [d|]; [|done]. apply bool_decide_eq_true in Hall. eauto.
  - intros [k x] Hin. apply list_elem_of_In in Hin.
    destruct (Hall _ _ Hin) as (d & Hx & Hd). simpl. rewrite Hx.
    by apply bool_decide_eq_true.
Qed.

Lemma heap_ok_spec (h : list HoisterWorkTree) :
  heap_ok h = true <-> forall a n, h !! a = Some n -> deps_named h n = true.
Proof.
  unfold heap_ok. rewrite forallb_forall. split.
  - intros Hall a n Ha. apply Hall, list_elem_of_In. by eapply list_elem_of_lookup_2.
  - intros Hall n Hn. apply list_elem_of_In, list_elem_of_lookup in Hn as [a Ha]. eauto.
Qed.

Lemma heap_ok_entry h a n k x :
  heap_ok h = true -> h !! a = Some n -> (k, x) ∈ map_entries (dependencies n) ->
  exists d, h !! x = Some d /\ name d = k.
Proof.
  intros Hok Ha Hin. rewrite heap_ok_spec in Hok.
  specialize (Hok _ _ Ha). apply deps_named_spec in Hok as [Hall _]. eauto.
Qed.

Lemma heap_ok_NoDup h a n :
  heap_ok h = true -> h !! a = Some n -> NoDup (map_keys (dependencies n)).
Proof.
  intros Hok Ha. rewrite heap_ok_spec in Hok.
  specialize (Hok _ _ Ha). by apply deps_named_spec in Hok as [_ ?].
Qed.

Lemma heap_ok_named h a n :
  heap_ok h = true -> h !! a = Some n -> deps_named h n = true.
Proof. intros Hok. rewrite heap_ok_spec in Hok. apply Hok. Qed.

(** ** What the writes keep *)

Lemma sameNode_refl n : sameNode n n.
Proof. by repeat split. Qed.

Lemma sameNode_trans n1 n2 n3 : sameNode n1 n2 -> sameNode n2 n3 -> sameNode n1 n3.
Proof.
  intros (?&?&?&?&?) (?&?&?&?&?). repeat split; congruence.
Qed.

Lemma ext_refl h : ext h h.
Proof.
  split; [done| |].
  - intros a n Ha. exists n. split; [done|apply sameNode_refl].
  - intros a n Ha. by exists a, n.
Qed.

Lemma ext_trans h1 h2 h3 : ext h1 h2 -> ext h2 h3 -> ext h1 h3.
Proof.
  intros [L1 K1 O1] [L2 K2 O2]. split; [lia| |].
  - intros a n Ha. destruct (K1 _ _ Ha) as (n' & Ha' & Hs).
    destruct (K2 _ _ Ha') as (n'' & Ha'' & Hs').
    exists n''. split; [done|by eapply sameNode_trans].
  - intros a n Ha. destruct (O2 _ _ Ha) as (a' & n' & Ha' & ? & ? & ?).
    destruct (O1 _ _ Ha') as (a'' & n'' & Ha'' & ? & ? & ?).
    exists a'', n''. repeat split; congruence.
Qed.

Lemma ext_insert (h : list HoisterWorkTree) x n n' :
  h !! x = Some n -> sameNode n n' -> ext h (<[x := n']> h).
Proof.
  intros Hx Hs. split.
  - by rewrite length_insert.
  - intros a m Ha. destruct (decide (a = x)) as [->|Hne].
    + exists n'. rewrite list_lookup_insert_eq by by eapply lookup_lt_Some.
      split; [done|]. by assert (m = n) as -> by congruence.
    + exists m. rewrite list_lookup_insert_ne by done. split; [done|apply sameNode_refl].
  - intros a m Ha. destruct (decide (a = x)) as [->|Hne].
    + rewrite list_lookup_insert_eq in Ha by by eapply lookup_lt_Some.
      injection Ha as <-. exists x, n. destruct Hs as (?&?&?&?&?). done.
    + rewrite list_lookup_insert_ne in Ha by done. by exists a, m.
Qed.

Lemma sameNode_cloneNode_id n :
  name (cloneNode n) = name n /\ ident (cloneNode n) = ident n
  /\ locator (cloneNode n) = locator n.
Proof. done. Qed.

Lemma ext_alloc (h : list HoisterWorkTree) a n :
  h !! a = Some n -> ext h (h ++ [cloneNode n]).
Proof.
  intros Ha. split.
  - rewrite length_app. lia.
  - intros b m Hb. exists m. split; [by apply lookup_app_l_Some|apply sameNode_refl].
  - intros b m Hb. apply lookup_app_Some in Hb as [Hb|[_ Hb]].
    + by exists b, m.
    + apply list_lookup_singleton_Some in Hb as [_ <-]. by exists a, n.
Qed.

Lemma with_dependencies_same d n : sameNode n (with_dependencies d n).
Proof. by repeat split. Qed.

Lemma step_ext root h h' : step root h h' -> ext h h'.
Proof.
  intros [h0 x n n' Hx Hs Hd|h0 x n n' k Hx Hne Hs Hd|h0 x n k d nd Hx Hd Hk Hc|h0 a n Ha].
  - by eapply ext_insert.
  - by eapply ext_insert.
  - eapply ext_insert; [done|apply with_dependencies_same].
  - by eapply ext_alloc.
Qed.

Lemma rtc_step_ext root h h' : rtc (step root) h h' -> ext h h'.
Proof.
  induction 1 as [|h1 h2 h3 Hs _ IH]; [apply ext_refl|].
  eapply ext_trans; [by eapply step_ext|done].
Qed.

Lemma heap_ok_insert (h : list HoisterWorkTree) x n n' :
  heap_ok h = true -> h !! x = Some n -> name n' = name n ->
  NoDup (map_keys (dependencies n')) ->
  (forall k d, (k, d) ∈ map_entries (dependencies n') ->
               exists nd, h !! d = Some nd /\ name nd = k) ->
  heap_ok (<[x := n']> h) = true.
Proof.
  intros Hok Hx Hname Hnd Hent. apply heap_ok_spec. intros a m Ha.
  assert (forall k d, (exists nd, h !! d = Some nd /\ name nd = k) ->
                      exists nd, <[x := n']> h !! d = Some nd /\ name nd = k) as Hkeep.
  { intros k d (nd & Hd & Hk). destruct (decide (d = x)) as [->|Hne].
    - exists n'. rewrite list_lookup_insert_eq by by eapply lookup_lt_Some.
      split; [done|]. congruence.
    - exists nd. by rewrite list_lookup_insert_ne. }
  apply deps_named_spec. destruct (decide (a = x)) as [->|Hne].
  - rewrite list_lookup_insert_eq in Ha by by eapply lookup_lt_Some.
    injection Ha as <-. split; [|done]. intros k d Hin. by apply Hkeep, Hent.
  - rewrite list_lookup_insert_ne in Ha by done. split.
    + intros k d Hin. apply Hkeep. by eapply heap_ok_entry.
    + by eapply heap_ok_NoDup.
Qed.

Lemma heap_ok_alloc (h : list HoisterWorkTree) c :
  heap_ok h = true ->
  NoDup (map_keys (dependencies c)) ->
  (forall k d, (k, d) ∈ map_entries (dependencies c) ->
               exists nd, h !! d = Some nd /\ name nd = k) ->
  heap_ok (h ++ [c]) = true.
Proof.
  intros Hok Hnd Hent. apply heap_ok_spec. intros a m Ha.
  assert (forall k d, (exists nd, h !! d = Some nd /\ name nd = k) ->
                      exists nd, (h ++ [c]) !! d = Some nd /\ name nd = k) as Hkeep.
  { intros k d (nd & Hd & Hk). exists nd. split; [by apply lookup_app_l_Some|done]. }
  apply deps_named_spec. apply lookup_app_Some in Ha as [Ha|[_ Ha]].
  - split.
    + intros k d Hin. apply Hkeep. by eapply heap_ok_entry.
    + by eapply heap_ok_NoDup.
  - apply list_lookup_singleton_Some in Ha as [_ <-]. split; [|done].
    intros k d Hin. by apply Hkeep, Hent.
Qed.

Lemma step_heap_ok root h h' : step root h h' -> heap_ok h = true -> heap_ok h' = true.
Proof.
  intros [h0 x n n' Hx Hs Hd|h0 x n n' k Hx Hne Hs Hd|h0 x n k d nd Hx Hd Hk Hc|h0 a n Ha] Hok.
  - eapply heap_ok_insert; [done|done|by destruct Hs| |].
    + rewrite Hd. by eapply heap_ok_NoDup.
    + rewrite Hd. intros k d Hin. by eapply heap_ok_entry.
  - eapply heap_ok_insert; [done|done|by destruct Hs| |].
    + rewrite Hd. by eapply map_keys_delete_NoDup, heap_ok_NoDup.
    + rewrite Hd. intros k' d Hin. apply map_entries_delete in Hin as [Hin _].
      by eapply heap_ok_entry.
  - eapply heap_ok_insert; [done|done|done| |]; simpl.
    + by eapply map_keys_set_NoDup, heap_ok_NoDup.
    + intros k' d' Hin. apply map_entries_set in Hin as [[= -> ->]|Hin]; [eauto|].
      eapply heap_ok_entry; [exact Hok|exact Hx|exact Hin].
  - pose proof (heap_ok_NoDup _ _ _ Hok Ha) as Hnd.
    apply heap_ok_alloc; [done| |]; simpl.
    + apply map_copy_keys_NoDup.
    + intros k d. rewrite map_entries_copy by done. intros Hin. by eapply heap_ok_entry.
Qed.

Lemma rtc_step_heap_ok root h h' :
  rtc (step root) h h' -> heap_ok h = true -> heap_ok h' = true.
Proof. induction 1; eauto using step_heap_ok. Qed.

Lemma step_noPeerGain root h h' : step root h h' -> noPeerGain h h'.
Proof.
  intros Hstep y m p Hy Hp Hnone.
  destruct Hstep as [h0 x n n' Hx Hs Hd|h0 x n n' k Hx Hne Hs Hd
                    |h0 x n k d nd Hx Hd Hk Hc|h0 a n Ha].
  - destruct (decide (y = x)) as [->|Hne].
    + exists n'. rewrite list_lookup_insert_eq by by eapply lookup_lt_Some.
      split; [done|]. rewrite Hd. congruence.
    + exists m. by rewrite list_lookup_insert_ne.
  - destruct (decide (y = x)) as [->|Hne'].
    + exists n'. rewrite list_lookup_insert_eq by by eapply lookup_lt_Some.
      split; [done|]. rewrite Hd, map_get_delete.
      destruct (decide (k = p)); [done|congruence].
    + exists m. by rewrite list_lookup_insert_ne.
  - destruct (decide (y = x)) as [->|Hne].
    + eexists. rewrite list_lookup_insert_eq by by eapply lookup_lt_Some.
      split; [done|]. simpl. rewrite map_get_set.
      assert (m = n) as -> by congruence.
      destruct (decide (k = p)) as [->|]; [|done]. exfalso.
      destruct Hc as [Hhas|[_ Hnp]]; [|done].
      unfold map_has in Hhas. by rewrite Hnone in Hhas.
    + exists m. by rewrite list_lookup_insert_ne.
  - exists m. split; [by apply lookup_app_l_Some|done].
Qed.

Lemma rtc_step_noPeerGain root h h' : rtc (step root) h h' -> noPeerGain h h'.
Proof.
  induction 1 as [h|h1 h2 h3 Hs _ IH].
  - intros x n p Hx _ Hnone. eauto.
  - intros x n p Hx Hp Hnone.
    destruct (step_noPeerGain _ _ _ Hs _ _ _ Hx Hp Hnone) as (n' & Hx' & Hnone').
    destruct (ext_keep _ _ (step_ext _ _ _ Hs) _ _ Hx) as (n'' & Hx'' & Hsame).
    assert (n'' = n') as -> by congruence.
    apply (IH x n' p); [done| |done].
    destruct Hsame as (_ & _ & _ & -> & _). done.
Qed.

Lemma map_has_set {K V} `{EqDecision K} (k k' : K) (v : V) m :
  map_has k (map_set k' v m) = if decide (k' = k) then true else map_has k m.
Proof. unfold map_has. rewrite map_get_set. by destruct (decide (k' = k)). Qed.

Lemma step_hasKey root h h' k : step root h h' -> hasKey h root k -> hasKey h' root k.
Proof.
  intros Hstep (r & Hr & Hk).
  destruct Hstep as [h0 x n n' Hx Hs Hd|h0 x n n' k' Hx Hne Hs Hd
                    |h0 x n k' d nd Hx Hd Hk' Hc|h0 a n Ha].
  - destruct (decide (root = x)) as [->|Hne].
    + exists n'. rewrite list_lookup_insert_eq by by eapply lookup_lt_Some.
      split; [done|]. rewrite Hd. congruence.
    + exists r. by rewrite list_lookup_insert_ne.
  - exists r. by rewrite list_lookup_insert_ne.
  - destruct (decide (root = x)) as [->|Hne].
    + eexists. rewrite list_lookup_insert_eq by by eapply lookup_lt_Some.
      split; [done|]. simpl. rewrite map_has_set.
      destruct (decide (k' = k)); [done|congruence].
    + exists r. by rewrite list_lookup_insert_ne.
  - exists r. split; [by apply lookup_app_l_Some|done].
Qed.

Lemma step_keyCount root h h' : step root h h' -> (keyCount h root <= keyCount h' root)%nat.
Proof.
  unfold keyCount.
  intros [h0 x n n' Hx Hs Hd|h0 x n n' k' Hx Hne Hs Hd
         |h0 x n k' d nd Hx Hd Hk' Hc|h0 a n Ha].
  - destruct (decide (root = x)) as [->|Hne].
    + rewrite list_lookup_insert_eq by by eapply lookup_lt_Some. by rewrite Hx, Hd.
    + by rewrite list_lookup_insert_ne.
  - by rewrite list_lookup_insert_ne.
  - destruct (decide (root = x)) as [->|Hne].
    + rewrite list_lookup_insert_eq by by eapply lookup_lt_Some. rewrite Hx. simpl.
      rewrite map_keys_set. destruct (map_has k' (dependencies n)); [done|].
      rewrite length_app. lia.
    + by rewrite list_lookup_insert_ne.
  - destruct (h0 !! root) as [r|] eqn:Hr.
    + by rewrite (lookup_app_l_Some _ _ _ _ Hr).
    + lia.
Qed.

Lemma rtc_step_keyCount root h h' :
  rtc (step root) h h' -> (keyCount h root <= keyCount h' root)%nat.
Proof.
  induction 1 as [|h1 h2 h3 Hs _ IH]; [done|].
  pose proof (step_keyCount _ _ _ Hs). lia.
Qed.

Lemma step_depsLength root h h' x :
  step root h h' -> x ≠ root -> is_Some (h !! x) -> depsLength h' x = depsLength h x.
Proof.
  unfold depsLength.
  intros [h0 y n n' Hy Hs Hd|h0 y n n' k' Hy Hne Hs Hd
         |h0 y n k' d nd Hy Hd Hk' Hc|h0 a n Ha] Hx [m Hm].
  - destruct (decide (x = y)) as [->|Hne].
    + rewrite list_lookup_insert_eq by by eapply lookup_lt_Some. rewrite Hy. simpl.
      by rewrite Hd.
    + by rewrite list_lookup_insert_ne.
  - destruct (decide (x = y)) as [->|Hne'].
    + rewrite list_lookup_insert_eq by by eapply lookup_lt_Some. rewrite Hy. simpl.
      by rewrite Hd, map_delete_length.
    + by rewrite list_lookup_insert_ne.
  - destruct (decide (x = y)) as [->|Hne].
    + rewrite list_lookup_insert_eq by by eapply lookup_lt_Some. rewrite Hy. simpl.
      rewrite map_set_length. destruct Hc as [->|[? _]]; [done|by subst].
    + by rewrite list_lookup_insert_ne by congruence.
  - by rewrite (lookup_app_l_Some _ _ _ _ Hm), Hm.
Qed.

(** ** decoupleGraphNode and hoistNode *)

Lemma rtc_step_lookup root h h' x n :
  rtc (step root) h h' -> h !! x = Some n ->
  exists n', h' !! x = Some n' /\ sameNode n n'.
Proof. intros Hs. apply ext_keep. by eapply rtc_step_ext. Qed.

Lemma decoupleGraphNode_spec root parent node h c h' :
  decoupleGraphNode parent node h = Returned c h' ->
  forall p n, h !! parent = Some p -> h !! node = Some n ->
    (map_has (name n) (dependencies p) = true \/ (parent = root /\ name n ∉ peerNames p)) ->
    rtc (step root) h h'
    /\ (exists nc, h' !! c = Some nc /\ name nc = name n /\ locator nc = locator n
                   /\ ident nc = ident n)
    /\ (forall x, x ≠ parent -> (x < length h)%nat -> h' !! x = h !! x)
    /\ (exists p', h' !! parent = Some p'
                   /\ (dependencies p' = dependencies p
                       \/ dependencies p' = map_set (name n) c (dependencies p))).
Proof.
  intros Hrun p n Hp Hn Hside. unfold decoupleGraphNode in Hrun.
  apply bind_Done in Hrun as (n' & h0 & Hread & Hrun).
  apply read_Done in Hread as [Hn' ->]. assert (n' = n) as -> by congruence.
  destruct (decoupled n).
  { apply ret_Done in Hrun as [-> ->]. split; [done|]. split; [by exists n|].
    split; [done|]. exists p. auto. }
  apply bind_Done in Hrun as (c' & h1 & Halloc & Hrun).
  apply alloc_Done in Halloc as [-> ->].
  apply bind_Done in Hrun as (u & h2 & Hself & Hrun).
  apply bind_Done in Hrun as (u' & h3 & Hmod & Hrun).
  apply ret_Done in Hrun as [-> ->].
  set (c := length h) in *.
  assert (parent < c)%nat as Hlt by by eapply lookup_lt_Some.
  assert (rtc (step root) h (h ++ [cloneNode n])) as Hs1 by by eapply rtc_once, step_alloc.
  assert ((h ++ [cloneNode n]) !! c = Some (cloneNode n)) as Hc.
  { rewrite lookup_app_r by done. unfold c. by rewrite Nat.sub_diag. }
  (* the self reference of the clone *)
  assert (rtc (step root) h h2
          /\ (exists nc, h2 !! c = Some nc /\ name nc = name n /\ locator nc = locator n
                         /\ ident nc = ident n)
          /\ (forall x, (x < c)%nat -> h2 !! x = h !! x)
          /\ length h2 = S c) as (Hs2 & Hc2 & Hold2 & Hlen2).
  { assert (forall x, (x < c)%nat -> (h ++ [cloneNode n]) !! x = h !! x) as Hold1
      by (intros; by apply lookup_app_l).
    assert (length (h ++ [cloneNode n]) = S c) as Hlen1
      by (rewrite length_app; simpl; unfold c; lia).
    destruct (map_get (name n) (map_copy (dependencies n))) as [selfDep|] eqn:Hget.
    2:{ apply ret_Done in Hself as [_ ->]. split; [done|]. split; [by exists (cloneNode n)|].
        done. }
    apply bind_Done in Hself as (s & h1' & Hread & Hself).
    apply read_Done in Hread as [Hs ->].
    destruct (bool_decide (ident s = ident n)).
    2:{ apply ret_Done in Hself as [_ ->]. split; [done|]. split; [by exists (cloneNode n)|].
        done. }
    apply modify_Done in Hself as (nc & Hnc & ->).
    assert (nc = cloneNode n) as -> by congruence.
    split.
    { eapply rtc_r; [exact Hs1|]. eapply step_set; [exact Hc|exact Hc|done|].
      left. unfold map_has. simpl. by rewrite Hget. }
    split.
    { eexists. rewrite list_lookup_insert_eq by lia. done. }
    split.
    { intros x Hx. rewrite list_lookup_insert_ne by lia. by apply Hold1. }
    by rewrite length_insert. }
  apply modify_Done in Hmod as (p2 & Hp2 & ->).
  rewrite Hold2 in Hp2 by done. assert (p2 = p) as -> by congruence.
  destruct Hc2 as (nc & Hnc & Hname & Hloc & Hid).
  split.
  { eapply rtc_r; [exact Hs2|]. rewrite <- Hname.
    eapply step_set; [by rewrite Hold2|exact Hnc|done|]. by rewrite Hname. }
  split.
  { exists nc. rewrite list_lookup_insert_ne by lia. done. }
  split.
  { intros x Hx Hxlt. rewrite list_lookup_insert_ne by done. by apply Hold2. }
  eexists. rewrite list_lookup_insert_eq by lia. split; [done|]. by right.
Qed.

Lemma decoupleGraphNode_fresh parent node h c h' :
  decoupleGraphNode parent node h = Returned c h' -> c = node \/ c = length h.
Proof.
  intros Hrun. unfold decoupleGraphNode in Hrun.
  apply bind_Done in Hrun as (n' & h0 & Hread & Hrun).
  apply read_Done in Hread as [Hn' ->].
  destruct (decoupled n').
  { apply ret_Done in Hrun as [-> ->]. by left. }
  apply bind_Done in Hrun as (c' & h1 & Halloc & Hrun).
  apply alloc_Done in Halloc as [-> ->].
  apply bind_Done in Hrun as (u & h2 & Hself & Hrun).
  apply bind_Done in Hrun as (u' & h3 & Hmod & Hrun).
  apply ret_Done in Hrun as [-> ->]. by right.
Qed.

Lemma markHoisted_same k node p : sameNode p (markHoisted k node p).
Proof. by repeat split. Qed.

Lemma keyCount_insert_ne (h : list HoisterWorkTree) x y n :
  x ≠ y -> keyCount (<[y := n]> h) x = keyCount h x.
Proof. intros Hne. unfold keyCount. by rewrite list_lookup_insert_ne. Qed.

Lemma depsOf_insert_ne (h : list HoisterWorkTree) x y n :
  x ≠ y -> depsOf (<[y := n]> h) x = depsOf h x.
Proof. intros Hne. unfold depsOf. by rewrite list_lookup_insert_ne. Qed.

Lemma depsOf_insert_same (h : list HoisterWorkTree) x n n' :
  h !! x = Some n -> dependencies n' = dependencies n ->
  depsOf (<[x := n']> h) x = depsOf h x.
Proof.
  intros Hx Hd. unfold depsOf.
  rewrite list_lookup_insert_eq by by eapply lookup_lt_Some. rewrite Hx. simpl. by rewrite Hd.
Qed.

Lemma hoistNode_spec root parentNode next node h next' h' :
  hoistNode root parentNode next node h = Returned next' h' ->
  parentNode ≠ root ->
  forall r nd, h !! root = Some r -> h !! node = Some nd ->
    (name nd ∈ peerNames r -> ident r = ident nd) ->
    rtc (step root) h h'
    /\ (forall x, x ≠ parentNode -> x ≠ root -> depsOf h' x = depsOf h x)
    /\ (next' = next
        \/ (next' = set_add node next /\ (keyCount h root < keyCount h' root)%nat
            /\ name nd ∉ peerNames r)).
Proof.
  intros Hrun Hne r nd Hr Hnd Hcand. unfold hoistNode in Hrun.
  apply bind_Done in Hrun as (nd' & h0 & Hread & Hrun).
  apply read_Done in Hread as [Hnd' ->]. assert (nd' = nd) as -> by congruence.
  apply bind_Done in Hrun as (u & h1 & Hmod & Hrun).
  apply modify_Done in Hmod as (p & Hp & ->).
  apply bind_Done in Hrun as (r' & h1' & Hread & Hrun).
  apply read_Done in Hread as [Hr' ->].
  rewrite list_lookup_insert_ne in Hr' by done. assert (r' = r) as -> by congruence.
  set (h1 := <[parentNode := markHoisted (name nd) node p]> h) in *.
  assert (rtc (step root) h h1) as Hs1.
  { eapply rtc_once, step_delete; [done|done|apply markHoisted_same|done]. }
  assert (forall x, x ≠ parentNode -> depsOf h1 x = depsOf h x) as Hdeps1
    by (intros; by apply depsOf_insert_ne).
  assert (exists nd1, h1 !! node = Some nd1 /\ sameNode nd nd1) as (nd1 & Hnd1 & Hsame1)
    by by eapply rtc_step_lookup.
  assert (h1 !! root = Some r) as Hr1 by by (unfold h1; rewrite list_lookup_insert_ne).
  destruct (map_get (name nd) (dependencies r)) as [hoistedNode|] eqn:Hget.
  - (* the root has the name: the references are merged *)
    apply bind_Done in Hrun as (nd2 & h1' & Hread & Hrun).
    apply read_Done in Hread as [_ ->].
    apply bind_Done in Hrun as (u' & h2 & Hmod & Hrun).
    apply ret_Done in Hrun as [-> ->].
    apply modify_Done in Hmod as (hn & Hhn & ->).
    split.
    { eapply rtc_r; [exact Hs1|]. eapply step_other; [done|by repeat split|done]. }
    split; [|by left].
    intros x Hx _. rewrite <- Hdeps1 by done.
    destruct (decide (x = hoistedNode)) as [->|].
    + by eapply depsOf_insert_same.
    + by apply depsOf_insert_ne.
  - destruct (bool_decide (ident r = ident nd)) eqn:Hid; simpl in Hrun.
    { apply ret_Done in Hrun as [-> ->]. split; [done|]. split; [|by left].
      intros x Hx _. by apply Hdeps1. }
    apply bool_decide_eq_false in Hid.
    apply bind_Done in Hrun as (u' & h2 & Hmod & Hrun).
    apply ret_Done in Hrun as [-> ->].
    apply modify_Done in Hmod as (r2 & Hr2 & ->).
    assert (r2 = r) as -> by congruence.
    assert (name nd ∉ peerNames r) as Hnp by (intros Hin; by apply Hid, Hcand).
    split.
    { eapply rtc_r; [exact Hs1|].
      replace (name nd) with (name nd1) by by destruct Hsame1.
      eapply step_set; [done|done|done|]. right.
      by replace (name nd1) with (name nd) by by destruct Hsame1 as [-> _]. }
    split.
    { intros x Hx Hxr. rewrite depsOf_insert_ne by done. by apply Hdeps1. }
    right. split; [done|]. split; [|done].
    unfold keyCount. rewrite list_lookup_insert_eq by by eapply lookup_lt_Some.
    rewrite Hr. simpl. rewrite map_keys_set.
    unfold map_has. rewrite Hget. rewrite length_app. simpl. lia.
Qed.

(** ** The nodes that are hoisted are candidates *)

Lemma classifyDependencies_candidates rootNodePath hd hoistIdents hoistIdentMap options
    fuel h nodePath parentNode infos :
  classifyDependencies rootNodePath hd hoistIdents hoistIdentMap options
    fuel h nodePath parentNode = Done infos ->
  forall node info, map_get node infos.1 = Some info -> notNO info ->
                    isCandidate h hoistIdents node.
Proof.
  intros Hrun. unfold classifyDependencies in Hrun.
  apply obind_Done in Hrun as (sorted & _ & Hrun).
  eapply (foldO_inv (fun st : list (option (nat * HoistInfo))
                              * list (option (string * list string)) =>
            forall node info, map_get node st.1 = Some info -> notNO info ->
                              isCandidate h hoistIdents node)); [| |exact Hrun].
  { intros node info Hget. done. }
  intros sub [his dt] st' Hinv _ Hbody. simpl in *.
  apply obind_Done in Hbody as (info & Hinfo & Hbody).
  assert (forall node info', map_get node (map_set sub info his) = Some info' ->
                             notNO info' -> isCandidate h hoistIdents node) as Hnew.
  { intros node info' Hget Hnot. rewrite map_get_set in Hget.
    destruct (decide (sub = node)) as [->|]; [|by eapply Hinv].
    injection Hget as ->. unfold getNodeHoistInfo in Hinfo.
    destruct (last (nodePath ++ [parentNode])) as [parent|] eqn:Hlast; [|done].
    pose proof Hinfo as Hinfo'.
    apply obind_Done in Hinfo' as (pn & _ & Hinfo').
    apply obind_Done in Hinfo' as (n & Hn & _). apply deref_Done in Hn.
    exists n. split; [done|].
    eapply getNodeHoistInfo_candidate; [done| |done].
    unfold getNodeHoistInfo. rewrite Hlast. exact Hinfo. }
  destruct info as [|reason|ds].
  - by injection Hbody as <-.
  - by injection Hbody as <-.
  - apply obind_Done in Hbody as (dt' & _ & Hbody). by injection Hbody as <-.
Qed.

Lemma addUnhoistableNode_spec fuel h p dependantTree info :
  forall node st st',
    addUnhoistableNode fuel h p dependantTree node info st = Done st' ->
    (forall x, x ∈ st.1 -> x ∈ st'.1)
    /\ node ∈ st'.1
    /\ (forall x, x ∉ st'.1 -> map_get x st'.2 = map_get x st.2).
Proof.
  induction fuel as [|fuel IH]; intros node [unh his] st' Hrun; [done|].
  simpl in Hrun. destruct (set_has node unh) eqn:Hhas; simpl in Hrun.
  { injection Hrun as <-. apply set_has_true in Hhas. done. }
  apply obind_Done in Hrun as (nd & _ & Hrun).
  eapply (foldO_inv (fun st' : list nat * list (option (nat * HoistInfo)) =>
            (forall x, x ∈ set_add node unh -> x ∈ st'.1)
            /\ (forall x, x ∉ st'.1 ->
                          map_get x st'.2 = map_get x (map_set node info his))))
    in Hrun as [Hsub Hkeep].
  - simpl. split; [intros x Hx; apply Hsub, elem_of_set_add; auto|].
    split; [apply Hsub, elem_of_set_add; auto|].
    intros x Hx. rewrite Hkeep by done. rewrite map_get_set.
    rewrite decide_False; [done|]. intros ->. apply Hx, Hsub, elem_of_set_add. auto.
  - done.
  - intros dependantName st1 st2 [Hsub Hkeep] _ Hbody.
    destruct (map_get dependantName (dependencies p)) as [dependant|]; [|done].
    apply IH in Hbody as (Hsub' & _ & Hkeep').
    split; [by auto|]. intros x Hx. rewrite Hkeep' by done. apply Hkeep. by auto.
Qed.

Lemma collectUnhoistable_spec fuel h parentNode hoistInfos dependantTree un :
  collectUnhoistable fuel h parentNode hoistInfos dependantTree = Done un ->
  forall node, node ∈ map_keys un.2 -> node ∉ un.1 ->
    exists info, map_get node hoistInfos = Some info /\ notNO info.
Proof.
  intros Hrun node Hkey Hnot. unfold collectUnhoistable in Hrun.
  apply obind_Done in Hrun as (p & _ & Hrun).
  eapply (foldO_ind (fun (ks : list nat) (st : list nat * list (option (nat * HoistInfo))) =>
            (forall x, x ∉ st.1 -> map_get x st.2 = map_get x hoistInfos)
            /\ (forall x, x ∈ ks -> x ∉ st.1 ->
                          exists info, map_get x hoistInfos = Some info /\ notNO info)))
    in Hrun as [Hkeep Hdone].
  - rewrite app_nil_l in Hdone. apply Hdone; [|done].
    apply map_has_true. apply map_has_true in Hkey. unfold map_has in *.
    by rewrite <- Hkeep.
  - split; [done|]. intros x Hx. by apply elem_of_nil in Hx.
  - intros ks k [unh his] st' [Hkeep Hdone] Hk Hbody. simpl in *.
    assert (forall st' : list nat * list (option (nat * HoistInfo)),
              (forall x, x ∈ unh -> x ∈ st'.1) ->
              (forall x, x ∉ st'.1 -> map_get x st'.2 = map_get x his) ->
              (k ∈ st'.1 \/ exists info, map_get k his = Some info /\ notNO info) ->
              (forall x, x ∉ st'.1 -> map_get x st'.2 = map_get x hoistInfos)
              /\ (forall x, x ∈ ks ++ [k] -> x ∉ st'.1 ->
                            exists info, map_get x hoistInfos = Some info /\ notNO info))
      as Hgoal.
    { intros st2 Hsub Hkeep2 Hk2. split.
      - intros x Hx. rewrite Hkeep2 by done. apply Hkeep. by auto.
      - intros x Hx Hxn. apply elem_of_app in Hx as [Hx|Hx]; [apply Hdone; by auto|].
        apply list_elem_of_singleton in Hx as ->.
        destruct Hk2 as [?|(info & Hinfo & Hno)]; [done|].
        exists info. split; [|done]. rewrite <- Hkeep; [done|by auto]. }
    destruct (map_get k his) as [[|reason|ds]|] eqn:Hget.
    + injection Hbody as <-. apply Hgoal; [done|done|]. right. by eexists.
    + apply addUnhoistableNode_spec in Hbody as (Hsub & Hin & Hkeep2).
      apply Hgoal; auto.
    + injection Hbody as <-. apply Hgoal; [done|done|]. right. by eexists.
    + injection Hbody as <-. split; [done|].
      intros x Hx Hxn. apply elem_of_app in Hx as [Hx|Hx]; [by auto|].
      apply list_elem_of_singleton in Hx as ->. exfalso.
      apply map_has_true in Hk. unfold map_has in Hk.
      rewrite <- Hkeep in Hk by done. by rewrite Hget in Hk.
Qed.

(** ** hoistNodeDependencies *)

Lemma set_delete_add {K} `{EqDecision K} (x : K) (s : list K) :
  x ∉ s -> set_delete x (set_add x s) = s.
Proof.
  intros Hx. unfold set_add, set_delete.
  apply set_has_false in Hx. rewrite Hx. apply set_has_false in Hx.
  induction s as [|y s IH]; simpl.
  - rewrite filter_cons. by rewrite decide_False by (intros ?; done).
  - apply not_elem_of_cons in Hx as [Hne Hx].
    rewrite filter_cons. rewrite decide_True by done. by rewrite IH.
Qed.

Lemma regularNames_ext h h' r l : ext h h' -> regularNames h r l -> regularNames h' r l.
Proof.
  intros Hext Hreg x Hx. destruct (Hreg x Hx) as (nx & Hnx & Hnp).
  destruct (ext_keep _ _ Hext _ _ Hnx) as (nx' & Hnx' & Hsame).
  exists nx'. split; [done|]. by destruct Hsame as [-> _].
Qed.

Lemma regularNames_same h r r' l :
  sameNode r r' -> regularNames h r l <-> regularNames h r' l.
Proof.
  intros (_ & _ & _ & Hp & _). unfold regularNames. by rewrite Hp.
Qed.

Lemma rootCandidates_same r r' hoistIdents :
  sameNode r r' -> rootCandidates r hoistIdents -> rootCandidates r' hoistIdents.
Proof.
  intros (Hn & Hi & _ & Hp & _) Hc q Hq. rewrite Hn, Hi. apply Hc. by rewrite <- Hp.
Qed.

Lemma isCandidate_regular h r hoistIdents node nd :
  rootCandidates r hoistIdents -> isCandidate h hoistIdents node ->
  h !! node = Some nd -> name nd ∈ peerNames r -> ident r = ident nd.
Proof.
  intros Hc (n & Hn & Hcand) Hnd Hin. assert (n = nd) as -> by congruence.
  rewrite (Hc _ Hin) in Hcand. destruct (decide (name nd = name r)); congruence.
Qed.

Section HoistNodeDependencies.
Variables (tree root : nat) (rootNodePath : list string).
Variable hoistedDependencies_ : list (option (string * nat)).
Variable hoistIdents : list (option (string * option string)).
Variable hoistIdentMap : list (option (string * list string)).
Variable options : InternalHoistOptions.

Local Abbreviation hoistNodeDeps :=
  (hoistNodeDependencies tree root rootNodePath hoistedDependencies_
     hoistIdents hoistIdentMap options).

Lemma hoistNodeDependencies_spec fuel :
  forall nodePath locatorPath parentNode st h st' h',
    hoistNodeDeps fuel nodePath locatorPath parentNode st h = Returned st' h' ->
    heap_ok h = true ->
    forall r p,
      h !! root = Some r -> h !! parentNode = Some p ->
      locator r ∈ locatorPath -> locator p ≠ locator r ->
      (forall x, x ∈ st.1 -> x ≠ root /\ (x < length h)%nat) ->
      rootCandidates r hoistIdents ->
      regularNames h r st.2 ->
      hoistPost root h r st st' h'.
Proof.
  induction fuel as [|fuel IH];
    intros nodePath locatorPath parentNode [seen next] h st' h' Hrun Hok r p Hr Hp
      Hrloc Hploc Hseen Hcands Hnext; [done|].
  simpl in Hrun. destruct (set_has parentNode seen) eqn:Hhas.
  { apply ret_Done in Hrun as [-> ->]. unfold hoistPost. simpl.
    split; [done|]. split; [done|]. split; [done|]. split; [by left|done]. }
  apply set_has_false in Hhas.
  assert (parentNode ≠ root) as Hproot by (intros ->; congruence).
  apply bind_Done in Hrun as (h0 & h0' & Hget & Hrun).
  apply get_st_Done in Hget as [-> ->].
  apply bind_Done in Hrun as (infos & h0' & Hclass & Hrun).
  apply lift_Done in Hclass as [Hclass ->].
  apply bind_Done in Hrun as (un & h0' & Hcoll & Hrun).
  apply lift_Done in Hcoll as [Hcoll ->].
  apply bind_Done in Hrun as (next1 & h1 & Hhoist & Hrun).
  apply bind_Done in Hrun as (u & h1' & Hcheck & Hrun).
  assert (h1' = h1) as ->.
  { unfold runSelfCheck in Hcheck. destruct (check options).
    - apply bind_Done in Hcheck as (hx & hx' & Hget & Hcheck).
      apply get_st_Done in Hget as [-> ->].
      apply bind_Done in Hcheck as (lg & hx' & Hlift & Hcheck).
      apply lift_Done in Hlift as [_ ->].
      destruct lg; [|by apply failCheck_Returned in Hcheck].
      by apply ret_Done in Hcheck as [_ ->].
    - by apply ret_Done in Hcheck as [_ ->]. }
  apply bind_Done in Hrun as (h1x & h1' & Hget & Hrun).
  apply get_st_Done in Hget as [-> ->].
  apply bind_Done in Hrun as (children & h1' & Hchildren & Hrun).
  apply lift_Done in Hchildren as [Hchildren ->].
  (* the hoistable nodes move to the root *)
  assert (rtc (step root) h h1
          /\ (forall x, x ≠ parentNode -> x ≠ root -> depsOf h1 x = depsOf h x)
          /\ (next1 = next \/ (keyCount h root < keyCount h1 root)%nat)
          /\ regularNames h1 r next1) as (Hs1 & Hdeps1 & Hcount1 & Hnext1).
  { eapply (foldM_inv (fun next_c h_c =>
      rtc (step root) h h_c
      /\ (forall x, x ≠ parentNode -> x ≠ root -> depsOf h_c x = depsOf h x)
      /\ (next_c = next \/ (keyCount h root < keyCount h_c root)%nat)
      /\ regularNames h_c r next_c)); [| |exact Hhoist].
    { split; [done|]. split; [done|]. split; [by left|done]. }
    intros node next_c h_c next_c' h_c' (Hs & Hd & Hc & Hn) Hnode Hbody.
    destruct (set_has node un.1) eqn:Hun; simpl in Hbody.
    { by apply ret_Done in Hbody as [-> ->]. }
    apply set_has_false in Hun.
    destruct (collectUnhoistable_spec _ _ _ _ _ _ Hcoll node Hnode Hun)
      as (info & Hinfo & Hnot).
    pose proof (classifyDependencies_candidates _ _ _ _ _ _ _ _ _ _ Hclass
                  _ _ Hinfo Hnot) as Hcand.
    destruct Hcand as (n0 & Hn0 & Hcand).
    destruct (rtc_step_lookup _ _ _ _ _ Hs Hn0) as (nd & Hnd & Hsame).
    destruct (rtc_step_lookup _ _ _ _ _ Hs Hr) as (r_c & Hr_c & Hrsame).
    eapply hoistNode_spec in Hbody as (Hs' & Hd' & Hc'); [|done|exact Hr_c|exact Hnd|].
    2:{ intros Hin. destruct Hsame as (Hn1 & Hi1 & _). destruct Hrsame as (_ & Hi2 & _ & Hp2 & _).
        rewrite Hi1, Hi2. eapply isCandidate_regular; [exact Hcands| |exact Hn0|].
        - by exists n0.
        - by rewrite <- Hn1, <- Hp2. }
    pose proof (rtc_step_keyCount _ _ _ Hs) as Hmono.
    pose proof (rtc_step_keyCount _ _ _ Hs') as Hmono'.
    split; [by etrans|].
    split; [intros x Hx Hxr; rewrite Hd' by done; by apply Hd|].
    destruct Hc' as [->|(-> & Hlt & Hnp)].
    - split; [destruct Hc; [by left|right; lia]|].
      eapply regularNames_ext; [by eapply rtc_step_ext|done].
    - split; [right; lia|].
      intros x Hx. apply elem_of_set_add in Hx as [->|Hx].
      + destruct (rtc_step_lookup _ _ _ _ _ Hs' Hnd) as (nd' & Hnd' & Hsame').
        exists nd'. split; [done|]. destruct Hsame' as [-> _].
        by destruct Hrsame as (_ & _ & _ & <- & _).
      + eapply regularNames_ext; [by eapply rtc_step_ext|done|done]. }
  (* the others are decoupled and visited *)
  pose proof (rtc_step_heap_ok _ _ _ Hs1 Hok) as Hok1.
  destruct (rtc_step_lookup _ _ _ _ _ Hs1 Hp) as (p1 & Hp1 & Hpsame).
  destruct (rtc_step_lookup _ _ _ _ _ Hs1 Hr) as (r1 & Hr1 & Hrsame).
  pose proof (getSortedRegularDependencies_spec _ _ _ _ _ Hp1
                (heap_ok_named _ _ _ Hok1 Hp1) Hchildren) as (_ & Hreg & _).
  set (I2 := fun (st_c : list nat * list nat) (h_c : list HoisterWorkTree) =>
      (rtc (step root) h1 h_c
       /\ st_c.1 = seen
       /\ (forall x, x ∈ seen -> depsOf h_c x = depsOf h1 x)
       /\ (st_c.2 = next1 \/ (keyCount h1 root < keyCount h_c root)%nat)
       /\ regularNames h_c r st_c.2)
      /\ (map_keys <$> depsOf h_c parentNode = map_keys <$> depsOf h1 parentNode)).
  assert (I2 st' h') as [(Hs2 & Hseen2 & Hdeps2 & Hcount2 & Hnext2) _].
  { eapply (foldM_inv I2); [| |exact Hrun]; unfold I2.
    { simpl. split; [|done]. split; [done|]. split; [done|]. split; [done|].
      split; [by left|done]. }
    clear Hrun. intros node [seen_c next_c] h_c [seen_c' next_c'] h_c'
      [(Hs & Hsn & Hd & Hc & Hn) Hkeys] Hnode Hbody.
    simpl in Hsn. subst seen_c. simpl in *.
    destruct (set_has node un.1) eqn:Hun; [|by apply ret_Done in Hbody as [[= -> ->] ->]].
    apply bind_Done in Hbody as (nd & h_c0 & Hread & Hbody).
    apply read_Done in Hread as [Hnd ->].
    destruct (bool_decide (locator nd ∈ locatorPath)) eqn:Hloc; simpl in Hbody;
      [by apply ret_Done in Hbody as [[= -> ->] ->]|].
    apply bool_decide_eq_false in Hloc.
    destruct (map_get node un.2) as [hoistInfo|]; [|done].
    apply bind_Done in Hbody as (u1 & h_a & Hreason & Hbody).
    apply bind_Done in Hbody as (dn & h_b & Hdec & Hbody).
    apply bind_Done in Hbody as (p_b & h_b0 & Hread & Hbody).
    apply read_Done in Hread as [Hp_b ->].
    apply bind_Done in Hbody as (st2 & h_d & Hrec & Hbody).
    apply ret_Done in Hbody as [[= -> ->] ->].
    (* the facts at h_c *)
    pose proof (rtc_step_heap_ok _ _ _ Hs Hok1) as Hok_c.
    destruct (rtc_step_lookup _ _ _ _ _ Hs Hp1) as (p_c & Hp_c & Hpsame_c).
    destruct (rtc_step_lookup _ _ _ _ _ Hs Hr1) as (r_c & Hr_c & Hrsame_c).
    (* the reason is recorded *)
    assert (exists p_a, h_a = <[parentNode := p_a]> h_c /\ sameNode p_c p_a
                        /\ dependencies p_a = dependencies p_c)
      as (p_a & -> & Hpsame_a & Hpdeps_a).
    { destruct hoistInfo as [|reason|ds].
      - apply ret_Done in Hreason as [_ ->]. exists p_c.
        split; [by rewrite list_insert_id|]. split; [apply sameNode_refl|done].
      - apply modify_Done in Hreason as (p_c' & Hp_c' & ->).
        assert (p_c' = p_c) as -> by congruence. eexists. split; [done|].
        split; [by repeat split|done].
      - apply ret_Done in Hreason as [_ ->]. exists p_c.
        split; [by rewrite list_insert_id|]. split; [apply sameNode_refl|done]. }
    set (h_a := <[parentNode := p_a]> h_c) in *.
    assert (rtc (step root) h_c h_a) as Hs_a by by eapply rtc_once, step_other.
    assert (h_a !! parentNode = Some p_a) as Hp_a
      by (unfold h_a; rewrite list_lookup_insert_eq; [done|by eapply lookup_lt_Some]).
    destruct (rtc_step_lookup _ _ _ _ _ Hs_a Hnd) as (nd_a & Hnd_a & Hndsame_a).
    (* the name of the node is one of the names of the parent *)
    assert (map_has (name nd_a) (dependencies p_a) = true) as Hhas_a.
    { apply map_has_true. rewrite Hpdeps_a.
      assert (map_keys (dependencies p_c) = map_keys (dependencies p1)) as ->.
      { unfold depsOf in Hkeys. rewrite Hp_c, Hp1 in Hkeys. simpl in Hkeys. congruence. }
      apply Hreg in Hnode as (n1 & Hin & Hn1 & _).
      apply map_values_elem in Hin as [k Hk].
      destruct (heap_ok_entry _ _ _ _ _ Hok1 Hp1 Hk) as (n1' & Hn1' & <-).
      assert (n1' = n1) as -> by congruence.
      destruct (rtc_step_lookup _ _ _ _ _ Hs Hn1) as (nd' & Hnd' & Hsame').
      assert (nd' = nd) as -> by congruence.
      destruct Hndsame_a as [-> _]. destruct Hsame' as [-> _].
      unfold map_keys. apply list_elem_of_fmap. by exists (name n1, node). }
    eapply decoupleGraphNode_spec in Hdec as (Hs_b & (nc & Hnc & Hncname & Hncloc & _)
                                               & Hold_b & (p_b' & Hp_b' & Hpdeps_b));
      [|exact Hp_a|exact Hnd_a|by left].
    assert (p_b' = p_b) as -> by congruence.
    (* the visit of the decoupled node *)
    assert (rtc (step root) h1 h_b) as Hs1b by (etrans; [exact Hs|]; by etrans).
    pose proof (rtc_step_heap_ok _ _ _ Hs1b Hok1) as Hok_b.
    destruct (rtc_step_lookup _ _ _ _ _ Hs1b Hr1) as (r_b & Hr_b & Hrsame_b).
    assert (sameNode r r_b) as Hrsame_b' by by eapply sameNode_trans.
    assert (length h1 <= length h_b)%nat as Hlen_b
      by by eapply ext_length, rtc_step_ext.
    assert (length h <= length h1)%nat as Hlen_1
      by by eapply ext_length, rtc_step_ext.
    eapply IH in Hrec; [|exact Hok_b|exact Hr_b|exact Hnc| | | | |].
    2:{ destruct Hrsame_b' as (_ & _ & -> & _). apply elem_of_app. by left. }
    2:{ rewrite Hncloc. destruct Hndsame_a as (_ & _ & -> & _).
        destruct Hrsame_b' as (_ & _ & -> & _). intros Heq. apply Hloc. by rewrite Heq. }
    2:{ simpl. intros x Hx. apply elem_of_set_add in Hx as [->|Hx].
        - split; [done|]. by eapply lookup_lt_Some.
        - destruct (Hseen x Hx). split; [done|lia]. }
    2:{ by eapply rootCandidates_same. }
    2:{ simpl. apply (regularNames_same _ r r_b); [done|].
        eapply (regularNames_ext h_a h_b); [by eapply rtc_step_ext|].
        eapply (regularNames_ext h_c h_a); [by eapply rtc_step_ext|done]. }
    destruct Hrec as (Hs_d & Hseen_d & Hdeps_d & Hcount_d & Hnext_d). simpl in *.
    assert (forall x, x ≠ parentNode -> (x < length h_c)%nat ->
                      depsOf h_b x = depsOf h_c x) as Hframe.
    { intros x Hx Hlt. unfold depsOf. rewrite Hold_b.
      - unfold h_a. by rewrite list_lookup_insert_ne.
      - done.
      - unfold h_a. by rewrite length_insert. }
    assert (length h1 <= length h_c)%nat as Hlen_c
      by by eapply ext_length, rtc_step_ext.
    split.
    { split; [etrans; [exact Hs1b|exact Hs_d]|].
      split; [rewrite Hseen_d; by apply set_delete_add|].
      split.
      { intros x Hx. destruct (Hseen x Hx) as [Hxr Hxlt].
        rewrite Hdeps_d by (apply elem_of_set_add; auto).
        rewrite Hframe; [by apply Hd| |lia]. by intros ->. }
      split.
      { pose proof (rtc_step_keyCount _ _ _ Hs) as Hm1.
        pose proof (rtc_step_keyCount _ _ _ Hs_a) as Hm2.
        pose proof (rtc_step_keyCount _ _ _ Hs_b) as Hm3.
        pose proof (rtc_step_keyCount _ _ _ Hs_d) as Hm4.
        destruct Hcount_d as [->|Hlt]; [destruct Hc; [by left|right; lia]|right; lia]. }
      by apply (regularNames_same _ r r_b). }
    rewrite Hdeps_d by (apply elem_of_set_add; auto).
    rewrite <- Hkeys. unfold depsOf. rewrite Hp_b', Hp_c. simpl. f_equal.
    destruct Hpdeps_b as [->| ->]; [by rewrite Hpdeps_a|].
    rewrite map_keys_set, Hhas_a. by rewrite Hpdeps_a. }
  unfold hoistPost. simpl in *.
  split; [by etrans|]. split; [done|].
  split.
  { intros x Hx. destruct (Hseen x Hx) as [Hxr Hxlt].
    rewrite Hdeps2 by done. apply Hdeps1; [|done]. by intros ->. }
  split.
  { pose proof (rtc_step_keyCount _ _ _ Hs1) as Hm1.
    pose proof (rtc_step_keyCount _ _ _ Hs2) as Hm2.
    destruct Hcount2 as [->|Hlt]; [destruct Hcount1; [by left|right; lia]|right; lia]. }
  done.
Qed.
End HoistNodeDependencies.

(** ** hoistGraph *)

Section HoistGraphSpec.
Variables (tree root : nat) (rootNodePath : list string).
Variable hoistedDependencies_ : list (option (string * nat)).
Variable hoistIdents : list (option (string * option string)).
Variable hoistIdentMap : list (option (string * list string)).
Variable options : InternalHoistOptions.

Lemma hoistNewNodes_spec fuel newNodes seen h st' h' :
  hoistNewNodes tree root rootNodePath hoistedDependencies_ hoistIdents hoistIdentMap
    options fuel newNodes seen h = Returned st' h' ->
  heap_ok h = true ->
  forall r, h !! root = Some r ->
    (forall x, x ∈ seen -> x ≠ root /\ (x < length h)%nat) ->
    rootCandidates r hoistIdents ->
    regularNames h r newNodes ->
    rtc (step root) h h'
    /\ st'.1 = seen
    /\ (st'.2 = [] \/ (keyCount h root < keyCount h' root)%nat)
    /\ regularNames h' r st'.2.
Proof.
  intros Hrun Hok r Hr Hseen Hcands Hnew. unfold hoistNewNodes in Hrun.
  set (I := fun (st_c : list nat * list nat) (h_c : list HoisterWorkTree) =>
    rtc (step root) h h_c
    /\ st_c.1 = seen
    /\ (st_c.2 = [] \/ (keyCount h root < keyCount h_c root)%nat)
    /\ regularNames h_c r st_c.2).
  assert (I st' h') as HI; [|exact HI].
  eapply (foldM_inv I); [| |exact Hrun]; unfold I.
  { split; [done|]. split; [done|]. split; [by left|].
    intros x Hx. by apply elem_of_nil in Hx. }
  clear Hrun. intros dep [seen_c next_c] h_c st2 h_c' (Hs & Hsn & Hc & Hn) Hdep Hbody.
  simpl in Hsn. subst seen_c. simpl in *.
  apply bind_Done in Hbody as (d & h0 & Hread & Hbody).
  apply read_Done in Hread as [Hd ->].
  apply bind_Done in Hbody as (r_c & h0 & Hread & Hbody).
  apply read_Done in Hread as [Hr_c ->].
  destruct (bool_decide (locator d = locator r_c)) eqn:Hloc.
  { by apply ret_Done in Hbody as [-> ->]. }
  apply bool_decide_eq_false in Hloc.
  apply bind_Done in Hbody as (dd & h_b & Hdec & Hbody).
  apply bind_Done in Hbody as (r_b & h0 & Hread & Hbody).
  apply read_Done in Hread as [Hr_b ->].
  pose proof (rtc_step_heap_ok _ _ _ Hs Hok) as Hok_c.
  destruct (rtc_step_lookup _ _ _ _ _ Hs Hr) as (r_c' & Hr_c' & Hrsame_c).
  assert (r_c' = r_c) as -> by congruence.
  assert (name d ∉ peerNames r_c) as Hnp.
  { destruct (regularNames_ext _ _ _ _ (rtc_step_ext _ _ _ Hs) Hnew dep Hdep)
      as (d' & Hd' & Hnp).
    assert (d' = d) as -> by congruence.
    by destruct Hrsame_c as (_ & _ & _ & -> & _). }
  eapply decoupleGraphNode_spec in Hdec as (Hs_b & (nc & Hnc & Hncname & Hncloc & _) & _ & _);
    [|exact Hr_c|exact Hd|by right].
  assert (rtc (step root) h h_b) as Hsb by by etrans.
  pose proof (rtc_step_heap_ok _ _ _ Hsb Hok) as Hok_b.
  destruct (rtc_step_lookup _ _ _ _ _ Hsb Hr) as (r_b' & Hr_b' & Hrsame_b).
  assert (r_b' = r_b) as -> by congruence.
  eapply hoistNodeDependencies_spec in Hbody;
    [|exact Hok_b|exact Hr_b|exact Hnc| | | | |].
  2:{ apply list_elem_of_singleton. done. }
  2:{ rewrite Hncloc. destruct Hrsame_b as (_ & _ & -> & _).
      by destruct Hrsame_c as (_ & _ & <- & _). }
  2:{ simpl. intros x Hx. destruct (Hseen x Hx). split; [done|].
      pose proof (ext_length _ _ (rtc_step_ext _ _ _ Hsb)). lia. }
  2:{ by eapply rootCandidates_same. }
  2:{ simpl. apply (regularNames_same _ r r_b); [done|].
      eapply (regularNames_ext h_c h_b); [exact (rtc_step_ext _ _ _ Hs_b)|done]. }
  destruct Hbody as (Hs_d & Hseen_d & _ & Hcount_d & Hnext_d). simpl in *.
  split; [by etrans|]. split; [done|].
  split.
  { pose proof (rtc_step_keyCount _ _ _ Hs) as Hm1.
    pose proof (rtc_step_keyCount _ _ _ Hs_b) as Hm2.
    pose proof (rtc_step_keyCount _ _ _ Hs_d) as Hm3.
    destruct Hcount_d as [->|Hlt]; [destruct Hc; [by left|right; lia]|right; lia]. }
  by apply (regularNames_same _ r r_b).
Qed.

Lemma hoistGraphLoop_spec fuel :
  forall newNodes seen h u h',
    hoistGraphLoop tree root rootNodePath hoistedDependencies_ hoistIdents hoistIdentMap
      options fuel newNodes seen h = Returned u h' ->
    heap_ok h = true ->
    forall r, h !! root = Some r ->
      (forall x, x ∈ seen -> x ≠ root /\ (x < length h)%nat) ->
      rootCandidates r hoistIdents ->
      regularNames h r newNodes ->
      rtc (step root) h h'.
Proof.
  induction fuel as [|fuel IH]; intros newNodes seen h u h' Hrun Hok r Hr Hseen Hcands Hnew;
    [done|].
  simpl in Hrun. apply bind_Done in Hrun as (st & h1 & Hround & Hrun).
  eapply hoistNewNodes_spec in Hround as (Hs & Hsn & _ & Hnext); eauto.
  destruct (st.2) as [|x next] eqn:Hst2.
  { by apply ret_Done in Hrun as [_ ->]. }
  destruct (rtc_step_lookup _ _ _ _ _ Hs Hr) as (r1 & Hr1 & Hrsame).
  etrans; [exact Hs|].
  eapply IH; [exact Hrun|by eapply rtc_step_heap_ok|exact Hr1| | |].
  - rewrite Hsn. intros y Hy. destruct (Hseen y Hy). split; [done|].
    pose proof (ext_length _ _ (rtc_step_ext _ _ _ Hs)). lia.
  - by eapply rootCandidates_same.
  - by apply (regularNames_same _ r r1).
Qed.

Lemma hoistGraph_spec fuel h u h' :
  hoistGraph tree root rootNodePath hoistedDependencies_ hoistIdents hoistIdentMap
    options fuel h = Returned u h' ->
  heap_ok h = true ->
  forall r, h !! root = Some r ->
    rootCandidates r hoistIdents ->
    rtc (step root) h h'.
Proof.
  intros Hrun Hok r Hr Hcands. unfold hoistGraph in Hrun.
  apply bind_Done in Hrun as (h0 & h0' & Hget & Hrun).
  apply get_st_Done in Hget as [-> ->].
  apply bind_Done in Hrun as (sorted & h0' & Hsorted & Hrun).
  apply lift_Done in Hsorted as [Hsorted ->].
  eapply hoistGraphLoop_spec; [exact Hrun|done|exact Hr| |done|].
  - intros x Hx. by apply elem_of_nil in Hx.
  - intros x Hx. rewrite elem_of_set_of_list in Hx.
    eapply getSortedRegularDependencies_spec in Hsorted as (_ & Hreg & _);
      [|exact Hr|by eapply heap_ok_named].
    apply Hreg in Hx as (d & _ & Hd & Hnp). eauto.
Qed.
End HoistGraphSpec.

(** ** hoistTo *)

Lemma candidates_ok_root r c : candidates_ok r c -> rootCandidates r (c_hoistIdents c).
Proof. intros Hc q Hq. by apply candidates_ok_peer. Qed.

Lemma hoistToLoop_spec fuel :
  forall tree root rootNodePath hoistedDependencies_ c options h u h',
    hoistToLoop fuel tree root rootNodePath hoistedDependencies_ c options h = Returned u h' ->
    heap_ok h = true ->
    forall r, h !! root = Some r ->
      candidates_ok r c ->
      rtc (step root) h h'.
Proof.
  induction fuel as [|fuel IH];
    intros tree root rootNodePath hd c options h u h' Hrun Hok r Hr Hc; [done|].
  simpl in Hrun. apply bind_Done in Hrun as (u1 & h1 & Hgraph & Hrun).
  eapply hoistGraph_spec in Hgraph; [|done|exact Hr|by apply candidates_ok_root].
  apply bind_Done in Hrun as (r1 & h1' & Hread & Hrun).
  apply read_Done in Hread as [Hr1 ->].
  match type of Hrun with context [fold_left ?f ?l ?a] => set (c' := fold_left f l a) in * end.
  destruct (wasStateChanged c').
  - etrans; [exact Hgraph|].
    destruct (rtc_step_lookup _ _ _ _ _ Hgraph Hr) as (r1' & Hr1' & Hrsame).
    assert (r1' = r1) as -> by congruence.
    eapply IH; [exact Hrun|by eapply rtc_step_heap_ok|exact Hr1|].
    assert (candidates_ok r c') as Hc'.
    { unfold c'. apply fold_left_inv; [by destruct c|].
      intros c0 k Hc0 _. by apply nextCandidate_ok. }
    destruct Hc' as [Hun Hhead]. destruct Hrsame as (Hn & Hi & _ & Hp & _).
    split; [|done]. intros q Hq. rewrite Hn, Hi. apply Hun. by rewrite <- Hp.
  - by apply ret_Done in Hrun as [_ ->].
Qed.

Lemma stepTo_ext Q h h' : stepTo Q h h' -> ext h h'.
Proof. intros (root & _ & Hs). by eapply step_ext. Qed.

Lemma rtc_stepTo_ext Q h h' : rtc (stepTo Q) h h' -> ext h h'.
Proof.
  induction 1 as [|h1 h2 h3 Hs _ IH]; [apply ext_refl|].
  eapply ext_trans; [by eapply stepTo_ext|done].
Qed.

Lemma rtc_stepTo_heap_ok Q h h' : rtc (stepTo Q) h h' -> heap_ok h = true -> heap_ok h' = true.
Proof.
  induction 1 as [|h1 h2 h3 (root & _ & Hs) _ IH]; [done|].
  intros Hok. apply IH. by eapply step_heap_ok.
Qed.

Lemma rtc_stepTo_noPeerGain Q h h' : rtc (stepTo Q) h h' -> noPeerGain h h'.
Proof.
  induction 1 as [h|h1 h2 h3 Hst _ IH].
  - intros x n p Hx _ Hnone. eauto.
  - intros x n p Hx Hp Hnone. pose proof Hst as (root & _ & Hs).
    destruct (step_noPeerGain _ _ _ Hs _ _ _ Hx Hp Hnone) as (n' & Hx' & Hnone').
    destruct (ext_keep _ _ (step_ext _ _ _ Hs) _ _ Hx) as (n'' & Hx'' & Hsame).
    assert (n'' = n') as -> by congruence.
    apply (IH x n' p); [done| |done].
    destruct Hsame as (_ & _ & _ & -> & _). done.
Qed.

Lemma rtc_stepTo_mono (Q1 Q2 : list HoisterWorkTree -> nat -> Prop) h h' :
  rtc (stepTo Q1) h h' ->
  (forall hx root, ext h hx -> Q1 hx root -> Q2 hx root) ->
  rtc (stepTo Q2) h h'.
Proof.
  induction 1 as [|h1 h2 h3 Hst _ IH]; intros Himp; [done|].
  pose proof (stepTo_ext _ _ _ Hst) as Hext.
  destruct Hst as (root & HQ & Hs).
  eapply rtc_l.
  - exists root. split; [|done]. apply Himp; [apply ext_refl|done].
  - apply IH. intros hx root' Hext'. apply Himp. by eapply ext_trans.
Qed.

Lemma rtc_step_stepTo (Q : list HoisterWorkTree -> nat -> Prop) root h h' :
  rtc (step root) h h' ->
  (forall hx, ext h hx -> Q hx root) ->
  rtc (stepTo Q) h h'.
Proof.
  induction 1 as [|h1 h2 h3 Hs _ IH]; intros HQ; [done|].
  eapply rtc_l.
  - exists root. split; [|done]. apply HQ, ext_refl.
  - apply IH. intros hx Hext. apply HQ. eapply ext_trans; [by eapply step_ext|done].
Qed.

Lemma hoistTo_spec fuel :
  (forall tree D path options seenNodes h path' h',
     hoistTo fuel tree D path options seenNodes h = Returned path' h' ->
     heap_ok h = true ->
     rtc (stepTo (rootOk path D)) h h' /\ path' = path)
  /\ (forall tree D i path options h path' h',
        hoistSubRoots fuel tree D i path options h = Returned path' h' ->
        heap_ok h = true ->
        rtc (stepTo (rootOk path D)) h h' /\ path' = path).
Proof.
  induction fuel as [|fuel [IH1 IH2]]; [split; intros; done|].
  split.
  - intros tree D path options seenNodes h path' h' Hrun Hok. simpl in Hrun.
    destruct (set_has D seenNodes).
    { by apply ret_Done in Hrun as [-> ->]. }
    apply bind_Done in Hrun as (h0 & h0' & Hget & Hrun).
    apply get_st_Done in Hget as [-> ->].
    apply bind_Done in Hrun as (pm & h0' & Hpm & Hrun).
    apply lift_Done in Hpm as [Hpm ->].
    apply bind_Done in Hrun as (im & h0' & Him & Hrun).
    apply lift_Done in Him as [Him ->].
    apply bind_Done in Hrun as (hd & h0' & Hhd & Hrun).
    assert (h0' = h) as ->.
    { destruct (bool_decide (D = tree)).
      - by apply ret_Done in Hhd as [_ ->].
      - by apply lift_Done in Hhd as [_ ->]. }
    apply bind_Done in Hrun as (u & h1 & Hloop & Hrun).
    assert (exists r, h !! D = Some r) as [r Hr].
    { unfold getHoistIdentMap in Him. apply obind_Done in Him as (r & Hr & _).
      apply deref_Done in Hr. eauto. }
    eapply hoistToLoop_spec in Hloop; [|done|exact Hr|by eapply candidates_ok_initial].
    apply IH2 in Hrun as [Hs ->]; [|by eapply rtc_step_heap_ok].
    split; [|done]. etrans; [|exact Hs].
    eapply rtc_step_stepTo; [done|]. intros hx _. by left.
  - intros tree D i path options h path' h' Hrun Hok. simpl in Hrun.
    apply bind_Done in Hrun as (r & h0 & Hread & Hrun).
    apply read_Done in Hread as [Hr ->].
    destruct (dependencies r !! i) as [[[k dep]|]|].
    + apply bind_Done in Hrun as (d & h0 & Hread & Hrun).
      apply read_Done in Hread as [Hd ->].
      destruct (negb (set_has (name d) (peerNames r)) && negb (set_has (locator d) path))
        eqn:Hcond; [|by apply IH2 in Hrun].
      apply andb_prop in Hcond as [_ Hloc]. apply negb_true_iff, set_has_false in Hloc.
      apply bind_Done in Hrun as (p1 & h1 & Hsub & Hrun).
      apply IH1 in Hsub as [Hs1 ->]; [|done].
      apply IH2 in Hrun as [Hs2 ->]; [|by eapply rtc_stepTo_heap_ok].
      rewrite set_delete_add in * by done. split; [|done].
      etrans; [|exact Hs2].
      eapply rtc_stepTo_mono; [exact Hs1|].
      intros hx root Hext [->|(n & Hn & Hnloc)].
      * right. destruct (ext_keep _ _ Hext _ _ Hd) as (d' & Hd' & Hsame).
        exists d'. split; [done|]. by destruct Hsame as (_ & _ & -> & _).
      * right. exists n. split; [done|]. intros Hin. apply Hnloc, elem_of_set_add. auto.
    + by apply IH2 in Hrun.
    + by apply ret_Done in Hrun as [-> ->].
Qed.

(** ** cloneTree *)

Lemma readInput_Done i w t w' :
  readInput i w = Returned t w' -> inputs w !! i = Some t /\ w' = w.
Proof. unfold readInput. destruct (inputs w !! i); [|done]. by intros [= -> ->]. Qed.

Lemma onHeap_Done {A} (m : M (list HoisterWorkTree) A) w a w' :
  onHeap m w = Returned a w' ->
  exists h', m (heap w) = Returned a h' /\ w' = mkWorld (inputs w) h'.
Proof.
  unfold onHeap. destruct (m (heap w)) as [a' h'| |]; [|done|done].
  intros [= -> <-]. eauto.
Qed.

Lemma grows_refl h : grows h h.
Proof. split; [done|]. eauto. Qed.

Lemma grows_trans h1 h2 h3 : grows h1 h2 -> grows h2 h3 -> grows h1 h3.
Proof.
  intros [L1 K1] [L2 K2]. split; [lia|]. intros a n Ha.
  destruct (K1 _ _ Ha) as (n' & Ha' & Hn'). destruct (K2 _ _ Ha') as (n'' & Ha'' & Hn'').
  exists n''. split; [done|congruence].
Qed.

Lemma ext_grows h h' : ext h h' -> grows h h'.
Proof.
  intros [L K _]. split; [done|]. intros a n Ha.
  destruct (K _ _ Ha) as (n' & Ha' & Hs). exists n'. split; [done|by destruct Hs].
Qed.

Lemma markNodeCoupled_spec fuel :
  forall node seen h seen' h',
    markNodeCoupled fuel node seen h = Returned seen' h' -> rtc (step 0%nat) h h'.
Proof.
  induction fuel as [|fuel IH]; intros node seen h seen' h' Hrun; [done|].
  simpl in Hrun. destruct (set_has node seen).
  { by apply ret_Done in Hrun as [_ ->]. }
  apply bind_Done in Hrun as (u & h1 & Hmod & Hrun).
  apply modify_Done in Hmod as (n & Hn & ->).
  apply bind_Done in Hrun as (n1 & h1 & Hread & Hrun).
  apply read_Done in Hread as [_ ->].
  eapply rtc_l;
    [eapply (step_other _ _ _ _ (with_decoupled false n)); [done|by repeat split|done]|].
  eapply (foldM_inv (fun _ h_c => rtc (step 0%nat) (<[node := with_decoupled false n]> h) h_c));
    [done| |exact Hrun].
  intros dep seen_c h_c seen_c' h_c' Hs _ Hbody.
  apply bind_Done in Hbody as (d & h0 & Hread & Hbody).
  apply read_Done in Hread as [_ ->].
  destruct (negb _).
  - etrans; [exact Hs|]. by eapply IH.
  - by apply ret_Done in Hbody as [_ ->].
Qed.

Lemma seenOk_grows ts h h' seenNodes :
  grows h h' -> seenOk (mkWorld ts h) seenNodes -> seenOk (mkWorld ts h') seenNodes.
Proof.
  intros [_ Hkeep] Hseen i a Hget. destruct (Hseen i a Hget) as (t & n & Ht & Hn & Hname).
  destruct (Hkeep _ _ Hn) as (n' & Hn' & Hname'). exists t, n'. simpl in *.
  split; [done|]. split; [done|congruence].
Qed.

Lemma attach_heap_ok (h : list HoisterWorkTree) parent p k workNode n :
  heap_ok h = true -> h !! parent = Some p -> h !! workNode = Some n -> name n = k ->
  heap_ok (<[parent := attach k workNode p]> h) = true.
Proof.
  intros Hok Hp Hn Hk. eapply heap_ok_insert; [done|done|done| |]; simpl.
  - by eapply map_keys_set_NoDup, heap_ok_NoDup.
  - intros k' d Hin. apply map_entries_set in Hin as [[= -> ->]|Hin]; [eauto|].
    eapply heap_ok_entry; [exact Hok|exact Hp|exact Hin].
Qed.

Lemma grows_insert (h : list HoisterWorkTree) x n n' :
  h !! x = Some n -> name n' = name n -> grows h (<[x := n']> h).
Proof.
  intros Hx Hname. split; [by rewrite length_insert|].
  intros a m Ha. destruct (decide (a = x)) as [->|Hne].
  - exists n'. rewrite list_lookup_insert_eq by by eapply lookup_lt_Some.
    split; [done|congruence].
  - exists m. by rewrite list_lookup_insert_ne.
Qed.

Lemma grows_app (h : list HoisterWorkTree) l : grows h (h ++ l).
Proof.
  split; [rewrite length_app; lia|]. intros a n Ha. exists n.
  split; [by apply lookup_app_l_Some|done].
Qed.

Lemma newWorkNode_heap_ok (h : list HoisterWorkTree) t :
  heap_ok h = true -> heap_ok (h ++ [newWorkNode t]) = true.
Proof.
  intros Hok. apply heap_ok_alloc; [done|constructor|].
  intros k d Hin. by apply elem_of_nil in Hin.
Qed.

Lemma addNode_spec fuel :
  forall node parentNode seenNodes w seenNodes' w',
    addNode fuel node parentNode seenNodes w = Returned seenNodes' w' ->
    heap_ok (heap w) = true ->
    seenOk w seenNodes ->
    heap_ok (heap w') = true
    /\ seenOk w' seenNodes'
    /\ grows (heap w) (heap w')
    /\ inputs w' = inputs w.
Proof.
  induction fuel as [|fuel IH];
    intros node parentNode seenNodes [ts h] seenNodes' w' Hrun Hok Hseen; [done|].
  simpl in Hrun. simpl in Hok.
  apply bind_Done in Hrun as (t & w0 & Hread & Hrun).
  apply readInput_Done in Hread as [Ht ->]. simpl in Ht.
  apply bind_Done in Hrun as ([workNode seen1] & [ts1 h1] & Hwork & Hrun).
  (* the work node of the input node *)
  assert (ts1 = ts /\ heap_ok h1 = true /\ seenOk (mkWorld ts h1) seen1 /\ grows h h1
          /\ (exists n, h1 !! workNode = Some n /\ name n = t_name t)
          /\ map_get node seen1 = Some workNode)
    as (-> & Hok1 & Hseen1 & Hgrow1 & (n & Hn & Hname) & Hget1).
  { destruct (map_get node seenNodes) as [wn|] eqn:Hget.
    - apply ret_Done in Hwork as [[= -> ->] [= -> ->]].
      split; [done|]. split; [done|]. split; [done|]. split; [apply grows_refl|].
      destruct (Hseen _ _ Hget) as (t' & n & Ht' & Hn & Hname). simpl in *.
      assert (t' = t) as -> by congruence. eauto.
    - apply bind_Done in Hwork as (wn & w0 & Halloc & Hwork).
      apply onHeap_Done in Halloc as (h0 & Halloc & ->). simpl in *.
      apply alloc_Done in Halloc as [-> ->].
      apply ret_Done in Hwork as [[= -> ->] [= -> ->]].
      assert ((h ++ [newWorkNode t]) !! length h = Some (newWorkNode t)) as Hnew.
      { rewrite lookup_app_r by done. by rewrite Nat.sub_diag. }
      split; [done|]. split; [by apply newWorkNode_heap_ok|].
      split.
      { intros i a Hi. rewrite map_get_set in Hi.
        destruct (decide (node = i)) as [->|Hne].
        - injection Hi as <-. exists t, (newWorkNode t). done.
        - eapply seenOk_grows; [apply grows_app|exact Hseen|exact Hi]. }
      split; [apply grows_app|]. split; [by exists (newWorkNode t)|].
      rewrite map_get_set. by rewrite decide_True. }
  simpl in Hrun.
  apply bind_Done in Hrun as (u & w2 & Hattach & Hrun).
  apply onHeap_Done in Hattach as (h2 & Hattach & ->). simpl in *.
  apply modify_Done in Hattach as (p & Hp & ->).
  set (h2 := <[parentNode := attach (t_name t) workNode p]> h1) in *.
  assert (heap_ok h2 = true) as Hok2 by by eapply attach_heap_ok.
  assert (grows h1 h2) as Hgrow2 by by eapply grows_insert.
  assert (seenOk (mkWorld ts h2) seen1) as Hseen2 by by eapply seenOk_grows.
  destruct (map_has node seenNodes) eqn:Hhas; simpl in Hrun.
  - (* seen before: the subgraph becomes coupled *)
    apply bind_Done in Hrun as (sc & w3 & Hmark & Hrun).
    apply onHeap_Done in Hmark as (h3 & Hmark & ->). simpl in *.
    apply ret_Done in Hrun as [-> ->]. simpl.
    apply markNodeCoupled_spec in Hmark.
    pose proof (ext_grows _ _ (rtc_step_ext _ _ _ Hmark)) as Hgrow3.
    split; [by eapply rtc_step_heap_ok|].
    split; [by eapply seenOk_grows|].
    split; [|done]. eapply grows_trans; [exact Hgrow1|]. by eapply grows_trans.
  - (* new: its dependencies are added *)
    set (I := fun (seen_c : list (option (nat * nat))) (w_c : World) =>
      heap_ok (heap w_c) = true /\ seenOk w_c seen_c /\ grows h2 (heap w_c)
      /\ inputs w_c = ts).
    assert (I seenNodes' w') as (Hok' & Hseen' & Hgrow' & Hin').
    { eapply (foldM_inv I); [| |exact Hrun]; unfold I;
        [simpl; split_and!; [done|done|apply grows_refl|done]|].
      intros dep seen_c [ts_c h_c] seen_c' w_c' (Hok_c & Hseen_c & Hgrow_c & Hin_c) _ Hbody.
      simpl in *. subst ts_c.
      apply IH in Hbody as (Hok_d & Hseen_d & Hgrow_d & Hin_d); [|done|done].
      split; [done|]. split; [done|]. split; [by eapply grows_trans|done]. }
    split; [done|]. split; [done|]. split; [|done].
    eapply grows_trans; [exact Hgrow1|]. by eapply grows_trans.
Qed.

Lemma cloneTree_spec fuel tree w treeCopy w' :
  cloneTree fuel tree w = Returned treeCopy w' ->
  heap_ok (heap w) = true ->
  heap_ok (heap w') = true /\ inputs w' = inputs w
  /\ is_Some (heap w' !! treeCopy).
Proof.
  intros Hrun Hok. destruct w as [ts h]. unfold cloneTree in Hrun. simpl in *.
  apply bind_Done in Hrun as (t & w0 & Hread & Hrun).
  apply readInput_Done in Hread as [Ht ->]. simpl in Ht.
  apply bind_Done in Hrun as (tc & w1 & Halloc & Hrun).
  apply onHeap_Done in Halloc as (h1 & Halloc & ->). simpl in *.
  apply alloc_Done in Halloc as [-> ->].
  apply bind_Done in Hrun as (seen & w2 & Hloop & Hrun).
  apply ret_Done in Hrun as [-> ->].
  assert ((h ++ [newWorkNode t]) !! length h = Some (newWorkNode t)) as Hnew.
  { rewrite lookup_app_r by done. by rewrite Nat.sub_diag. }
  set (I := fun (seen_c : list (option (nat * nat))) (w_c : World) =>
    heap_ok (heap w_c) = true /\ seenOk w_c seen_c
    /\ grows (h ++ [newWorkNode t]) (heap w_c) /\ inputs w_c = ts).
  assert (I seen w2) as (Hok' & _ & [_ Hkeep] & Hin').
  { eapply (foldM_inv I); [| |exact Hloop]; unfold I.
    - simpl. split; [by apply newWorkNode_heap_ok|]. split; [|split; [apply grows_refl|done]].
      intros i a Hi. simpl in Hi. destruct (decide (tree = i)) as [->|]; [|done].
      injection Hi as <-. exists t, (newWorkNode t). done.
    - intros dep seen_c [ts_c h_c] seen_c' w_c' (Hok_c & Hseen_c & Hgrow_c & Hin_c) _ Hbody.
      simpl in *. subst ts_c.
      apply addNode_spec in Hbody as (Hok_d & Hseen_d & Hgrow_d & Hin_d); [|done|done].
      split; [done|]. split; [done|]. split; [by eapply grows_trans|done]. }
  split; [done|]. split; [done|].
  destruct (Hkeep _ _ Hnew) as (n' & -> & _). eauto.
Qed.

(** ** shrinkTree *)

Lemma rgrows_refl rs : rgrows rs rs.
Proof. split; [done|]. eauto. Qed.

Lemma rgrows_trans rs1 rs2 rs3 : rgrows rs1 rs2 -> rgrows rs2 rs3 -> rgrows rs1 rs3.
Proof.
  intros [L1 K1] [L2 K2]. split; [lia|]. intros a n Ha.
  destruct (K1 _ _ Ha) as (n' & Ha' & Hn'). destruct (K2 _ _ Ha') as (n'' & Ha'' & Hn'').
  exists n''. split; [done|congruence].
Qed.

Lemma childNames_rgrows rs rs' n :
  rgrows rs rs' -> (forall c, c ∈ r_dependencies n -> (c < length rs)%nat) ->
  childNames rs' n = childNames rs n.
Proof.
  intros [_ Hkeep] Hvalid. unfold childNames. apply list_fmap_ext.
  intros i c Hc. apply list_elem_of_lookup_2 in Hc. apply Hvalid in Hc.
  apply lookup_lt_is_Some in Hc as [nc Hnc].
  destruct (Hkeep _ _ Hnc) as (nc' & -> & Hname). rewrite Hnc. simpl. by rewrite Hname.
Qed.

Lemma nodeOk_rgrows rs rs' n : rgrows rs rs' -> nodeOk rs n -> nodeOk rs' n.
Proof.
  intros Hg [Hnd Hvalid]. split.
  - by rewrite (childNames_rgrows rs rs').
  - intros c Hc. destruct Hg as [Hlen _]. specialize (Hvalid c Hc). lia.
Qed.

Lemma foldM_split {S A B} (I : list A -> B -> S -> Prop) (body : B -> A -> M S B) l :
  forall acc s r s',
    I [] acc s ->
    (forall d x rest b s b' s', l = d ++ x :: rest -> I d b s ->
                                body b x s = Returned b' s' -> I (d ++ [x]) b' s') ->
    foldM l acc body s = Returned r s' -> I l r s'.
Proof.
  assert (forall rest done acc s r s',
            l = done ++ rest -> I done acc s ->
            (forall d x rest b s b' s', l = d ++ x :: rest -> I d b s ->
                                        body b x s = Returned b' s' -> I (d ++ [x]) b' s') ->
            foldM rest acc body s = Returned r s' -> I l r s') as Hgen.
  { induction rest as [|x rest IH]; intros done acc s r s' Hl Hacc Hstep Hfold;
      simpl in Hfold.
    - apply ret_Done in Hfold as [-> ->]. rewrite app_nil_r in Hl. by subst.
    - apply bind_Done in Hfold as (acc' & s1 & Hb & Hfold).
      eapply (IH (done ++ [x])); [by rewrite <- app_assoc| |exact Hstep|exact Hfold].
      eapply Hstep; [exact Hl|exact Hacc|exact Hb]. }
  intros acc s r s' Hacc Hstep Hfold. by eapply (Hgen l []).
Qed.

Lemma addResultDependency_Done pn c (rs : list HoisterResult) u rs' :
  addResultDependency pn c rs = Returned u rs' ->
  exists p, rs !! pn = Some p
            /\ rs' = <[pn := mkResult (r_name p) (r_identName p) (r_references p)
                               (set_add c (r_dependencies p))]> rs.
Proof.
  unfold addResultDependency. destruct (rs !! pn) as [p|]; [|done].
  intros [= <-]. eauto.
Qed.

Lemma allocResult_Done n (rs : list HoisterResult) a rs' :
  allocResult n rs = Returned a rs' -> a = length rs /\ rs' = rs ++ [n].
Proof. unfold allocResult. by intros [= <- <-]. Qed.

Lemma dep_names_NoDup h a n :
  heap_ok h = true -> h !! a = Some n ->
  NoDup ((fun d => name <$> h !! d) <$> map_values (dependencies n)).
Proof.
  intros Hok Ha.
  assert ((fun d => name <$> h !! d) <$> map_values (dependencies n)
          = Some <$> map_keys (dependencies n)) as ->.
  { unfold map_values, map_keys. rewrite <- !list_fmap_compose.
    apply list_fmap_ext. intros i [k d] Hkd. simpl.
    apply list_elem_of_lookup_2 in Hkd.
    destruct (heap_ok_entry _ _ _ _ _ Hok Ha Hkd) as (nd & -> & <-). done. }
  apply NoDup_fmap; [by intros ?? [= ->]|]. by eapply heap_ok_NoDup.
Qed.

(** The loops over the dependencies of a work node, which fill the output
    node [c]. *)
Lemma populate_spec h node nm c
    (body : list nat -> nat -> M (list HoisterResult) (list nat)) ds :
  (forall seen dep rs seen' rs',
     body seen dep rs = Returned seen' rs' ->
     node ∈ seen -> forall p, rs !! c = Some p -> r_name p = nm ->
     (forall x, x ∈ r_dependencies p -> (x < length rs)%nat) ->
     seen' = seen /\ (rs' = rs \/ addedChild h dep c rs rs')) ->
  NoDup ((fun d => name <$> h !! d) <$> ds) ->
  forall seen rs seen' rs' p,
    foldM ds seen body rs = Returned seen' rs' ->
    node ∈ seen -> rs !! c = Some p -> r_name p = nm -> r_dependencies p = [] ->
    seen' = seen
    /\ rgrows rs rs'
    /\ (forall a n, rs !! a = Some n -> a ≠ c -> rs' !! a = Some n)
    /\ (exists p', rs' !! c = Some p' /\ nodeOk rs' p')
    /\ (forall a n, (length rs <= a)%nat -> rs' !! a = Some n -> nodeOk rs' n).
Proof.
  intros Hbody Hnd seen rs seen' rs' p Hfold Hnode Hp Hnm Hempty.
  set (I := fun (vs : list nat) (seen_c : list nat) (rs_c : list HoisterResult) =>
    seen_c = seen
    /\ rgrows rs rs_c
    /\ (forall a n, rs !! a = Some n -> a ≠ c -> rs_c !! a = Some n)
    /\ (exists pc, rs_c !! c = Some pc /\ nodeOk rs_c pc
                   /\ forall x, x ∈ childNames rs_c pc ->
                                exists d, d ∈ vs /\ x = name <$> h !! d)
    /\ (forall a n, (length rs <= a)%nat -> rs_c !! a = Some n -> nodeOk rs_c n)).
  assert (forall rs_c pc, rgrows rs rs_c -> rs_c !! c = Some pc -> r_name pc = nm) as Hname.
  { intros rs_c pc [_ Hkeep] Hpc. destruct (Hkeep _ _ Hp) as (pc' & Hpc' & Heq).
    assert (pc' = pc) as -> by congruence. congruence. }
  assert (I ds seen' rs') as (-> & Hg & Hold & (pc & Hpc & Hok & _) & Hnew).
  { eapply (foldM_split I); [| |exact Hfold]; unfold I.
    { split; [done|]. split; [apply rgrows_refl|]. split; [done|].
      split.
      - exists p. split; [done|]. unfold nodeOk, childNames. rewrite Hempty. simpl.
        split; [split; [constructor|]|]; intros x Hx; by apply elem_of_nil in Hx.
      - intros a n Ha Hn. apply lookup_lt_Some in Hn. lia. }
    clear Hfold. intros vs dep rest seen_c rs_c seen_c' rs_c' Hds
      (-> & Hg & Hold & (pc & Hpc & [Hpcnd Hpcvalid] & Hpcnames) & Hnew) Hrun.
    eapply Hbody in Hrun as [-> Hrun]; [|done|exact Hpc|by eapply Hname|done].
    split; [done|].
    destruct Hrun as [->|(nd & c' & p0 & p' & Hdep & Hg' & Hold' & Hp0 & Hp' & Hdeps' & Hc'
                          & Hc'name & Hnew')].
    { split; [done|]. split; [done|]. split; [|done].
      exists pc. split; [done|]. split; [done|].
      intros x Hx. destruct (Hpcnames x Hx) as (d & Hd & ->). exists d.
      split; [apply elem_of_app; auto|done]. }
    assert (p0 = pc) as -> by congruence.
    split; [by eapply rgrows_trans|].
    split; [intros a n Ha Hne; apply Hold'; [by apply Hold|done]|].
    split.
    - exists p'. split; [done|].
      assert (childNames rs_c' pc = childNames rs_c pc) as Hstable
        by by apply childNames_rgrows.
      assert (forall x, x ∈ r_dependencies p' -> (x < length rs_c')%nat) as Hvalid'.
      { intros x Hx. rewrite Hdeps' in Hx. apply elem_of_set_add in Hx as [->|Hx]; [done|].
        destruct Hg' as [Hlen _]. specialize (Hpcvalid x Hx). lia. }
      unfold set_add in Hdeps'. destruct (set_has c' (r_dependencies pc)) eqn:Hhas.
      + (* the child is there already *)
        assert (childNames rs_c' p' = childNames rs_c pc) as Hsame
          by (unfold childNames in *; by rewrite Hdeps').
        split; [split; [by rewrite Hsame|done]|].
        intros x Hx. rewrite Hsame in Hx. destruct (Hpcnames x Hx) as (d & Hd & ->).
        exists d. split; [apply elem_of_app; auto|done].
      + assert (childNames rs_c' p' = childNames rs_c pc ++ [name <$> h !! dep]) as Hsnoc.
        { unfold childNames in *. rewrite Hdeps', fmap_app, Hstable. simpl.
          by rewrite Hc'name, Hdep. }
        split; [split; [|done]|].
        * rewrite Hsnoc. apply NoDup_app. split; [done|]. split; [|apply NoDup_singleton].
          intros x Hx Hx'. apply list_elem_of_singleton in Hx' as ->.
          destruct (Hpcnames _ Hx) as (d & Hd & Heq).
          rewrite Hds, fmap_app, fmap_cons in Hnd.
          apply NoDup_app in Hnd as (_ & Hdisj & _).
          apply (Hdisj (name <$> h !! d)).
          -- apply list_elem_of_fmap. by exists d.
          -- rewrite <- Heq. left.
        * intros x Hx. rewrite Hsnoc in Hx. apply elem_of_app in Hx as [Hx|Hx].
          -- destruct (Hpcnames x Hx) as (d & Hd & ->). exists d.
             split; [apply elem_of_app; auto|done].
          -- apply list_elem_of_singleton in Hx as ->. exists dep.
             split; [apply elem_of_app; right; left|done].
    - intros a n Ha Hn. destruct (decide (length rs_c <= a)%nat) as [Hge|Hlt].
      + by eapply Hnew'.
      + assert (a < length rs_c)%nat as Hlt' by lia.
        apply lookup_lt_is_Some in Hlt' as [n0 Hn0].
        destruct (decide (a = c)) as [->|Hne].
        * exfalso. apply lookup_lt_Some in Hp. lia.
        * assert (n = n0) as -> by (apply Hold' in Hn0; [congruence|done]).
          eapply nodeOk_rgrows; [exact Hg'|]. by eapply Hnew. }
  split; [done|]. split; [done|]. split; [done|]. split; [by exists pc|done].
Qed.

Lemma addResultNode_spec fuel h :
  heap_ok h = true ->
  forall node pw pn seen rs seen' rs',
    addResultNode fuel h node pw pn seen rs = Returned seen' rs' ->
    pw ∈ seen ->
    forall p pwn, rs !! pn = Some p -> h !! pw = Some pwn -> r_name p = name pwn ->
      (forall x, x ∈ r_dependencies p -> (x < length rs)%nat) ->
      seen' = seen /\ addedChild h node pn rs rs'.
Proof.
  intros Hok. induction fuel as [|fuel IH];
    intros node pw pn seen rs seen' rs' Hrun Hpw p pwn Hp Hpwn Hpname Hvalid; [done|].
  simpl in Hrun.
  apply bind_Done in Hrun as (n & rs0 & Hn & Hrun).
  apply lift_Done in Hn as [Hn ->]. apply deref_Done in Hn.
  apply bind_Done in Hrun as (c & rs1 & Hres & Hrun).
  apply bind_Done in Hrun as (u & rs2 & Hadd & Hrun).
  apply addResultDependency_Done in Hadd as (p1 & Hp1 & ->).
  assert (pn < length rs)%nat as Hpnlt by by eapply lookup_lt_Some.
  destruct (bool_decide (pw = node)) eqn:Hself.
  - (* a node that depends on itself *)
    apply bool_decide_eq_true in Hself as ->.
    apply ret_Done in Hres as [-> ->]. assert (p1 = p) as -> by congruence.
    apply set_has_true in Hpw. rewrite Hpw in Hrun. simpl in Hrun.
    apply ret_Done in Hrun as [-> ->]. split; [done|].
    assert (n = pwn) as -> by congruence.
    eexists pwn, pn, p, _. split; [done|]. split.
    { split; [by rewrite length_insert|]. intros a m Ha.
      destruct (decide (a = pn)) as [->|Hne].
      - eexists. rewrite list_lookup_insert_eq by done. split; [done|]. simpl. congruence.
      - exists m. by rewrite list_lookup_insert_ne. }
    split; [intros a m Ha Hne; by rewrite list_lookup_insert_ne|].
    split; [done|]. split; [by rewrite list_lookup_insert_eq|].
    split; [done|]. split; [by rewrite length_insert|].
    split; [rewrite list_lookup_insert_eq by done; simpl; congruence|].
    intros a m Hge Ha.
    apply lookup_lt_Some in Ha. rewrite length_insert in Ha. lia.
  - apply bool_decide_eq_false in Hself.
    apply allocResult_Done in Hres as [-> ->].
    set (c := length rs) in *.
    set (new := mkResult (name n) (getIdentName (locator n)) (references n) []) in *.
    rewrite lookup_app_l in Hp1 by done. assert (p1 = p) as -> by congruence.
    set (p' := mkResult (r_name p) (r_identName p) (r_references p)
                 (set_add c (r_dependencies p))) in *.
    set (rs2 := <[pn := p']> (rs ++ [new])) in *.
    assert (length rs2 = S c) as Hlen2
      by (unfold rs2; rewrite length_insert, length_app; simpl; unfold c; lia).
    assert (rs2 !! c = Some new) as Hc2.
    { unfold rs2. rewrite list_lookup_insert_ne by (unfold c; lia).
      rewrite lookup_app_r by done. unfold c. by rewrite Nat.sub_diag. }
    assert (rs2 !! pn = Some p') as Hpn2.
    { unfold rs2. rewrite list_lookup_insert_eq; [done|]. rewrite length_app. lia. }
    assert (forall a m, rs !! a = Some m -> a ≠ pn -> rs2 !! a = Some m) as Hold2.
    { intros a m Ha Hne. unfold rs2. rewrite list_lookup_insert_ne by done.
      by apply lookup_app_l_Some. }
    assert (rgrows rs rs2) as Hg2.
    { split; [lia|]. intros a m Ha. destruct (decide (a = pn)) as [->|Hne].
      - exists p'. split; [done|]. simpl. congruence.
      - exists m. split; [by apply Hold2|done]. }
    destruct (set_has node seen) eqn:Hseen; simpl in Hrun.
    + (* seen on the path: the node is not expanded again *)
      apply ret_Done in Hrun as [-> ->]. split; [done|].
      exists n, c, p, p'. split; [done|]. split; [done|]. split; [done|].
      split; [done|]. split; [done|]. split; [done|]. split; [lia|].
      split; [by rewrite Hc2|].
      intros a m Hge Ha. assert (a = c) as ->.
      { apply lookup_lt_Some in Ha. fold c in Hge. lia. }
      assert (m = new) as -> by congruence.
      split; [constructor|]. intros x Hx. by apply elem_of_nil in Hx.
    + apply set_has_false in Hseen.
      apply bind_Done in Hrun as (seen2 & rs3 & Hloop & Hrun).
      apply ret_Done in Hrun as [-> ->].
      eapply (populate_spec h node (name n) c) in Hloop
        as (-> & Hg3 & Hold3 & (pc & Hpc & Hpcok) & Hnew3);
        [| |by eapply dep_names_NoDup|apply elem_of_set_add; by left|exact Hc2|done|done].
      2:{ intros seen_c dep rs_c seen_c' rs_c' Hbody Hnode pc Hpc Hpcname Hpcvalid.
          apply bind_Done in Hbody as (d & rs0 & Hd & Hbody).
          apply lift_Done in Hd as [Hd ->].
          destruct (negb _).
          - eapply IH in Hbody as [-> Hchild]; eauto.
          - apply ret_Done in Hbody as [-> ->]. auto. }
      split; [by apply set_delete_add|].
      exists n, c, p, p'. split; [done|].
      split; [by eapply rgrows_trans|].
      split; [intros a m Ha Hne; apply Hold3; [by apply Hold2|]|].
      { apply lookup_lt_Some in Ha. unfold c. lia. }
      split; [done|].
      split; [apply Hold3; [done|unfold c; lia]|].
      split; [done|].
      split; [by eapply lookup_lt_Some|].
      split.
      { destruct Hg3 as [_ Hkeep]. destruct (Hkeep _ _ Hc2) as (pc' & Hpc' & Hname).
        rewrite Hpc'. simpl. by rewrite Hname. }
      intros a m Hge Ha. fold c in Hge. destruct (decide (a = c)) as [->|Hne].
      * assert (m = pc) as -> by congruence. done.
      * eapply Hnew3; [|done]. lia.
Qed.

Lemma shrinkTree_spec fuel h tree rs :
  shrinkTree fuel h tree = Done rs -> heap_ok h = true -> namesUnique rs.
Proof.
  intros Hrun Hok. unfold shrinkTree in Hrun.
  apply obind_Done in Hrun as (t & Ht & Hrun). apply deref_Done in Ht.
  match type of Hrun with
  | match ?m with _ => _ end = _ => destruct m as [seen' rs'| |] eqn:Hloop; [|done|done]
  end.
  injection Hrun as <-.
  set (treeCopy := mkResult (name t) (getIdentName (locator t))
                     (set_of_list (references t)) []) in *.
  eapply (populate_spec h tree (name t) 0%nat) in Hloop
    as (_ & Hg & _ & (pc & Hpc & Hpcok) & Hnew);
    [| |by eapply dep_names_NoDup|by apply list_elem_of_singleton|done|done|done].
  2:{ intros seen_c dep rs_c seen_c' rs_c' Hbody Hnode pc Hpc Hpcname Hpcvalid.
      eapply addResultNode_spec in Hbody as [-> Hchild]; eauto. }
  intros a n Ha.
  assert (nodeOk rs' n) as [Hnd Hvalid].
  { destruct a as [|a].
    - assert (n = pc) as -> by congruence. done.
    - eapply Hnew; [|done]. simpl. lia. }
  split; [done|]. intros c Hc. apply lookup_lt_is_Some. by apply Hvalid.
Qed.

(** ** hoist *)

Lemma keepsInputs_ret {A} (a : A) : keepsInputs (ret a).
Proof. intros w w' [= <-]. done. Qed.

Lemma keepsInputs_bind {A B} (m : M World A) (k : A -> M World B) :
  keepsInputs m -> (forall a, keepsInputs (k a)) -> keepsInputs (bind m k).
Proof.
  intros Hm Hk w w' Hrun. unfold bind in Hrun.
  destruct (m w) as [a w1|e w1|] eqn:Hmw; [| |done].
  - rewrite (Hk a w1 w' Hrun). apply Hm. by rewrite Hmw.
  - apply Hm. by rewrite Hmw.
Qed.

Lemma keepsInputs_onHeap {A} (m : M (list HoisterWorkTree) A) : keepsInputs (onHeap m).
Proof.
  intros w w' Hrun. unfold onHeap in Hrun.
  destruct (m (heap w)) as [a h'|e h'|]; simpl in Hrun; [| |done]; by injection Hrun as <-.
Qed.

Lemma keepsInputs_readInput i : keepsInputs (readInput i).
Proof.
  intros w w' Hrun. unfold readInput in Hrun.
  destruct (inputs w !! i); simpl in Hrun; by injection Hrun as <-.
Qed.

Lemma keepsInputs_lift {A} (o : Outcome A) : keepsInputs (lift o).
Proof.
  intros w w' Hrun. unfold lift in Hrun.
  destruct o; simpl in Hrun; try done; by injection Hrun as <-.
Qed.

Lemma keepsInputs_get_st : keepsInputs get_st.
Proof. intros w w' [= <-]. done. Qed.

Lemma keepsInputs_starve {A} : keepsInputs (@starve World A).
Proof. intros w w' Hrun. done. Qed.

Lemma keepsInputs_foldM {A B} (l : list A) (acc : B) (body : B -> A -> M World B) :
  (forall b x, keepsInputs (body b x)) -> keepsInputs (foldM l acc body).
Proof.
  intros Hbody. revert acc. induction l as [|x l IH]; intros acc; simpl.
  - apply keepsInputs_ret.
  - apply keepsInputs_bind; [apply Hbody|]. intros a. apply IH.
Qed.

Lemma addNode_keepsInputs fuel node parentNode seenNodes :
  keepsInputs (addNode fuel node parentNode seenNodes).
Proof.
  revert node parentNode seenNodes.
  induction fuel as [|fuel IH]; intros node parentNode seenNodes; simpl;
    [apply keepsInputs_starve|].
  apply keepsInputs_bind; [apply keepsInputs_readInput|]. intros t.
  apply keepsInputs_bind.
  { destruct (map_get node seenNodes); [apply keepsInputs_ret|].
    apply keepsInputs_bind; [apply keepsInputs_onHeap|]. intros. apply keepsInputs_ret. }
  intros ws. apply keepsInputs_bind; [apply keepsInputs_onHeap|]. intros _.
  destruct (negb _).
  - apply keepsInputs_foldM. intros. apply IH.
  - apply keepsInputs_bind; [apply keepsInputs_onHeap|]. intros. apply keepsInputs_ret.
Qed.

Lemma cloneTree_keepsInputs fuel tree : keepsInputs (cloneTree fuel tree).
Proof.
  unfold cloneTree.
  apply keepsInputs_bind; [apply keepsInputs_readInput|]. intros t.
  apply keepsInputs_bind; [apply keepsInputs_onHeap|]. intros treeCopy.
  apply keepsInputs_bind; [|intros; apply keepsInputs_ret].
  apply keepsInputs_foldM. intros. apply addNode_keepsInputs.
Qed.

Lemma hoist_keepsInputs fuel toNumber env tree opts :
  keepsInputs (hoist fuel toNumber env tree opts).
Proof.
  unfold hoist.
  apply keepsInputs_bind; [apply cloneTree_keepsInputs|]. intros treeCopy.
  apply keepsInputs_bind; [apply keepsInputs_onHeap|]. intros _.
  apply keepsInputs_bind.
  { destruct (num_ge _ 1); [apply keepsInputs_onHeap|apply keepsInputs_ret]. }
  intros _. apply keepsInputs_bind.
  { destruct (num_ge _ 2); [apply keepsInputs_onHeap|apply keepsInputs_ret]. }
  intros out. apply keepsInputs_bind; [apply keepsInputs_get_st|]. intros w.
  apply keepsInputs_bind; [apply keepsInputs_lift|]. intros rs. apply keepsInputs_ret.
Qed.

(** The work tree when [hoist] returns is the one [cloneTree] built,
    changed by the writes of hoisting. *)
Lemma hoist_Returned fuel toNumber env tree opts w ret w' :
  hoist fuel toNumber env tree opts w = Returned ret w' ->
  exists treeCopy w1,
    cloneTree fuel tree w = Returned treeCopy w1
    /\ (exists t path',
          heap w1 !! treeCopy = Some t
          /\ hoistTo fuel treeCopy treeCopy [locator t]
               (internalOptions toNumber env opts) [] (heap w1) = Returned path' (heap w'))
    /\ shrinkTree fuel (heap w') treeCopy = Done (result ret).
Proof.
  intros Hrun. unfold hoist in Hrun.
  apply bind_Done in Hrun as (treeCopy & w1 & Hclone & Hrun).
  apply bind_Done in Hrun as (path' & w2 & Hto & Hrun).
  apply onHeap_Done in Hto as (h2 & Hto & ->).
  apply bind_Done in Hto as (t & h1' & Hread & Hto).
  apply read_Done in Hread as [Ht ->].
  apply bind_Done in Hrun as (u & w3 & Hcheck & Hrun).
  assert (w3 = mkWorld (inputs w1) h2) as ->.
  { destruct (num_ge _ 1).
    - apply onHeap_Done in Hcheck as (h3 & Hcheck & ->). simpl in *.
      apply bind_Done in Hcheck as (hx & hx' & Hget & Hcheck).
      apply get_st_Done in Hget as [-> ->].
      apply bind_Done in Hcheck as (lg & hx' & Hlift & Hcheck).
      apply lift_Done in Hlift as [_ ->].
      destruct lg; [|by apply failCheck_Returned in Hcheck].
      by apply ret_Done in Hcheck as [_ ->].
    - by apply ret_Done in Hcheck as [_ ->]. }
  apply bind_Done in Hrun as (out & w3 & Hdump & Hrun).
  assert (w3 = mkWorld (inputs w1) h2) as ->.
  { destruct (num_ge _ 2).
    - apply onHeap_Done in Hdump as (h3 & Hdump & ->). simpl in *.
      apply bind_Done in Hdump as (hx & hx' & Hget & Hdump).
      apply get_st_Done in Hget as [-> ->].
      apply bind_Done in Hdump as (dump & hx' & Hlift & Hdump).
      apply lift_Done in Hlift as [_ ->].
      by apply ret_Done in Hdump as [_ ->].
    - by apply ret_Done in Hdump as [_ ->]. }
  apply bind_Done in Hrun as (wx & w4 & Hget & Hrun).
  apply get_st_Done in Hget as [-> ->].
  apply bind_Done in Hrun as (rs & w4 & Hshrink & Hrun).
  apply lift_Done in Hshrink as [Hshrink ->].
  apply ret_Done in Hrun as [-> ->]. simpl in *.
  exists treeCopy, w1. split; [done|]. split; [|done]. eauto.
Qed.

Lemma laterCandidates_ok r c updates :
  candidates_ok r c -> candidates_ok r (laterCandidates c updates).
Proof.
  revert c. induction updates as [|u updates IH]; intros c Hc; [done|].
  simpl. apply IH. by apply nextCandidate_ok.
Qed.

Lemma hoist_spec fuel toNumber env tree opts w ret w' :
  hoist fuel toNumber env tree opts w = Returned ret w' ->
  heap_ok (heap w) = true ->
  heap_ok (heap w') = true /\ namesUnique (result ret).
Proof.
  intros Hrun Hok.
  apply hoist_Returned in Hrun as (treeCopy & w1 & Hclone & (t & path' & Ht & Hto) & Hshrink).
  apply cloneTree_spec in Hclone as (Hok1 & _ & _); [|done].
  destruct (hoistTo_spec fuel) as [Hspec _].
  apply Hspec in Hto as [Hsteps _]; [|done].
  assert (heap_ok (heap w') = true) as Hok' by by eapply rtc_stepTo_heap_ok.
  split; [done|]. by eapply shrinkTree_spec.
Qed.

(** ** C6: the order of the regular dependencies *)

(** C6, counterexample: [getSortedRegularDependencies] does not always put
    a dependency after the dependencies it peer depends on.  In the work
    tree of [. -> {a@1, b@1}] with a and b peer depending on each other, it
    returns b and then a for the root, although b peer depends on a. *)
Lemma peersFirst_fails_for_peer_cycle :
  exists sorted,
    getSortedRegularDependencies 5 cyclicPeersHeap 0%nat = Done sorted
    /\ ~ peersFirst cyclicPeersHeap sorted.
Proof.
  exists [2; 1]%nat. split; [reflexivity|].
  intros Hfirst.
  destruct (Hfirst 2%nat 1%nat
              (mkWork "b" ["1"%string] "b@1" "b@1" [Some ("a"%string, 1%nat)]
                 [Some ("a"%string, 1%nat)] [] ["a"%string] false [])
              (mkWork "a" ["1"%string] "a@1" "a@1" [Some ("b"%string, 2%nat)]
                 [Some ("b"%string, 2%nat)] [] ["b"%string] false []))
    as (i & j & Hi & Hj & Hlt);
    [set_solver|set_solver|done|reflexivity|reflexivity|set_solver|].
  destruct i as [|[|i]]; [done| |done].
  destruct j as [|[|j]]; [lia|lia|done].
Qed.

(** C6, as the code has it: for a node [N] whose dependencies are filed
    under their names, [getSortedRegularDependencies] returns, given fuel
    for the nesting of [addDep], a collection without repetition that
    holds exactly the dependencies of [N] whose name is not a peer name of
    [N]; a returned dependency [P] whose name is a peer name of a returned
    dependency [D] comes before [D], unless [P] itself peer depends on [D],
    directly or through other dependencies of [N]. *)
Theorem getSortedRegularDependencies_peers_first_up_to_cycles fuel h N n :
  h !! N = Some n -> deps_named h n = true ->
  (length (dependencies n) < fuel)%nat ->
  exists sorted,
    getSortedRegularDependencies fuel h N = Done sorted
    /\ NoDup sorted
    /\ (forall D, D ∈ sorted <-> regularDep h n D)
    /\ peersFirstUpToCycles h n sorted.
Proof.
  intros HN Hnamed Hfuel.
  destruct (getSortedRegularDependencies_total fuel h N n HN Hnamed Hfuel) as [sorted Hrun].
  exists sorted. split; [done|]. by eapply getSortedRegularDependencies_spec.
Qed.

Lemma getSortedRegularDependencies_peers_first_up_to_cycles_witness :
  exists n sorted,
    cyclicPeersHeap !! 0%nat = Some n
    /\ getSortedRegularDependencies 5 cyclicPeersHeap 0%nat = Done sorted
    /\ NoDup sorted
    /\ (forall D, D ∈ sorted <-> regularDep cyclicPeersHeap n D)
    /\ peersFirstUpToCycles cyclicPeersHeap n sorted.
Proof.
  eexists. 
  assert (cyclicPeersHeap !! 0%nat = Some
            (mkWork "." ["workspace:."%string] ".@workspace:." ".@workspace:."
               [Some ("a"%string, 1%nat); Some ("b"%string, 2%nat)]
               [Some ("a"%string, 1%nat); Some ("b"%string, 2%nat)] [] [] true []))
    as H0 by reflexivity.
  destruct (getSortedRegularDependencies_peers_first_up_to_cycles 5 cyclicPeersHeap 0%nat _ H0)
    as (sorted & H); [reflexivity|simpl; lia|].
  exists sorted. split; [exact H0|exact H].
Defined.

(** ** C7: the input nodes *)

(** C7: however a call of [hoist] ends, with a result or with an error,
    the input nodes are afterwards what they were before: every field of
    every node.  The writes go to the work tree and the output. *)
Theorem hoist_leaves_inputs_unchanged fuel toNumber env tree opts w w' :
  storeAfter (hoist fuel toNumber env tree opts w) = Some w' ->
  inputs w' = inputs w.
Proof. apply hoist_keepsInputs. Qed.

Lemma hoist_leaves_inputs_unchanged_witness :
  exists w',
    storeAfter (hoist 20 Scenarios.noNumber None 0%nat (Scenarios.withDebugLevel 1)
                  (mkWorld Scenarios.rootCycle [])) = Some w'
    /\ inputs w' = Scenarios.rootCycle.
Proof.
  eexists. split; [vm_compute; reflexivity|].
  eapply (hoist_leaves_inputs_unchanged 20 Scenarios.noNumber None 0%nat
            (Scenarios.withDebugLevel 1) (mkWorld Scenarios.rootCycle [])).
  vm_compute. reflexivity.
Defined.

(** ** C9: the names of the children *)

(** C9: in the output of [hoist], run on a well-formed work store (the
    empty one of a call), the children of a node are nodes of the output
    and no two of them have the same name. *)
Theorem hoist_names_unique fuel toNumber env tree opts w ret w' :
  hoist fuel toNumber env tree opts w = Returned ret w' ->
  heap_ok (heap w) = true ->
  namesUnique (result ret).
Proof. intros Hrun Hok. by eapply hoist_spec. Qed.

Lemma hoist_names_unique_witness :
  exists ret w',
    hoist 20 Scenarios.noNumber None 0%nat Scenarios.noOptions
      (mkWorld Scenarios.pinnedName []) = Returned ret w'
    /\ namesUnique (result ret).
Proof.
  eexists _, _. split; [vm_compute; reflexivity|].
  eapply (hoist_names_unique 20 Scenarios.noNumber None 0%nat Scenarios.noOptions
            (mkWorld Scenarios.pinnedName [])); [vm_compute; reflexivity|reflexivity].
Defined.

(** ** C10: the peer names of the hoist root *)

(** C10, counterexample: a hoist root that lists its own name among its
    peer names.  [getHoistIdentMap] starts the map with the root's own
    name, so the map has an entry for this peer name of the root, and
    [getNodeHoistInfo] does not classify the candidate of that name as
    NO. *)
Lemma root_own_peer_name_is_candidate :
  exists r popularityMap identMap,
    selfPeerRootHeap !! 0%nat = Some r
    /\ "."%string ∈ peerNames r
    /\ buildPopularityMap 10 selfPeerRootHeap 0%nat = Done popularityMap
    /\ getHoistIdentMap selfPeerRootHeap 0%nat popularityMap = Done identMap
    /\ map_get "."%string identMap = Some [".@workspace:."%string]
    /\ map_get "."%string (headIdents identMap) = Some (Some ".@workspace:."%string)
    /\ getNodeHoistInfo selfPeerRootHeap [".@workspace:."%string] [0; 1]%nat 0%nat []
         (headIdents identMap) identMap false = Done (DEPENDS [0%nat]).
Proof.
  eexists _, _, _. split; [reflexivity|]. split; [set_solver|].
  split; [reflexivity|]. split; [reflexivity|]. split_and!; reflexivity.
Qed.

(** C10, as the code has it: let [p] be a peer name of the hoist root [R]
    other than the name of [R] itself.  The map of [getHoistIdentMap] has
    no entry for [p], and neither has it after any passes of the loop of
    [hoistTo]; [hoistIdents] has no ident for [p]; [getNodeHoistInfo]
    answers NO for a candidate named [p]; and in a run of [hoistTo] no node
    of the tree, [R] included, gains a dependency under one of its peer
    names. *)
Theorem root_peer_names_not_hoisted h R r popularityMap identMap :
  h !! R = Some r ->
  getHoistIdentMap h R popularityMap = Done identMap ->
  (forall p updates,
     p ∈ peerNames r -> p ≠ name r ->
     let c := laterCandidates (mkCandidates (headIdents identMap) identMap false) updates in
     map_get p (c_hoistIdentMap c) = None
     /\ mjoin (map_get p (c_hoistIdents c)) = None
     /\ forall h' rootNodePath nodePath parent pn node n hoisted outputReason,
          last nodePath = Some parent -> h' !! parent = Some pn ->
          h' !! node = Some n -> name n = p ->
          getNodeHoistInfo h' rootNodePath nodePath node hoisted
            (c_hoistIdents c) (c_hoistIdentMap c) outputReason = Done (NO None))
  /\ (forall fuel tree path options seenNodes path' h',
        heap_ok h = true ->
        hoistTo fuel tree R path options seenNodes h = Returned path' h' ->
        noPeerGain h h').
Proof.
  intros HR Hmap. split.
  - intros p updates Hp Hne c.
    assert (candidates_ok r c) as Hc.
    { apply laterCandidates_ok. by eapply candidates_ok_initial. }
    assert (mjoin (map_get p (c_hoistIdents c)) = None) as Hnone.
    { rewrite (candidates_ok_peer r c p Hc Hp). by destruct (decide (p = name r)). }
    split_and!; [|done|].
    + destruct Hc as [Hun _]. rewrite (Hun p Hp). by destruct (decide (p = name r)).
    + intros h' rootNodePath nodePath parent pn node n hoisted outputReason
        Hlast Hparent Hnode Hname.
      eapply getNodeHoistInfo_no_candidate; [done..|]. by rewrite Hname.
  - intros fuel tree path options seenNodes path' h' Hok Hrun.
    destruct (hoistTo_spec fuel) as [Hspec _].
    apply Hspec in Hrun as [Hsteps _]; [|done].
    by eapply rtc_stepTo_noPeerGain.
Qed.

Lemma root_peer_names_not_hoisted_witness :
  exists r popularityMap identMap p n,
    rootWithPeerHeap !! 0%nat = Some r
    /\ getHoistIdentMap rootWithPeerHeap 0%nat popularityMap = Done identMap
    /\ p ∈ peerNames r /\ p ≠ name r
    /\ rootWithPeerHeap !! 2%nat = Some n /\ name n = p
    /\ map_get p identMap = None
    /\ getNodeHoistInfo rootWithPeerHeap [".@workspace:."%string] [0; 1]%nat 2%nat []
         (headIdents identMap) identMap false = Done (NO None).
Proof.
  eexists _, [Some ("a@a@1"%string, [".@workspace:."%string]);
              Some ("p@p@1"%string, ["a@1"%string])],
           [Some ("."%string, [".@workspace:."%string]); Some ("a"%string, ["a@1"%string])],
           "p"%string, _.
  assert (rootWithPeerHeap !! 0%nat = Some
            (mkWork "." ["workspace:."%string] ".@workspace:." ".@workspace:."
               [Some ("a"%string, 1%nat)] [Some ("a"%string, 1%nat)] [] ["p"%string]
               true [])) as H0 by reflexivity.
  pose proof (root_peer_names_not_hoisted rootWithPeerHeap 0%nat _
                [Some ("a@a@1"%string, [".@workspace:."%string]);
                 Some ("p@p@1"%string, ["a@1"%string])]
                [Some ("."%string, [".@workspace:."%string]); Some ("a"%string, ["a@1"%string])]
                H0 eq_refl) as [H _].
  destruct (H "p"%string [] ltac:(by left) ltac:(done)) as (Hmap & _ & Hinfo).
  split_and!; [exact H0|reflexivity|by left|done|reflexivity|reflexivity|exact Hmap|].
  by eapply (Hinfo rootWithPeerHeap _ [0; 1]%nat 1%nat).
Defined.

(** ** More fuel

    A run that is cut short says nothing; any other outcome is the outcome
    of every run with more fuel. *)

Lemma oleq_refl {A} (o : Outcome A) : oleq o o.
Proof. by right. Qed.

Lemma mleq_refl {S A} (m : M S A) : mleq m m.
Proof. intros s. by right. Qed.

Lemma obind_oleq {A B} (o o' : Outcome A) (k k' : A -> Outcome B) :
  oleq o o' -> (forall a, oleq (k a) (k' a)) -> oleq (obind o k) (obind o' k').
Proof.
  intros [->| <-] Hk; [by left|]. destruct o as [a| |]; simpl; [apply Hk|by right|by left].
Qed.

Lemma foldO_oleq {A B} (l : list A) (acc : B) (body body' : B -> A -> Outcome B) :
  (forall b x, oleq (body b x) (body' b x)) ->
  oleq (foldO l acc body) (foldO l acc body').
Proof.
  intros Hbody. revert acc. induction l as [|x l IH]; intros acc; simpl; [by right|].
  apply obind_oleq; [apply Hbody|]. intros a. apply IH.
Qed.

Lemma bind_mleq {S A B} (m m' : M S A) (k k' : A -> M S B) :
  mleq m m' -> (forall a, mleq (k a) (k' a)) -> mleq (bind m k) (bind m' k').
Proof.
  intros Hm Hk s. unfold bind. destruct (Hm s) as [->| <-]; [by left|].
  destruct (m s) as [a s'|e s'|]; [apply Hk|by right|by left].
Qed.

Lemma foldM_mleq {S A B} (l : list A) (acc : B) (body body' : B -> A -> M S B) :
  (forall b x, mleq (body b x) (body' b x)) ->
  mleq (foldM l acc body) (foldM l acc body').
Proof.
  intros Hbody. revert acc. induction l as [|x l IH]; intros acc; simpl; [apply mleq_refl|].
  apply bind_mleq; [apply Hbody|]. intros a. apply IH.
Qed.

Lemma lift_mleq {S A} (o o' : Outcome A) : oleq o o' -> mleq (@lift S A o) (lift o').
Proof. intros [->| <-] s; [by left|by right]. Qed.

Lemma onHeap_mleq {A} (m m' : M Heap A) : mleq m m' -> mleq (onHeap m) (onHeap m').
Proof.
  intros Hm w. unfold onHeap. destruct (Hm (heap w)) as [->| <-]; [by left|by right].
Qed.

(** The steps of a proof that more fuel keeps an outcome: the two sides
    differ in the fuel of their calls only. *)
Ltac mono_step :=
  first
    [ apply oleq_refl
    | apply mleq_refl
    | apply obind_oleq; [|intros ?]
    | apply foldO_oleq; intros ? ?
    | apply bind_mleq; [|intros ?]
    | apply foldM_mleq; intros ? ?
    | apply lift_mleq
    | apply onHeap_mleq
    | match goal with
      | |- oleq (match ?x with _ => _ end) _ => destruct x
      | |- mleq (match ?x with _ => _ end) _ => destruct x
      end ].

Ltac mono tac :=
  cbv zeta;
  repeat (first [apply oleq_refl | apply mleq_refl | tac | mono_step]; cbv zeta).

Ltac mono_fix tac :=
  match goal with
  | Hle : (S ?fuel <= ?fuel')%nat |- _ =>
      destruct fuel' as [|fuel']; [lia|];
      assert (fuel <= fuel')%nat by lia; simpl;
      mono tac
  end.

Lemma markNodeCoupled_mono fuel fuel' node seen :
  (fuel <= fuel')%nat -> mleq (markNodeCoupled fuel node seen) (markNodeCoupled fuel' node seen).
Proof.
  revert fuel' node seen. induction fuel as [|fuel IH]; intros fuel' node seen Hle;
    [by left|]. mono_fix ltac:(by apply IH).
Qed.

Lemma addNode_mono fuel fuel' node parentNode seen :
  (fuel <= fuel')%nat ->
  mleq (addNode fuel node parentNode seen) (addNode fuel' node parentNode seen).
Proof.
  revert fuel' node parentNode seen.
  induction fuel as [|fuel IH]; intros fuel' node parentNode seen Hle; [by left|].
  mono_fix ltac:(first [by apply IH | by apply markNodeCoupled_mono]).
Qed.

Lemma cloneTree_mono fuel fuel' tree :
  (fuel <= fuel')%nat -> mleq (cloneTree fuel tree) (cloneTree fuel' tree).
Proof. intros Hle. unfold cloneTree. mono ltac:(by apply addNode_mono). Qed.

Lemma addParent_mono fuel fuel' h parentNode node st :
  (fuel <= fuel')%nat ->
  oleq (addParent fuel h parentNode node st) (addParent fuel' h parentNode node st).
Proof.
  revert fuel' parentNode node st.
  induction fuel as [|fuel IH]; intros fuel' parentNode node st Hle; [by left|].
  mono_fix ltac:(by apply IH).
Qed.

Lemma buildPopularityMap_mono fuel fuel' h rootNode :
  (fuel <= fuel')%nat ->
  oleq (buildPopularityMap fuel h rootNode) (buildPopularityMap fuel' h rootNode).
Proof. intros Hle. unfold buildPopularityMap. mono ltac:(by apply addParent_mono). Qed.

Lemma addHoistedDependencies_mono fuel fuel' h rootNode node st :
  (fuel <= fuel')%nat ->
  oleq (addHoistedDependencies fuel h rootNode node st)
    (addHoistedDependencies fuel' h rootNode node st).
Proof.
  revert fuel' node st.
  induction fuel as [|fuel IH]; intros fuel' node st Hle; [by left|].
  mono_fix ltac:(by apply IH).
Qed.

Lemma getHoistedDependencies_mono fuel fuel' h rootNode :
  (fuel <= fuel')%nat ->
  oleq (getHoistedDependencies fuel h rootNode) (getHoistedDependencies fuel' h rootNode).
Proof.
  intros Hle. unfold getHoistedDependencies. mono ltac:(by apply addHoistedDependencies_mono).
Qed.

Lemma addDep_mono fuel fuel' h node dep st :
  (fuel <= fuel')%nat -> oleq (addDep fuel h node dep st) (addDep fuel' h node dep st).
Proof.
  revert fuel' dep st.
  induction fuel as [|fuel IH]; intros fuel' dep st Hle; [by left|].
  mono_fix ltac:(by apply IH).
Qed.

Lemma getSortedRegularDependencies_mono fuel fuel' h node :
  (fuel <= fuel')%nat ->
  oleq (getSortedRegularDependencies fuel h node) (getSortedRegularDependencies fuel' h node).
Proof.
  intros Hle. unfold getSortedRegularDependencies. mono ltac:(by apply addDep_mono).
Qed.

Lemma checkNode_mono fuel fuel' h node parentDeps st :
  (fuel <= fuel')%nat ->
  oleq (checkNode fuel h node parentDeps st) (checkNode fuel' h node parentDeps st).
Proof.
  revert fuel' node parentDeps st.
  induction fuel as [|fuel IH]; intros fuel' node parentDeps st Hle; [by left|].
  mono_fix ltac:(by apply IH).
Qed.

Lemma selfCheck_mono fuel fuel' h tree :
  (fuel <= fuel')%nat -> oleq (selfCheck fuel h tree) (selfCheck fuel' h tree).
Proof. intros Hle. unfold selfCheck. mono ltac:(by apply checkNode_mono). Qed.

Lemma classifyDependencies_mono rootNodePath hoisted hoistIdents hoistIdentMap options
    fuel fuel' h nodePath parentNode :
  (fuel <= fuel')%nat ->
  oleq (classifyDependencies rootNodePath hoisted hoistIdents hoistIdentMap options
          fuel h nodePath parentNode)
    (classifyDependencies rootNodePath hoisted hoistIdents hoistIdentMap options
       fuel' h nodePath parentNode).
Proof.
  intros Hle. unfold classifyDependencies.
  mono ltac:(by apply getSortedRegularDependencies_mono).
Qed.

Lemma addUnhoistableNode_mono fuel fuel' h p dependantTree node hoistInfo st :
  (fuel <= fuel')%nat ->
  oleq (addUnhoistableNode fuel h p dependantTree node hoistInfo st)
    (addUnhoistableNode fuel' h p dependantTree node hoistInfo st).
Proof.
  revert fuel' node st.
  induction fuel as [|fuel IH]; intros fuel' node st Hle; [by left|].
  mono_fix ltac:(by apply IH).
Qed.

Lemma collectUnhoistable_mono fuel fuel' h parentNode hoistInfos dependantTree :
  (fuel <= fuel')%nat ->
  oleq (collectUnhoistable fuel h parentNode hoistInfos dependantTree)
    (collectUnhoistable fuel' h parentNode hoistInfos dependantTree).
Proof.
  intros Hle. unfold collectUnhoistable. mono ltac:(by apply addUnhoistableNode_mono).
Qed.

Lemma dumpPackage_mono fuel fuel' h pkg parents_ prefix nodeCount :
  (fuel <= fuel')%nat ->
  oleq (dumpPackage fuel h pkg parents_ prefix nodeCount)
    (dumpPackage fuel' h pkg parents_ prefix nodeCount).
Proof.
  revert fuel' pkg parents_ prefix nodeCount.
  induction fuel as [|fuel IH]; intros fuel' pkg parents_ prefix nodeCount Hle; [by left|].
  mono_fix ltac:(by apply IH).
Qed.

Lemma dumpDepTree_mono fuel fuel' h tree :
  (fuel <= fuel')%nat -> oleq (dumpDepTree fuel h tree) (dumpDepTree fuel' h tree).
Proof. intros Hle. unfold dumpDepTree. mono ltac:(by apply dumpPackage_mono). Qed.

Lemma failCheck_mono {A} fuel fuel' h tree checkLog after :
  (fuel <= fuel')%nat ->
  mleq (@failCheck A fuel h tree checkLog after) (failCheck fuel' h tree checkLog after).
Proof. intros Hle. unfold failCheck. mono ltac:(by apply dumpDepTree_mono). Qed.

Lemma runSelfCheck_mono tree rootNode options fuel fuel' nodePath parentNode :
  (fuel <= fuel')%nat ->
  mleq (runSelfCheck tree rootNode options fuel nodePath parentNode)
    (runSelfCheck tree rootNode options fuel' nodePath parentNode).
Proof.
  intros Hle. unfold runSelfCheck. destruct (check options); [|apply mleq_refl].
  mono ltac:(first [by apply selfCheck_mono | by apply failCheck_mono]).
Qed.

Section HoistGraphMono.
Variables (tree rootNode : addr) (rootNodePath : JsSet Locator).
Variable hoistedDependencies_ : JsMap PackageName addr.
Variable hoistIdents : JsMap PackageName (option Ident).
Variable hoistIdentMap : JsMap PackageName (list Ident).
Variable options : InternalHoistOptions.

Lemma hoistNodeDependencies_mono fuel fuel' nodePath locatorPath parentNode st :
  (fuel <= fuel')%nat ->
  mleq (hoistNodeDependencies tree rootNode rootNodePath hoistedDependencies_ hoistIdents
          hoistIdentMap options fuel nodePath locatorPath parentNode st)
    (hoistNodeDependencies tree rootNode rootNodePath hoistedDependencies_ hoistIdents
       hoistIdentMap options fuel' nodePath locatorPath parentNode st).
Proof.
  revert fuel' nodePath locatorPath parentNode st.
  induction fuel as [|fuel IH]; intros fuel' nodePath locatorPath parentNode st Hle;
    [by left|].
  mono_fix ltac:(first [ by apply IH | by apply classifyDependencies_mono
                       | by apply collectUnhoistable_mono | by apply runSelfCheck_mono
                       | by apply getSortedRegularDependencies_mono ]).
Qed.

Lemma hoistNewNodes_mono fuel fuel' newNodes seenNodes :
  (fuel <= fuel')%nat ->
  mleq (hoistNewNodes tree rootNode rootNodePath hoistedDependencies_ hoistIdents
          hoistIdentMap options fuel newNodes seenNodes)
    (hoistNewNodes tree rootNode rootNodePath hoistedDependencies_ hoistIdents
       hoistIdentMap options fuel' newNodes seenNodes).
Proof.
  intros Hle. unfold hoistNewNodes. mono ltac:(by apply hoistNodeDependencies_mono).
Qed.

Lemma hoistGraphLoop_mono fuel fuel' nextNewNodes seenNodes :
  (fuel <= fuel')%nat ->
  mleq (hoistGraphLoop tree rootNode rootNodePath hoistedDependencies_ hoistIdents
          hoistIdentMap options fuel nextNewNodes seenNodes)
    (hoistGraphLoop tree rootNode rootNodePath hoistedDependencies_ hoistIdents
       hoistIdentMap options fuel' nextNewNodes seenNodes).
Proof.
  revert fuel' nextNewNodes seenNodes.
  induction fuel as [|fuel IH]; intros fuel' nextNewNodes seenNodes Hle; [by left|].
  mono_fix ltac:(first [by apply IH | by apply hoistNewNodes_mono]).
Qed.

Lemma hoistGraph_mono fuel fuel' :
  (fuel <= fuel')%nat ->
  mleq (hoistGraph tree rootNode rootNodePath hoistedDependencies_ hoistIdents
          hoistIdentMap options fuel)
    (hoistGraph tree rootNode rootNodePath hoistedDependencies_ hoistIdents
       hoistIdentMap options fuel').
Proof.
  intros Hle. unfold hoistGraph.
  mono ltac:(first [by apply hoistGraphLoop_mono | by apply getSortedRegularDependencies_mono]).
Qed.

End HoistGraphMono.

Lemma hoistToLoop_mono fuel fuel' tree rootNode rootNodePath hoisted c options :
  (fuel <= fuel')%nat ->
  mleq (hoistToLoop fuel tree rootNode rootNodePath hoisted c options)
    (hoistToLoop fuel' tree rootNode rootNodePath hoisted c options).
Proof.
  revert fuel' c.
  induction fuel as [|fuel IH]; intros fuel' c Hle; [by left|].
  mono_fix ltac:(first [by apply IH | by apply hoistGraph_mono]).
Qed.

Lemma hoistTo_mono fuel :
  (forall fuel' tree rootNode rootNodePath options seenNodes,
     (fuel <= fuel')%nat ->
     mleq (hoistTo fuel tree rootNode rootNodePath options seenNodes)
       (hoistTo fuel' tree rootNode rootNodePath options seenNodes))
  /\ (forall fuel' tree rootNode i rootNodePath options,
        (fuel <= fuel')%nat ->
        mleq (hoistSubRoots fuel tree rootNode i rootNodePath options)
          (hoistSubRoots fuel' tree rootNode i rootNodePath options)).
Proof.
  induction fuel as [|fuel [IH1 IH2]]; [split; intros; by left|].
  split.
  - intros fuel' tree rootNode rootNodePath options seenNodes Hle.
    mono_fix ltac:(first [ by apply IH2 | by apply hoistToLoop_mono
                         | by apply buildPopularityMap_mono
                         | by apply getHoistedDependencies_mono ]).
  - intros fuel' tree rootNode i rootNodePath options Hle.
    mono_fix ltac:(first [by apply IH1 | by apply IH2]).
Qed.

Lemma addResultNode_mono fuel fuel' h node parentWorkNode parentNode seenNodes :
  (fuel <= fuel')%nat ->
  mleq (addResultNode fuel h node parentWorkNode parentNode seenNodes)
    (addResultNode fuel' h node parentWorkNode parentNode seenNodes).
Proof.
  revert fuel' node parentWorkNode parentNode seenNodes.
  induction fuel as [|fuel IH]; intros fuel' node parentWorkNode parentNode seenNodes Hle;
    [by left|].
  mono_fix ltac:(by apply IH).
Qed.

Lemma shrinkTree_mono fuel fuel' h tree :
  (fuel <= fuel')%nat -> oleq (shrinkTree fuel h tree) (shrinkTree fuel' h tree).
Proof.
  intros Hle. unfold shrinkTree. apply obind_oleq; [apply oleq_refl|]. intros t. cbv zeta.
  match goal with
  | |- oleq (match ?m ?s with _ => _ end) (match ?m' ?s with _ => _ end) =>
      assert (mleq m m') as Hm
  end.
  { mono ltac:(by apply addResultNode_mono). }
  destruct (Hm [mkResult (name t) (getIdentName (locator t)) (set_of_list (references t)) []])
    as [->| <-]; [by left|by right].
Qed.

Lemma hoist_mono fuel fuel' toNumber env tree opts :
  (fuel <= fuel')%nat ->
  mleq (hoist fuel toNumber env tree opts) (hoist fuel' toNumber env tree opts).
Proof.
  intros Hle. unfold hoist.
  mono ltac:(first [ by apply cloneTree_mono | by apply (proj1 (hoistTo_mono _))
                   | by apply selfCheck_mono | by apply failCheck_mono
                   | by apply dumpDepTree_mono | by apply shrinkTree_mono ]).
Qed.

(** ** Runs that end *)

(** Code that reads: it is not cut short. *)
Lemma obind_ns {A B} (o : Outcome A) (k : A -> Outcome B) :
  o <> Starved -> (forall a, o = Done a -> k a <> Starved) -> obind o k <> Starved.
Proof. destruct o as [a| |]; simpl; [auto|done|done]. Qed.

Lemma foldO_ns {A B} (I : B -> Prop) (body : B -> A -> Outcome B) l acc :
  I acc ->
  (forall x b, x ∈ l -> I b -> body b x <> Starved /\ forall b', body b x = Done b' -> I b') ->
  foldO l acc body <> Starved /\ forall r, foldO l acc body = Done r -> I r.
Proof.
  revert acc. induction l as [|x l IH]; intros acc Hacc Hstep; simpl.
  - split; [done|]. by intros r [= <-].
  - destruct (Hstep x acc) as [Hns Hpost]; [left|done|].
    destruct (body acc x) as [b'| |]; simpl; [|done|done].
    apply IH; [by apply Hpost|]. intros y b Hy. apply Hstep. by right.
Qed.

Lemma foldO_ns_all {A B} (body : B -> A -> Outcome B) l acc :
  (forall x b, body b x <> Starved) -> foldO l acc body <> Starved.
Proof.
  intros Hbody. apply (foldO_ns (fun _ => True)); [done|].
  intros x b _ _. split; [apply Hbody|done].
Qed.

Lemma deref_ns h a : deref h a <> Starved.
Proof. unfold deref. by destruct (h !! a). Qed.

(** The steps for code without fuel. *)
Ltac ns_step :=
  first
    [ done
    | apply deref_ns
    | apply obind_ns; [|intros ? _]
    | apply foldO_ns_all; intros ? ?
    | match goal with
      | |- (match ?x with _ => _ end) <> Starved => destruct x
      end ].

Ltac ns tac := cbv zeta; repeat (first [tac | ns_step]; cbv zeta).

Lemma ends_weaken {S A} (r : Run S A) (P Q : A -> S -> Prop) :
  ends r P -> (forall a s', r = Returned a s' -> P a s' -> Q a s') -> ends r Q.
Proof. destruct r; simpl; [|done|done]. intros HP HPQ. by apply HPQ. Qed.

Lemma ends_not_Exhausted {S A} (r : Run S A) Q : ends r Q -> r <> Exhausted.
Proof. by destruct r. Qed.

Lemma ends_bind {S A B} (m : M S A) (k : A -> M S B) s (Q : B -> S -> Prop) :
  ends (m s) (fun a s' => ends (k a s') Q) -> ends (bind m k s) Q.
Proof. unfold bind. by destruct (m s). Qed.

Lemma ends_ret {S A} (a : A) (s : S) (Q : A -> S -> Prop) : Q a s -> ends (ret a s) Q.
Proof. done. Qed.

Lemma ends_get_st {S} (s : S) (Q : S -> S -> Prop) : Q s s -> ends (get_st s) Q.
Proof. done. Qed.

Lemma ends_lift {S A} (o : Outcome A) (s : S) (Q : A -> S -> Prop) :
  o <> Starved -> (forall a, o = Done a -> Q a s) -> ends (lift o s) Q.
Proof. unfold lift. destruct o; simpl; [auto|done|done]. Qed.

Lemma ends_read a (h : Heap) (Q : HoisterWorkTree -> Heap -> Prop) :
  (forall n, h !! a = Some n -> Q n h) -> ends (read a h) Q.
Proof. unfold read. destruct (h !! a); simpl; auto. Qed.

Lemma ends_modify a f (h : Heap) (Q : unit -> Heap -> Prop) :
  (forall n, h !! a = Some n -> Q tt (<[a := f n]> h)) -> ends (modify a f h) Q.
Proof. unfold modify. destruct (h !! a); simpl; auto. Qed.

Lemma ends_alloc n (h : Heap) (Q : addr -> Heap -> Prop) :
  Q (length h) (h ++ [n]) -> ends (alloc n h) Q.
Proof. done. Qed.

Lemma ends_foldM {S A B} (body : B -> A -> M S B) (I : B -> S -> Prop) l acc s :
  I acc s ->
  (forall b x s, x ∈ l -> I b s -> ends (body b x s) I) ->
  ends (foldM l acc body s) I.
Proof.
  revert acc s. induction l as [|x l IH]; intros acc s Hacc Hstep; simpl; [done|].
  apply ends_bind. eapply ends_weaken; [apply Hstep; [left|done]|].
  intros a s' _ Ha. apply IH; [done|]. intros b y s0 Hy. apply Hstep. by right.
Qed.

Lemma monotone_at {S A} (m : nat -> M S A) fuel fuel' s :
  monotone m -> (fuel <= fuel')%nat -> m fuel s <> Exhausted -> m fuel' s = m fuel s.
Proof. intros Hm Hle Hne. by destruct (Hm fuel fuel' Hle s). Qed.

Lemma halts_pure {S A} (m : M S A) s (Q : A -> S -> Prop) :
  ends (m s) Q -> halts (fun _ => m) s Q.
Proof. intros H. by exists O. Qed.

Lemma halts_ret {S A} (a : A) (s : S) (Q : A -> S -> Prop) : Q a s -> halts (fun _ => ret a) s Q.
Proof. intros H. by exists O. Qed.

Lemma halts_bind {S A B} (m : nat -> M S A) (k : nat -> A -> M S B) s (Q : B -> S -> Prop) :
  monotone m -> (forall a, monotone (fun f => k f a)) ->
  halts m s (fun a s' => halts (fun f => k f a) s' Q) ->
  halts (fun f => bind (m f) (k f)) s Q.
Proof.
  intros Hm Hk [f1 H1]. unfold bind, ends in *.
  destruct (m f1 s) as [a s'|e s'|] eqn:Hrun; [| |done].
  - destruct H1 as [f2 H2]. exists (f1 `max` f2).
    rewrite (monotone_at m f1 _ s Hm) by (try lia; by rewrite Hrun). rewrite Hrun.
    rewrite (monotone_at (fun f => k f a) f2 _ s' (Hk a)); [done|lia|].
    by destruct (k f2 a s').
  - exists f1. by rewrite Hrun.
Qed.

Lemma halts_weaken {S A} (m : nat -> M S A) s (P Q : A -> S -> Prop) :
  halts m s P -> (forall a s', P a s' -> Q a s') -> halts m s Q.
Proof.
  intros [f H] HPQ. exists f. eapply ends_weaken; [exact H|]. intros a s' _. apply HPQ.
Qed.

(** What holds of every run that returns holds of one that ends. *)
Lemma halts_spec {S A} (m : nat -> M S A) s (P Q : A -> S -> Prop) :
  halts m s P -> (forall f a s', m f s = Returned a s' -> P a s' -> Q a s') -> halts m s Q.
Proof.
  intros [f H] HPQ. exists f. eapply ends_weaken; [exact H|]. intros a s'. apply HPQ.
Qed.

Lemma halts_S {S A} (F body : nat -> M S A) s (Q : A -> S -> Prop) :
  (forall f, F (Datatypes.S f) = body f) -> halts body s Q -> halts F s Q.
Proof. intros HF [f H]. exists (Datatypes.S f). by rewrite HF. Qed.

Lemma halts_lift {S A} (o : nat -> Outcome A) (s : S) (Q : A -> S -> Prop) :
  (exists fuel, o fuel <> Starved) ->
  (forall fuel a, o fuel = Done a -> Q a s) ->
  halts (fun f => lift (o f)) s Q.
Proof.
  intros [f Hf] HQ. exists f. apply ends_lift; [done|]. apply HQ.
Qed.

Lemma monotone_foldM {S A B} (body : nat -> B -> A -> M S B) l acc :
  (forall b x, monotone (fun f => body f b x)) ->
  monotone (fun f => @foldM S A B l acc (body f)).
Proof. intros Hbody f f' Hle. apply foldM_mleq. intros b x. by apply Hbody. Qed.

Lemma halts_foldM {S A B} (body : nat -> B -> A -> M S B) (I : B -> S -> Prop) l acc s
    (Q : B -> S -> Prop) :
  (forall b x, monotone (fun f => body f b x)) ->
  I acc s ->
  (forall b x s, x ∈ l -> I b s -> halts (fun f => body f b x) s I) ->
  (forall b s, I b s -> Q b s) ->
  halts (fun f => foldM l acc (body f)) s Q.
Proof.
  intros Hmono Hacc Hstep HQ. revert acc s Hacc.
  induction l as [|x l IH]; intros acc s Hacc; simpl.
  - apply halts_ret. by apply HQ.
  - apply (halts_bind (fun f => body f acc x) (fun f acc' => foldM l acc' (body f))).
    + apply Hmono.
    + intros a. by apply monotone_foldM.
    + eapply halts_weaken; [apply Hstep; [left|done]|].
      intros a s' Ha. apply IH; [|done]. intros b y s0 Hy. apply Hstep. by right.
Qed.

Lemma unvisited_lt k x seen seen' :
  (x < k)%nat -> x ∉ seen -> (forall s, s ∈ seen \/ s = x -> s ∈ seen') ->
  (unvisited k seen' < unvisited k seen)%nat.
Proof.
  intros Hxk Hx Hsub. unfold unvisited.
  apply Nat.le_lt_trans
    with (length (filter (fun y => y ≠ x) (filter (fun x => x ∉ seen) (seq 0 k)))).
  - apply submseteq_length, NoDup_submseteq.
    + apply NoDup_filter, NoDup_seq.
    + intros y Hy. apply list_elem_of_filter in Hy as [Hy HyU].
      apply list_elem_of_filter. split.
      * intros ->. apply Hy. auto.
      * apply list_elem_of_filter. split; [|done]. intros Hin. apply Hy. auto.
  - apply (length_filter_lt _ _ x); [|auto].
    apply list_elem_of_filter. split; [done|]. apply elem_of_seq. lia.
Qed.

Lemma unvisited_mono k seen seen' :
  (forall s, s ∈ seen -> s ∈ seen') -> (unvisited k seen' <= unvisited k seen)%nat.
Proof.
  intros Hsub. unfold unvisited.
  apply submseteq_length, NoDup_submseteq; [apply NoDup_filter, NoDup_seq|].
  intros y Hy. apply list_elem_of_filter in Hy as [Hy HyU].
  apply list_elem_of_filter. split; [|done]. intros Hin. apply Hy. auto.
Qed.

Lemma unvisited_le k seen : (unvisited k seen <= k)%nat.
Proof. unfold unvisited. etrans; [apply length_filter|]. by rewrite length_seq. Qed.

(** ** The walks that read the tree end *)

Lemma addParent_ns h fuel : forall parentNode node st,
  (unvisited (length h) st.2 < fuel)%nat ->
  addParent fuel h parentNode node st <> Starved
  /\ forall st', addParent fuel h parentNode node st = Done st' ->
                 forall s, s ∈ st.2 -> s ∈ st'.2.
Proof.
  induction fuel as [|fuel IH]; intros parentNode node [pm seen] Hfuel; [lia|].
  simpl in *. unfold deref. destruct (h !! parentNode) as [p|]; simpl; [|by split].
  destruct (h !! node) as [n|] eqn:Hn; simpl; [|by split].
  destruct (set_has node seen) eqn:Hseen; simpl.
  { split; [done|]. by intros st' [= <-]. }
  apply set_has_false in Hseen. apply lookup_lt_Some in Hn.
  match goal with |- context [foldO ?l ?acc ?body] =>
    destruct (foldO_ns (fun st : PopularityMap * JsSet addr =>
                forall s, s ∈ seen \/ s = node -> s ∈ st.2) body l acc) as [Hns Hpost]
  end.
  - simpl. intros s Hs. apply elem_of_set_add. tauto.
  - intros dep [pmc seenc] _ Hsub. simpl in *.
    destruct (h !! dep) as [d|]; simpl; [|by split].
    destruct (set_has (name d) (peerNames n)); simpl.
    { split; [done|]. by intros b' [= <-]. }
    destruct (IH node dep (pmc, seenc)) as [Hns' Hpost'].
    { simpl. pose proof (unvisited_lt (length h) node seen seenc Hn Hseen Hsub). lia. }
    split; [done|]. intros b' Hb' s Hs. apply (Hpost' b' Hb'). simpl. auto.
  - split; [done|]. intros st' Hst' s Hs. apply (Hpost st' Hst'). auto.
Qed.

Lemma buildPopularityMap_ns fuel h rootNode :
  (length h < fuel)%nat -> buildPopularityMap fuel h rootNode <> Starved.
Proof.
  intros Hfuel. unfold buildPopularityMap.
  apply obind_ns; [apply deref_ns|]. intros r _.
  apply obind_ns; [|done].
  apply (foldO_ns (fun _ => True)); [done|]. intros dep st _ _.
  split; [|done]. unfold deref.
  destruct (h !! dep) as [d|]; simpl; [|done].
  destruct (negb _); [|done].
  apply addParent_ns. pose proof (unvisited_le (length h) st.2). lia.
Qed.

Lemma addHoistedDependencies_ns h rootNode fuel : forall node st,
  (unvisited (length h) st.2 < fuel)%nat ->
  addHoistedDependencies fuel h rootNode node st <> Starved
  /\ forall st', addHoistedDependencies fuel h rootNode node st = Done st' ->
                 forall s, s ∈ st.2 -> s ∈ st'.2.
Proof.
  induction fuel as [|fuel IH]; intros node [m seen] Hfuel; [lia|].
  simpl in *. unfold deref. destruct (set_has node seen) eqn:Hseen.
  { split; [done|]. by intros st' [= <-]. }
  apply set_has_false in Hseen.
  destruct (h !! node) as [n|] eqn:Hn; simpl; [|by split].
  apply lookup_lt_Some in Hn.
  destruct (h !! rootNode) as [r|]; simpl; [|by split].
  match goal with |- context [obind ?o _] =>
    assert (o <> Starved) as Hfirst; [|destruct o as [hoisted| |]; simpl; [|done|done]]
  end.
  { apply foldO_ns_all. intros dep b. ns ltac:(fail). }
  match goal with |- context [foldO ?l ?acc ?body] =>
    destruct (foldO_ns (fun st : JsMap PackageName addr * JsSet addr =>
                forall s, s ∈ seen \/ s = node -> s ∈ st.2) body l acc) as [Hns Hpost]
  end.
  - simpl. intros s Hs. apply elem_of_set_add. tauto.
  - intros dep [mc seenc] _ Hsub. simpl in *.
    destruct (h !! dep) as [d|]; simpl; [|by split].
    destruct (set_has (name d) (peerNames n)); simpl.
    { split; [done|]. by intros b' [= <-]. }
    destruct (IH dep (mc, seenc)) as [Hns' Hpost'].
    { simpl. pose proof (unvisited_lt (length h) node seen seenc Hn Hseen Hsub). lia. }
    split; [done|]. intros b' Hb' s Hs. apply (Hpost' b' Hb'). simpl. auto.
  - split; [done|]. intros st' Hst' s Hs. apply (Hpost st' Hst'). auto.
Qed.

Lemma getHoistedDependencies_ns fuel h rootNode :
  (length h < fuel)%nat -> getHoistedDependencies fuel h rootNode <> Starved.
Proof.
  intros Hfuel. unfold getHoistedDependencies.
  apply obind_ns; [|done]. apply addHoistedDependencies_ns. simpl.
  pose proof (unvisited_le (length h) []). lia.
Qed.

Lemma getHoistIdentMap_ns h rootNode popularityMap :
  getHoistIdentMap h rootNode popularityMap <> Starved.
Proof. unfold getHoistIdentMap. ns ltac:(fail). Qed.

Lemma addDep_ns h n fuel : forall dep seen deps,
  dep ∈ remove_dups (map_values (dependencies n)) -> (unseen n seen < fuel)%nat ->
  addDep fuel h n dep (seen, deps) <> Starved
  /\ forall st', addDep fuel h n dep (seen, deps) = Done st' -> forall s, s ∈ seen -> s ∈ st'.1.
Proof.
  induction fuel as [|fuel IH]; intros dep seen deps HU Hfuel; [lia|].
  simpl. unfold deref. destruct (set_has dep seen) eqn:Hhas.
  { split; [done|]. by intros st' [= <-]. }
  apply set_has_false in Hhas.
  destruct (h !! dep) as [d|]; simpl; [|by split].
  match goal with |- context [foldO ?l ?acc ?body] =>
    destruct (foldO_ns (fun st : JsSet addr * JsSet addr =>
                forall s, s ∈ seen \/ s = dep -> s ∈ st.1) body l acc) as [Hns Hpost]
  end.
  - simpl. intros s Hs. apply elem_of_set_add. tauto.
  - intros q [seenc depsc] _ Hsub. simpl in *.
    destruct (set_has q (peerNames n)); simpl.
    { split; [done|]. by intros b' [= <-]. }
    destruct (map_get q (dependencies n)) as [P|] eqn:HP.
    2:{ split; [done|]. by intros b' [= <-]. }
    destruct (set_has P depsc); simpl.
    { split; [done|]. by intros b' [= <-]. }
    destruct (IH P seenc depsc) as [Hns' Hpost'].
    + by eapply get_in_U.
    + pose proof (unseen_lt n dep seen seenc HU Hhas Hsub). lia.
    + split; [done|]. intros b' Hb' s Hs. apply (Hpost' b' Hb'). auto.
  - destruct (foldO _ _ _) as [st1| |]; simpl; [|done|done].
    split; [done|]. intros st' [= <-] s Hs. simpl. apply (Hpost st1 eq_refl). auto.
Qed.

Lemma getSortedRegularDependencies_ns fuel h N :
  (forall n, h !! N = Some n -> (length (dependencies n) < fuel)%nat) ->
  getSortedRegularDependencies fuel h N <> Starved.
Proof.
  intros Hfuel. unfold getSortedRegularDependencies, deref.
  destruct (h !! N) as [n|]; simpl; [|done]. specialize (Hfuel n eq_refl).
  apply (foldO_ns (fun _ => True)); [done|]. intros dep deps Hdep _. split; [|done].
  destruct (h !! dep) as [d|]; simpl; [|done].
  destruct (negb _); [|done].
  apply obind_ns; [|done].
  apply addDep_ns; [by apply elem_of_remove_dups|].
  pose proof (unseen_le n []). lia.
Qed.

Lemma shadowingParent_ns h n parents : shadowingParent h n parents <> Starved.
Proof. induction parents as [|p rest IH]; simpl; ns ltac:(apply IH). Qed.

Lemma checkPeerName_ns h reasonRoot outputReason isDirectParent p st name_ :
  checkPeerName h reasonRoot outputReason isDirectParent p st name_ <> Starved.
Proof. unfold checkPeerName. ns ltac:(fail). Qed.

Lemma checkPeers_ns h reasonRoot outputReason parents_ : forall isDirectParent st,
  checkPeers h reasonRoot outputReason isDirectParent parents_ st <> Starved.
Proof.
  induction parents_ as [|p rest IH]; intros isDirectParent st; simpl;
    ns ltac:(first [apply IH | apply checkPeerName_ns]).
Qed.

Lemma getNodeHoistInfo_ns h rootNodePath nodePath node hoisted hoistIdents hoistIdentMap
    outputReason :
  getNodeHoistInfo h rootNodePath nodePath node hoisted hoistIdents hoistIdentMap
    outputReason <> Starved.
Proof.
  unfold getNodeHoistInfo.
  ns ltac:(first [apply shadowingParent_ns | apply checkPeers_ns]).
Qed.

Lemma classifyDependencies_ns rootNodePath hoisted hoistIdents hoistIdentMap options
    fuel h nodePath parentNode :
  (forall n, h !! parentNode = Some n -> (length (dependencies n) < fuel)%nat) ->
  classifyDependencies rootNodePath hoisted hoistIdents hoistIdentMap options
    fuel h nodePath parentNode <> Starved.
Proof.
  intros Hfuel. unfold classifyDependencies.
  apply obind_ns; [by apply getSortedRegularDependencies_ns|]. intros sorted _.
  ns ltac:(apply getNodeHoistInfo_ns).
Qed.

Lemma addUnhoistableNode_ns h p dependantTree hoistInfo fuel : forall node st,
  (unvisited (length h) st.1 < fuel)%nat ->
  addUnhoistableNode fuel h p dependantTree node hoistInfo st <> Starved
  /\ forall st', addUnhoistableNode fuel h p dependantTree node hoistInfo st = Done st' ->
                 forall s, s ∈ st.1 -> s ∈ st'.1.
Proof.
  induction fuel as [|fuel IH]; intros node [un infos] Hfuel; [lia|].
  simpl in *. unfold deref. destruct (set_has node un) eqn:Hseen; simpl.
  { split; [done|]. by intros st' [= <-]. }
  apply set_has_false in Hseen.
  destruct (h !! node) as [nd|] eqn:Hn; simpl; [|by split].
  apply lookup_lt_Some in Hn.
  match goal with |- context [foldO ?l ?acc ?body] =>
    destruct (foldO_ns (fun st : JsSet addr * HoistInfos =>
                forall s, s ∈ un \/ s = node -> s ∈ st.1) body l acc) as [Hns Hpost]
  end.
  - simpl. intros s Hs. apply elem_of_set_add. tauto.
  - intros dn [unc infosc] _ Hsub. simpl in *.
    destruct (map_get dn (dependencies p)) as [dependant|]; [|done].
    destruct (IH dependant (unc, infosc)) as [Hns' Hpost'].
    { simpl. pose proof (unvisited_lt (length h) node un unc Hn Hseen Hsub). lia. }
    split; [done|]. intros b' Hb' s Hs. apply (Hpost' b' Hb'). simpl. auto.
  - split; [done|]. intros st' Hst' s Hs. apply (Hpost st' Hst'). auto.
Qed.

Lemma collectUnhoistable_ns fuel h parentNode hoistInfos dependantTree :
  (length h < fuel)%nat ->
  collectUnhoistable fuel h parentNode hoistInfos dependantTree <> Starved.
Proof.
  intros Hfuel. unfold collectUnhoistable.
  apply obind_ns; [apply deref_ns|]. intros p _.
  apply (foldO_ns (fun _ => True)); [done|]. intros node st _ _. split; [|done].
  destruct (map_get node st.2) as [[|reason|]|]; [done| |done|done].
  apply addUnhoistableNode_ns. pose proof (unvisited_le (length h) st.1). lia.
Qed.

Lemma locatorsOf_ns h l : locatorsOf h l <> Starved.
Proof. unfold locatorsOf. ns ltac:(fail). Qed.

Lemma checkOrigDep_ns h node n parentDeps dependencies_ st origDep :
  checkOrigDep h node n parentDeps dependencies_ st origDep <> Starved
  /\ forall st', checkOrigDep h node n parentDeps dependencies_ st origDep = Done st' ->
                 seenChecked st' = seenChecked st.
Proof.
  unfold checkOrigDep, deref.
  destruct (h !! origDep) as [od|]; simpl; [|by split].
  destruct (locatorsOf h (parents st ++ [node])) as [treePath| |] eqn:Hl; simpl;
    [|done|by destruct (locatorsOf_ns h (parents st ++ [node]))].
  destruct (set_has (name od) (peerNames n)).
  - destruct (negb _).
    + destruct (map_get (name od) dependencies_) as [dep|]; [|done].
      destruct (h !! dep) as [d|]; simpl; [|by split].
      destruct (map_get (name od) parentDeps) as [pd|]; simpl.
      * destruct (h !! pd) as [x|]; simpl; [|by split].
        split; [done|]. by intros st' [= <-].
      * split; [done|]. by intros st' [= <-].
    + split; [done|]. by intros st' [= <-].
  - destruct (map_get (name od) dependencies_) as [dep|].
    + destruct (h !! dep) as [d|]; simpl; [|by split].
      destruct (negb _); (split; [done|]; by intros st' [= <-]).
    + split; [done|]. by intros st' [= <-].
Qed.

Lemma checkNode_ns h fuel : forall node parentDeps st,
  (unvisited (length h) (seenChecked st) < fuel)%nat ->
  checkNode fuel h node parentDeps st <> Starved
  /\ forall st', checkNode fuel h node parentDeps st = Done st' ->
                 forall s, s ∈ seenChecked st -> s ∈ seenChecked st'.
Proof.
  induction fuel as [|fuel IH]; intros node parentDeps [lg seen ps] Hfuel; [lia|].
  simpl in *. unfold deref. destruct (set_has node seen) eqn:Hseen.
  { split; [done|]. by intros st' [= <-]. }
  apply set_has_false in Hseen.
  destruct (set_has node ps).
  { split; [done|]. intros st' [= <-] s Hs. simpl. apply elem_of_set_add. auto. }
  destruct (h !! node) as [n|] eqn:Hn; simpl; [|by split].
  apply lookup_lt_Some in Hn.
  match goal with |- context [obind ?o _] =>
    assert (o <> Starved) as Hfirst; [|destruct o as [dependencies_| |]; simpl; [|done|done]]
  end.
  { apply foldO_ns_all. intros dep b. ns ltac:(fail). }
  match goal with |- context [foldO ?l ?acc ?body] =>
    destruct (foldO_ns (fun st : CheckState => seenChecked st = set_add node seen) body l acc)
      as [Hns1 Hpost1]
  end.
  { done. }
  { intros od st _ Hst. destruct (checkOrigDep_ns h node n parentDeps dependencies_ st od)
      as [Hns' Hpost']. split; [done|]. intros b' Hb'. rewrite (Hpost' b' Hb'). done. }
  destruct (foldO _ _ (checkOrigDep _ _ _ _ _)) as [st1| |]; simpl; [|done|done].
  specialize (Hpost1 st1 eq_refl).
  match goal with |- context [foldO ?l ?acc ?body] =>
    destruct (foldO_ns (fun st : CheckState =>
                forall s, s ∈ seen \/ s = node -> s ∈ seenChecked st) body l acc)
      as [Hns2 Hpost2]
  end.
  - simpl. rewrite Hpost1. intros s Hs. apply elem_of_set_add. tauto.
  - intros dep stc _ Hsub. simpl in *.
    destruct (h !! dep) as [d|]; simpl; [|by split].
    destruct (set_has (name d) (peerNames n)); simpl.
    { split; [done|]. by intros b' [= <-]. }
    destruct (IH dep dependencies_ stc) as [Hns' Hpost'].
    { pose proof (unvisited_lt (length h) node seen (seenChecked stc) Hn Hseen Hsub). lia. }
    split; [done|]. intros b' Hb' s Hs. apply (Hpost' b' Hb'). auto.
  - destruct (foldO _ _ _) as [st2| |]; simpl; [|done|done].
    split; [done|]. intros st' [= <-] s Hs. simpl. apply (Hpost2 st2 eq_refl). auto.
Qed.

Lemma selfCheck_ns fuel h tree : (length h < fuel)%nat -> selfCheck fuel h tree <> Starved.
Proof.
  intros Hfuel. unfold selfCheck. apply obind_ns; [apply deref_ns|]. intros t _.
  apply obind_ns; [|done]. apply checkNode_ns. simpl.
  pose proof (unvisited_le (length h) []). lia.
Qed.

Lemma dumpPackage_ns h fuel : forall pkg parents_ prefix nodeCount,
  (unvisited (length h) parents_ < fuel)%nat ->
  dumpPackage fuel h pkg parents_ prefix nodeCount <> Starved.
Proof.
  induction fuel as [|fuel IH]; intros pkg parents_ prefix nodeCount Hfuel; [lia|].
  simpl. destruct (_ || _) eqn:Hcond; [done|].
  apply orb_false_elim in Hcond as [_ Hseen]. apply set_has_false in Hseen.
  unfold deref. destruct (h !! pkg) as [p|] eqn:Hp; simpl; [|done].
  apply lookup_lt_Some in Hp.
  apply foldO_ns_all. intros entry st.
  destruct (h !! entry.2) as [d|]; simpl; [|done].
  destruct (negb _); [|done].
  apply obind_ns; [|done]. apply IH.
  assert (unvisited (length h) (set_add pkg parents_) < unvisited (length h) parents_)%nat;
    [|lia].
  apply (unvisited_lt _ pkg); [done|done|].
  intros s Hs. apply elem_of_set_add. tauto.
Qed.

Lemma dumpDepTree_ns fuel h tree : (length h < fuel)%nat -> dumpDepTree fuel h tree <> Starved.
Proof.
  intros Hfuel. unfold dumpDepTree. apply obind_ns; [|done]. apply dumpPackage_ns.
  pose proof (unvisited_le (length h) []). lia.
Qed.

(** More fuel keeps the outcome of every function with fuel. *)
Ltac mono_all :=
  mono ltac:(first
    [ by apply markNodeCoupled_mono | by apply addNode_mono | by apply cloneTree_mono
    | by apply addParent_mono | by apply buildPopularityMap_mono
    | by apply addHoistedDependencies_mono | by apply getHoistedDependencies_mono
    | by apply addDep_mono | by apply getSortedRegularDependencies_mono
    | by apply checkNode_mono | by apply selfCheck_mono
    | by apply dumpPackage_mono | by apply dumpDepTree_mono | by apply failCheck_mono
    | by apply classifyDependencies_mono | by apply addUnhoistableNode_mono
    | by apply collectUnhoistable_mono | by apply runSelfCheck_mono
    | by apply hoistNodeDependencies_mono | by apply hoistNewNodes_mono
    | by apply hoistGraphLoop_mono | by apply hoistGraph_mono
    | by apply hoistToLoop_mono | by apply (proj1 (hoistTo_mono _))
    | by apply (proj2 (hoistTo_mono _)) | by apply addResultNode_mono
    | by apply shrinkTree_mono | by apply hoist_mono ]).

Ltac solve_monotone := intros ? ? ?; cbv beta; mono_all.

Ltac hbind := eapply halts_bind; [solve_monotone | intros ?; solve_monotone | ].

Ltac hunfold := eapply halts_S; [intros ?; reflexivity|]; simpl.

(** ** cloneTree ends *)

Lemma markNodeCoupled_ends fuel : forall node seen h,
  (unvisited (length h) seen < fuel)%nat ->
  ends (markNodeCoupled fuel node seen h)
    (fun seen' h' => length h' = length h /\ forall s, s ∈ seen -> s ∈ seen').
Proof.
  induction fuel as [|fuel IH]; intros node seen h Hfuel; [lia|].
  simpl. destruct (set_has node seen) eqn:Hseen; [by apply ends_ret|].
  apply set_has_false in Hseen.
  apply ends_bind, ends_modify. intros n0 Hn0.
  pose proof (lookup_lt_Some _ _ _ Hn0) as Hlt.
  apply ends_bind, ends_read. intros n Hn.
  eapply ends_weaken.
  - apply (ends_foldM _ (fun seen_c h_c =>
             length h_c = length h /\ forall s, s ∈ seen \/ s = node -> s ∈ seen_c)).
    + split; [by rewrite length_insert|]. intros s Hs. apply elem_of_set_add. tauto.
    + intros seen_c dep h_c _ [Hlen Hsub].
      apply ends_bind, ends_read. intros d Hd.
      destruct (negb _); [|by apply ends_ret].
      eapply ends_weaken; [apply IH|].
      * rewrite Hlen. pose proof (unvisited_lt (length h) node seen seen_c Hlt Hseen Hsub). lia.
      * intros seen' h' _ [Hlen' Hsub']. split; [congruence|]. auto.
  - intros seen' h' _ [Hlen Hsub]. split; [done|]. auto.
Qed.

Lemma ends_onHeap {A} (m : M Heap A) w (Q : A -> World -> Prop) :
  ends (m (heap w)) (fun a h' => Q a (mkWorld (inputs w) h')) -> ends (onHeap m w) Q.
Proof. unfold onHeap. by destruct (m (heap w)). Qed.

Lemma ends_readInput i w (Q : HoisterTree -> World -> Prop) :
  (forall t, inputs w !! i = Some t -> Q t w) -> ends (readInput i w) Q.
Proof. unfold readInput. destruct (inputs w !! i); simpl; auto. Qed.

Lemma map_keys_set_incl {K V} `{EqDecision K} (k : K) (v : V) m x :
  x ∈ map_keys m \/ x = k <-> x ∈ map_keys (map_set k v m).
Proof.
  rewrite map_keys_set. destruct (map_has k m) eqn:Hhas.
  - apply map_has_true in Hhas. split; [intros [?| ->]; done|by left].
  - rewrite elem_of_app, list_elem_of_singleton. done.
Qed.

Lemma addNode_halts k : forall node parentNode seen w,
  (unvisited (length (inputs w)) (map_keys seen) <= k)%nat ->
  halts (fun f => addNode f node parentNode seen) w
    (fun seen' w' => inputs w' = inputs w
                     /\ forall x, x ∈ map_keys seen -> x ∈ map_keys seen').
Proof.
  induction k as [k IH] using lt_wf_ind. intros node parentNode seen w Hk.
  hunfold. hbind. apply halts_pure, ends_readInput. intros t Ht.
  pose proof (lookup_lt_Some _ _ _ Ht) as Hlt.
  unfold map_has. destruct (map_get node seen) as [workNode|] eqn:Hget; simpl.
  - (* a node seen before *)
    hbind. apply halts_ret. simpl.
    hbind. apply halts_pure, ends_onHeap, ends_modify. intros p Hp. simpl.
    hbind.
    exists (S (length (<[parentNode := attach (t_name t) workNode p]> (heap w)))).
    apply ends_onHeap. cbn [heap inputs]. eapply ends_weaken.
    + apply markNodeCoupled_ends.
      pose proof (unvisited_le
                    (length (<[parentNode := attach (t_name t) workNode p]> (heap w))) []).
      lia.
    + intros seen' h' _ _. apply halts_ret. done.
  - (* a new node *)
    apply map_get_None in Hget.
    hbind. hbind. apply halts_pure, ends_onHeap, ends_alloc.
    apply halts_ret. simpl.
    hbind. apply halts_pure, ends_onHeap, ends_modify. intros p Hp. simpl.
    set (seen1 := map_set node (length (heap w)) seen).
    assert (unvisited (length (inputs w)) (map_keys seen1) < k)%nat as Hlt1.
    { eapply Nat.lt_le_trans; [|exact Hk].
      apply (unvisited_lt _ node); [done|done|].
      intros s Hs. apply map_keys_set_incl. tauto. }
    eapply (halts_foldM _ (fun seen_c w_c =>
              inputs w_c = inputs w /\ forall x, x ∈ map_keys seen1 -> x ∈ map_keys seen_c)).
    + intros b x. solve_monotone.
    + done.
    + intros seen_c dep w_c _ [Hin Hsub].
      eapply halts_weaken.
      * apply (IH (unvisited (length (inputs w_c)) (map_keys seen_c))); [|done].
        rewrite Hin. pose proof (unvisited_mono (length (inputs w)) _ _ Hsub). lia.
      * intros seen' w' [Hin' Hsub']. split; [congruence|]. auto.
    + intros seen' w' [Hin Hsub]. split; [done|]. intros x Hx. apply Hsub.
      apply map_keys_set_incl. auto.
Qed.

Lemma cloneTree_halts tree w :
  halts (fun f => cloneTree f tree) w (fun _ w' => inputs w' = inputs w).
Proof.
  unfold cloneTree.
  hbind. apply halts_pure, ends_readInput. intros t Ht.
  hbind. apply halts_pure, ends_onHeap, ends_alloc.
  hbind.
  eapply (halts_foldM _ (fun _ w_c => inputs w_c = inputs w)).
  - intros b x. solve_monotone.
  - done.
  - intros seen_c dep w_c _ Hin. eapply halts_weaken; [by eapply addNode_halts|].
    intros seen' w' [Hin' _]. congruence.
  - intros seen' w' Hin. apply halts_ret. done.
Qed.

(** ** shrinkTree ends *)

Lemma ends_addResultDependency pn c rs (Q : unit -> Results -> Prop) :
  (forall u rs', Q u rs') -> ends (addResultDependency pn c rs) Q.
Proof. intros HQ. unfold addResultDependency. destruct (rs !! pn); simpl; auto. Qed.

Lemma addResultNode_ends h fuel : forall node pw pn seen rs,
  (unvisited (length h) seen < fuel)%nat ->
  ends (addResultNode fuel h node pw pn seen rs) (fun seen' _ => seen' = seen).
Proof.
  induction fuel as [|fuel IH]; intros node pw pn seen rs Hfuel; [lia|].
  simpl. apply ends_bind, ends_lift; [apply deref_ns|]. intros n Hn.
  apply deref_Done, lookup_lt_Some in Hn.
  apply ends_bind.
  apply (ends_weaken _ (fun _ _ => True)).
  { by destruct (bool_decide (pw = node)). }
  intros resultNode rs1 _ _.
  apply ends_bind, ends_addResultDependency. intros _ rs2.
  destruct (set_has node seen) eqn:Hseen; simpl; [by apply ends_ret|].
  apply set_has_false in Hseen.
  apply ends_bind. eapply ends_weaken.
  - apply (ends_foldM _ (fun seen_c _ => seen_c = set_add node seen)); [done|].
    intros seen_c dep rs_c _ ->.
    apply ends_bind, ends_lift; [apply deref_ns|]. intros d _.
    destruct (negb _); [|by apply ends_ret].
    apply IH.
    assert (unvisited (length h) (set_add node seen) < unvisited (length h) seen)%nat; [|lia].
    apply (unvisited_lt _ node); [done|done|].
    intros s Hs. apply elem_of_set_add. tauto.
  - intros seen' rs' _ ->. apply ends_ret. by apply set_delete_add.
Qed.

Lemma shrinkTree_ns fuel h tree : (length h < fuel)%nat -> shrinkTree fuel h tree <> Starved.
Proof.
  intros Hfuel. unfold shrinkTree. apply obind_ns; [apply deref_ns|]. intros t _. cbv zeta.
  match goal with |- (match ?r with _ => _ end) <> _ =>
    assert (ends r (fun _ _ => True)) as Hends; [|by destruct r]
  end.
  eapply ends_weaken.
  - apply (ends_foldM _ (fun seen_c _ => seen_c = [tree])); [done|].
    intros seen_c dep rs_c _ ->. apply addResultNode_ends.
    pose proof (unvisited_le (length h) [tree]). lia.
  - done.
Qed.

(** ** hoistGraph ends *)

Lemma missing_lt {K} `{EqDecision K} (U : list K) x seen seen' :
  x ∈ U -> x ∉ seen -> (forall s, s ∈ seen \/ s = x -> s ∈ seen') ->
  (missing U seen' < missing U seen)%nat.
Proof.
  intros HxU Hx Hsub. unfold missing.
  apply Nat.le_lt_trans
    with (length (filter (fun y => y ≠ x) (filter (fun x => x ∉ seen) (remove_dups U)))).
  - apply submseteq_length, NoDup_submseteq.
    + apply NoDup_filter, NoDup_remove_dups.
    + intros y Hy. apply list_elem_of_filter in Hy as [Hy HyU].
      apply list_elem_of_filter. split.
      * intros ->. apply Hy. auto.
      * apply list_elem_of_filter. split; [|done]. intros Hin. apply Hy. auto.
  - apply (length_filter_lt _ _ x); [|auto].
    apply list_elem_of_filter. split; [done|]. by apply elem_of_remove_dups.
Qed.

Lemma missing_mono {K} `{EqDecision K} (U : list K) seen seen' :
  (forall s, s ∈ seen -> s ∈ seen') -> (missing U seen' <= missing U seen)%nat.
Proof.
  intros Hsub. unfold missing.
  apply submseteq_length, NoDup_submseteq; [apply NoDup_filter, NoDup_remove_dups|].
  intros y Hy. apply list_elem_of_filter in Hy as [Hy HyU].
  apply list_elem_of_filter. split; [|done]. intros Hin. apply Hy. auto.
Qed.

Lemma ext_locator h0 h a n : ext h0 h -> h !! a = Some n -> locator n ∈ locator <$> h0.
Proof.
  intros Hext Hn. destruct (ext_origin _ _ Hext _ _ Hn) as (a0 & n0 & Hn0 & _ & _ & ->).
  apply list_elem_of_fmap. exists n0. split; [done|]. by eapply list_elem_of_lookup_2.
Qed.

Lemma ext_name h0 h a n : ext h0 h -> h !! a = Some n -> name n ∈ name <$> h0.
Proof.
  intros Hext Hn. destruct (ext_origin _ _ Hext _ _ Hn) as (a0 & n0 & Hn0 & -> & _).
  apply list_elem_of_fmap. exists n0. split; [done|]. by eapply list_elem_of_lookup_2.
Qed.

Lemma depthLeft_lt h0 lp l l' :
  l' ∈ locator <$> h0 -> l' ∉ lp ->
  (depthLeft h0 (lp ++ [l]) l' < depthLeft h0 lp l)%nat.
Proof.
  intros Hin Hnot. unfold depthLeft.
  destruct (decide (l' = l)) as [->|Hne].
  - rewrite (bool_decide_eq_true_2 (l ∈ lp ++ [l])) by (apply elem_of_app; right; by left).
    rewrite (bool_decide_eq_false_2 (l ∈ lp)) by done.
    assert (missing (locator <$> h0) ((lp ++ [l]) ++ [l])
            <= missing (locator <$> h0) (lp ++ [l]))%nat; [|lia].
    apply missing_mono. intros s Hs. apply elem_of_app. by left.
  - assert (l' ∉ lp ++ [l]) as Hnot'.
    { intros Hx. apply elem_of_app in Hx as [Hx|Hx]; [done|].
      by apply list_elem_of_singleton in Hx. }
    rewrite (bool_decide_eq_false_2 (l' ∈ lp ++ [l])) by done.
    assert (missing (locator <$> h0) ((lp ++ [l]) ++ [l'])
            < missing (locator <$> h0) (lp ++ [l]))%nat; [|destruct (bool_decide _); lia].
    apply (missing_lt _ l'); [done|done|].
    intros s [Hs| ->]; apply elem_of_app; [by left|right; by left].
Qed.

Lemma hoistNode_ends root parentNode next node h :
  ends (hoistNode root parentNode next node h) (fun _ h' => ext h h').
Proof.
  unfold hoistNode.
  apply ends_bind, ends_read. intros nd Hnd.
  apply ends_bind, ends_modify. intros p Hp.
  assert (ext h (<[parentNode := markHoisted (name nd) node p]> h)) as Hext1.
  { eapply ext_insert; [done|]. apply markHoisted_same. }
  apply ends_bind, ends_read. intros r Hr.
  destruct (map_get (name nd) (dependencies r)) as [hoistedNode|].
  - apply ends_bind, ends_read. intros nd' _.
    apply ends_bind, ends_modify. intros hn Hhn. apply ends_ret.
    eapply ext_trans; [exact Hext1|]. eapply ext_insert; [done|]. by repeat split.
  - destruct (negb _); [|by apply ends_ret].
    apply ends_bind, ends_modify. intros r' Hr'. apply ends_ret.
    eapply ext_trans; [exact Hext1|]. eapply ext_insert; [done|].
    apply with_dependencies_same.
Qed.

Lemma decoupleGraphNode_ends parent node h :
  ends (decoupleGraphNode parent node h)
    (fun c h' => ext h h'
                 /\ exists n nc, h !! node = Some n /\ h' !! c = Some nc
                                 /\ locator nc = locator n).
Proof.
  unfold decoupleGraphNode.
  apply ends_bind, ends_read. intros n Hn.
  destruct (decoupled n).
  { apply ends_ret. split; [apply ext_refl|]. by exists n, n. }
  apply ends_bind, ends_alloc.
  pose proof (ext_alloc _ _ _ Hn) as Hext1.
  assert ((h ++ [cloneNode n]) !! length h = Some (cloneNode n)) as Hc.
  { rewrite lookup_app_r by done. by rewrite Nat.sub_diag. }
  apply ends_bind.
  apply (ends_weaken _ (fun _ h2 =>
           ext h h2 /\ exists nc, h2 !! length h = Some nc /\ locator nc = locator n)).
  { destruct (map_get (name n) (map_copy (dependencies n))) as [selfDep|].
    - apply ends_bind, ends_read. intros s Hs.
      destruct (bool_decide _).
      + apply ends_modify. intros c Hc'. split.
        * eapply ext_trans; [exact Hext1|]. eapply ext_insert; [done|].
          apply with_dependencies_same.
        * eexists. rewrite list_lookup_insert_eq by by eapply lookup_lt_Some.
          split; [done|]. assert (c = cloneNode n) as -> by congruence. done.
      + apply ends_ret. split; [done|]. by exists (cloneNode n).
    - apply ends_ret. split; [done|]. by exists (cloneNode n). }
  intros u h2 _ (Hext2 & nc & Hnc & Hloc).
  apply ends_bind, ends_modify. intros p Hp. apply ends_ret.
  split.
  - eapply ext_trans; [exact Hext2|]. eapply ext_insert; [done|].
    apply with_dependencies_same.
  - exists n. destruct (decide (parent = length h)) as [->|Hne].
    + eexists. rewrite list_lookup_insert_eq by by eapply lookup_lt_Some.
      split; [done|]. split; [done|]. simpl. congruence.
    + exists nc. rewrite list_lookup_insert_ne by done. done.
Qed.

Lemma failCheck_halts {A} h tree checkLog after s (Q : A -> Heap -> Prop) :
  halts (fun f => failCheck f h tree checkLog after) s Q.
Proof.
  unfold failCheck.
  hbind. apply (halts_weaken _ _ (fun _ _ => True)).
  { destruct after as [path|]; [|by apply halts_ret].
    hbind. apply halts_pure, ends_lift; [apply locatorsOf_ns|]. intros l _.
    by apply halts_ret. }
  intros after' s1 _.
  hbind. apply halts_lift.
  { exists (S (length h)). apply dumpDepTree_ns. lia. }
  intros _ dump _. by apply halts_pure.
Qed.

Lemma runSelfCheck_halts tree rootNode options nodePath parentNode h :
  halts (fun f => runSelfCheck tree rootNode options f nodePath parentNode) h
    (fun _ h' => h' = h).
Proof.
  unfold runSelfCheck. destruct (check options); [|by apply halts_ret].
  hbind. apply halts_pure, ends_get_st.
  hbind. apply halts_lift.
  { exists (S (length h)). apply selfCheck_ns. lia. }
  intros _ lg _. destruct lg; [by apply halts_ret|]. apply failCheck_halts.
Qed.

Lemma ext_same_locator h h' a n n' :
  ext h h' -> h !! a = Some n -> h' !! a = Some n' -> locator n' = locator n.
Proof.
  intros Hext Hn Hn'. destruct (ext_keep _ _ Hext _ _ Hn) as (n'' & Hn'' & Hsame).
  assert (n'' = n') as -> by congruence. by destruct Hsame as (_ & _ & -> & _).
Qed.

Section HoistGraphHalts.
Variables (tree root : addr) (rootNodePath : JsSet Locator).
Variable hoistedDependencies_ : JsMap PackageName addr.
Variable hoistIdents : JsMap PackageName (option Ident).
Variable hoistIdentMap : JsMap PackageName (list Ident).
Variable options : InternalHoistOptions.
Variable h0 : Heap.

Lemma hoistNodeDependencies_halts k :
  forall nodePath locatorPath parentNode st h p,
    ext h0 h -> h !! parentNode = Some p ->
    (depthLeft h0 locatorPath (locator p) <= k)%nat ->
    halts (fun f => hoistNodeDependencies tree root rootNodePath hoistedDependencies_
                      hoistIdents hoistIdentMap options f nodePath locatorPath parentNode st)
      h (fun _ h' => ext h h').
Proof.
  induction k as [k IH] using lt_wf_ind.
  intros nodePath locatorPath parentNode st h p Hext0 Hp Hk.
  hunfold. destruct (set_has parentNode st.1); [apply halts_ret, ext_refl|].
  hbind. apply halts_pure, ends_get_st.
  hbind. apply halts_lift.
  { exists (S (length (dependencies p))). apply classifyDependencies_ns.
    intros n Hn. assert (n = p) as -> by congruence. lia. }
  intros _ infos _.
  hbind. apply halts_lift.
  { exists (S (length h)). apply collectUnhoistable_ns. lia. }
  intros _ un _.
  hbind. apply halts_pure. eapply ends_weaken.
  { apply (ends_foldM _ (fun _ h_c => ext h h_c)); [apply ext_refl|].
    intros next_c node h_c _ Hext_c.
    destruct (negb _); [|by apply ends_ret].
    eapply ends_weaken; [apply hoistNode_ends|].
    intros next' h' _ Hext'. by eapply ext_trans. }
  intros next1 h1 _ Hext1.
  hbind. eapply halts_weaken; [apply runSelfCheck_halts|]. intros _ h1' ->.
  hbind. apply halts_pure, ends_get_st.
  destruct (ext_keep _ _ Hext1 _ _ Hp) as (p1 & Hp1 & Hpsame1).
  hbind. apply halts_lift.
  { exists (S (length (dependencies p1))). apply getSortedRegularDependencies_ns.
    intros n Hn. assert (n = p1) as -> by congruence. lia. }
  intros _ children _.
  eapply (halts_foldM _ (fun _ h_c => ext h h_c)).
  - intros b x. solve_monotone.
  - done.
  - intros st_c node h_c _ Hext_c.
    destruct (set_has node un.1); [|by apply halts_ret].
    hbind. apply halts_pure, ends_read. intros nd Hnd.
    destruct (negb (bool_decide (locator nd ∈ locatorPath))) eqn:Hloc;
      [|by apply halts_ret].
    apply negb_true_iff, bool_decide_eq_false in Hloc.
    destruct (map_get node un.2) as [hoistInfo|]; [|by apply halts_pure].
    hbind. apply halts_pure.
    apply (ends_weaken _ (fun _ h_a => ext h_c h_a)).
    { destruct hoistInfo as [|reason|ds]; [apply ends_ret, ext_refl| |apply ends_ret, ext_refl].
      apply ends_modify. intros pc Hpc. eapply ext_insert; [done|]. by repeat split. }
    intros _ h_a _ Hext_a.
    hbind. apply halts_pure. eapply ends_weaken; [apply decoupleGraphNode_ends|].
    intros dn h_b _ (Hext_b & n & nc & Hn & Hnc & Hncloc).
    hbind. apply halts_pure, ends_read. intros p_b Hp_b.
    assert (ext h h_b) as Hext_hb.
    { eapply ext_trans; [exact Hext_c|]. by eapply ext_trans. }
    pose proof (ext_same_locator _ _ _ _ _ Hext_hb Hp Hp_b) as Hploc.
    pose proof (ext_same_locator _ _ _ _ _ Hext_a Hnd Hn) as Hnloc.
    hbind. eapply halts_weaken.
    + eapply (IH (depthLeft h0 (locatorPath ++ [locator p_b]) (locator nc)));
        [|by eapply ext_trans|exact Hnc|done].
      rewrite Hploc, Hncloc, Hnloc.
      eapply Nat.lt_le_trans; [|exact Hk]. apply depthLeft_lt; [|done].
      eapply ext_locator; [|exact Hnd]. by eapply ext_trans.
    + intros st' h_d Hext_d. apply halts_ret. by eapply ext_trans.
  - done.
Qed.

Lemma hoistNewNodes_halts newNodes seen h :
  ext h0 h ->
  halts (fun f => hoistNewNodes tree root rootNodePath hoistedDependencies_
                    hoistIdents hoistIdentMap options f newNodes seen)
    h (fun _ h' => ext h h').
Proof.
  intros Hext0. unfold hoistNewNodes.
  eapply (halts_foldM _ (fun _ h_c => ext h h_c)).
  - intros b x. solve_monotone.
  - apply ext_refl.
  - intros st_c dep h_c _ Hext_c.
    hbind. apply halts_pure, ends_read. intros d Hd.
    hbind. apply halts_pure, ends_read. intros r Hr.
    destruct (bool_decide _); [by apply halts_ret|].
    hbind. apply halts_pure. eapply ends_weaken; [apply decoupleGraphNode_ends|].
    intros dn h_b _ (Hext_b & n & nc & Hn & Hnc & Hncloc).
    hbind. apply halts_pure, ends_read. intros r_b Hr_b.
    eapply halts_weaken.
    + eapply hoistNodeDependencies_halts; [|exact Hnc|done].
      eapply ext_trans; [exact Hext0|]. by eapply ext_trans.
    + intros st' h_d Hext_d. eapply ext_trans; [exact Hext_c|]. by eapply ext_trans.
  - done.
Qed.

End HoistGraphHalts.

(** ** The loops of [hoistGraph] and [hoistTo] end *)

(** The names a root can hold are names of the tree. *)
Lemma keyCount_bound h0 h root :
  ext h0 h -> heap_ok h = true ->
  (keyCount h root <= length (remove_dups (name <$> h0)))%nat.
Proof.
  intros Hext Hok. unfold keyCount. destruct (h !! root) as [r|] eqn:Hr; [|lia].
  apply submseteq_length, NoDup_submseteq; [by eapply heap_ok_NoDup|].
  intros k Hk. apply elem_of_remove_dups.
  unfold map_keys in Hk. apply list_elem_of_fmap in Hk as ([k' x] & -> & Hkx). simpl.
  destruct (heap_ok_entry _ _ _ _ _ Hok Hr Hkx) as (d & Hd & <-).
  by eapply ext_name.
Qed.

Lemma candidatesLeft_shift name_ idents (identMap : JsMap PackageName (list Ident)) :
  map_get name_ identMap = Some idents -> (1 < length idents)%nat ->
  (candidatesLeft (map_set name_ (tail idents) identMap) < candidatesLeft identMap)%nat.
Proof.
  unfold candidatesLeft.
  induction identMap as [|[[k l]|] m IH]; simpl; [done| |by auto].
  destruct (decide (k = name_)) as [->|Hne]; csimpl.
  - intros [= ->] Hlen. destruct idents as [|i [|i' rest]]; simpl in *; lia.
  - intros Hget Hlen. specialize (IH Hget Hlen). lia.
Qed.

Lemma nextCandidate_left r c name_ :
  (nextCandidate r c name_ = c)
  \/ (wasStateChanged (nextCandidate r c name_) = true
      /\ candidatesLeft (c_hoistIdentMap (nextCandidate r c name_))
         < candidatesLeft (c_hoistIdentMap c))%nat.
Proof.
  unfold nextCandidate.
  destruct (map_get name_ (c_hoistIdentMap c)) as [idents|] eqn:Hget; [|by left].
  destruct ((1 <? length idents)%nat && _) eqn:Hcond; [|by left].
  right. simpl. split; [done|]. apply andb_prop in Hcond as [Hlen _].
  apply Nat.ltb_lt in Hlen. by apply candidatesLeft_shift.
Qed.

(** A pass of the loop that changes the state takes a candidate away. *)
Lemma nextCandidates_left r names : forall c,
  let c' := fold_left (nextCandidate r) names c in
  (candidatesLeft (c_hoistIdentMap c') <= candidatesLeft (c_hoistIdentMap c))%nat
  /\ (wasStateChanged c' = true ->
      wasStateChanged c = true
      \/ (candidatesLeft (c_hoistIdentMap c') < candidatesLeft (c_hoistIdentMap c))%nat).
Proof.
  induction names as [|name_ names IH]; intros c; simpl; [auto|].
  destruct (IH (nextCandidate r c name_)) as [Hle Hlt].
  destruct (nextCandidate_left r c name_) as [Heq|[Hflag Hless]].
  - rewrite Heq in *. done.
  - split; [lia|]. intros _. right. lia.
Qed.

Lemma rtc_stepTo_depsLength (Q : Heap -> addr -> Prop) h h' x :
  rtc (stepTo Q) h h' -> is_Some (h !! x) ->
  (forall hx, ext h hx -> ~ Q hx x) ->
  depsLength h' x = depsLength h x.
Proof.
  induction 1 as [|h1 h2 h3 Hst _ IH]; intros Hx HQ; [done|].
  pose proof (stepTo_ext _ _ _ Hst) as Hext.
  destruct Hst as (root & Hroot & Hs).
  rewrite IH.
  - eapply step_depsLength; [done| |done]. intros ->. apply (HQ h1); [apply ext_refl|done].
  - destruct Hx as [n Hn]. destruct (ext_keep _ _ Hext _ _ Hn) as (n' & -> & _). eauto.
  - intros hx Hext'. apply HQ. by eapply ext_trans.
Qed.

Section HoistGraphLoops.
Variables (tree root : addr) (rootNodePath : JsSet Locator).
Variable hoistedDependencies_ : JsMap PackageName addr.
Variable hoistIdents : JsMap PackageName (option Ident).
Variable hoistIdentMap : JsMap PackageName (list Ident).
Variable options : InternalHoistOptions.
Variable h0 : Heap.

Lemma hoistGraphLoop_halts k : forall newNodes seen h r,
  ext h0 h -> heap_ok h = true -> h !! root = Some r ->
  (forall x, x ∈ seen -> x ≠ root /\ (x < length h)%nat) ->
  rootCandidates r hoistIdents ->
  regularNames h r newNodes ->
  (length (remove_dups (name <$> h0)) - keyCount h root <= k)%nat ->
  halts (fun f => hoistGraphLoop tree root rootNodePath hoistedDependencies_ hoistIdents
                    hoistIdentMap options f newNodes seen) h (fun _ _ => True).
Proof.
  induction k as [k IH] using lt_wf_ind.
  intros newNodes seen h r Hext0 Hok Hr Hseen Hcands Hnew Hk.
  hunfold. hbind. eapply halts_spec; [by eapply hoistNewNodes_halts|].
  intros f st h1 Hrun Hext1.
  eapply hoistNewNodes_spec in Hrun as (Hs & Hsn & Hcount & Hnext); eauto.
  destruct (st.2) as [|x next] eqn:Hst2; [by apply halts_ret|].
  destruct Hcount as [Hnil|Hcount]; [done|].
  destruct (rtc_step_lookup _ _ _ _ _ Hs Hr) as (r1 & Hr1 & Hrsame).
  pose proof (rtc_step_heap_ok _ _ _ Hs Hok) as Hok1.
  assert (ext h0 h1) as Hext01 by by eapply ext_trans.
  pose proof (keyCount_bound h0 h1 root Hext01 Hok1) as Hbound.
  eapply (IH (length (remove_dups (name <$> h0)) - keyCount h1 root)%nat);
    [lia|done|done|exact Hr1| | | |done].
  - rewrite Hsn. intros y Hy. destruct (Hseen y Hy). split; [done|].
    pose proof (ext_length _ _ Hext1). lia.
  - by eapply rootCandidates_same.
  - by apply (regularNames_same _ r r1).
Qed.

Lemma hoistGraph_halts h r :
  ext h0 h -> heap_ok h = true -> h !! root = Some r ->
  rootCandidates r hoistIdents ->
  halts (fun f => hoistGraph tree root rootNodePath hoistedDependencies_ hoistIdents
                    hoistIdentMap options f) h (fun _ _ => True).
Proof.
  intros Hext0 Hok Hr Hcands. unfold hoistGraph.
  hbind. apply halts_pure, ends_get_st.
  hbind. apply halts_lift.
  { exists (S (length (dependencies r))). apply getSortedRegularDependencies_ns.
    intros n Hn. assert (n = r) as -> by congruence. lia. }
  intros f sorted Hsorted.
  eapply hoistGraphLoop_halts; [done|done|exact Hr| |done| |done].
  - intros x Hx. by apply elem_of_nil in Hx.
  - intros x Hx. rewrite elem_of_set_of_list in Hx.
    eapply getSortedRegularDependencies_spec in Hsorted as (_ & Hreg & _);
      [|exact Hr|by eapply heap_ok_named].
    apply Hreg in Hx as (d & _ & Hd & Hnp). eauto.
Qed.

End HoistGraphLoops.

Lemma hoistToLoop_halts h0 tree root rootNodePath hoisted options k : forall c h r,
  ext h0 h -> heap_ok h = true -> h !! root = Some r ->
  candidates_ok r c ->
  (candidatesLeft (c_hoistIdentMap c) <= k)%nat ->
  halts (fun f => hoistToLoop f tree root rootNodePath hoisted c options) h (fun _ _ => True).
Proof.
  induction k as [k IH] using lt_wf_ind.
  intros c h r Hext0 Hok Hr Hc Hk.
  hunfold. hbind. eapply halts_spec.
  { eapply hoistGraph_halts; [done|done|exact Hr|by apply candidates_ok_root]. }
  intros f u h1 Hgraph _.
  eapply hoistGraph_spec in Hgraph; [|done|exact Hr|by apply candidates_ok_root].
  hbind. apply halts_pure, ends_read. intros r1 Hr1.
  match goal with |- context [fold_left ?f ?l ?a] => set (c' := fold_left f l a) end.
  destruct (wasStateChanged c') eqn:Hchanged; [|by apply halts_ret].
  destruct (nextCandidates_left r1 (map_keys (c_hoistIdentMap c))
              (mkCandidates (c_hoistIdents c) (c_hoistIdentMap c) false)) as [_ Hlt].
  fold c' in Hlt. destruct (Hlt Hchanged) as [Hfalse|Hless]; [done|]. simpl in Hless.
  destruct (rtc_step_lookup _ _ _ _ _ Hgraph Hr) as (r1' & Hr1' & Hrsame).
  assert (r1' = r1) as -> by congruence.
  eapply (IH (candidatesLeft (c_hoistIdentMap c'))); [lia| | |exact Hr1| |done].
  - eapply ext_trans; [exact Hext0|]. by eapply rtc_step_ext.
  - by eapply rtc_step_heap_ok.
  - assert (candidates_ok r c') as Hc'.
    { unfold c'. apply fold_left_inv; [by destruct c|].
      intros c0 k0 Hc0 _. by apply nextCandidate_ok. }
    destruct Hc' as [Hun Hhead]. destruct Hrsame as (Hn & Hi & _ & Hp & _).
    split; [|done]. intros q Hq. rewrite Hn, Hi. apply Hun. by rewrite <- Hp.
Qed.

(** ** hoistTo ends *)

Lemma depsLength_Some h x n : h !! x = Some n -> depsLength h x = Some (length (dependencies n)).
Proof. intros Hx. unfold depsLength. by rewrite Hx. Qed.

Section HoistToHalts.
Variable h0 : Heap.

(** The last loop of [hoistTo], given that the calls it makes end. *)
Lemma hoistSubRoots_halts k :
  (forall tree D path options seenNodes h r,
     ext h0 h -> heap_ok h = true -> h !! D = Some r -> locator r ∈ path ->
     (missing (locator <$> h0) path < k)%nat ->
     halts (fun f => hoistTo f tree D path options seenNodes) h (fun _ _ => True)) ->
  forall j i tree D path options h r,
    ext h0 h -> heap_ok h = true -> h !! D = Some r -> locator r ∈ path ->
    (missing (locator <$> h0) path <= k)%nat ->
    (length (dependencies r) - i <= j)%nat ->
    halts (fun f => hoistSubRoots f tree D i path options) h (fun _ _ => True).
Proof.
  intros Hcalls. induction j as [j IH] using lt_wf_ind.
  intros i tree D path options h r Hext0 Hok Hr Hloc Hk Hj.
  hunfold. hbind. apply halts_pure, ends_read. intros r' Hr'.
  assert (r' = r) as -> by congruence.
  destruct (dependencies r !! i) as [[[key dep]|]|] eqn:Hi; [| |by apply halts_ret].
  2:{ pose proof (lookup_lt_Some _ _ _ Hi).
      eapply (IH (length (dependencies r) - S i)%nat); [lia|done|done|exact Hr|done|done|done]. }
  pose proof (lookup_lt_Some _ _ _ Hi) as Hlt.
  hbind. apply halts_pure, ends_read. intros d Hd.
  destruct (negb (set_has (name d) (peerNames r)) && negb (set_has (locator d) path))
    eqn:Hcond.
  2:{ eapply (IH (length (dependencies r) - S i)%nat); [lia|done|done|exact Hr|done|done|done]. }
  apply andb_prop in Hcond as [_ Hdloc]. apply negb_true_iff, set_has_false in Hdloc.
  hbind. eapply halts_spec.
  { eapply Hcalls; [done|done|exact Hd|apply elem_of_set_add; by left|].
    eapply Nat.lt_le_trans; [|exact Hk].
    apply (missing_lt _ (locator d)); [by eapply ext_locator|done|].
    intros s Hs. apply elem_of_set_add. tauto. }
  intros f path' h1 Hrun _.
  destruct (hoistTo_spec f) as [Hspec _].
  apply Hspec in Hrun as [Hs ->]; [|done].
  rewrite set_delete_add by done.
  pose proof (rtc_stepTo_ext _ _ _ Hs) as Hext1.
  destruct (ext_keep _ _ Hext1 _ _ Hr) as (r1 & Hr1 & Hrsame).
  assert (length (dependencies r1) = length (dependencies r)) as Hlen.
  { assert (depsLength h1 D = depsLength h D) as Heq.
    { eapply rtc_stepTo_depsLength; [exact Hs|by eexists|].
      intros hx Hextx [->|(n & Hn & Hnloc)].
      - assert (r = d) as -> by congruence. done.
      - apply Hnloc, elem_of_set_add. right.
        by rewrite (ext_same_locator _ _ _ _ _ Hextx Hr Hn). }
    rewrite (depsLength_Some _ _ _ Hr1), (depsLength_Some _ _ _ Hr) in Heq. congruence. }
  eapply (IH (length (dependencies r1) - S i)%nat);
    [lia|by eapply ext_trans|by eapply rtc_stepTo_heap_ok|exact Hr1| |done|done].
  by destruct Hrsame as (_ & _ & -> & _).
Qed.

Lemma hoistTo_halts k : forall tree D path options seenNodes h r,
  ext h0 h -> heap_ok h = true -> h !! D = Some r -> locator r ∈ path ->
  (missing (locator <$> h0) path <= k)%nat ->
  halts (fun f => hoistTo f tree D path options seenNodes) h (fun _ _ => True).
Proof.
  induction k as [k IH] using lt_wf_ind.
  intros tree D path options seenNodes h r Hext0 Hok Hr Hloc Hk.
  hunfold. destruct (set_has D seenNodes); [by apply halts_ret|].
  hbind. apply halts_pure, ends_get_st.
  hbind. apply halts_lift.
  { exists (S (length h)). apply buildPopularityMap_ns. lia. }
  intros _ popularityMap _.
  hbind. apply halts_pure, ends_lift; [apply getHoistIdentMap_ns|].
  intros identMap Hmap.
  hbind. apply (halts_weaken _ _ (fun _ h' => h' = h)).
  { destruct (bool_decide (D = tree)); [by apply halts_ret|].
    apply halts_lift; [|done]. exists (S (length h)). apply getHoistedDependencies_ns. lia. }
  intros hoisted _ ->.
  hbind. eapply halts_spec.
  { eapply hoistToLoop_halts; [done|done|exact Hr|by eapply candidates_ok_initial|done]. }
  intros f u h1 Hloop _.
  eapply hoistToLoop_spec in Hloop; [|done|exact Hr|by eapply candidates_ok_initial].
  destruct (rtc_step_lookup _ _ _ _ _ Hloop Hr) as (r1 & Hr1 & Hrsame).
  eapply (hoistSubRoots_halts k);
    [ |eapply ext_trans; [exact Hext0|by eapply rtc_step_ext]
      |by eapply rtc_step_heap_ok|exact Hr1| |done|done].
  - intros tree' D' path' options' seen' h' r' Hext' Hok' Hr' Hloc' Hlt.
    by eapply (IH (missing (locator <$> h0) path')).
  - by destruct Hrsame as (_ & _ & -> & _).
Qed.

End HoistToHalts.

(** ** hoist ends *)

Lemma halts_onHeap {A} (m : nat -> M Heap A) w (Q : A -> World -> Prop) :
  halts m (heap w) (fun a h' => Q a (mkWorld (inputs w) h')) ->
  halts (fun f => onHeap (m f)) w Q.
Proof. intros [f H]. exists f. by apply ends_onHeap. Qed.

Lemma hoist_halts toNumber env tree opts w :
  heap_ok (heap w) = true ->
  halts (fun f => hoist f toNumber env tree opts) w (fun _ _ => True).
Proof.
  intros Hok. unfold hoist. cbv zeta.
  hbind. eapply halts_spec; [apply cloneTree_halts|].
  intros f treeCopy w1 Hclone _.
  apply cloneTree_spec in Hclone as (Hok1 & _ & [t Ht]); [|done].
  hbind. apply halts_onHeap.
  hbind. apply halts_pure, ends_read. intros t' Ht'.
  eapply halts_weaken.
  { eapply (hoistTo_halts (heap w1)); [apply ext_refl|done|exact Ht'|by left|done]. }
  intros path' h2 _.
  hbind. apply (halts_weaken _ _ (fun _ _ => True)).
  { destruct (num_ge _ 1); [|by apply halts_ret].
    apply halts_onHeap.
    hbind. apply halts_pure, ends_get_st.
    hbind. apply halts_lift.
    { exists (S (length h2)). apply selfCheck_ns. simpl. lia. }
    intros _ lg _. destruct lg; [by apply halts_ret|apply failCheck_halts]. }
  intros _ w3 _.
  hbind. apply (halts_weaken _ _ (fun _ _ => True)).
  { destruct (num_ge _ 2); [|by apply halts_ret].
    apply halts_onHeap.
    hbind. apply halts_pure, ends_get_st.
    hbind. apply halts_lift.
    { exists (S (length (heap w3))). apply dumpDepTree_ns. lia. }
    intros _ dump _. by apply halts_ret. }
  intros out w4 _.
  hbind. apply halts_pure, ends_get_st.
  hbind. apply halts_lift.
  { exists (S (length (heap w4))). apply shrinkTree_ns. lia. }
  intros _ rs _. by apply halts_ret.
Qed.

(** ** C2: termination *)

(** C2: [hoist] halts on every input graph, cyclic or not: some fuel is
    enough for the call, and then the outcome is that of every run with
    more.  The loop of [hoistTo] goes on only when a pass has taken a
    candidate away from a name, which makes the sum over the names of the
    candidates left after the one in force smaller.  The calls for the
    dependencies of a root are made with a longer [rootNodePath] each; the
    set of visited roots is a new one in every call and bounds nothing. *)
Theorem hoist_terminates toNumber env tree opts (ts : list HoisterTree) :
  (exists fuel,
     hoist fuel toNumber env tree opts (mkWorld ts []) <> Exhausted
     /\ forall fuel', (fuel <= fuel')%nat ->
          hoist fuel' toNumber env tree opts (mkWorld ts [])
          = hoist fuel toNumber env tree opts (mkWorld ts []))
  /\ (forall r c,
        wasStateChanged (passCandidates r c) = true ->
        (candidatesLeft (c_hoistIdentMap (passCandidates r c))
         < candidatesLeft (c_hoistIdentMap c))%nat)
  /\ (forall fuel D path options seenNodes,
        D ∉ seenNodes ->
        hoistTo fuel tree D path options seenNodes = hoistTo fuel tree D path options []).
Proof.
  split_and!.
  - destruct (hoist_halts toNumber env tree opts (mkWorld ts [])) as [fuel Hfuel]; [done|].
    apply ends_not_Exhausted in Hfuel. exists fuel. split; [done|].
    intros fuel' Hle.
    apply (monotone_at (fun f => hoist f toNumber env tree opts)); [|done|done].
    intros f f' Hf. by apply hoist_mono.
  - intros r c Hchanged. unfold passCandidates in *.
    destruct (nextCandidates_left r (map_keys (c_hoistIdentMap c))
                (mkCandidates (c_hoistIdents c) (c_hoistIdentMap c) false)) as [_ Hlt].
    by destruct (Hlt Hchanged).
  - intros fuel D path options seenNodes Hnot. destruct fuel as [|fuel]; [done|].
    simpl. apply set_has_false in Hnot. by rewrite Hnot.
Qed.

Lemma hoist_terminates_witness :
  exists fuel,
    hoist fuel Scenarios.noNumber None 0%nat Scenarios.noOptions
      (mkWorld Scenarios.rootCycle []) <> Exhausted.
Proof.
  destruct (hoist_terminates Scenarios.noNumber None 0%nat Scenarios.noOptions
              Scenarios.rootCycle) as [(fuel & Hfuel & _) _].
  by exists fuel.
Defined.

(** ** C8: determinism *)

(** *** Renamed sets and maps *)

Section Renaming.
Context {K K' : Type} `{EqDecision K, EqDecision K'}.
Context (gk : K -> K') `{!Inj (=) (=) gk}.

Lemma decide_inj {A} (a b : K) (x y : A) :
  (if decide (gk a = gk b) then x else y) = (if decide (a = b) then x else y).
Proof using Inj0.
  destruct (decide (a = b)) as [->|Hne]; [by rewrite decide_True|].
  rewrite decide_False; [done|]. intros Heq. by apply Hne, (inj gk).
Qed.

Lemma bool_decide_inj (a b : K) : bool_decide (gk a = gk b) = bool_decide (a = b).
Proof using Inj0. apply bool_decide_ext. split; [apply (inj gk)|by intros ->]. Qed.

Lemma set_has_fmap x (s : list K) : set_has (gk x) (gk <$> s) = set_has x s.
Proof using Inj0.
  unfold set_has. apply bool_decide_ext. rewrite list_elem_of_fmap. split.
  - intros (y & Heq & Hy). by apply (inj gk) in Heq as ->.
  - intros Hx. by exists x.
Qed.

Lemma set_add_fmap x (s : list K) : set_add (gk x) (gk <$> s) = gk <$> set_add x s.
Proof using Inj0.
  unfold set_add. rewrite set_has_fmap. destruct (set_has x s); [done|].
  by rewrite fmap_app.
Qed.

Lemma set_delete_fmap x (s : list K) :
  set_delete (gk x) (gk <$> s) = gk <$> set_delete x s.
Proof using Inj0.
  unfold set_delete. induction s as [|y s IH]; [done|].
  rewrite fmap_cons, !filter_cons, IH.
  destruct (decide (y ≠ x)) as [Hne|Heq].
  - rewrite decide_True; [done|]. intros Heq. by apply Hne, (inj gk).
  - rewrite decide_False; [done|]. intros Hne. apply Heq. intros ->. done.
Qed.

Lemma set_of_list_fmap (l : list K) : set_of_list (gk <$> l) = gk <$> set_of_list l.
Proof using Inj0.
  unfold set_of_list.
  assert (forall acc, fold_left (fun s x => set_add x s) (gk <$> l) (gk <$> acc)
                      = gk <$> fold_left (fun s x => set_add x s) l acc) as Hgen.
  { induction l as [|x l IH]; intros acc; simpl; [done|].
    by rewrite set_add_fmap, IH. }
  apply (Hgen []).
Qed.

Lemma elem_of_fmap_inj x (s : list K) : gk x ∈ gk <$> s <-> x ∈ s.
Proof using Inj0.
  rewrite list_elem_of_fmap. split.
  - intros (y & Heq & Hy). by apply (inj gk) in Heq as ->.
  - intros Hx. by exists x.
Qed.

Context {V V' : Type} (gv : V -> V').

Lemma map_get_bimap k (m : JsMap K V) :
  map_get (gk k) (map_bimap gk gv m) = gv <$> map_get k m.
Proof using Inj0.
  induction m as [|[[k' v]|] m IH]; simpl; [done| |done].
  rewrite decide_inj. by destruct (decide (k' = k)).
Qed.

Lemma map_has_bimap k (m : JsMap K V) :
  map_has (gk k) (map_bimap gk gv m) = map_has k m.
Proof using Inj0. unfold map_has. rewrite map_get_bimap. by destruct (map_get k m). Qed.

Lemma map_set_bimap k v (m : JsMap K V) :
  map_set (gk k) (gv v) (map_bimap gk gv m) = map_bimap gk gv (map_set k v m).
Proof using Inj0.
  induction m as [|[[k' v']|] m IH]; simpl; [done| |by rewrite IH].
  rewrite decide_inj. destruct (decide (k' = k)); [done|]. simpl. by rewrite IH.
Qed.

Lemma map_delete_bimap k (m : JsMap K V) :
  map_delete (gk k) (map_bimap gk gv m) = map_bimap gk gv (map_delete k m).
Proof using Inj0.
  induction m as [|[[k' v']|] m IH]; simpl; [done| |by rewrite IH].
  rewrite decide_inj. destruct (decide (k' = k)); simpl; by rewrite IH.
Qed.

Lemma map_entries_bimap (m : JsMap K V) :
  map_entries (map_bimap gk gv m) = prod_map gk gv <$> map_entries m.
Proof. induction m as [|[[k' v']|] m IH]; simpl; [done|by rewrite IH|done]. Qed.

Lemma map_keys_bimap (m : JsMap K V) : map_keys (map_bimap gk gv m) = gk <$> map_keys m.
Proof.
  unfold map_keys. rewrite map_entries_bimap, <- !list_fmap_compose.
  by apply list_fmap_ext; intros ? [??].
Qed.

Lemma map_values_bimap (m : JsMap K V) :
  map_values (map_bimap gk gv m) = gv <$> map_values m.
Proof.
  unfold map_values. rewrite map_entries_bimap, <- !list_fmap_compose.
  by apply list_fmap_ext; intros ? [??].
Qed.

Lemma map_of_entries_bimap (l : list (K * V)) :
  map_of_entries (prod_map gk gv <$> l) = map_bimap gk gv (map_of_entries l).
Proof using Inj0.
  unfold map_of_entries.
  assert (forall acc,
            fold_left (fun m kv => map_set kv.1 kv.2 m) (prod_map gk gv <$> l)
              (map_bimap gk gv acc)
            = map_bimap gk gv (fold_left (fun m kv => map_set kv.1 kv.2 m) l acc)) as Hgen.
  { induction l as [|[k v] l IH]; intros acc; simpl; [done|].
    by rewrite map_set_bimap, IH. }
  apply (Hgen []).
Qed.

Lemma map_copy_bimap (m : JsMap K V) :
  map_copy (map_bimap gk gv m) = map_bimap gk gv (map_copy m).
Proof using Inj0. unfold map_copy. by rewrite map_entries_bimap, map_of_entries_bimap. Qed.

End Renaming.

Section ValueRenaming.
Context {K V V' : Type} `{EqDecision K} (gv : V -> V').

Lemma map_get_vmap k (m : JsMap K V) :
  map_get k (map_bimap id gv m) = gv <$> map_get k m.
Proof. apply (map_get_bimap id). Qed.

Lemma map_has_vmap k (m : JsMap K V) : map_has k (map_bimap id gv m) = map_has k m.
Proof. apply (map_has_bimap id). Qed.

Lemma map_set_vmap k v (m : JsMap K V) :
  map_set k (gv v) (map_bimap id gv m) = map_bimap id gv (map_set k v m).
Proof. apply (map_set_bimap id). Qed.

Lemma map_delete_vmap k (m : JsMap K V) :
  map_delete k (map_bimap id gv m) = map_bimap id gv (map_delete k m).
Proof. apply (map_delete_bimap id). Qed.

Lemma map_keys_vmap (m : JsMap K V) : map_keys (map_bimap id gv m) = map_keys m.
Proof. by rewrite map_keys_bimap, list_fmap_id. Qed.

End ValueRenaming.

#[global] Instance nat_add_inj (n : nat) : Inj (=) (=) (Nat.add n).
Proof. intros a b Hab. lia. Qed.

(** ** Code that reads *)

Lemma mapOutcome_obind {A B A' B'} (f : A -> A') (g : B -> B')
    (m : Outcome A) (k : A -> Outcome B) (m' : Outcome A') (k' : A' -> Outcome B') :
  m' = mapOutcome f m -> (forall a, k' (f a) = mapOutcome g (k a)) ->
  obind m' k' = mapOutcome g (obind m k).
Proof. intros -> Hk. destruct m as [a| |]; simpl; [apply Hk|done|done]. Qed.

Lemma mapOutcome_foldO {A B A' B'} (fx : A -> A') (f : B -> B')
    (body : B -> A -> Outcome B) (body' : B' -> A' -> Outcome B') l : forall acc,
  (forall b x, x ∈ l -> body' (f b) (fx x) = mapOutcome f (body b x)) ->
  foldO (fx <$> l) (f acc) body' = mapOutcome f (foldO l acc body).
Proof.
  induction l as [|x l IH]; intros acc Hbody; simpl; [done|].
  eapply mapOutcome_obind; [apply Hbody; left|].
  intros b. apply IH. intros b' y Hy. apply Hbody. by right.
Qed.

Lemma mapOutcome_id {A} (o : Outcome A) : mapOutcome id o = o.
Proof. by destruct o. Qed.

(** ** Code that writes *)

Section Sim.
Context {S S' : Type} (g : S -> S').

Lemma sim_ret {A B} (f : A -> B) a b : b = f a -> sim f g (ret a) (ret b).
Proof. by intros -> s. Qed.

Lemma sim_bind {A B A' B'} (f : A -> A') (f2 : B -> B')
    (m : M S A) (k : A -> M S B) (m' : M S' A') (k' : A' -> M S' B') :
  sim f g m m' -> (forall a, sim f2 g (k a) (k' (f a))) ->
  sim f2 g (bind m k) (bind m' k').
Proof.
  intros Hm Hk s. unfold bind. rewrite Hm.
  destruct (m s) as [a s1|e s1|]; simpl; [apply Hk|done|done].
Qed.

Lemma sim_throw {A B} (f : A -> B) e : sim f g (throw e) (throw e).
Proof. by intros s. Qed.

Lemma sim_starve {A B} (f : A -> B) : sim f g starve starve.
Proof. by intros s. Qed.

Lemma sim_get_st : sim g g get_st get_st.
Proof. by intros s. Qed.

Lemma sim_lift {A B} (f : A -> B) o o' : o' = mapOutcome f o -> sim f g (lift o) (lift o').
Proof. intros -> s. unfold lift. by destruct o. Qed.

Lemma sim_foldM {A B A' B'} (fx : A -> A') (f : B -> B')
    (body : B -> A -> M S B) (body' : B' -> A' -> M S' B') l : forall acc,
  (forall b x, x ∈ l -> sim f g (body b x) (body' (f b) (fx x))) ->
  sim f g (foldM l acc body) (foldM (fx <$> l) (f acc) body').
Proof.
  induction l as [|x l IH]; intros acc Hbody; simpl; [by apply sim_ret|].
  eapply sim_bind; [apply Hbody; left|].
  intros b. apply IH. intros b' y Hy. apply Hbody. by right.
Qed.

End Sim.

Section Shift.
Variable h0 : Heap.
Local Abbreviation sh := (Nat.add (length h0)).
Local Abbreviation shN := (shiftNode (length h0)).
Local Abbreviation shD := (map_bimap (@id PackageName) (Nat.add (length h0))).
Local Abbreviation H := (shiftHeap h0).

Lemma shiftHeap_lookup h x : H h !! (sh x) = shN <$> h !! x.
Proof.
  unfold shiftHeap. rewrite lookup_app_r by lia.
  replace (length h0 + x - length h0) with x by lia. by rewrite list_lookup_fmap.
Qed.

Lemma shiftHeap_insert h x nd : <[sh x := shN nd]> (H h) = H (<[x := nd]> h).
Proof.
  unfold shiftHeap. rewrite insert_app_r_alt by lia.
  replace (length h0 + x - length h0) with x by lia. by rewrite list_fmap_insert.
Qed.

Lemma shiftHeap_length h : length (H h) = sh (length h).
Proof. unfold shiftHeap. by rewrite length_app, length_fmap. Qed.

Lemma shiftHeap_snoc h nd : H h ++ [shN nd] = H (h ++ [nd]).
Proof. unfold shiftHeap. by rewrite fmap_app, app_assoc. Qed.

Lemma deref_shift h x : deref (H h) (sh x) = mapOutcome shN (deref h x).
Proof. unfold deref. rewrite shiftHeap_lookup. by destruct (h !! x). Qed.

Lemma sim_read x : sim shN H (read x) (read (sh x)).
Proof. intros h. unfold read. rewrite shiftHeap_lookup. by destruct (h !! x). Qed.

Lemma sim_modify x (F F' : HoisterWorkTree -> HoisterWorkTree) :
  (forall nd, F' (shN nd) = shN (F nd)) ->
  sim id H (modify x F) (modify (sh x) F').
Proof.
  intros HF h. unfold modify. rewrite shiftHeap_lookup.
  destruct (h !! x) as [nd|]; simpl; [|done]. by rewrite HF, shiftHeap_insert.
Qed.

Lemma sim_alloc nd : sim sh H (alloc nd) (alloc (shN nd)).
Proof. intros h. unfold alloc. simpl. by rewrite shiftHeap_length, shiftHeap_snoc. Qed.

Lemma sim_onHeap {A B} (f : A -> B) (m : M Heap A) (m' : M Heap B) :
  sim f H m m' -> sim f (shiftWorld h0) (onHeap m) (onHeap m').
Proof.
  intros Hm w. unfold onHeap. simpl. rewrite Hm. by destruct (m (heap w)).
Qed.

Lemma sim_readInput i : sim id (shiftWorld h0) (readInput i) (readInput i).
Proof. intros w. unfold readInput. simpl. by destruct (inputs w !! i). Qed.

End Shift.

(** *** Code that reads, at another place of the store *)

Lemma mapOutcome_foldO' {A B A' B'} (fx : A -> A') (f : B -> B')
    (body : B -> A -> Outcome B) (body' : B' -> A' -> Outcome B') l l' acc acc' :
  l' = fx <$> l -> acc' = f acc ->
  (forall b x, x ∈ l -> body' (f b) (fx x) = mapOutcome f (body b x)) ->
  foldO l' acc' body' = mapOutcome f (foldO l acc body).
Proof. intros -> ->. apply mapOutcome_foldO. Qed.

Section ShiftReads.
Variable h0 : Heap.
Local Abbreviation sh := (Nat.add (length h0)).
Local Abbreviation shN := (shiftNode (length h0)).
Local Abbreviation H := (shiftHeap h0).

Lemma addParent_shift fuel h : forall parentNode node st,
  addParent fuel (H h) (sh parentNode) (sh node) (st.1, sh <$> st.2)
  = mapOutcome (prod_map id (fmap sh)) (addParent fuel h parentNode node st).
Proof.
  induction fuel as [|fuel IH]; intros parentNode node [pm seen]; [done|].
  simpl. eapply mapOutcome_obind; [apply deref_shift|]. intros p.
  eapply mapOutcome_obind; [apply deref_shift|]. intros nd.
  rewrite (set_has_fmap sh). unfold getPopularityKey. simpl.
  destruct (set_has node seen); simpl; [done|].
  eapply (mapOutcome_foldO' sh (prod_map id (fmap sh))).
  - apply map_values_bimap.
  - unfold prod_map. simpl. by rewrite (set_add_fmap sh).
  - intros [pm' seen'] dep _. simpl.
    eapply mapOutcome_obind; [apply deref_shift|]. intros d. simpl.
    destruct (set_has (name d) (peerNames nd)); simpl; [done|]. apply (IH _ _ (pm', seen')).
Qed.

Lemma buildPopularityMap_shift fuel h rootNode :
  buildPopularityMap fuel (H h) (sh rootNode) = buildPopularityMap fuel h rootNode.
Proof.
  rewrite <- (mapOutcome_id (buildPopularityMap fuel h rootNode)).
  unfold buildPopularityMap.
  eapply mapOutcome_obind; [apply deref_shift|]. intros r. simpl.
  eapply (mapOutcome_obind (prod_map id (fmap sh))); [|by intros [??]].
  eapply (mapOutcome_foldO' sh (prod_map id (fmap sh))).
  - apply map_values_bimap.
  - done.
  - intros [pm seen] dep _. simpl.
    eapply mapOutcome_obind; [apply deref_shift|]. intros d. simpl.
    destruct (set_has (name d) (peerNames r)); simpl; [done|].
    apply (addParent_shift _ _ _ _ (pm, seen)).
Qed.

Lemma addHoistedDependencies_shift fuel h rootNode : forall node st,
  addHoistedDependencies fuel (H h) (sh rootNode) (sh node)
    (map_bimap id sh st.1, sh <$> st.2)
  = mapOutcome (prod_map (map_bimap id sh) (fmap sh))
      (addHoistedDependencies fuel h rootNode node st).
Proof.
  induction fuel as [|fuel IH]; intros node [m seen]; [done|].
  simpl. rewrite (set_has_fmap sh). destruct (set_has node seen); [done|].
  eapply mapOutcome_obind; [apply deref_shift|]. intros nd.
  eapply mapOutcome_obind; [apply deref_shift|]. intros r. simpl.
  eapply (mapOutcome_obind (map_bimap id sh)).
  - eapply (mapOutcome_foldO' sh (map_bimap id sh)).
    + apply map_values_bimap.
    + done.
    + intros m' dep _.
      eapply mapOutcome_obind; [apply deref_shift|]. intros d. simpl.
      rewrite map_has_vmap. destruct (map_has (name d) (dependencies r)); simpl; [done|].
      by rewrite <- map_set_vmap.
  - intros hoisted.
    eapply (mapOutcome_foldO' sh (prod_map (map_bimap id sh) (fmap sh))).
    + apply map_values_bimap.
    + unfold prod_map. simpl. by rewrite (set_add_fmap sh).
    + intros [m' seen'] dep _. simpl.
      eapply mapOutcome_obind; [apply deref_shift|]. intros d. simpl.
      destruct (set_has (name d) (peerNames nd)); simpl; [done|].
      apply (IH _ (m', seen')).
Qed.

Lemma getHoistedDependencies_shift fuel h rootNode :
  getHoistedDependencies fuel (H h) (sh rootNode)
  = mapOutcome (map_bimap id sh) (getHoistedDependencies fuel h rootNode).
Proof.
  unfold getHoistedDependencies.
  eapply (mapOutcome_obind (prod_map (map_bimap id sh) (fmap sh))); [|by intros [??]].
  apply (addHoistedDependencies_shift _ _ _ _ ([], [])).
Qed.

Lemma addPopularIdent_shift r identMap key :
  addPopularIdent (shN r) identMap key = addPopularIdent r identMap key.
Proof. done. Qed.

Lemma getHoistIdentMap_shift h rootNode popularityMap :
  getHoistIdentMap (H h) (sh rootNode) popularityMap
  = getHoistIdentMap h rootNode popularityMap.
Proof.
  rewrite <- (mapOutcome_id (getHoistIdentMap h rootNode popularityMap)).
  unfold getHoistIdentMap.
  eapply mapOutcome_obind; [apply deref_shift|]. intros r. simpl.
  eapply (mapOutcome_obind id); [|done].
  eapply (mapOutcome_foldO' sh id).
  - apply map_values_bimap.
  - done.
  - intros m dep _.
    eapply mapOutcome_obind; [apply deref_shift|]. intros d. simpl.
    by destruct (set_has (name d) (peerNames r)).
Qed.

Lemma addDep_shift fuel h node : forall dep st,
  addDep fuel (H h) (shN node) (sh dep) (sh <$> st.1, sh <$> st.2)
  = mapOutcome (prod_map (fmap sh) (fmap sh)) (addDep fuel h node dep st).
Proof.
  induction fuel as [|fuel IH]; intros dep [seen deps]; [done|].
  simpl. rewrite (set_has_fmap sh). destruct (set_has dep seen); [done|].
  eapply mapOutcome_obind; [apply deref_shift|]. intros d. simpl.
  eapply (mapOutcome_obind (prod_map (fmap sh) (fmap sh))).
  - eapply (mapOutcome_foldO' id (prod_map (fmap sh) (fmap sh))).
    + by rewrite list_fmap_id.
    + unfold prod_map. simpl. by rewrite (set_add_fmap sh).
    + intros [seen' deps'] peerName _. simpl.
      destruct (set_has peerName (peerNames node)); simpl; [done|].
      rewrite map_get_vmap.
      destruct (map_get peerName (dependencies node)) as [peerDep|]; simpl; [|done].
      rewrite (set_has_fmap sh). destruct (set_has peerDep deps'); simpl; [done|].
      apply (IH _ (seen', deps')).
  - intros [seen' deps']. simpl. unfold prod_map. simpl. by rewrite (set_add_fmap sh).
Qed.

Lemma getSortedRegularDependencies_shift fuel h node :
  getSortedRegularDependencies fuel (H h) (sh node)
  = mapOutcome (fmap sh) (getSortedRegularDependencies fuel h node).
Proof.
  unfold getSortedRegularDependencies.
  eapply mapOutcome_obind; [apply deref_shift|]. intros nd. simpl.
  eapply (mapOutcome_foldO' sh (fmap sh)).
  - apply map_values_bimap.
  - done.
  - intros deps dep _.
    eapply mapOutcome_obind; [apply deref_shift|]. intros d. simpl.
    destruct (set_has (name d) (peerNames nd)); simpl; [done|].
    eapply (mapOutcome_obind (prod_map (fmap sh) (fmap sh))); [|by intros [??]].
    apply (addDep_shift _ _ _ _ ([], deps)).
Qed.


Lemma removelast_fmap {A B} (f : A -> B) (l : list A) :
  removelast (f <$> l) = f <$> removelast l.
Proof.
  induction l as [|x l IH]; [done|]. destruct l as [|y l]; [done|].
  change (f x :: removelast (f <$> y :: l) = f x :: (f <$> removelast (y :: l))).
  by rewrite IH.
Qed.

Lemma tail_fmap {A B} (f : A -> B) (l : list A) : tail (f <$> l) = f <$> tail l.
Proof. by destruct l. Qed.

Lemma rev_fmap {A B} (f : A -> B) (l : list A) : rev (f <$> l) = f <$> rev l.
Proof.
  induction l as [|x l IH]; [done|].
  rewrite fmap_cons. change (rev (f <$> l) ++ [f x] = f <$> (rev l ++ [x])).
  by rewrite IH, fmap_app.
Qed.

Lemma shadowingParent_shift h nd parents_ :
  shadowingParent (H h) (shN nd) (sh <$> parents_)
  = mapOutcome (fmap (M:=option) (prod_map shN shN)) (shadowingParent h nd parents_).
Proof.
  induction parents_ as [|parent rest IH]; [done|]. simpl.
  eapply mapOutcome_obind; [apply deref_shift|]. intros p. simpl.
  rewrite map_get_vmap.
  destruct (map_get (name nd) (dependencies p)) as [parentDep|]; simpl; [|done].
  eapply mapOutcome_obind; [apply deref_shift|]. intros pd. simpl.
  by destruct (bool_decide (ident pd = ident nd)).
Qed.

Lemma checkPeerName_shift h reasonRoot outputReason isDirectParent p st name_ :
  checkPeerName (H h) reasonRoot outputReason isDirectParent (shN p)
    (shiftPeerCheck (length h0) st) name_
  = mapOutcome (shiftPeerCheck (length h0))
      (checkPeerName h reasonRoot outputReason isDirectParent p st name_).
Proof.
  unfold checkPeerName. simpl. destruct (broken st); [done|].
  rewrite map_has_vmap.
  destruct (set_has name_ (peerNames p) && map_has name_ (originalDependencies p));
    [done|].
  rewrite map_get_vmap.
  destruct (map_get name_ (dependencies p)) as [parentDepNode|]; simpl; [|done].
  destruct isDirectParent; simpl.
  - unfold shiftPeerCheck. simpl. do 2 f_equal.
    destruct (dependsOn st) as [ds|]; simpl; [|done]. by rewrite (set_add_fmap sh).
  - eapply (mapOutcome_obind id); [|done].
    destruct outputReason; [|done].
    eapply mapOutcome_obind; [apply deref_shift|]. by intros pd.
Qed.

Lemma checkPeers_shift h reasonRoot outputReason parents_ : forall isDirectParent st,
  checkPeers (H h) reasonRoot outputReason isDirectParent (sh <$> parents_)
    (shiftPeerCheck (length h0) st)
  = mapOutcome (shiftPeerCheck (length h0))
      (checkPeers h reasonRoot outputReason isDirectParent parents_ st).
Proof.
  induction parents_ as [|parent rest IH]; intros isDirectParent st; [done|]. simpl.
  eapply mapOutcome_obind; [apply deref_shift|]. intros p.
  eapply (mapOutcome_obind (shiftPeerCheck (length h0))).
  - eapply (mapOutcome_foldO' id (shiftPeerCheck (length h0))).
    + by rewrite list_fmap_id.
    + done.
    + intros st' name_ _. apply checkPeerName_shift.
  - intros st'. simpl. destruct (arePeerDepsSatisfied st'); simpl; [|done]. apply IH.
Qed.

Lemma getNodeHoistInfo_shift h rootNodePath nodePath node hoistedDependencies_
    hoistIdents hoistIdentMap outputReason :
  getNodeHoistInfo (H h) rootNodePath (sh <$> nodePath) (sh node)
    (map_bimap id sh hoistedDependencies_) hoistIdents hoistIdentMap outputReason
  = mapOutcome (shiftInfo (length h0))
      (getNodeHoistInfo h rootNodePath nodePath node hoistedDependencies_
         hoistIdents hoistIdentMap outputReason).
Proof.
  unfold getNodeHoistInfo. rewrite fmap_last.
  destruct (last nodePath) as [parentAddr|]; simpl; [|done].
  eapply mapOutcome_obind; [apply deref_shift|]. intros parentNode.
  eapply mapOutcome_obind; [apply deref_shift|]. intros nd. simpl.
  eapply (mapOutcome_obind id); [by rewrite mapOutcome_id|]. intros reason.
  eapply (mapOutcome_obind id).
  { rewrite mapOutcome_id.
    destruct (bool_decide _ && _); [|done].
    rewrite map_get_vmap.
    assert (forall r1 : bool * option Reason,
              (if r1.1
               then sh_ <~ shadowingParent (H h) (shN nd)
                             (removelast (tail (sh <$> nodePath)));;
                    match sh_ with
                    | Some (pd, p) =>
                        Done (false,
                              if outputReason
                              then Some (FilledByParent (locator pd) (locator p))
                              else r1.2)
                    | None => Done r1
                    end
               else Done r1)
              = (if r1.1
                 then sh_ <~ shadowingParent h nd (removelast (tail nodePath));;
                      match sh_ with
                      | Some (pd, p) =>
                          Done (false,
                                if outputReason
                                then Some (FilledByParent (locator pd) (locator p))
                                else r1.2)
                      | None => Done r1
                      end
                 else Done r1)) as Hup.
    { intros r1. destruct (r1.1); [|done].
      rewrite tail_fmap, removelast_fmap, shadowingParent_shift.
      destruct (shadowingParent h nd (removelast (tail nodePath))) as [[[pd p]|]| |];
        done. }
    destruct (map_get (name nd) hoistedDependencies_) as [hoistedDep|]; simpl.
    - rewrite deref_shift. destruct (deref h hoistedDep) as [hd| |]; simpl; [|done|done].
      destruct (bool_decide (ident hd = ident nd)); [exact (Hup (true, _))|done].
    - exact (Hup (true, _)). }
  intros avail. unfold id.
  eapply (mapOutcome_obind (shiftPeerCheck (length h0))).
  { destruct (avail.1); [|done].
    rewrite tail_fmap, rev_fmap.
    exact (checkPeers_shift h rootNodePath outputReason (rev (tail nodePath)) true
             (mkPeerCheck (set_of_list (peerNames nd)) (Some []) true avail.2 false)). }
  intros pc. simpl.
  destruct (dependsOn pc) as [[|d ds]|]; simpl; try done;
    by destruct (avail.1 && arePeerDepsSatisfied pc).
Qed.

Lemma locatorsOf_shift h l : locatorsOf (H h) (sh <$> l) = locatorsOf h l.
Proof.
  rewrite <- (mapOutcome_id (locatorsOf h l)). unfold locatorsOf.
  eapply (mapOutcome_foldO' sh id); [done|done|].
  intros acc a _. eapply mapOutcome_obind; [apply deref_shift|]. by intros nd.
Qed.


Lemma bool_decide_fmap_sh (a b : option nat) :
  bool_decide (sh <$> a = sh <$> b) = bool_decide (a = b).
Proof.
  apply bool_decide_ext. split; [|by intros ->].
  destruct a, b; simpl; intros [=]; f_equal; lia.
Qed.

Lemma imap_pair_fmap {A B} (f : A -> B) (l : list A) :
  imap pair (f <$> l) = prod_map id f <$> imap pair l.
Proof. rewrite imap_fmap, fmap_imap. by apply imap_ext. Qed.

Lemma checkOrigDep_shift h node nd parentDeps dependencies_ st origDep :
  checkOrigDep (H h) (sh node) (shN nd) (map_bimap id sh parentDeps)
    (map_bimap id sh dependencies_) (shiftCheckState (length h0) st) (sh origDep)
  = mapOutcome (shiftCheckState (length h0))
      (checkOrigDep h node nd parentDeps dependencies_ st origDep).
Proof.
  unfold checkOrigDep.
  eapply mapOutcome_obind; [apply deref_shift|]. intros od. simpl.
  eapply (mapOutcome_obind id).
  { rewrite mapOutcome_id.
    change [sh node] with (sh <$> [node]). rewrite <- fmap_app. apply locatorsOf_shift. }
  intros treePath. unfold id. rewrite !map_get_vmap, bool_decide_fmap_sh.
  destruct (set_has (name od) (peerNames nd)).
  - destruct (bool_decide (map_get (name od) parentDeps = map_get (name od) dependencies_));
      simpl; [done|].
    destruct (map_get (name od) dependencies_) as [dep|]; simpl; [|done].
    eapply mapOutcome_obind; [apply deref_shift|]. intros d.
    eapply (mapOutcome_obind id); [|done]. rewrite mapOutcome_id.
    destruct (map_get (name od) parentDeps) as [pd|]; simpl; [|done].
    rewrite deref_shift. by destruct (deref h pd).
  - destruct (map_get (name od) dependencies_) as [dep|]; simpl; [|done].
    eapply mapOutcome_obind; [apply deref_shift|]. intros d. simpl.
    by destruct (bool_decide (ident d = ident od)).
Qed.

Lemma checkNode_shift fuel h : forall node parentDeps st,
  checkNode fuel (H h) (sh node) (map_bimap id sh parentDeps)
    (shiftCheckState (length h0) st)
  = mapOutcome (shiftCheckState (length h0)) (checkNode fuel h node parentDeps st).
Proof.
  induction fuel as [|fuel IH]; intros node parentDeps st; [done|].
  simpl. rewrite !(set_has_fmap sh). destruct (set_has node (seenChecked st)); [done|].
  destruct (set_has node (parents st)).
  { simpl. unfold shiftCheckState. simpl. by rewrite (set_add_fmap sh). }
  eapply mapOutcome_obind; [apply deref_shift|]. intros nd. simpl.
  eapply (mapOutcome_obind (map_bimap id sh)).
  { eapply (mapOutcome_foldO' sh (map_bimap id sh)).
    - apply map_values_bimap.
    - by rewrite (map_copy_bimap id).
    - intros m dep _.
      eapply mapOutcome_obind; [apply deref_shift|]. intros d. simpl.
      destruct (set_has (name d) (peerNames nd)); simpl; [done|].
      by rewrite <- map_set_vmap. }
  intros dependencies_.
  eapply (mapOutcome_obind (shiftCheckState (length h0))).
  { eapply (mapOutcome_foldO' sh (shiftCheckState (length h0))).
    - apply map_values_bimap.
    - unfold shiftCheckState. simpl. by rewrite (set_add_fmap sh).
    - intros st' origDep _. apply checkOrigDep_shift. }
  intros st1.
  eapply (mapOutcome_obind (shiftCheckState (length h0))).
  { eapply (mapOutcome_foldO' sh (shiftCheckState (length h0))).
    - apply map_values_bimap.
    - unfold shiftCheckState. simpl. by rewrite (set_add_fmap sh).
    - intros st' dep _.
      eapply mapOutcome_obind; [apply deref_shift|]. intros d. simpl.
      destruct (set_has (name d) (peerNames nd)); simpl; [done|]. apply IH. }
  intros st2. simpl. unfold shiftCheckState. simpl. by rewrite (set_delete_fmap sh).
Qed.

Lemma selfCheck_shift fuel h tree :
  selfCheck fuel (H h) (sh tree) = selfCheck fuel h tree.
Proof.
  rewrite <- (mapOutcome_id (selfCheck fuel h tree)). unfold selfCheck.
  eapply mapOutcome_obind; [apply deref_shift|]. intros t. simpl.
  eapply (mapOutcome_obind (shiftCheckState (length h0))); [|done].
  apply (checkNode_shift _ _ _ _ (mkCheckState [] [] [])).
Qed.

Lemma dumpPackage_shift fuel h : forall pkg parents_ prefix nodeCount,
  dumpPackage fuel (H h) (sh pkg) (sh <$> parents_) prefix nodeCount
  = dumpPackage fuel h pkg parents_ prefix nodeCount.
Proof.
  induction fuel as [|fuel IH]; intros pkg parents_ prefix nodeCount; [done|].
  rewrite <- (mapOutcome_id (dumpPackage (S fuel) h pkg parents_ prefix nodeCount)).
  simpl. rewrite (set_has_fmap sh).
  destruct ((MAX_NODES_TO_DUMP <? nodeCount)%Z || set_has pkg parents_); [done|].
  eapply mapOutcome_obind; [apply deref_shift|]. intros p. simpl.
  rewrite map_values_bimap, length_fmap.
  eapply (mapOutcome_foldO' (prod_map id sh) id).
  - apply imap_pair_fmap.
  - done.
  - intros [lines count] [idx dep] _. simpl.
    eapply mapOutcome_obind; [apply deref_shift|]. intros d. simpl.
    destruct (set_has (name d) (peerNames p)); simpl; [done|].
    rewrite (set_add_fmap sh), (set_has_fmap sh), IH.
    by destruct (dumpPackage fuel h dep (set_add pkg parents_) _ count).
Qed.

Lemma dumpDepTree_shift fuel h tree :
  dumpDepTree fuel (H h) (sh tree) = dumpDepTree fuel h tree.
Proof. unfold dumpDepTree. by rewrite (dumpPackage_shift _ _ _ []). Qed.


Local Abbreviation shI := (map_bimap sh (shiftInfo (length h0))).

Lemma classifyDependencies_shift rootNodePath hoistedDependencies_ hoistIdents
    hoistIdentMap options fuel h nodePath parentNode :
  classifyDependencies rootNodePath (map_bimap id sh hoistedDependencies_) hoistIdents
    hoistIdentMap options fuel (H h) (sh <$> nodePath) (sh parentNode)
  = mapOutcome (prod_map shI id)
      (classifyDependencies rootNodePath hoistedDependencies_ hoistIdents
         hoistIdentMap options fuel h nodePath parentNode).
Proof.
  unfold classifyDependencies.
  eapply mapOutcome_obind; [apply getSortedRegularDependencies_shift|]. intros sorted.
  eapply (mapOutcome_foldO' sh (prod_map shI id)); [done|done|].
  intros [his dt] sub _. simpl.
  eapply mapOutcome_obind.
  { change [sh parentNode] with (sh <$> [parentNode]). rewrite <- fmap_app.
    apply getNodeHoistInfo_shift. }
  intros [|reason|ds]; simpl.
  - unfold prod_map. simpl. by rewrite <- (map_set_bimap sh (shiftInfo (length h0))).
  - unfold prod_map. simpl. by rewrite <- (map_set_bimap sh (shiftInfo (length h0))).
  - eapply (mapOutcome_obind id).
    + eapply (mapOutcome_foldO' sh id); [done|done|].
      intros dt' node _.
      eapply mapOutcome_obind; [apply deref_shift|]. intros nd.
      eapply mapOutcome_obind; [apply deref_shift|]. by intros sd.
    + intros dt'. unfold prod_map, id. simpl.
      by rewrite <- (map_set_bimap sh (shiftInfo (length h0))).
Qed.

Lemma addUnhoistableNode_shift fuel h p dt info : forall node st,
  addUnhoistableNode fuel (H h) (shN p) dt (sh node) (shiftInfo (length h0) info)
    (sh <$> st.1, shI st.2)
  = mapOutcome (prod_map (fmap sh) shI) (addUnhoistableNode fuel h p dt node info st).
Proof.
  induction fuel as [|fuel IH]; intros node [unh his]; [done|].
  simpl. rewrite (set_has_fmap sh). destruct (set_has node unh); simpl; [done|].
  eapply mapOutcome_obind; [apply deref_shift|]. intros nd. simpl.
  eapply (mapOutcome_foldO' id (prod_map (fmap sh) shI)).
  - by rewrite list_fmap_id.
  - unfold prod_map. simpl.
    by rewrite (set_add_fmap sh), (map_set_bimap sh (shiftInfo (length h0))).
  - intros [unh' his'] dependantName _. simpl. rewrite map_get_vmap.
    destruct (map_get dependantName (dependencies p)) as [dependant|]; simpl; [|done].
    apply (IH _ (unh', his')).
Qed.

Lemma collectUnhoistable_shift fuel h parentNode hoistInfos dt :
  collectUnhoistable fuel (H h) (sh parentNode) (shI hoistInfos) dt
  = mapOutcome (prod_map (fmap sh) shI)
      (collectUnhoistable fuel h parentNode hoistInfos dt).
Proof.
  unfold collectUnhoistable.
  eapply mapOutcome_obind; [apply deref_shift|]. intros p.
  eapply (mapOutcome_foldO' sh (prod_map (fmap sh) shI)).
  - apply map_keys_bimap.
  - done.
  - intros [unh his] node _. simpl. rewrite (map_get_bimap sh).
    destruct (map_get node his) as [[|reason|ds]|]; simpl; try done.
    apply (addUnhoistableNode_shift _ _ _ _ (NO reason) _ (unh, his)).
Qed.

End ShiftReads.

(** *** Code that writes, at another place of the store *)

Lemma sim_foldM' {S S' A B A' B'} (g : S -> S') (fx : A -> A') (f : B -> B')
    (body : B -> A -> M S B) (body' : B' -> A' -> M S' B') l l' acc acc' :
  l' = fx <$> l -> acc' = f acc ->
  (forall b x, x ∈ l -> sim f g (body b x) (body' (f b) (fx x))) ->
  sim f g (foldM l acc body) (foldM l' acc' body').
Proof. intros -> ->. apply sim_foldM. Qed.

Lemma sim_same {S A} (m : M S A) : sim id id m m.
Proof. intros s. unfold id. by destruct (m s). Qed.

Section ShiftWrites.
Variable h0 : Heap.
Local Abbreviation sh := (Nat.add (length h0)).
Local Abbreviation shN := (shiftNode (length h0)).
Local Abbreviation H := (shiftHeap h0).
Local Abbreviation shI := (map_bimap sh (shiftInfo (length h0))).

Lemma markNodeCoupled_shift fuel : forall node seen,
  sim (fmap sh) H (markNodeCoupled fuel node seen)
    (markNodeCoupled fuel (sh node) (sh <$> seen)).
Proof.
  induction fuel as [|fuel IH]; intros node seen; [apply sim_starve|].
  simpl. rewrite (set_has_fmap sh). destruct (set_has node seen); [by apply sim_ret|].
  eapply sim_bind; [by apply sim_modify|]. intros _.
  eapply sim_bind; [apply sim_read|]. intros nd. simpl.
  eapply (sim_foldM' H sh (fmap sh)).
  - apply map_values_bimap.
  - by rewrite (set_add_fmap sh).
  - intros seen' dep _.
    eapply sim_bind; [apply sim_read|]. intros d. simpl.
    destruct (set_has (name d) (peerNames nd)); simpl; [by apply sim_ret|apply IH].
Qed.

Lemma addNode_shift fuel : forall node parentNode seenNodes,
  sim (map_bimap id sh) (shiftWorld h0) (addNode fuel node parentNode seenNodes)
    (addNode fuel node (sh parentNode) (map_bimap id sh seenNodes)).
Proof.
  induction fuel as [|fuel IH]; intros node parentNode seenNodes; [apply sim_starve|].
  simpl. eapply sim_bind; [apply sim_readInput|]. intros t. unfold id.
  rewrite map_get_vmap, map_has_vmap.
  eapply (sim_bind _ (prod_map sh (map_bimap id sh))).
  { destruct (map_get node seenNodes) as [workNode|]; simpl; [by apply sim_ret|].
    eapply sim_bind; [apply sim_onHeap, (sim_alloc h0 (newWorkNode t))|].
    intros workNode. apply sim_ret. unfold prod_map. simpl. by rewrite map_set_vmap. }
  intros [workNode seen']. simpl.
  eapply sim_bind.
  { apply sim_onHeap, sim_modify. intros nd. unfold attach, shiftNode. simpl.
    by rewrite !map_set_vmap. }
  intros _. destruct (map_has node seenNodes); simpl.
  - eapply sim_bind; [apply sim_onHeap, (markNodeCoupled_shift _ _ [])|].
    intros _. by apply sim_ret.
  - eapply (sim_foldM' _ id (map_bimap id sh)); [by rewrite list_fmap_id|done|].
    intros seen2 dep _. apply IH.
Qed.

Lemma cloneTree_shift fuel tree :
  sim sh (shiftWorld h0) (cloneTree fuel tree) (cloneTree fuel tree).
Proof.
  unfold cloneTree. eapply sim_bind; [apply sim_readInput|]. intros t. unfold id.
  eapply sim_bind; [apply sim_onHeap, (sim_alloc h0 (newWorkNode t))|].
  intros treeCopy.
  eapply sim_bind.
  { eapply (sim_foldM' _ id (map_bimap id sh)); [by rewrite list_fmap_id|done|].
    intros seen dep _. apply addNode_shift. }
  intros _. by apply sim_ret.
Qed.

Lemma cloneNode_shift nd : cloneNode (shN nd) = shN (cloneNode nd).
Proof. unfold cloneNode, shiftNode. simpl. by rewrite !(map_copy_bimap id). Qed.

Lemma decoupleGraphNode_shift parent node :
  sim sh H (decoupleGraphNode parent node) (decoupleGraphNode (sh parent) (sh node)).
Proof.
  unfold decoupleGraphNode. eapply sim_bind; [apply sim_read|]. intros nd. simpl.
  destruct (decoupled nd); [by apply sim_ret|].
  rewrite cloneNode_shift.
  eapply sim_bind; [apply sim_alloc|]. intros clone.
  eapply (sim_bind _ id).
  { rewrite (map_copy_bimap id), map_get_vmap.
    destruct (map_get (name nd) (map_copy (dependencies nd))) as [selfDep|]; simpl;
      [|by apply sim_ret].
    eapply sim_bind; [apply sim_read|]. intros s. simpl.
    destruct (bool_decide (ident s = ident nd)); [|by apply sim_ret].
    apply sim_modify. intros c. unfold shiftNode. simpl. by rewrite map_set_vmap. }
  intros _. eapply sim_bind.
  { apply sim_modify. intros p. unfold shiftNode. simpl. by rewrite map_set_vmap. }
  intros _. by apply sim_ret.
Qed.

Lemma failCheck_shift {A B} (f : A -> B) fuel h tree checkLog after :
  sim f H (failCheck fuel h tree checkLog after)
    (failCheck fuel (H h) (sh tree) checkLog (fmap (M:=option) (fmap sh) after)).
Proof.
  unfold failCheck. eapply (sim_bind _ id).
  { destruct after as [path|]; simpl; [|by apply sim_ret].
    eapply (sim_bind _ id); [apply sim_lift; by rewrite locatorsOf_shift, mapOutcome_id|].
    intros path'. by apply sim_ret. }
  intros after'. eapply (sim_bind _ id).
  { apply sim_lift. by rewrite dumpDepTree_shift, mapOutcome_id. }
  intros dump. apply sim_throw.
Qed.

Lemma hoistNode_shift rootNode parentNode next node :
  sim (fmap sh) H (hoistNode rootNode parentNode next node)
    (hoistNode (sh rootNode) (sh parentNode) (sh <$> next) (sh node)).
Proof.
  unfold hoistNode. eapply sim_bind; [apply sim_read|]. intros nd. simpl.
  eapply sim_bind.
  { apply sim_modify. intros p. unfold markHoisted, shiftNode. simpl.
    by rewrite map_delete_vmap, map_set_vmap. }
  intros _. eapply sim_bind; [apply sim_read|]. intros r. simpl.
  rewrite map_get_vmap.
  destruct (map_get (name nd) (dependencies r)) as [hoistedNode|]; simpl.
  - eapply sim_bind; [apply sim_read|]. intros nd'. simpl.
    eapply sim_bind; [by apply sim_modify|]. intros _. by apply sim_ret.
  - destruct (bool_decide (ident r = ident nd)); simpl; [by apply sim_ret|].
    eapply sim_bind.
    { apply sim_modify. intros r'. unfold shiftNode. simpl. by rewrite map_set_vmap. }
    intros _. apply sim_ret. by rewrite (set_add_fmap sh).
Qed.

Lemma runSelfCheck_shift tree rootNode options fuel nodePath parentNode :
  sim id H (runSelfCheck tree rootNode options fuel nodePath parentNode)
    (runSelfCheck (sh tree) (sh rootNode) options fuel (sh <$> nodePath) (sh parentNode)).
Proof.
  unfold runSelfCheck. destruct (check options); [|by apply sim_ret].
  eapply sim_bind; [apply sim_get_st|]. intros h.
  eapply (sim_bind _ id); [apply sim_lift; by rewrite selfCheck_shift, mapOutcome_id|].
  intros [|issue checkLog]; [by apply sim_ret|].
  change (Some (sh rootNode :: (sh <$> nodePath) ++ [sh parentNode]))
    with (Some (sh rootNode :: (sh <$> nodePath) ++ (sh <$> [parentNode]))).
  rewrite <- fmap_app.
  apply (failCheck_shift id fuel h tree (issue :: checkLog)
           (Some (rootNode :: nodePath ++ [parentNode]))).
Qed.


Lemma hoistNodeDependencies_shift tree rootNode rootNodePath hoistedDependencies_
    hoistIdents hoistIdentMap options fuel :
  forall nodePath locatorPath parentNode st,
    sim (prod_map (fmap sh) (fmap sh)) H
      (hoistNodeDependencies tree rootNode rootNodePath hoistedDependencies_
         hoistIdents hoistIdentMap options fuel nodePath locatorPath parentNode st)
      (hoistNodeDependencies (sh tree) (sh rootNode) rootNodePath
         (map_bimap id sh hoistedDependencies_) hoistIdents hoistIdentMap options fuel
         (sh <$> nodePath) locatorPath (sh parentNode) (sh <$> st.1, sh <$> st.2)).
Proof.
  induction fuel as [|fuel IH]; intros nodePath locatorPath parentNode [seen next];
    [apply sim_starve|].
  simpl. rewrite (set_has_fmap sh). destruct (set_has parentNode seen); [by apply sim_ret|].
  eapply sim_bind; [apply sim_get_st|]. intros h.
  eapply (sim_bind _ (prod_map shI id)); [apply sim_lift, classifyDependencies_shift|].
  intros [his dt]. simpl.
  eapply (sim_bind _ (prod_map (fmap sh) shI)); [apply sim_lift, collectUnhoistable_shift|].
  intros [unh his2]. simpl.
  eapply (sim_bind _ (fmap sh)).
  { eapply (sim_foldM' H sh (fmap sh)); [apply map_keys_bimap|done|].
    intros next' node _. rewrite (set_has_fmap sh).
    destruct (set_has node unh); simpl; [by apply sim_ret|apply hoistNode_shift]. }
  intros nextNewNodes.
  eapply (sim_bind _ id); [apply runSelfCheck_shift|]. intros _.
  eapply sim_bind; [apply sim_get_st|]. intros h2.
  eapply (sim_bind _ (fmap sh)); [apply sim_lift, getSortedRegularDependencies_shift|].
  intros children.
  eapply (sim_foldM' H sh (prod_map (fmap sh) (fmap sh))); [done|done|].
  intros [seen' next'] node _. simpl. rewrite (set_has_fmap sh).
  destruct (set_has node unh); [|by apply sim_ret].
  eapply sim_bind; [apply sim_read|]. intros nd. simpl.
  destruct (bool_decide (locator nd ∈ locatorPath)); simpl; [by apply sim_ret|].
  rewrite (map_get_bimap sh).
  destruct (map_get node his2) as [info|]; simpl; [|apply sim_throw].
  eapply (sim_bind _ id).
  { destruct info as [|reason|ds]; simpl; [by apply sim_ret| |by apply sim_ret].
    by apply sim_modify. }
  intros _. eapply sim_bind; [apply decoupleGraphNode_shift|]. intros decoupledNode.
  eapply sim_bind; [apply sim_read|]. intros p. simpl.
  eapply (sim_bind _ (prod_map (fmap sh) (fmap sh))).
  { change [sh parentNode] with (sh <$> [parentNode]).
    rewrite <- fmap_app, (set_add_fmap sh).
    apply (IH _ _ _ (set_add parentNode seen', next')). }
  intros [seen2 next2]. apply sim_ret. unfold prod_map. simpl.
  by rewrite (set_delete_fmap sh).
Qed.

Lemma hoistNewNodes_shift tree rootNode rootNodePath hoistedDependencies_
    hoistIdents hoistIdentMap options fuel newNodes seenNodes :
  sim (prod_map (fmap sh) (fmap sh)) H
    (hoistNewNodes tree rootNode rootNodePath hoistedDependencies_
       hoistIdents hoistIdentMap options fuel newNodes seenNodes)
    (hoistNewNodes (sh tree) (sh rootNode) rootNodePath
       (map_bimap id sh hoistedDependencies_) hoistIdents hoistIdentMap options fuel
       (sh <$> newNodes) (sh <$> seenNodes)).
Proof.
  unfold hoistNewNodes.
  eapply (sim_foldM' H sh (prod_map (fmap sh) (fmap sh))); [done|done|].
  intros [seen next] dep _.
  eapply sim_bind; [apply sim_read|]. intros d.
  eapply sim_bind; [apply sim_read|]. intros r. simpl.
  destruct (bool_decide (locator d = locator r)); [by apply sim_ret|].
  eapply sim_bind; [apply decoupleGraphNode_shift|]. intros decoupledDependency.
  eapply sim_bind; [apply sim_read|]. intros r'. simpl.
  apply (hoistNodeDependencies_shift _ _ _ _ _ _ _ _ [rootNode] _ _ (seen, next)).
Qed.

Lemma hoistGraphLoop_shift tree rootNode rootNodePath hoistedDependencies_
    hoistIdents hoistIdentMap options fuel : forall nextNewNodes seenNodes,
  sim id H
    (hoistGraphLoop tree rootNode rootNodePath hoistedDependencies_
       hoistIdents hoistIdentMap options fuel nextNewNodes seenNodes)
    (hoistGraphLoop (sh tree) (sh rootNode) rootNodePath
       (map_bimap id sh hoistedDependencies_) hoistIdents hoistIdentMap options fuel
       (sh <$> nextNewNodes) (sh <$> seenNodes)).
Proof.
  induction fuel as [|fuel IH]; intros nextNewNodes seenNodes; [apply sim_starve|].
  simpl. eapply sim_bind; [apply hoistNewNodes_shift|].
  intros [seen next]. simpl. destruct next as [|x next]; [by apply sim_ret|].
  apply (IH (x :: next)).
Qed.

Lemma hoistGraph_shift tree rootNode rootNodePath hoistedDependencies_
    hoistIdents hoistIdentMap options fuel :
  sim id H
    (hoistGraph tree rootNode rootNodePath hoistedDependencies_
       hoistIdents hoistIdentMap options fuel)
    (hoistGraph (sh tree) (sh rootNode) rootNodePath
       (map_bimap id sh hoistedDependencies_) hoistIdents hoistIdentMap options fuel).
Proof.
  unfold hoistGraph. eapply sim_bind; [apply sim_get_st|]. intros h.
  eapply (sim_bind _ (fmap sh)); [apply sim_lift, getSortedRegularDependencies_shift|].
  intros sorted. rewrite (set_of_list_fmap sh).
  apply (hoistGraphLoop_shift _ _ _ _ _ _ _ _ _ []).
Qed.

Lemma fold_left_same {A B} (f f' : B -> A -> B) l : forall acc,
  (forall b x, f' b x = f b x) -> fold_left f' l acc = fold_left f l acc.
Proof.
  induction l as [|x l IH]; intros acc Hf; simpl; [done|]. by rewrite Hf, IH.
Qed.

Lemma nextCandidate_shift r c name_ : nextCandidate (shN r) c name_ = nextCandidate r c name_.
Proof. unfold nextCandidate. simpl. by rewrite map_has_vmap. Qed.

Lemma hoistToLoop_shift fuel tree rootNode rootNodePath hoistedDependencies_ options :
  forall c,
    sim id H
      (hoistToLoop fuel tree rootNode rootNodePath hoistedDependencies_ c options)
      (hoistToLoop fuel (sh tree) (sh rootNode) rootNodePath
         (map_bimap id sh hoistedDependencies_) c options).
Proof.
  induction fuel as [|fuel IH]; intros c; [apply sim_starve|].
  simpl. eapply (sim_bind _ id); [apply hoistGraph_shift|]. intros _.
  eapply sim_bind; [apply sim_read|]. intros r.
  rewrite (fold_left_same (nextCandidate r) (nextCandidate (shN r)))
    by apply nextCandidate_shift.
  destruct (wasStateChanged _); [apply IH|by apply sim_ret].
Qed.

Lemma hoistTo_shift fuel :
  (forall tree rootNode rootNodePath options seenNodes,
     sim id H (hoistTo fuel tree rootNode rootNodePath options seenNodes)
       (hoistTo fuel (sh tree) (sh rootNode) rootNodePath options (sh <$> seenNodes)))
  /\ (forall tree rootNode i rootNodePath options,
        sim id H (hoistSubRoots fuel tree rootNode i rootNodePath options)
          (hoistSubRoots fuel (sh tree) (sh rootNode) i rootNodePath options)).
Proof.
  induction fuel as [|fuel [IH1 IH2]]; [split; intros; apply sim_starve|].
  split.
  - intros tree rootNode rootNodePath options seenNodes. simpl.
    rewrite (set_has_fmap sh). destruct (set_has rootNode seenNodes); [by apply sim_ret|].
    eapply sim_bind; [apply sim_get_st|]. intros h.
    eapply (sim_bind _ id);
      [apply sim_lift; by rewrite buildPopularityMap_shift, mapOutcome_id|].
    intros popularityMap.
    eapply (sim_bind _ id);
      [apply sim_lift; by rewrite getHoistIdentMap_shift, mapOutcome_id|].
    intros hoistIdentMap. unfold id.
    eapply (sim_bind _ (map_bimap id sh)).
    { rewrite (bool_decide_inj sh).
      destruct (bool_decide (rootNode = tree)); [by apply sim_ret|].
      apply sim_lift, getHoistedDependencies_shift. }
    intros hoistedDependencies_.
    eapply (sim_bind _ id); [apply hoistToLoop_shift|]. intros _. apply IH2.
  - intros tree rootNode i rootNodePath options. simpl.
    eapply sim_bind; [apply sim_read|]. intros r. simpl.
    unfold map_bimap at 1. rewrite list_lookup_fmap.
    destruct (dependencies r !! i) as [[[k dependency]|]|]; simpl;
      [|apply IH2|by apply sim_ret].
    eapply sim_bind; [apply sim_read|]. intros d. simpl.
    destruct (negb (set_has (name d) (peerNames r))
              && negb (set_has (locator d) rootNodePath)); [|apply IH2].
    eapply (sim_bind _ id); [apply (IH1 _ _ _ _ [])|]. intros rootNodePath'. apply IH2.
Qed.

Lemma addResultNode_shift fuel h : forall node parentWorkNode parentNode seenNodes,
  sim (fmap sh) id (addResultNode fuel h node parentWorkNode parentNode seenNodes)
    (addResultNode fuel (H h) (sh node) (sh parentWorkNode) parentNode (sh <$> seenNodes)).
Proof.
  induction fuel as [|fuel IH]; intros node parentWorkNode parentNode seenNodes;
    [apply sim_starve|].
  simpl. eapply sim_bind; [apply sim_lift, deref_shift|]. intros nd. simpl.
  rewrite (bool_decide_inj sh), (set_has_fmap sh).
  eapply (sim_bind _ id).
  { destruct (bool_decide (parentWorkNode = node)); [by apply sim_ret|apply sim_same]. }
  intros resultNode. unfold id.
  eapply (sim_bind _ id); [apply sim_same|]. intros _.
  destruct (set_has node seenNodes); simpl; [by apply sim_ret|].
  eapply (sim_bind _ (fmap sh)).
  { eapply (sim_foldM' id sh (fmap sh)).
    - apply map_values_bimap.
    - by rewrite (set_add_fmap sh).
    - intros seen dep _.
      eapply sim_bind; [apply sim_lift, deref_shift|]. intros d. simpl.
      destruct (set_has (name d) (peerNames nd)); simpl; [by apply sim_ret|apply IH]. }
  intros seen. apply sim_ret. by rewrite (set_delete_fmap sh).
Qed.

Lemma shrinkTree_shift fuel h tree :
  shrinkTree fuel (H h) (sh tree) = shrinkTree fuel h tree.
Proof.
  unfold shrinkTree. rewrite deref_shift.
  destruct (deref h tree) as [t| |]; simpl; [|done|done].
  rewrite map_values_bimap.
  pose proof (sim_foldM id sh (fmap sh)
                (fun seen dep => addResultNode fuel h dep tree 0 seen)
                (fun seen dep => addResultNode fuel (H h) dep (sh tree) 0 seen)
                (map_values (dependencies t)) [tree]) as Hsim.
  unfold sim, id in Hsim. simpl in Hsim. simpl. rewrite Hsim.
  - by destruct (foldM _ _ _ _).
  - intros seen dep _. apply addResultNode_shift.
Qed.

Lemma hoist_shift fuel toNumber env tree opts :
  sim id (shiftWorld h0) (hoist fuel toNumber env tree opts)
    (hoist fuel toNumber env tree opts).
Proof.
  unfold hoist. cbv zeta.
  eapply sim_bind; [apply cloneTree_shift|]. intros treeCopy.
  eapply (sim_bind _ id).
  { apply sim_onHeap. eapply sim_bind; [apply sim_read|]. intros t. simpl.
    apply (proj1 (hoistTo_shift fuel) _ _ _ _ []). }
  intros _. eapply (sim_bind _ id).
  { destruct (num_ge _ 1); [|by apply sim_ret].
    apply sim_onHeap. eapply sim_bind; [apply sim_get_st|]. intros h.
    eapply (sim_bind _ id); [apply sim_lift; by rewrite selfCheck_shift, mapOutcome_id|].
    intros [|issue checkLog]; [by apply sim_ret|].
    apply (failCheck_shift id fuel h treeCopy (issue :: checkLog) None). }
  intros _. eapply (sim_bind _ id).
  { destruct (num_ge _ 2); [|by apply sim_ret].
    apply sim_onHeap. eapply sim_bind; [apply sim_get_st|]. intros h.
    eapply (sim_bind _ id); [apply sim_lift; by rewrite dumpDepTree_shift, mapOutcome_id|].
    intros dump. by apply sim_ret. }
  intros out. eapply sim_bind; [apply sim_get_st|]. intros w.
  eapply (sim_bind _ id).
  { apply sim_lift. simpl. by rewrite shrinkTree_shift, mapOutcome_id. }
  intros rs. by apply sim_ret.
Qed.

End ShiftWrites.

(** *** Two calls *)

(** A call of [hoist] does not look at what is in the store of work
    trees: in any world it ends as it does in the world with the same
    input graph and no work tree. *)
Lemma hoist_from_any_store fuel toNumber env tree opts w :
  outcomeOf (hoist fuel toNumber env tree opts w)
  = outcomeOf (hoist fuel toNumber env tree opts (mkWorld (inputs w) [])).
Proof.
  assert (w = shiftWorld (heap w) (mkWorld (inputs w) [])) as Hw.
  { destruct w as [ts h]. unfold shiftWorld, shiftHeap. simpl. by rewrite app_nil_r. }
  rewrite Hw at 1. rewrite (hoist_shift (heap w) fuel toNumber env tree opts).
  by destruct (hoist fuel toNumber env tree opts (mkWorld (inputs w) [])).
Qed.

Lemma outcomeOf_Starved {S A} (r : Run S A) : outcomeOf r = Starved <-> r = Exhausted.
Proof. by destruct r. Qed.



(** * Further properties of the code *)

(** ** Locators, idents and keys *)

Lemma indexOfAt_range c s from pos :
  Str.indexOfAt c s from pos = (-1)%Z
  \/ (Z.of_nat pos <= Str.indexOfAt c s from pos)%Z.
Proof.
  revert pos. induction s as [|a s IH]; intros pos; simpl; [by left|].
  destruct (_ && _); [right; lia|]. destruct (IH (S pos)) as [->|H]; [by left|right; lia].
Qed.

(** The first occurrence at or after [from]: the text before it has none. *)
Lemma indexOfAt_app c s t from pos :
  Str.indexOfAt c s from pos = (-1)%Z -> (from <= pos + String.length s)%nat ->
  Str.indexOfAt c (s ++ String c t) from pos = Z.of_nat (pos + String.length s).
Proof.
  revert pos. induction s as [|a s IH]; intros pos Hnone Hfrom; simpl in *.
  - rewrite Nat.add_0_r. rewrite (proj2 (Nat.leb_le from pos)) by lia.
    by rewrite Ascii.eqb_refl.
  - destruct ((from <=? pos)%nat && Ascii.eqb a c); [lia|].
    rewrite IH; [f_equal; lia|done|lia].
Qed.

Lemma substring_prefix s t :
  String.substring 0 (String.length s) (s ++ t) = s.
Proof.
  induction s as [|a s IH]; simpl; [by destruct t|]. by rewrite IH.
Qed.

Lemma substring_all t : String.substring 0 (String.length t) t = t.
Proof. induction t as [|b t IH]; simpl; [done|]. by rewrite IH. Qed.

Lemma substring_suffix s t :
  String.substring (String.length s) (String.length t) (s ++ t) = t.
Proof. induction s as [|a s IH]; simpl; [apply substring_all|done]. Qed.

Lemma length_append s t : String.length (s ++ t) = (String.length s + String.length t)%nat.
Proof. induction s as [|a s IH]; simpl; [done|]. by rewrite IH. Qed.

Lemma Str_substring_prefix s t :
  Str.substring (s ++ t) 0 (Z.of_nat (String.length s)) = s.
Proof.
  unfold Str.substring, Str.clamp. cbv zeta. rewrite length_append.
  etrans; [|apply (substring_prefix s t)]. f_equal; lia.
Qed.

Lemma Str_substringFrom_suffix s t :
  Str.substringFrom (s ++ t) (Z.of_nat (String.length s)) = t.
Proof.
  unfold Str.substringFrom, Str.substring, Str.clamp. cbv zeta. rewrite length_append.
  etrans; [|apply (substring_suffix s t)]. f_equal; lia.
Qed.

Lemma append_at (s : string) c t : ((s ++ String c "") ++ t = s ++ String c t)%string.
Proof.
  induction s as [|a s IH]; [done|].
  change (String a ((s ++ String c "") ++ t) = String a (s ++ String c t))%string.
  by rewrite IH.
Qed.

Lemma indexOf_separator c (s : string) t :
  s <> ""%string -> Str.indexOf c s 1 = (-1)%Z ->
  Str.indexOf c (s ++ String c t)%string 1 = Z.of_nat (String.length s).
Proof.
  intros Hne Hnone. unfold Str.indexOf in *.
  rewrite indexOfAt_app; [done|done|]. destruct s; [done|simpl; lia].
Qed.

(** The parts of a locator: where its [@] is, and what is before and
    after it. *)
Lemma locator_parts name_ reference :
  name_ <> ""%string -> Str.indexOf "@"%char name_ 1 = (-1)%Z ->
  Str.indexOf "@"%char (makeLocator name_ reference) 1 = Z.of_nat (String.length name_)
  /\ Str.substring (makeLocator name_ reference) 0 (Z.of_nat (String.length name_)) = name_
  /\ Str.substringFrom (makeLocator name_ reference) (Z.of_nat (String.length name_) + 1)
     = reference.
Proof.
  intros Hne Hat. unfold makeLocator.
  change ("@" ++ reference)%string with (String "@"%char reference).
  split_and!.
  - by apply indexOf_separator.
  - apply Str_substring_prefix.
  - rewrite <- append_at.
    replace (Z.of_nat (String.length name_) + 1)%Z
      with (Z.of_nat (String.length (name_ ++ String "@"%char "")%string)).
    + apply Str_substringFrom_suffix.
    + rewrite length_append. simpl. lia.
Qed.

(** X1: the ident name is read back from a locator: for a name that is
    not empty and has no [@] after its first character (a scope may start
    with one), [getIdentName (makeLocator name reference)] is [name]. *)
Theorem getIdentName_makeLocator name reference :
  name <> ""%string -> Str.indexOf "@"%char name 1 = (-1)%Z ->
  getIdentName (makeLocator name reference) = name.
Proof.
  intros Hne Hat. unfold getIdentName.
  destruct (locator_parts name reference Hne Hat) as (Hidx & Hname & _).
  by rewrite Hidx.
Qed.

Lemma getIdentName_makeLocator_witness :
  getIdentName (makeLocator "@babel/core" "npm:7.0.0") = "@babel/core"%string.
Proof. apply getIdentName_makeLocator; [done|reflexivity]. Defined.

(** X2: an ident is the locator without the virtual part of the
    reference: a reference without [#] is kept, and of a reference with
    one only what follows the first [#] is. *)
Theorem makeIdent_strips_virtual name v :
  Str.indexOf "#"%char v 0 = (-1)%Z ->
  makeIdent name v = makeLocator name v
  /\ forall r, makeIdent name (v ++ String "#"%char r)%string = makeLocator name r.
Proof.
  intros Hnone. split.
  - unfold makeIdent. by rewrite Hnone.
  - intros r. unfold makeIdent. cbv zeta. unfold Str.indexOf in *.
    rewrite indexOfAt_app by (done || lia). simpl (0 + _)%nat.
    destruct (0 <=? Z.of_nat (String.length v))%Z eqn:Hle; [|apply Z.leb_gt in Hle; lia].
    f_equal. rewrite <- append_at.
    replace (Z.of_nat (String.length v) + 1)%Z
      with (Z.of_nat (String.length (v ++ String "#"%char "")%string)).
    + apply Str_substringFrom_suffix.
    + rewrite length_append. simpl. lia.
Qed.

Lemma makeIdent_strips_virtual_witness :
  makeIdent "a" "npm:1.0.0" = "a@npm:1.0.0"%string
  /\ makeIdent "a" "virtual:abc#npm:1.0.0" = "a@npm:1.0.0"%string.
Proof.
  destruct (makeIdent_strips_virtual "a" "npm:1.0.0" eq_refl) as [H1 _].
  destruct (makeIdent_strips_virtual "a" "virtual:abc" eq_refl) as [_ H2].
  split; [exact H1|exact (H2 "npm:1.0.0"%string)].
Defined.

(** X3: the walk over the popularity keys reads the name and the ident of
    a node back from its key: for a node whose name is not empty and has no
    [@] after its first character, the step for its key does nothing if the
    name is a peer name of the root, starts the list of the name with the
    ident if the name has none, and otherwise appends the ident unless the
    list has it. *)
Theorem addPopularIdent_key r identMap n :
  name n <> ""%string -> Str.indexOf "@"%char (name n) 1 = (-1)%Z ->
  addPopularIdent r identMap (getPopularityKey n)
  = if set_has (name n) (peerNames r) then identMap
    else match map_get (name n) identMap with
         | None => map_set (name n) [ident n] identMap
         | Some idents =>
             if bool_decide (ident n ∈ idents) then identMap
             else map_set (name n) (idents ++ [ident n]) identMap
         end.
Proof.
  intros Hne Hnone. unfold addPopularIdent, getPopularityKey. cbv zeta.
  change ("@" ++ ident n)%string with (String "@"%char (ident n)).
  rewrite indexOf_separator by done. rewrite Str_substring_prefix.
  assert (Str.substringFrom (name n ++ String "@"%char (ident n))%string (Str.len (name n) + 1)
          = ident n) as ->.
  { rewrite <- append_at.
    replace (Str.len (name n) + 1)%Z
      with (Z.of_nat (String.length (name n ++ String "@"%char "")%string)).
    - apply Str_substringFrom_suffix.
    - rewrite length_append. unfold Str.len. simpl. lia. }
  by destruct (set_has (name n) (peerNames r)).
Qed.

Lemma addPopularIdent_key_witness :
  addPopularIdent (mkWork "." [] ".@w" ".@w" [] [] [] [] true []) []
    (getPopularityKey (mkWork "@s/x" [] "@s/x@1" "@s/x@1" [] [] [] [] true []))
  = [Some ("@s/x"%string, ["@s/x@1"%string])].
Proof.
  apply (addPopularIdent_key (mkWork "." [] ".@w" ".@w" [] [] [] [] true []) []
           (mkWork "@s/x" [] "@s/x@1" "@s/x@1" [] [] [] [] true [])); [done|reflexivity].
Defined.

(** ** getNodeHoistInfo *)

Section PeerCheckFacts.
Variables (h : Heap) (reasonRoot : list Locator) (outputReason : bool).
Variable p : HoisterWorkTree.

Lemma checkPeerName_step isDirectParent st q st' :
  checkPeerName h reasonRoot outputReason isDirectParent p st q = Done st' ->
  (broken st = true /\ st' = st)
  \/ (broken st = false /\ passes p q /\ st' = st)
  \/ (broken st = false /\ map_get q (dependencies p) = None
      /\ st' = mkPeerCheck (set_delete q (checkList st)) (dependsOn st)
                 (arePeerDepsSatisfied st) (peerReason st) false)
  \/ (broken st = false /\ ~ passes p q /\ arePeerDepsSatisfied st' = false
      /\ exists d, map_get q (dependencies p) = Some d
           /\ if isDirectParent
              then broken st' = false
                   /\ dependsOn st' = set_add d <$> dependsOn st
              else broken st' = true /\ dependsOn st' = None).
Proof.
  unfold checkPeerName. intros Hrun.
  destruct (broken st) eqn:Hb; [left; split; [done|congruence]|right].
  destruct (set_has q (peerNames p) && map_has q (originalDependencies p)) eqn:Hpass.
  { left. apply andb_prop in Hpass as [H1 H2]. apply set_has_true in H1.
    split; [done|]. split; [by split|congruence]. }
  right.
  assert (~ passes p q) as Hnot.
  { intros [H1 H2]. apply set_has_true in H1. by rewrite H1, H2 in Hpass. }
  destruct (map_get q (dependencies p)) as [d|] eqn:Hget.
  - right. split; [done|]. split; [done|]. destruct isDirectParent.
    + injection Hrun as <-. simpl. eauto.
    + apply obind_Done in Hrun as (reason & _ & Hrun). injection Hrun as <-.
      simpl. eauto.
  - left. split; [done|]. split; [done|congruence].
Qed.

(** The names of one parent while the check holds. *)
Lemma checkPeerNames_satisfied isDirectParent l st st' :
  foldO l st (checkPeerName h reasonRoot outputReason isDirectParent p) = Done st' ->
  broken st = false ->
  arePeerDepsSatisfied st' = true ->
  broken st' = false /\ arePeerDepsSatisfied st = true
  /\ dependsOn st' = dependsOn st
  /\ (forall q, q ∈ l -> passes p q \/ map_get q (dependencies p) = None)
  /\ (forall q, q ∈ checkList st ->
        q ∈ checkList st' \/ map_get q (dependencies p) = None).
Proof.
  intros Hfold Hb Hsat.
  pose (I := fun (done : list PackageName) (s : PeerCheck) =>
    (broken s = true -> arePeerDepsSatisfied s = false)
    /\ (arePeerDepsSatisfied s = true ->
        arePeerDepsSatisfied st = true
        /\ dependsOn s = dependsOn st
        /\ (forall q, q ∈ done -> passes p q \/ map_get q (dependencies p) = None)
        /\ (forall q, q ∈ checkList st ->
              q ∈ checkList s \/ map_get q (dependencies p) = None))).
  assert (I ([] ++ l) st') as [HI1 HI2].
  { eapply (foldO_ind I); [| |exact Hfold].
    - split; [congruence|]. intros Hs. split_and!; [done|done| |by left].
      intros q Hq. by apply elem_of_nil in Hq.
    - intros d x b b' [Hb1 Hb2] _ Hstep.
      apply checkPeerName_step in Hstep
        as [[Hbr ->]|[(Hbr & Hp & ->)|[(Hbr & Hnone & ->)|(Hbr & Hnp & Hs' & _)]]].
      + split; [done|]. intros Hs. rewrite Hb1 in Hs; done.
      + split; [done|]. intros Hs. destruct (Hb2 Hs) as (H1 & H2 & H3 & H4).
        split_and!; [done|done| |done].
        intros q Hq. apply elem_of_app in Hq as [Hq|Hq]; [by apply H3|].
        apply list_elem_of_singleton in Hq as ->. by left.
      + split; [done|]. simpl. intros Hs. destruct (Hb2 Hs) as (H1 & H2 & H3 & H4).
        split_and!; [done|done| |].
        * intros q Hq. apply elem_of_app in Hq as [Hq|Hq]; [by apply H3|].
          apply list_elem_of_singleton in Hq as ->. by right.
        * intros q Hq. destruct (H4 q Hq) as [Hin|Hn]; [|by right].
          destruct (decide (q = x)) as [->|Hne]; [by right|].
          left. by apply elem_of_set_delete.
      + split; [done|]. intros Hs. congruence. }
  simpl in HI2. destruct (HI2 Hsat) as (H1 & H2 & H3 & H4).
  split_and!; try done.
  destruct (broken st') eqn:Hb'; [|done]. rewrite HI1 in Hsat; done.
Qed.

(** What the direct parent adds to [dependsOn]. *)
Lemma checkPeerNames_dependsOn l st st' ds :
  foldO l st (checkPeerName h reasonRoot outputReason true p) = Done st' ->
  broken st = false -> dependsOn st = Some [] ->
  dependsOn st' = Some ds ->
  forall d, d ∈ ds ->
    exists q, q ∈ l /\ map_get q (dependencies p) = Some d /\ ~ passes p q.
Proof.
  intros Hfold Hb Hds0 Hds.
  pose (I := fun (s : PeerCheck) =>
    broken s = false
    /\ exists ds, dependsOn s = Some ds
         /\ forall d, d ∈ ds ->
              exists q, q ∈ l /\ map_get q (dependencies p) = Some d /\ ~ passes p q).
  assert (I st') as (_ & ds' & Hds' & Hall).
  { eapply (foldO_inv I); [| |exact Hfold].
    - split; [done|]. exists []. split; [done|]. intros d Hd.
      by apply elem_of_nil in Hd.
    - intros x b b' (Hbr & dsb & Hdsb & Hallb) Hx Hstep.
      apply checkPeerName_step in Hstep
        as [[Hbr' ->]|[(_ & Hp & ->)|[(_ & Hnone & ->)|(_ & Hnp & Hs' & d & Hget & Hbr' & Hdep)]]].
      + congruence.
      + split; [done|eauto].
      + split; [done|]. simpl. eauto.
      + split; [done|]. rewrite Hdsb in Hdep. simpl in Hdep.
        eexists. split; [exact Hdep|]. intros d' Hd'.
        apply elem_of_set_add in Hd' as [->|Hd']; [eauto|by apply Hallb]. }
  assert (ds' = ds) as -> by congruence. done.
Qed.

Lemma checkPeerNames_upper l st st' :
  foldO l st (checkPeerName h reasonRoot outputReason false p) = Done st' ->
  dependsOn st' = dependsOn st \/ dependsOn st' = None.
Proof.
  intros Hfold.
  eapply (foldO_inv (fun s => dependsOn s = dependsOn st \/ dependsOn s = None));
    [by left| |exact Hfold].
  intros x b b' Hb _ Hstep.
  apply checkPeerName_step in Hstep
    as [[_ ->]|[(_ & _ & ->)|[(_ & _ & ->)|(_ & _ & _ & d & _ & _ & Hdep)]]];
    [done|done|done|by right].
Qed.

End PeerCheckFacts.

Lemma checkPeers_upper h reasonRoot outputReason parents : forall st st',
  checkPeers h reasonRoot outputReason false parents st = Done st' ->
  dependsOn st' = dependsOn st \/ dependsOn st' = None.
Proof.
  induction parents as [|a rest IH]; intros st st' Hrun; simpl in Hrun.
  { injection Hrun as <-. by left. }
  apply obind_Done in Hrun as (p & _ & Hrun).
  apply obind_Done in Hrun as (st1 & Hfold & Hrun).
  apply checkPeerNames_upper in Hfold.
  destruct (negb (arePeerDepsSatisfied st1)).
  - injection Hrun as <-. done.
  - apply IH in Hrun. destruct Hrun as [->| ->]; [done|by right].
Qed.

Lemma checkPeers_satisfied h reasonRoot outputReason parents :
  forall isDirectParent st st',
    checkPeers h reasonRoot outputReason isDirectParent parents st = Done st' ->
    broken st = false ->
    arePeerDepsSatisfied st' = true ->
    dependsOn st' = dependsOn st
    /\ forall q, q ∈ checkList st -> peerFree h q parents.
Proof.
  induction parents as [|a rest IH]; intros isDirectParent st st' Hrun Hb Hsat;
    simpl in Hrun.
  { injection Hrun as <-. done. }
  apply obind_Done in Hrun as (p & Hp & Hrun). apply deref_Done in Hp.
  apply obind_Done in Hrun as (st1 & Hfold & Hrun).
  destruct (arePeerDepsSatisfied st1) eqn:Hsat1; simpl in Hrun.
  2: { injection Hrun as <-. congruence. }
  destruct (checkPeerNames_satisfied _ _ _ _ _ _ _ _ Hfold Hb Hsat1)
    as (Hb1 & _ & Hds & Hall & Hkeep).
  destruct (IH _ _ _ Hrun Hb1 Hsat) as [Hds' Hfree].
  split; [congruence|]. intros q Hq. simpl. exists p. split; [done|].
  destruct (Hkeep q Hq) as [Hin|Hnone]; [|by right].
  destruct (Hall q Hq) as [[H1 H2]|Hnone]; [|by right].
  left. split_and!; [done|done|by apply Hfree].
Qed.

Lemma shadowingParent_None h n parents :
  shadowingParent h n parents = Done None ->
  forall a p x pd, a ∈ parents -> h !! a = Some p ->
    map_get (name n) (dependencies p) = Some x -> h !! x = Some pd ->
    ident pd = ident n.
Proof.
  induction parents as [|b rest IH]; intros Hrun a p x pd Ha Hp Hget Hx.
  { by apply elem_of_nil in Ha. }
  simpl in Hrun. apply obind_Done in Hrun as (pb & Hpb & Hrun).
  apply deref_Done in Hpb.
  assert (shadowingParent h n rest = Done None
          /\ forall x pd, map_get (name n) (dependencies pb) = Some x ->
               h !! x = Some pd -> ident pd = ident n) as [Hrest Hhere].
  { destruct (map_get (name n) (dependencies pb)) as [y|]; [|done].
    apply obind_Done in Hrun as (py & Hpy & Hrun). apply deref_Done in Hpy.
    destruct (bool_decide (ident py = ident n)) eqn:Hid; simpl in Hrun; [|done].
    apply bool_decide_eq_true in Hid. split; [done|].
    intros x' pd' [= <-] Hx'. congruence. }
  apply elem_of_cons in Ha as [->|Ha].
  - assert (pb = p) as -> by congruence. by eapply Hhere.
  - by eapply IH.
Qed.

(** X4: a node is hoisted, or waits for others to be, only if its ident
    is the candidate in force for its name and the package it is a
    dependency of has another ident: a self-reference is never hoisted. *)
Theorem getNodeHoistInfo_hoistable h rootNodePath nodePath node n parent pn
    hoistedDependencies_ hoistIdents hoistIdentMap outputReason info :
  last nodePath = Some parent -> h !! parent = Some pn -> h !! node = Some n ->
  getNodeHoistInfo h rootNodePath nodePath node hoistedDependencies_
    hoistIdents hoistIdentMap outputReason = Done info ->
  notNO info ->
  mjoin (map_get (name n) hoistIdents) = Some (ident n) /\ ident n <> ident pn.
Proof.
  intros Hlast Hparent Hnode Hrun Hinfo. unfold getNodeHoistInfo, deref in Hrun.
  rewrite Hlast, Hparent, Hnode in Hrun. simpl in Hrun.
  destruct (bool_decide (mjoin (map_get (name n) hoistIdents) = Some (ident n))
            && negb (bool_decide (ident n = ident pn))) eqn:Hcand.
  - apply andb_prop in Hcand as [H1 H2]. apply bool_decide_eq_true in H1.
    apply negb_true_iff, bool_decide_eq_false in H2. done.
  - exfalso. apply obind_Done in Hrun as (reason & _ & Hrun). simpl in Hrun.
    injection Hrun as <-. by eapply Hinfo.
Qed.

Lemma getNodeHoistInfo_hoistable_witness :
  mjoin (map_get "b"%string [Some ("b"%string, Some "b@1"%string)]) = Some "b@1"%string
  /\ "b@1"%string <> "a@1"%string.
Proof.
  refine (getNodeHoistInfo_hoistable waitingPeerHeap [".@workspace:."%string]
            [0; 1] 2 (mkWork "b" ["1"%string] "b@1" "b@1" [Some ("c"%string, 3)]
                        [Some ("c"%string, 3)] [] ["c"%string] true [])
            1 (mkWork "a" ["1"%string] "a@1" "a@1"
                 [Some ("b"%string, 2); Some ("c"%string, 3)]
                 [Some ("b"%string, 2); Some ("c"%string, 3)] [] [] true [])
            [] [Some ("b"%string, Some "b@1"%string)] [Some ("b"%string, ["b@1"%string])]
            false (DEPENDS [3]) _ _ _ _ _); [reflexivity..|done].
Defined.

(** X5: a node that is hoisted leaves no other version of itself in
    the way and takes its peer dependencies with it.  If
    [getNodeHoistInfo] answers [YES] for a node under the path
    [root :: mid ++ [parent]], then a dependency already hoisted to the
    root under the node's name has the node's ident, so has the dependency
    of that name of every package of [mid], and every peer name of the node
    is free from [parent] upwards. *)
Theorem getNodeHoistInfo_YES h rootNodePath root mid parent node n
    hoistedDependencies_ hoistIdents hoistIdentMap outputReason :
  h !! node = Some n ->
  getNodeHoistInfo h rootNodePath (root :: mid ++ [parent]) node hoistedDependencies_
    hoistIdents hoistIdentMap outputReason = Done YES ->
  (forall x hd, map_get (name n) hoistedDependencies_ = Some x -> h !! x = Some hd ->
                ident hd = ident n)
  /\ (forall a p x pd, a ∈ mid -> h !! a = Some p ->
        map_get (name n) (dependencies p) = Some x -> h !! x = Some pd ->
        ident pd = ident n)
  /\ (forall q, q ∈ peerNames n -> peerFree h q (parent :: rev mid)).
Proof.
  intros Hnode Hrun. unfold getNodeHoistInfo in Hrun.
  assert (last (root :: mid ++ [parent]) = Some parent) as Hlast
    by (rewrite app_comm_cons; apply last_snoc).
  rewrite Hlast in Hrun.
  apply obind_Done in Hrun as (pn & Hpn & Hrun).
  apply obind_Done in Hrun as (n' & Hn' & Hrun). apply deref_Done in Hn'.
  assert (n' = n) as -> by congruence. cbv zeta in Hrun.
  apply obind_Done in Hrun as (reason & _ & Hrun).
  apply obind_Done in Hrun as (avail & Havail & Hrun).
  apply obind_Done in Hrun as (pc & Hpc & Hrun).
  assert (avail.1 = true /\ arePeerDepsSatisfied pc = true) as [Hav Hsat].
  { destruct (dependsOn pc) as [[|d ds]|]; [| done |];
      destruct (avail.1 && arePeerDepsSatisfied pc) eqn:Hb; try done;
      by apply andb_prop in Hb. }
  rewrite Hav in Hpc.
  replace (tail (root :: mid ++ [parent])) with (mid ++ [parent]) in * by done.
  rewrite rev_unit in Hpc.
  apply checkPeers_satisfied in Hpc as [_ Hfree]; [|done|done]. simpl in Hfree.
  destruct (bool_decide _ && negb _) eqn:Hhoistable in Havail.
  2: { injection Havail as <-. done. }
  apply obind_Done in Havail as (r1 & Hr1 & Havail).
  destruct (r1.1) eqn:Hr11.
  2: { injection Havail as <-. congruence. }
  apply obind_Done in Havail as (sh & Hsh & Havail).
  destruct sh as [[pd p]|].
  { injection Havail as <-. done. }
  rewrite removelast_last in Hsh.
  split_and!.
  - intros x hd Hget Hx. rewrite Hget in Hr1.
    apply obind_Done in Hr1 as (hd' & Hhd' & Hr1). apply deref_Done in Hhd'.
    assert (hd' = hd) as -> by congruence.
    destruct (bool_decide (ident hd = ident n)) eqn:Hid.
    + by apply bool_decide_eq_true in Hid.
    + injection Hr1 as <-. done.
  - by apply shadowingParent_None.
  - intros q Hq. apply Hfree. by apply elem_of_set_of_list.
Qed.

Lemma getNodeHoistInfo_YES_witness :
  peerFree hoistedPeerHeap "c" (1 :: rev []).
Proof.
  refine (proj2 (proj2 (getNodeHoistInfo_YES hoistedPeerHeap [".@workspace:."%string]
            0 [] 1 2 (mkWork "b" ["1"%string] "b@1" "b@1" [Some ("c"%string, 3)]
                        [Some ("c"%string, 3)] [] ["c"%string] true [])
            [] [Some ("b"%string, Some "b@1"%string)] [Some ("b"%string, ["b@1"%string])]
            false _ _)) "c"%string _); [reflexivity..|].
  apply list_elem_of_singleton. reflexivity.
Defined.

(** X6: a node waits only for dependencies of its direct parent.  If
    [getNodeHoistInfo] answers [DEPENDS], every node of [dependsOn] is held
    by the direct parent under a peer name of the node, and is not a peer
    dependency of the parent itself. *)
Theorem getNodeHoistInfo_DEPENDS h rootNodePath nodePath node n parent pn
    hoistedDependencies_ hoistIdents hoistIdentMap outputReason ds :
  last nodePath = Some parent -> h !! parent = Some pn -> h !! node = Some n ->
  getNodeHoistInfo h rootNodePath nodePath node hoistedDependencies_
    hoistIdents hoistIdentMap outputReason = Done (DEPENDS ds) ->
  forall d, d ∈ ds ->
    exists q, q ∈ peerNames n /\ map_get q (dependencies pn) = Some d
              /\ ~ passes pn q.
Proof.
  intros Hlast Hparent Hnode Hrun. unfold getNodeHoistInfo in Hrun.
  rewrite Hlast in Hrun.
  apply obind_Done in Hrun as (pn' & Hpn' & Hrun). apply deref_Done in Hpn'.
  assert (pn' = pn) as -> by congruence.
  apply obind_Done in Hrun as (n' & Hn' & Hrun). apply deref_Done in Hn'.
  assert (n' = n) as -> by congruence. cbv zeta in Hrun.
  apply obind_Done in Hrun as (reason & _ & Hrun).
  apply obind_Done in Hrun as (avail & _ & Hrun).
  apply obind_Done in Hrun as (pc & Hpc & Hrun).
  assert (dependsOn pc = Some ds /\ ds <> []) as [Hds Hne].
  { destruct (dependsOn pc) as [[|d' ds']|];
      [by destruct (_ && _)| |by destruct (_ && _)].
    injection Hrun as <-. done. }
  clear Hrun.
  destruct (avail.1).
  2: { injection Hpc as <-. simpl in Hds. congruence. }
  apply last_Some in Hlast as [front ->].
  destruct front as [|root mid].
  { simpl in Hpc. injection Hpc as <-. simpl in Hds. congruence. }
  replace (tail ((root :: mid) ++ [parent])) with (mid ++ [parent]) in Hpc by done.
  rewrite rev_unit in Hpc. simpl in Hpc.
  apply obind_Done in Hpc as (p & Hp & Hpc). apply deref_Done in Hp.
  assert (p = pn) as -> by congruence.
  apply obind_Done in Hpc as (st1 & Hfold & Hpc). simpl in Hfold.
  destruct (arePeerDepsSatisfied st1) eqn:Hsat1; simpl in Hpc.
  - exfalso.
    apply checkPeerNames_satisfied in Hfold as (_ & _ & Hds1 & _); [|done|done].
    simpl in Hds1. apply checkPeers_upper in Hpc.
    rewrite Hds1, Hds in Hpc. destruct Hpc as [Hpc|Hpc]; congruence.
  - injection Hpc as ->. intros d Hd.
    destruct (checkPeerNames_dependsOn _ _ _ _ _ _ _ _ Hfold eq_refl eq_refl Hds d Hd)
      as (q & Hq & Hget & Hnp).
    exists q. split; [by apply elem_of_set_of_list|done].
Qed.

Lemma getNodeHoistInfo_DEPENDS_witness :
  exists q, q ∈ ["c"%string]
    /\ map_get q [Some ("b"%string, 2); Some ("c"%string, 3)] = Some 3
    /\ ~ passes (mkWork "a" ["1"%string] "a@1" "a@1"
                   [Some ("b"%string, 2); Some ("c"%string, 3)]
                   [Some ("b"%string, 2); Some ("c"%string, 3)] [] [] true []) q.
Proof.
  refine (getNodeHoistInfo_DEPENDS waitingPeerHeap [".@workspace:."%string]
            [0; 1] 2 (mkWork "b" ["1"%string] "b@1" "b@1" [Some ("c"%string, 3)]
                        [Some ("c"%string, 3)] [] ["c"%string] true [])
            1 (mkWork "a" ["1"%string] "a@1" "a@1"
                 [Some ("b"%string, 2); Some ("c"%string, 3)]
                 [Some ("b"%string, 2); Some ("c"%string, 3)] [] [] true [])
            [] [Some ("b"%string, Some "b@1"%string)] [Some ("b"%string, ["b@1"%string])]
            false [3] _ _ _ _ 3 _); [reflexivity..|].
  apply list_elem_of_singleton. reflexivity.
Defined.

(** ** decoupleGraphNode and hoistNode *)

(** X7: [decoupleGraphNode] gives the parent a decoupled node of its
    own.  For a dependency [node] of [parent] in a well-formed tree, the
    node returned is decoupled, has the name, ident, locator, peer names
    and references of [node] and its dependencies under every other name,
    and is what [parent] holds under that name afterwards; a dependency of
    the node on its own ident points to the clone.  A node that is
    decoupled already is returned as it is and nothing is written;
    otherwise the node returned is new and no node but [parent] changes. *)
Theorem decoupleGraphNode_decouples parent node h c h' p n :
  decoupleGraphNode parent node h = Returned c h' ->
  heap_ok h = true -> h !! parent = Some p -> h !! node = Some n ->
  map_get (name n) (dependencies p) = Some node ->
  heap_ok h' = true
  /\ (exists nc p',
        h' !! c = Some nc /\ h' !! parent = Some p'
        /\ decoupled nc = true
        /\ name nc = name n /\ ident nc = ident n /\ locator nc = locator n
        /\ (forall q, q ∈ peerNames nc <-> q ∈ peerNames n)
        /\ (forall ref, ref ∈ references nc <-> ref ∈ references n)
        /\ map_get (name n) (dependencies p') = Some c
        /\ (forall k, k <> name n ->
              map_get k (dependencies p') = map_get k (dependencies p))
        /\ (forall k, k <> name n ->
              map_get k (dependencies nc) = map_get k (dependencies n))
        /\ (forall s sn, decoupled n = false ->
              map_get (name n) (dependencies n) = Some s -> h !! s = Some sn ->
              map_get (name n) (dependencies nc)
              = Some (if bool_decide (ident sn = ident n) then c else s)))
  /\ (if decoupled n then c = node /\ h' = h
      else c = length h
           /\ forall x, x <> parent -> (x < length h)%nat -> h' !! x = h !! x).
Proof.
  intros Hrun Hok Hp Hn Hdep. split.
  { eapply rtc_step_heap_ok; [|done].
    eapply (decoupleGraphNode_spec parent); [exact Hrun|exact Hp|exact Hn|].
    left. unfold map_has. by rewrite Hdep. }
  unfold decoupleGraphNode in Hrun.
  apply bind_Done in Hrun as (n' & h0 & Hread & Hrun).
  apply read_Done in Hread as [Hn' ->]. assert (n' = n) as -> by congruence.
  destruct (decoupled n) eqn:Hdec.
  { apply ret_Done in Hrun as [-> ->]. split; [|done]. exists n, p.
    split_and!; try done. }
  apply bind_Done in Hrun as (c' & h1 & Halloc & Hrun).
  apply alloc_Done in Halloc as [-> ->].
  apply bind_Done in Hrun as (u & h2 & Hself & Hrun).
  apply bind_Done in Hrun as (u' & h3 & Hmod & Hrun).
  apply ret_Done in Hrun as [-> ->].
  set (c := length h) in *.
  assert (parent < c)%nat as Hlt by by eapply lookup_lt_Some.
  assert (NoDup (map_keys (dependencies n))) as Hnd by by eapply heap_ok_NoDup.
  assert ((h ++ [cloneNode n]) !! c = Some (cloneNode n)) as Hc.
  { rewrite lookup_app_r by done. unfold c. by rewrite Nat.sub_diag. }
  assert (exists nc, h2 !! c = Some nc
            /\ decoupled nc = true /\ name nc = name n /\ ident nc = ident n
            /\ locator nc = locator n /\ peerNames nc = peerNames (cloneNode n)
            /\ references nc = references (cloneNode n)
            /\ (forall k, k <> name n ->
                  map_get k (dependencies nc) = map_get k (dependencies n))
            /\ (forall s sn, map_get (name n) (dependencies n) = Some s ->
                  h !! s = Some sn ->
                  map_get (name n) (dependencies nc)
                  = Some (if bool_decide (ident sn = ident n) then c else s))
            /\ (forall x, (x < c)%nat -> h2 !! x = h !! x)
            /\ length h2 = S c) as (nc & Hnc & Hd & Hname & Hid & Hloc & Hpeers
                                       & Hrefs & Hother & Hselfdep & Hold2 & Hlen2).
  { assert (forall x, (x < c)%nat -> (h ++ [cloneNode n]) !! x = h !! x) as Hold1
      by (intros; by apply lookup_app_l).
    assert (length (h ++ [cloneNode n]) = S c) as Hlen1
      by (rewrite length_app; simpl; unfold c; lia).
    rewrite map_get_copy in Hself by done.
    destruct (map_get (name n) (dependencies n)) as [selfDep|] eqn:Hget.
    2:{ apply ret_Done in Hself as [_ ->]. exists (cloneNode n).
        split_and!; try done. intros k _. simpl. by apply map_get_copy. }
    apply bind_Done in Hself as (s & h1' & Hread & Hself).
    apply read_Done in Hread as [Hs ->].
    assert (h !! selfDep = Some s) as Hs'.
    { destruct (heap_ok_entry _ _ _ _ _ Hok Hn (map_get_entries _ _ _ Hget))
        as (d & Hd & _).
      rewrite <- Hold1; [done|]. by eapply lookup_lt_Some. }
    destruct (bool_decide (ident s = ident n)) eqn:Hsame.
    2:{ apply ret_Done in Hself as [_ ->]. exists (cloneNode n).
        split_and!; try done.
        - intros k _. simpl. by apply map_get_copy.
        - intros s0 sn [= <-] Hsn. assert (sn = s) as -> by congruence.
          rewrite Hsame. simpl. by rewrite map_get_copy. }
    apply modify_Done in Hself as (nc & Hnc & ->).
    assert (nc = cloneNode n) as -> by congruence.
    eexists. split; [by rewrite list_lookup_insert_eq by lia|].
    split_and!; try done.
    - intros k Hk. simpl. rewrite map_get_set, decide_False by done.
      by apply map_get_copy.
    - intros s0 sn [= <-] Hsn. assert (sn = s) as -> by congruence.
      rewrite Hsame. simpl. by rewrite map_get_set, decide_True.
    - intros x Hx. rewrite list_lookup_insert_ne by lia. by apply Hold1.
    - by rewrite length_insert. }
  apply modify_Done in Hmod as (p2 & Hp2 & ->).
  rewrite Hold2 in Hp2 by done. assert (p2 = p) as -> by congruence.
  split.
  - exists nc. eexists. split; [by rewrite list_lookup_insert_ne by lia|].
    split; [by rewrite list_lookup_insert_eq by lia|].
    split_and!; try done.
    + intros q. rewrite Hpeers. simpl. apply elem_of_set_of_list.
    + intros ref. rewrite Hrefs. simpl. apply elem_of_set_of_list.
    + simpl. by rewrite map_get_set, decide_True.
    + intros k Hk. simpl. by rewrite map_get_set, decide_False.
    + intros s sn _. apply Hselfdep.
  - split; [done|]. intros x Hx Hxlt. rewrite list_lookup_insert_ne by done.
    by apply Hold2.
Qed.

Lemma decoupleGraphNode_decouples_witness :
  exists h', decoupleGraphNode 1 3 waitingPeerHeap = Returned 4 h'
    /\ heap_ok h' = true.
Proof.
  eexists. split; [reflexivity|].
  refine (proj1 (decoupleGraphNode_decouples 1 3 waitingPeerHeap 4 _
                   (mkWork "a" ["1"%string] "a@1" "a@1"
                      [Some ("b"%string, 2); Some ("c"%string, 3)]
                      [Some ("b"%string, 2); Some ("c"%string, 3)] [] [] true [])
                   (mkWork "c" ["1"%string] "c@1" "c@1" [] [] [] [] false [])
                   _ _ _ _ _)); reflexivity.
Defined.

(** X8: [hoistNode] moves a dependency from its parent to the root.
    After the call the parent no longer has a dependency (or a reason)
    under the node's name and lists the node as hoisted, its other
    dependencies being as before.  If the root had no dependency of that
    name it gets the node, unless the node has the root's own ident, and the
    node is to be visited in the next round; if it had one, its
    dependencies stay and that dependency takes over the node's
    references. *)
Theorem hoistNode_moves root parentNode next node h next' h' p r nd :
  hoistNode root parentNode next node h = Returned next' h' ->
  parentNode <> root ->
  h !! parentNode = Some p -> h !! root = Some r -> h !! node = Some nd ->
  (exists p', h' !! parentNode = Some p'
     /\ map_get (name nd) (dependencies p') = None
     /\ map_get (name nd) (hoistedDependencies p') = Some node
     /\ map_get (name nd) (reasons p') = None
     /\ forall k, k <> name nd ->
          map_get k (dependencies p') = map_get k (dependencies p))
  /\ (exists r', h' !! root = Some r'
        /\ match map_get (name nd) (dependencies r) with
           | Some hoistedNode =>
               dependencies r' = dependencies r /\ next' = next
               /\ exists hn hn', h !! hoistedNode = Some hn
                    /\ h' !! hoistedNode = Some hn'
                    /\ forall ref, ref ∈ references hn'
                                   <-> ref ∈ references nd \/ ref ∈ references hn
           | None =>
               if bool_decide (ident r = ident nd)
               then dependencies r' = dependencies r /\ next' = next
               else dependencies r' = map_set (name nd) node (dependencies r)
                    /\ next' = set_add node next
           end).
Proof.
  intros Hrun Hne Hp Hr Hnd. unfold hoistNode in Hrun.
  apply bind_Done in Hrun as (nd' & h0 & Hread & Hrun).
  apply read_Done in Hread as [Hnd' ->]. assert (nd' = nd) as -> by congruence.
  apply bind_Done in Hrun as (u & h1 & Hmod & Hrun).
  apply modify_Done in Hmod as (p0 & Hp0 & ->). assert (p0 = p) as -> by congruence.
  assert (parentNode < length h)%nat as Hplt by by eapply lookup_lt_Some.
  assert (root < length h)%nat as Hrlt by by eapply lookup_lt_Some.
  set (p1 := markHoisted (name nd) node p) in *.
  set (h1 := <[parentNode := p1]> h) in *.
  assert (h1 !! parentNode = Some p1) as Hp1
    by (unfold h1; by rewrite list_lookup_insert_eq).
  assert (h1 !! root = Some r) as Hr1
    by (unfold h1; by rewrite list_lookup_insert_ne).
  assert (map_get (name nd) (dependencies p1) = None
          /\ map_get (name nd) (hoistedDependencies p1) = Some node
          /\ map_get (name nd) (reasons p1) = None
          /\ forall k, k <> name nd ->
               map_get k (dependencies p1) = map_get k (dependencies p))
    as (Hd1 & Hh1 & Hre1 & Hk1).
  { unfold p1. simpl. split_and!.
    - by rewrite map_get_delete, decide_True.
    - by rewrite map_get_set, decide_True.
    - by rewrite map_get_delete, decide_True.
    - intros k Hk. by rewrite map_get_delete, decide_False. }
  apply bind_Done in Hrun as (r0 & h2 & Hread & Hrun).
  apply read_Done in Hread as [Hr0 ->]. assert (r0 = r) as -> by congruence.
  destruct (map_get (name nd) (dependencies r)) as [hoistedNode|] eqn:Hget.
  - apply bind_Done in Hrun as (nd1 & h2 & Hread & Hrun).
    apply read_Done in Hread as [Hnd1 ->].
    assert (references nd1 = references nd) as Hrefs.
    { unfold h1 in Hnd1. destruct (decide (node = parentNode)) as [->|Hnp].
      - rewrite list_lookup_insert_eq in Hnd1 by done. injection Hnd1 as <-.
        assert (p = nd) as -> by congruence. done.
      - rewrite list_lookup_insert_ne in Hnd1 by done. congruence. }
    apply bind_Done in Hrun as (u' & h3 & Hmod & Hrun).
    apply modify_Done in Hmod as (hn1 & Hhn1 & ->).
    apply ret_Done in Hrun as [-> ->].
    assert (hoistedNode < length h1)%nat as Hhlt by by eapply lookup_lt_Some.
    set (hn' := with_references _ hn1).
    assert (forall x m, h1 !! x = Some m ->
              exists m', <[hoistedNode := hn']> h1 !! x = Some m'
                /\ dependencies m' = dependencies m
                /\ hoistedDependencies m' = hoistedDependencies m
                /\ reasons m' = reasons m) as Hkeep.
    { intros x m Hx. destruct (decide (x = hoistedNode)) as [->|Hxh].
      - rewrite list_lookup_insert_eq by done. exists hn'.
        assert (m = hn1) as -> by congruence. done.
      - rewrite list_lookup_insert_ne by done. by exists m. }
    split.
    + destruct (Hkeep _ _ Hp1) as (p' & Hp' & Hdp & Hhp & Hrp).
      exists p'. rewrite Hdp, Hhp, Hrp. done.
    + destruct (Hkeep _ _ Hr1) as (r' & Hr' & Hdr & _).
      exists r'. split; [done|]. split; [done|]. split; [done|].
      assert (exists hn, h !! hoistedNode = Some hn /\ references hn = references hn1)
        as (hn & Hhn & Hhnrefs).
      { unfold h1 in Hhn1. destruct (decide (hoistedNode = parentNode)) as [->|Hhp].
        - rewrite list_lookup_insert_eq in Hhn1 by done. injection Hhn1 as <-.
          by exists p.
        - rewrite list_lookup_insert_ne in Hhn1 by done. by exists hn1. }
      exists hn, hn'. split; [done|].
      split; [by rewrite list_lookup_insert_eq|].
      intros ref. unfold hn'. simpl. rewrite fold_set_add_elem, Hrefs, Hhnrefs. done.
  - destruct (bool_decide (ident r = ident nd)) eqn:Hid; simpl in Hrun.
    + apply ret_Done in Hrun as [-> ->]. split; [by exists p1|by exists r].
    + apply bind_Done in Hrun as (u' & h3 & Hmod & Hrun).
      apply modify_Done in Hmod as (r1 & Hr1' & ->).
      assert (r1 = r) as -> by congruence.
      apply ret_Done in Hrun as [-> ->].
      assert (root < length h1)%nat by by eapply lookup_lt_Some.
      split.
      * exists p1. by rewrite list_lookup_insert_ne by done.
      * eexists. by rewrite list_lookup_insert_eq by done.
Qed.

Lemma hoistNode_moves_witness :
  exists p', hoistNode 0 1 [] 3 waitingPeerHeap
             = Returned [3] (<[0 := with_dependencies
                                    [Some ("a"%string, 1); Some ("c"%string, 3)]
                                    (mkWork "." ["workspace:."%string] ".@workspace:."
                                       ".@workspace:." [Some ("a"%string, 1)]
                                       [Some ("a"%string, 1)] [] [] true [])]>
                             (<[1 := p']> waitingPeerHeap))
    /\ map_get "c"%string (dependencies p') = None
    /\ map_get "c"%string (hoistedDependencies p') = Some 3.
Proof.
  eexists. split; [reflexivity|].
  destruct (hoistNode_moves 0 1 [] 3 waitingPeerHeap [3] _
              (mkWork "a" ["1"%string] "a@1" "a@1"
                 [Some ("b"%string, 2); Some ("c"%string, 3)]
                 [Some ("b"%string, 2); Some ("c"%string, 3)] [] [] true [])
              (mkWork "." ["workspace:."%string] ".@workspace:." ".@workspace:."
                 [Some ("a"%string, 1)] [Some ("a"%string, 1)] [] [] true [])
              (mkWork "c" ["1"%string] "c@1" "c@1" [] [] [] [] false [])
              eq_refl ltac:(done) eq_refl eq_refl eq_refl)
    as [(p' & Hp' & Hd & Hh & _) _].
  injection Hp' as <-. split; [exact Hd|exact Hh].
Defined.

(** ** getHoistedDependencies *)

Section HoistedDependencies.
Variables (h : Heap) (rootNode : addr) (r : HoisterWorkTree).
Hypothesis Hroot : h !! rootNode = Some r.

Let gathered (m : JsMap PackageName addr) : Prop :=
  forall k d, map_get k m = Some d ->
    map_has k (dependencies r) = false
    /\ exists nd x nx, h !! d = Some nd /\ name nd = k
         /\ rtc (regEdge h) rootNode x /\ h !! x = Some nx
         /\ d ∈ map_values (hoistedDependencies nx).

Lemma addHoistedDependencies_gathered fuel : forall node st st',
  rtc (regEdge h) rootNode node ->
  addHoistedDependencies fuel h rootNode node st = Done st' ->
  gathered st.1 -> gathered st'.1.
Proof using Hroot.
  induction fuel as [|fuel IH]; intros node st st' Hreach Hrun Hst; [done|].
  simpl in Hrun. destruct (set_has node st.2); [by injection Hrun as <-|].
  apply obind_Done in Hrun as (n & Hn & Hrun). apply deref_Done in Hn.
  apply obind_Done in Hrun as (r' & Hr' & Hrun). apply deref_Done in Hr'.
  assert (r' = r) as -> by congruence.
  apply obind_Done in Hrun as (hoisted & Hhoisted & Hrun).
  assert (gathered hoisted) as Hgh.
  { eapply (foldO_inv gathered); [exact Hst| |exact Hhoisted].
    intros dep m m' Hm Hdep Hstep.
    apply obind_Done in Hstep as (d & Hd & Hstep). apply deref_Done in Hd.
    destruct (map_has (name d) (dependencies r)) eqn:Hhas; simpl in Hstep;
      injection Hstep as <-; [done|].
    intros k x. rewrite map_get_set. destruct (decide (name d = k)) as [<-|Hne].
    - intros [= <-]. split; [done|]. by exists d, node, n.
    - apply Hm. }
  eapply (foldO_inv (fun s => gathered s.1)); [|  |exact Hrun]; [exact Hgh|].
  intros dep s s' Hs Hdep Hstep.
  apply obind_Done in Hstep as (d & Hd & Hstep). apply deref_Done in Hd.
  destruct (set_has (name d) (peerNames n)) eqn:Hpeer; simpl in Hstep.
  { by injection Hstep as <-. }
  eapply IH; [|exact Hstep|exact Hs].
  eapply rtc_r; [exact Hreach|]. exists n. split; [done|]. exists d.
  by apply set_has_false in Hpeer.
Qed.

End HoistedDependencies.

(** X9: what [getHoistedDependencies] gathers for a root.  Every entry
    of the map is a node under its own name, one that a package reachable
    from the root by regular dependencies lists as hoisted, and the root
    has no dependency of that name. *)
Theorem getHoistedDependencies_gathers fuel h rootNode r m :
  h !! rootNode = Some r ->
  getHoistedDependencies fuel h rootNode = Done m ->
  forall k d, map_get k m = Some d ->
    map_has k (dependencies r) = false
    /\ exists nd x nx, h !! d = Some nd /\ name nd = k
         /\ rtc (regEdge h) rootNode x /\ h !! x = Some nx
         /\ d ∈ map_values (hoistedDependencies nx).
Proof.
  intros Hroot Hrun. unfold getHoistedDependencies in Hrun.
  apply obind_Done in Hrun as (st & Hst & Hrun). injection Hrun as <-.
  eapply (addHoistedDependencies_gathered h rootNode r Hroot fuel rootNode ([], []));
    [done|exact Hst|]. intros k d Hget. done.
Qed.

Lemma getHoistedDependencies_gathers_witness :
  map_has "c"%string [Some ("b"%string, 2); None] = false
  /\ exists nd x nx, hoistedPeerHeap !! 3 = Some nd /\ name nd = "c"%string
       /\ rtc (regEdge hoistedPeerHeap) 1 x /\ hoistedPeerHeap !! x = Some nx
       /\ 3 ∈ map_values (hoistedDependencies nx).
Proof.
  exact (getHoistedDependencies_gathers 10 hoistedPeerHeap 1 _ [Some ("c"%string, 3)]
           eq_refl eq_refl "c"%string 3 eq_refl).
Defined.

(** ** buildPopularityMap *)

Lemma keepsParents_refl m : keepsParents m m.
Proof. by intros key i. Qed.

Lemma keepsParents_trans m1 m2 m3 :
  keepsParents m1 m2 -> keepsParents m2 m3 -> keepsParents m1 m3.
Proof. intros H1 H2 key i Hi. by apply H2, H1. Qed.

Lemma parentsOf_set m key parents key' :
  parentsOf (map_set key parents m) key'
  = if decide (key = key') then parents else parentsOf m key'.
Proof. unfold parentsOf. rewrite map_get_set. by destruct (decide (key = key')). Qed.

Lemma keepsParents_add m key i :
  keepsParents m (map_set key (set_add i (parentsOf m key)) m).
Proof.
  intros key' j Hj. rewrite parentsOf_set. destruct (decide (key = key')) as [->|]; [|done].
  apply elem_of_set_add. by right.
Qed.

Lemma counted_keeps h m m' a b : keepsParents m m' -> counted h m a b -> counted h m' a b.
Proof. intros Hk (p & n & Hp & Hn & Hin). exists p, n. split_and!; [done|done|by apply Hk]. Qed.

Section PopularityMap.
Variable h : Heap.

(** What a call of the nested [addParent] for the edge from [parentNode]
    to [node] leaves: the edge is counted, and so are the edges from the
    nodes the call has seen for the first time, whose ends are seen too. *)
Let walked (parentNode node : addr) (st st' : PopularityMap * JsSet addr) : Prop :=
  keepsParents st.1 st'.1
  /\ (forall y, y ∈ st.2 -> y ∈ st'.2)
  /\ node ∈ st'.2
  /\ counted h st'.1 parentNode node
  /\ forall y, y ∈ st'.2 -> y ∉ st.2 ->
       forall z, regEdge h y z -> z ∈ st'.2 /\ counted h st'.1 y z.

(** The loop over the dependencies of [node], given what the calls for
    them leave. *)
Lemma addParent_children (call : addr -> PopularityMap * JsSet addr ->
                                 Outcome (PopularityMap * JsSet addr))
    node n l st st' :
  h !! node = Some n ->
  (forall dep s s', call dep s = Done s' -> walked node dep s s') ->
  foldO l st (fun st dep =>
    d <~ deref h dep ;;
    if negb (set_has (name d) (peerNames n)) then call dep st else Done st) = Done st' ->
  keepsParents st.1 st'.1
  /\ (forall y, y ∈ st.2 -> y ∈ st'.2)
  /\ (forall y, y ∈ st'.2 -> y ∉ st.2 ->
        forall z, regEdge h y z -> z ∈ st'.2 /\ counted h st'.1 y z)
  /\ (forall z d, z ∈ l -> h !! z = Some d -> name d ∉ peerNames n ->
        z ∈ st'.2 /\ counted h st'.1 node z).
Proof.
  intros Hn Hcall Hfold.
  pose (J := fun (done : list addr) (s : PopularityMap * JsSet addr) =>
    keepsParents st.1 s.1
    /\ (forall y, y ∈ st.2 -> y ∈ s.2)
    /\ (forall y, y ∈ s.2 -> y ∉ st.2 ->
          forall z, regEdge h y z -> z ∈ s.2 /\ counted h s.1 y z)
    /\ (forall z d, z ∈ done -> h !! z = Some d -> name d ∉ peerNames n ->
          z ∈ s.2 /\ counted h s.1 node z)).
  change (J ([] ++ l) st').
  eapply (foldO_ind J); [| |exact Hfold].
  { split_and!; [apply keepsParents_refl|done|done|].
    intros z d Hz. by apply elem_of_nil in Hz. }
  intros done dep s s' (Hk & Hsub & Hclosed & Hdone) _ Hstep.
  apply obind_Done in Hstep as (d & Hd & Hstep). apply deref_Done in Hd.
  destruct (set_has (name d) (peerNames n)) eqn:Hpeer; simpl in Hstep.
  - injection Hstep as <-. split_and!; [done|done|done|].
    intros z d' Hz Hd' Hreg. apply elem_of_app in Hz as [Hz|Hz]; [by eapply Hdone|].
    apply list_elem_of_singleton in Hz as ->. assert (d' = d) as -> by congruence.
    by apply set_has_true in Hpeer.
  - apply Hcall in Hstep as (Hk' & Hsub' & Hin' & Hcount' & Hclosed').
    split_and!.
    + by eapply keepsParents_trans.
    + intros y Hy. by apply Hsub', Hsub.
    + intros y Hy Hnew z Hz. destruct (decide (y ∈ s.2)) as [Hold|Hfresh].
      * destruct (Hclosed y Hold Hnew z Hz) as [Hzin Hzc].
        split; [by apply Hsub'|by eapply counted_keeps].
      * by apply Hclosed'.
    + intros z d' Hz Hd' Hreg. apply elem_of_app in Hz as [Hz|Hz].
      * destruct (Hdone z d' Hz Hd' Hreg) as [Hzin Hzc].
        split; [by apply Hsub'|by eapply counted_keeps].
      * apply list_elem_of_singleton in Hz as ->. done.
Qed.

Lemma addParent_walked fuel : forall parentNode node st st',
  addParent fuel h parentNode node st = Done st' -> walked parentNode node st st'.
Proof.
  induction fuel as [|fuel IH]; intros parentNode node st st' Hrun; [done|].
  simpl in Hrun.
  apply obind_Done in Hrun as (p & Hp & Hrun). apply deref_Done in Hp.
  apply obind_Done in Hrun as (n & Hn & Hrun). apply deref_Done in Hn.
  set (m1 := map_set (getPopularityKey n)
               (set_add (ident p) (default [] (map_get (getPopularityKey n) st.1))) st.1)
    in *.
  assert (keepsParents st.1 m1) as Hk1 by apply keepsParents_add.
  assert (counted h m1 parentNode node) as Hc1.
  { exists p, n. split_and!; [done|done|]. unfold m1. rewrite parentsOf_set.
    rewrite decide_True by done. apply elem_of_set_add. by left. }
  destruct (set_has node st.2) eqn:Hseen; simpl in Hrun.
  { injection Hrun as <-. apply set_has_true in Hseen. unfold walked. simpl.
    split_and!; [done|done|done|done|]. intros y Hy Hny. done. }
  apply set_has_false in Hseen.
  eapply (addParent_children (addParent fuel h node)) in Hrun as (Hk & Hsub & Hclosed & Hdone);
    [|exact Hn|by apply IH]. simpl in *. unfold walked.
  split_and!.
  - by eapply keepsParents_trans.
  - intros y Hy. apply Hsub, elem_of_set_add. by right.
  - apply Hsub, elem_of_set_add. by left.
  - by eapply counted_keeps.
  - intros y Hy Hnew z Hz. destruct (decide (y = node)) as [->|Hne].
    + destruct Hz as (n' & Hn' & d & Hzin & Hd & Hreg).
      assert (n' = n) as -> by congruence. by eapply Hdone.
    + apply Hclosed; [done| |done]. rewrite elem_of_set_add. intros [?|?]; done.
Qed.

Lemma addParent_sound rootNode fuel : forall parentNode node st st',
  rtc (regEdge h) rootNode parentNode -> regEdge h parentNode node ->
  addParent fuel h parentNode node st = Done st' ->
  parentsSound h rootNode st.1 -> parentsSound h rootNode st'.1.
Proof.
  induction fuel as [|fuel IH]; intros parentNode node st st' Hreach Hedge Hrun Hst;
    [done|].
  simpl in Hrun.
  apply obind_Done in Hrun as (p & Hp & Hrun). apply deref_Done in Hp.
  apply obind_Done in Hrun as (n & Hn & Hrun). apply deref_Done in Hn.
  set (m1 := map_set (getPopularityKey n)
               (set_add (ident p) (default [] (map_get (getPopularityKey n) st.1))) st.1)
    in *.
  assert (parentsSound h rootNode m1) as Hm1.
  { intros key i. unfold m1. rewrite parentsOf_set.
    destruct (decide (getPopularityKey n = key)) as [<-|Hne]; [|apply Hst].
    rewrite elem_of_set_add. intros [->|Hi]; [|by apply Hst].
    by exists parentNode, p, node, n. }
  destruct (negb (set_has node st.2)); [|by injection Hrun as <-].
  eapply (foldO_inv (fun s => parentsSound h rootNode s.1)); [| |exact Hrun];
    [exact Hm1|].
  intros dep s s' Hs Hdep Hstep.
  apply obind_Done in Hstep as (d & Hd & Hstep). apply deref_Done in Hd.
  destruct (set_has (name d) (peerNames n)) eqn:Hpeer; simpl in Hstep.
  { by injection Hstep as <-. }
  eapply IH; [| |exact Hstep|exact Hs].
  - by eapply rtc_r.
  - exists n. split; [done|]. exists d. by apply set_has_false in Hpeer.
Qed.

End PopularityMap.

(** X10: what the popularity map counts.  In the map that
    [buildPopularityMap] returns for a root, the parents of a key are the
    idents of the packages reachable from the root by regular dependencies
    that have a regular dependency with that key, no more and no less. *)
Theorem buildPopularityMap_counts fuel h rootNode m :
  buildPopularityMap fuel h rootNode = Done m ->
  forall key i,
    i ∈ parentsOf m key
    <-> exists pa p x n, rtc (regEdge h) rootNode pa /\ h !! pa = Some p
          /\ regEdge h pa x /\ h !! x = Some n
          /\ key = getPopularityKey n /\ i = ident p.
Proof.
  intros Hrun. unfold buildPopularityMap in Hrun.
  apply obind_Done in Hrun as (r & Hr & Hrun). apply deref_Done in Hr.
  apply obind_Done in Hrun as (st & Hfold & Hrun). injection Hrun as <-.
  intros key i. split.
  - revert key i.
    eapply (foldO_inv (fun s => parentsSound h rootNode s.1)); [| |exact Hfold].
    { intros key i Hi. by apply elem_of_nil in Hi. }
    intros dep s s' Hs Hdep Hstep.
    apply obind_Done in Hstep as (d & Hd & Hstep). apply deref_Done in Hd.
    destruct (set_has (name d) (peerNames r)) eqn:Hpeer; simpl in Hstep.
    { by injection Hstep as <-. }
    eapply addParent_sound; [| |exact Hstep|exact Hs]; [done|].
    exists r. split; [done|]. exists d. by apply set_has_false in Hpeer.
  - intros (pa & p & x & n & Hreach & Hp & Hedge & Hn & -> & ->).
    eapply (addParent_children h (addParent fuel h rootNode)) in Hfold
      as (_ & Hsub & Hclosed & Hdone); [|exact Hr|by apply addParent_walked].
    simpl in *.
    assert (forall y, y ∈ st.2 -> forall z, regEdge h y z ->
              z ∈ st.2 /\ counted h st.1 y z) as Hall.
    { intros y Hy z Hz. destruct (decide (y = rootNode)) as [->|Hne].
      - destruct Hz as (r' & Hr' & d & Hzin & Hd & Hreg).
        assert (r' = r) as -> by congruence. by eapply Hdone.
      - apply Hclosed; [done| |done]. by rewrite list_elem_of_singleton. }
    assert (pa ∈ st.2) as Hpa.
    { eapply (rtc_ind_r (fun y => y ∈ st.2)); [| |exact Hreach].
      - apply Hsub. by apply list_elem_of_singleton.
      - intros b c _ Hbc Hb. by apply (Hall b). }
    destruct (Hall pa Hpa x Hedge) as [_ (p' & n' & Hp' & Hn' & Hin)].
    congruence.
Qed.

Lemma buildPopularityMap_counts_witness :
  "a@1"%string ∈ parentsOf waitingPeerPopularity "c@c@1"
  <-> exists pa p x n, rtc (regEdge waitingPeerHeap) 0 pa
        /\ waitingPeerHeap !! pa = Some p
        /\ regEdge waitingPeerHeap pa x /\ waitingPeerHeap !! x = Some n
        /\ "c@c@1"%string = getPopularityKey n /\ "a@1"%string = ident p.
Proof.
  exact (buildPopularityMap_counts 10 waitingPeerHeap 0 _ eq_refl
           "c@c@1"%string "a@1"%string).
Defined.

(** ** getHoistIdentMap *)

Lemma elem_of_insertSorted {A} (cmp : A -> A -> Z) (x : A) l z :
  z ∈ insertSorted cmp x l <-> z = x \/ z ∈ l.
Proof.
  induction l as [|y l IH]; simpl.
  - rewrite list_elem_of_singleton, elem_of_nil. tauto.
  - destruct (cmp x y <? 0)%Z.
    + by rewrite elem_of_cons.
    + rewrite !elem_of_cons, IH. tauto.
Qed.

Section Sorting.
Context {A : Type} (pop : A -> Z).

Lemma descending_nil : descending pop [].
Proof. intros i j a b Hi. done. Qed.

Lemma descending_cons x l :
  descending pop (x :: l) <-> (forall b, b ∈ l -> (pop b <= pop x)%Z) /\ descending pop l.
Proof.
  split.
  - intros Hd. split.
    + intros b Hb. apply list_elem_of_lookup in Hb as [j Hj].
      apply (Hd 0 (S j) x b); [done|done|lia].
    + intros i j a b Hi Hj Hij. apply (Hd (S i) (S j) a b); [done|done|lia].
  - intros [Hall Hd] i j a b Hi Hj Hij. destruct j as [|j]; [lia|]. simpl in Hj.
    destruct i as [|i].
    + injection Hi as <-. apply Hall. by eapply list_elem_of_lookup_2.
    + simpl in Hi. apply (Hd i j a b); [done|done|lia].
Qed.

Lemma descending_sublist l1 l2 : sublist l1 l2 -> descending pop l2 -> descending pop l1.
Proof.
  induction 1 as [|x l1 l2 Hsub IH|x l1 l2 Hsub IH]; intros Hd; [done| |].
  - apply descending_cons in Hd as [Hall Hd]. apply descending_cons. split; [|by apply IH].
    intros b Hb. apply Hall. by eapply elem_of_sublist.
  - apply descending_cons in Hd as [_ Hd]. by apply IH.
Qed.

Lemma insertSorted_descending x l :
  descending pop l -> descending pop (insertSorted (fun a b => pop b - pop a)%Z x l).
Proof.
  induction l as [|y l IH]; intros Hd; simpl.
  - apply descending_cons. split; [|apply descending_nil].
    intros b Hb. by apply elem_of_nil in Hb.
  - destruct (pop y - pop x <? 0)%Z eqn:Hcmp.
    + apply Z.ltb_lt in Hcmp. apply descending_cons. split; [|done].
      apply descending_cons in Hd as [Hall _].
      intros b Hb. apply elem_of_cons in Hb as [->|Hb]; [lia|].
      specialize (Hall b Hb). lia.
    + apply Z.ltb_ge in Hcmp. apply descending_cons in Hd as [Hall Hd].
      apply descending_cons. split; [|by apply IH].
      intros b Hb. apply elem_of_insertSorted in Hb as [->|Hb]; [lia|by apply Hall].
Qed.

Lemma jsSort_spec l :
  descending pop (jsSort (fun a b => pop b - pop a)%Z l)
  /\ forall z, z ∈ jsSort (fun a b => pop b - pop a)%Z l <-> z ∈ l.
Proof.
  unfold jsSort.
  assert (forall acc, descending pop acc ->
            descending pop (fold_left (fun acc x =>
                              insertSorted (fun a b => pop b - pop a)%Z x acc) l acc)
            /\ forall z, z ∈ fold_left (fun acc x =>
                               insertSorted (fun a b => pop b - pop a)%Z x acc) l acc
                         <-> z ∈ l \/ z ∈ acc) as Hgen.
  { induction l as [|x l IH]; intros acc Hacc; simpl.
    - split; [done|]. intros z. rewrite elem_of_nil. tauto.
    - destruct (IH (insertSorted (fun a b => pop b - pop a)%Z x acc)) as [Hd Hel].
      { by apply insertSorted_descending. }
      split; [done|]. intros z. rewrite Hel, elem_of_insertSorted, elem_of_cons. tauto. }
  destruct (Hgen [] descending_nil) as [Hd Hel]. split; [done|].
  intros z. rewrite Hel, elem_of_nil. tauto.
Qed.

End Sorting.

Section IdentWalk.
Variables (r : HoisterWorkTree) (m0 : JsMap PackageName (list Ident)).

(** What holds of the map during the walk over the keys [done]. *)
Let walkInv (done : list string) (m : JsMap PackageName (list Ident)) : Prop :=
  forall k, exists keys,
    sublist keys done
    /\ (forall key, key ∈ keys -> keyName key = k)
    /\ identsOf m k = identsOf m0 k ++ (keyIdent <$> keys)
    /\ (NoDup (identsOf m0 k) -> NoDup (identsOf m k))
    /\ (map_get k m = None -> map_get k m0 = None /\ keys = []).

Lemma identsOf_set m k l k' :
  identsOf (map_set k l m) k' = if decide (k = k') then l else identsOf m k'.
Proof. unfold identsOf. rewrite map_get_set. by destruct (decide (k = k')). Qed.

Lemma addPopularIdent_walk done m key :
  walkInv done m -> walkInv (done ++ [key]) (addPopularIdent r m key).
Proof using Type.
  intros Hinv k. destruct (Hinv k) as (keys & Hsub & Hname & Hids & Hnd & Hnone).
  assert (sublist keys (done ++ [key])) as Hsub' by by apply sublist_inserts_r.
  unfold addPopularIdent. fold (keyName key). fold (keyIdent key). cbv zeta.
  destruct (negb (set_has (keyName key) (peerNames r))); [|by exists keys].
  destruct (decide (keyName key = k)) as [Hk|Hk].
  2:{ exists keys.
      assert (forall l, identsOf (map_set (keyName key) l m) k = identsOf m k) as Hsame.
      { intros l. by rewrite identsOf_set, decide_False. }
      assert (forall l, map_get k (map_set (keyName key) l m) = map_get k m) as Hget.
      { intros l. by rewrite map_get_set, decide_False. }
      destruct (map_get (keyName key) m) as [idents|].
      - destruct (bool_decide (keyIdent key ∈ idents)); [done|].
        rewrite Hsame, Hget. done.
      - rewrite Hsame, Hget. done. }
  subst k.
  destruct (map_get (keyName key) m) as [idents|] eqn:Hget.
  - assert (identsOf m (keyName key) = idents) as Hidents
      by (unfold identsOf; by rewrite Hget).
    destruct (bool_decide (keyIdent key ∈ idents)) eqn:Hin.
    { exists keys. split_and!; try done. by rewrite Hget. }
    apply bool_decide_eq_false in Hin.
    exists (keys ++ [key]). split_and!.
    + by apply sublist_app.
    + intros key' Hkey'. apply elem_of_app in Hkey' as [Hkey'|Hkey']; [by apply Hname|].
      by apply list_elem_of_singleton in Hkey' as ->.
    + rewrite identsOf_set, decide_True by done. rewrite fmap_app, app_assoc.
      by rewrite <- Hids, Hidents.
    + intros Hnd0. rewrite identsOf_set, decide_True by done.
      apply NoDup_app. split; [rewrite <- Hidents; by apply Hnd|].
      split; [|apply NoDup_singleton].
      intros x Hx Hx'. by apply list_elem_of_singleton in Hx' as ->.
    + rewrite map_get_set, decide_True by done. done.
  - destruct (Hnone eq_refl) as [Hnone0 ->].
    exists [key]. split_and!.
    + by apply sublist_inserts_l.
    + intros key' Hkey'. by apply list_elem_of_singleton in Hkey' as ->.
    + rewrite identsOf_set, decide_True by done. unfold identsOf. by rewrite Hnone0.
    + intros _. rewrite identsOf_set, decide_True by done. apply NoDup_singleton.
    + rewrite map_get_set, decide_True by done. done.
Qed.

Lemma addPopularIdent_walks keys : forall done m,
  walkInv done m -> walkInv (done ++ keys) (fold_left (addPopularIdent r) keys m).
Proof using Type.
  induction keys as [|key keys IH]; intros done m Hinv; simpl.
  - by rewrite app_nil_r.
  - rewrite (assoc_L (++) done [key] keys : done ++ key :: keys = (done ++ [key]) ++ keys).
    by apply IH, addPopularIdent_walk.
Qed.

Lemma walkInv_start : walkInv [] m0.
Proof using Type.
  intros k. exists []. split_and!; [done| |by rewrite app_nil_r|done|done].
  intros key Hkey. by apply elem_of_nil in Hkey.
Qed.

End IdentWalk.



(** ** hoistTo *)

Lemma rtc_step_hasKey root h h' k :
  rtc (step root) h h' -> hasKey h root k -> hasKey h' root k.
Proof. induction 1; eauto using step_hasKey. Qed.

(** X12: the passes of [hoistTo] to one root only add regular
    dependencies to it.  For the candidates [getHoistIdentMap] gives for
    the root of a well-formed tree, the loop of [hoistTo] leaves the root
    with a dependency under every name it had one under, and with none
    under a peer name it had none under. *)
Theorem hoistToLoop_root_grows fuel tree rootNode rootNodePath hoistedDependencies_
    popularityMap identMap options h u h' r :
  heap_ok h = true -> h !! rootNode = Some r ->
  getHoistIdentMap h rootNode popularityMap = Done identMap ->
  hoistToLoop fuel tree rootNode rootNodePath hoistedDependencies_
    (mkCandidates (headIdents identMap) identMap false) options h = Returned u h' ->
  exists r', h' !! rootNode = Some r'
    /\ (forall k, map_has k (dependencies r) = true ->
                  map_has k (dependencies r') = true)
    /\ (forall q, q ∈ peerNames r -> map_get q (dependencies r) = None ->
                  map_get q (dependencies r') = None).
Proof.
  intros Hok Hr Hmap Hrun.
  eapply hoistToLoop_spec in Hrun; [|done|exact Hr|by eapply candidates_ok_initial].
  destruct (rtc_step_lookup _ _ _ _ _ Hrun Hr) as (r' & Hr' & _).
  exists r'. split; [done|]. split.
  - intros k Hk.
    destruct (rtc_step_hasKey _ _ _ k Hrun) as (r2 & Hr2 & Hk2); [by exists r|].
    congruence.
  - intros q Hq Hnone.
    destruct (rtc_step_noPeerGain _ _ _ Hrun _ _ _ Hr Hq Hnone) as (r2 & Hr2 & Hn2).
    congruence.
Qed.

Lemma hoistToLoop_root_grows_witness :
  exists h' r',
    hoistToLoop 20 0 0 [".@workspace:."%string] []
      (mkCandidates
         (headIdents [Some ("."%string, [".@workspace:."%string]);
                      Some ("a"%string, ["a@1"%string]);
                      Some ("b"%string, ["b@1"%string]);
                      Some ("c"%string, ["c@1"%string])])
         [Some ("."%string, [".@workspace:."%string]); Some ("a"%string, ["a@1"%string]);
          Some ("b"%string, ["b@1"%string]); Some ("c"%string, ["c@1"%string])] false)
      (mkInternalHoistOptions false (Num (-1))) waitingPeerHeap = Returned tt h'
    /\ h' !! 0 = Some r'
    /\ (forall k, map_has k [Some ("a"%string, 1)] = true ->
                  map_has k (dependencies r') = true).
Proof.
  eexists. 
  destruct (hoistToLoop_root_grows 20 0 0 [".@workspace:."%string] []
              waitingPeerPopularity _ (mkInternalHoistOptions false (Num (-1)))
              waitingPeerHeap tt _ _ eq_refl eq_refl eq_refl eq_refl)
    as (r' & Hr' & Hkeys & _).
  exists r'. split; [reflexivity|]. split; [exact Hr'|exact Hkeys].
Defined.

(** X13: [hoistTo] keeps the nodes and what they are.  On a well-formed
    tree a call leaves a well-formed tree that has every node it had, with
    its name, ident, locator, peer names and original dependencies, and
    whose other nodes are copies of those; no node has got a dependency
    under one of its peer names; and the path of the root is returned as
    it was passed. *)
Theorem hoistTo_keeps_nodes fuel tree rootNode rootNodePath options seenNodes h
    rootNodePath' h' :
  hoistTo fuel tree rootNode rootNodePath options seenNodes h
  = Returned rootNodePath' h' ->
  heap_ok h = true ->
  heap_ok h' = true /\ ext h h' /\ noPeerGain h h' /\ rootNodePath' = rootNodePath.
Proof.
  intros Hrun Hok. apply (proj1 (hoistTo_spec fuel)) in Hrun as [Hsteps ->]; [|done].
  split_and!; [|by eapply rtc_stepTo_ext|by eapply rtc_stepTo_noPeerGain|done].
  by eapply rtc_stepTo_heap_ok.
Qed.

Lemma hoistTo_keeps_nodes_witness :
  exists h', hoistTo 20 0 0 [".@workspace:."%string] (mkInternalHoistOptions false (Num (-1)))
               [] waitingPeerHeap = Returned [".@workspace:."%string] h'
    /\ heap_ok h' = true /\ ext waitingPeerHeap h'.
Proof.
  eexists. split; [vm_compute; reflexivity|].
  destruct (hoistTo_keeps_nodes 20 0 0 [".@workspace:."%string]
              (mkInternalHoistOptions false (Num (-1))) [] waitingPeerHeap _ _
              eq_refl eq_refl) as (Hok & Hext & _).
  split; [exact Hok|exact Hext].
Defined.

(** ** selfCheck *)

(** The log of the check only grows. *)
Lemma checkOrigDep_log h node n parentDeps dependencies_ st origDep st' :
  checkOrigDep h node n parentDeps dependencies_ st origDep = Done st' ->
  exists extra, log st' = log st ++ extra.
Proof.
  unfold checkOrigDep. intros Hrun.
  apply obind_Done in Hrun as (od & _ & Hrun).
  apply obind_Done in Hrun as (treePath & _ & Hrun).
  destruct (set_has (name od) (peerNames n)).
  - destruct (negb _); [|injection Hrun as <-; exists []; by rewrite app_nil_r].
    destruct (map_get (name od) dependencies_) as [dep|]; [|done].
    apply obind_Done in Hrun as (d & _ & Hrun).
    apply obind_Done in Hrun as (found & _ & Hrun).
    injection Hrun as <-. simpl. eauto.
  - destruct (map_get (name od) dependencies_) as [dep|].
    + apply obind_Done in Hrun as (d & _ & Hrun).
      destruct (negb _); injection Hrun as <-; simpl; [eauto|].
      exists []. by rewrite app_nil_r.
    + injection Hrun as <-. simpl. eauto.
Qed.

Lemma foldO_log {A} (body : CheckState -> A -> Outcome CheckState) l st st' :
  (forall x b b', body b x = Done b' -> exists extra, log b' = log b ++ extra) ->
  foldO l st body = Done st' -> exists extra, log st' = log st ++ extra.
Proof.
  intros Hbody Hfold.
  eapply (foldO_inv (fun s => exists extra, log s = log st ++ extra));
    [| |exact Hfold].
  - exists []. by rewrite app_nil_r.
  - intros x b b' [e1 He1] _ Hstep. apply Hbody in Hstep as [e2 He2].
    exists (e1 ++ e2). by rewrite He2, He1, app_assoc.
Qed.

Lemma checkNode_log h fuel : forall node parentDeps st st',
  checkNode fuel h node parentDeps st = Done st' ->
  exists extra, log st' = log st ++ extra.
Proof.
  induction fuel as [|fuel IH]; intros node parentDeps st st' Hrun; [done|].
  simpl in Hrun.
  destruct (set_has node (seenChecked st)).
  { injection Hrun as <-. exists []. by rewrite app_nil_r. }
  destruct (set_has node (parents st)).
  { injection Hrun as <-. exists []. by rewrite app_nil_r. }
  apply obind_Done in Hrun as (n & _ & Hrun).
  apply obind_Done in Hrun as (deps_ & _ & Hrun).
  apply obind_Done in Hrun as (st1 & Hst1 & Hrun).
  apply obind_Done in Hrun as (st2 & Hst2 & Hrun).
  injection Hrun as <-. simpl.
  apply foldO_log in Hst1 as [e1 He1]; [|intros; by eapply checkOrigDep_log].
  apply foldO_log in Hst2 as [e2 He2].
  - exists (e1 ++ e2). simpl in *. by rewrite He2, He1, app_assoc.
  - intros x b b' Hstep. apply obind_Done in Hstep as (d & _ & Hstep).
    destruct (negb _); [by eapply IH|].
    injection Hstep as <-. exists []. by rewrite app_nil_r.
Qed.

(** The names a node resolves: in a well-formed tree they are its own
    dependencies. *)
Lemma checkNode_dependencies h n m :
  deps_named h n = true ->
  foldO (map_values (dependencies n)) (map_copy (dependencies n))
    (fun m dep =>
       d <~ deref h dep ;;
       if negb (set_has (name d) (peerNames n))
       then Done (map_set (name d) dep m)
       else Done m) = Done m ->
  forall k, map_get k m = map_get k (dependencies n).
Proof.
  intros Hnamed Hfold.
  apply deps_named_spec in Hnamed as [Hall Hnd].
  eapply (foldO_inv (fun m : JsMap PackageName addr =>
            forall k, map_get k m = map_get k (dependencies n))); [| |exact Hfold].
  - intros k. by apply map_get_copy.
  - intros dep b b' Hb Hdep Hstep.
    apply obind_Done in Hstep as (d & Hd & Hstep). apply deref_Done in Hd.
    destruct (negb _); injection Hstep as <-; [|done].
    intros k. rewrite map_get_set. destruct (decide (name d = k)) as [<-|]; [|done].
    apply map_values_elem in Hdep as [k0 Hin].
    destruct (Hall _ _ Hin) as (d' & Hd' & <-).
    assert (d' = d) as -> by congruence.
    symmetry. by apply map_entries_get.
Qed.

(** X14: a check that passes vouches for the root.  If [selfCheck]
    returns an empty log for a well-formed tree, then for every original
    dependency of the root that is not a peer dependency, the root holds
    under its name a node of the same ident. *)
Theorem selfCheck_root_requires fuel h tree t :
  selfCheck fuel h tree = Done [] ->
  heap_ok h = true -> h !! tree = Some t ->
  forall od odn,
    od ∈ map_values (originalDependencies t) -> h !! od = Some odn ->
    name odn ∉ peerNames t ->
    exists d dn, map_get (name odn) (dependencies t) = Some d
                 /\ h !! d = Some dn /\ ident dn = ident odn.
Proof.
  intros Hrun Hok Ht. unfold selfCheck in Hrun.
  apply obind_Done in Hrun as (t' & Ht' & Hrun). apply deref_Done in Ht'.
  assert (t' = t) as -> by congruence.
  apply obind_Done in Hrun as (st & Hnode & Hrun). injection Hrun as Hlog.
  destruct fuel as [|fuel]; [done|]. simpl in Hnode.
  apply obind_Done in Hnode as (n & Hn & Hnode). apply deref_Done in Hn.
  assert (n = t) as -> by congruence.
  apply obind_Done in Hnode as (deps_ & Hdeps & Hnode).
  apply obind_Done in Hnode as (st1 & Hst1 & Hnode).
  apply obind_Done in Hnode as (st2 & Hst2 & Hnode).
  injection Hnode as <-. simpl in Hlog.
  assert (log st1 = []) as Hlog1.
  { apply foldO_log in Hst2 as [e2 He2].
    - simpl in He2. rewrite Hlog in He2. symmetry in He2.
      by apply app_eq_nil in He2 as [? _].
    - intros x b b' Hstep. apply obind_Done in Hstep as (d & _ & Hstep).
      destruct (negb _); [by eapply checkNode_log|].
      injection Hstep as <-. exists []. by rewrite app_nil_r. }
  pose proof (checkNode_dependencies h t deps_ (heap_ok_named _ _ _ Hok Ht) Hdeps)
    as Hsame.
  pose (I := fun (done : list addr) (s : CheckState) =>
    log s = [] ->
    forall od odn, od ∈ done -> h !! od = Some odn -> name odn ∉ peerNames t ->
      exists d dn, map_get (name odn) (dependencies t) = Some d
                   /\ h !! d = Some dn /\ ident dn = ident odn).
  assert (I ([] ++ map_values (originalDependencies t)) st1) as HI.
  { eapply (foldO_ind I); [| |exact Hst1].
    - intros _ od odn Hod. by apply elem_of_nil in Hod.
    - intros done x b b' Hb _ Hstep Hlog' od odn Hod Hodn Hreg.
      destruct (checkOrigDep_log _ _ _ _ _ _ _ _ Hstep) as [extra Hextra].
      rewrite Hlog' in Hextra. symmetry in Hextra.
      apply app_eq_nil in Hextra as [Hlogb _].
      apply elem_of_app in Hod as [Hod|Hod]; [by eapply (Hb Hlogb)|].
      apply list_elem_of_singleton in Hod as ->.
      unfold checkOrigDep in Hstep.
      apply obind_Done in Hstep as (odn' & Hodn' & Hstep). apply deref_Done in Hodn'.
      assert (odn' = odn) as -> by congruence.
      apply obind_Done in Hstep as (treePath & _ & Hstep).
      apply set_has_false in Hreg. rewrite Hreg in Hstep.
      rewrite Hsame in Hstep.
      destruct (map_get (name odn) (dependencies t)) as [dep|].
      2:{ injection Hstep as <-. simpl in Hlog'. by destruct (log b). }
      apply obind_Done in Hstep as (d & Hd & Hstep). apply deref_Done in Hd.
      destruct (bool_decide (ident d = ident odn)) eqn:Hid; simpl in Hstep.
      + apply bool_decide_eq_true in Hid. by exists dep, d.
      + injection Hstep as <-. simpl in Hlog'. by destruct (log b). }
  intros od odn Hod. by apply HI.
Qed.

Lemma selfCheck_root_requires_witness :
  exists d dn, map_get "a"%string [Some ("a"%string, 1)] = Some d
               /\ waitingPeerHeap !! d = Some dn /\ ident dn = "a@1"%string.
Proof.
  refine (selfCheck_root_requires 10 waitingPeerHeap 0
            (mkWork "." ["workspace:."%string] ".@workspace:." ".@workspace:."
               [Some ("a"%string, 1)] [Some ("a"%string, 1)] [] [] true [])
            eq_refl eq_refl eq_refl 1
            (mkWork "a" ["1"%string] "a@1" "a@1"
               [Some ("b"%string, 2); Some ("c"%string, 3)]
               [Some ("b"%string, 2); Some ("c"%string, 3)] [] [] true [])
            _ eq_refl _).
  - apply list_elem_of_singleton. reflexivity.
  - apply not_elem_of_nil.
Defined.

(** ** cloneTree *)

Lemma sameButFlag_refl n : sameButFlag n n.
Proof. by repeat split. Qed.

Lemma sameButFlag_trans n1 n2 n3 : sameButFlag n1 n2 -> sameButFlag n2 n3 -> sameButFlag n1 n3.
Proof.
  intros (?&?&?&?&?&?&?&?&?) (?&?&?&?&?&?&?&?&?). repeat split; congruence.
Qed.

Lemma flagsOnly_refl h : flagsOnly h h.
Proof. split; [done|]. intros a n Ha. exists n. split; [done|apply sameButFlag_refl]. Qed.

Lemma flagsOnly_trans h1 h2 h3 : flagsOnly h1 h2 -> flagsOnly h2 h3 -> flagsOnly h1 h3.
Proof.
  intros [L1 K1] [L2 K2]. split; [congruence|]. intros a n Ha.
  destruct (K1 _ _ Ha) as (n' & Ha' & Hs). destruct (K2 _ _ Ha') as (n'' & Ha'' & Hs').
  exists n''. split; [done|by eapply sameButFlag_trans].
Qed.

Lemma markNodeCoupled_flagsOnly fuel : forall node seen h seen' h',
  markNodeCoupled fuel node seen h = Returned seen' h' -> flagsOnly h h'.
Proof.
  induction fuel as [|fuel IH]; intros node seen h seen' h' Hrun; [done|].
  simpl in Hrun. destruct (set_has node seen).
  { apply ret_Done in Hrun as [_ ->]. apply flagsOnly_refl. }
  apply bind_Done in Hrun as (u & h1 & Hmod & Hrun).
  apply modify_Done in Hmod as (n & Hn & ->).
  apply bind_Done in Hrun as (n1 & h1 & Hread & Hrun).
  apply read_Done in Hread as [_ ->].
  assert (flagsOnly h (<[node := with_decoupled false n]> h)) as Hfirst.
  { split; [by rewrite length_insert|]. intros a m Ha.
    destruct (decide (a = node)) as [->|Hne].
    - rewrite list_lookup_insert_eq by by eapply lookup_lt_Some.
      assert (m = n) as -> by congruence. eexists. split; [done|]. by repeat split.
    - rewrite list_lookup_insert_ne by done. exists m.
      split; [done|apply sameButFlag_refl]. }
  eapply (foldM_inv (fun _ h_c => flagsOnly h h_c)); [exact Hfirst| |exact Hrun].
  intros dep seen_c h_c seen_c' h_c' Hs _ Hbody.
  apply bind_Done in Hbody as (d & h0 & Hread & Hbody).
  apply read_Done in Hread as [_ ->].
  destruct (negb _).
  - eapply flagsOnly_trans; [exact Hs|]. by eapply IH.
  - by apply ret_Done in Hbody as [_ ->].
Qed.

Lemma imageOf_flag t n n' : sameButFlag n n' -> imageOf t n -> imageOf t n'.
Proof.
  intros (?&?&?&?&?&?&?&?&?) (?&?&?&?&?&?&?&?). repeat split; congruence.
Qed.

Lemma copies_flagsOnly ts h h' copyOf :
  flagsOnly h h' -> copies ts h copyOf -> copies ts h' copyOf.
Proof.
  intros [Hlen Hkeep] (G1 & G2 & G3). split_and!; [| |done].
  - intros i a Hi. destruct (G1 i a Hi) as (t & n & Ht & Hn & Him & Hl).
    destruct (Hkeep _ _ Hn) as (n' & Hn' & Hs).
    exists t, n'. split_and!; [done|done|by eapply imageOf_flag|].
    intros k b Hget. apply Hl. destruct Hs as (_&_&_&_&Hd&_). by rewrite <- Hd.
  - intros a Ha. apply G2. by rewrite <- Hlen.
Qed.

Lemma namesGrow_refl h : namesGrow h h.
Proof. intros a n Ha. by exists n. Qed.

Lemma namesGrow_trans h1 h2 h3 : namesGrow h1 h2 -> namesGrow h2 h3 -> namesGrow h1 h3.
Proof.
  intros K1 K2 a n Ha.
  destruct (K1 _ _ Ha) as (n' & Ha' & Hn'). destruct (K2 _ _ Ha') as (n'' & Ha'' & Hn'').
  exists n''. split; [done|]. intros k Hk. by apply Hn'', Hn'.
Qed.

Lemma namesGrow_flagsOnly h h' : flagsOnly h h' -> namesGrow h h'.
Proof.
  intros [_ Hkeep] a n Ha. destruct (Hkeep _ _ Ha) as (n' & Hn' & Hs).
  exists n'. split; [done|]. destruct Hs as (_&_&_&_&Hd&_). by rewrite Hd.
Qed.

Lemma namesGrow_app h l : namesGrow h (h ++ l).
Proof. intros a n Ha. exists n. split; [by apply lookup_app_l_Some|done]. Qed.

Lemma namesGrow_attach (h : Heap) parent p k workNode :
  h !! parent = Some p -> namesGrow h (<[parent := attach k workNode p]> h).
Proof.
  intros Hp a n Ha. destruct (decide (a = parent)) as [->|Hne].
  - rewrite list_lookup_insert_eq by by eapply lookup_lt_Some.
    assert (n = p) as -> by congruence. eexists. split; [done|].
    intros k' Hk'. simpl. rewrite map_has_set. by destruct (decide (k = k')).
  - rewrite list_lookup_insert_ne by done. by exists n.
Qed.

Lemma seenGrows_refl seen : seenGrows seen seen.
Proof. by intros i a. Qed.

Lemma seenGrows_trans s1 s2 s3 : seenGrows s1 s2 -> seenGrows s2 s3 -> seenGrows s1 s3.
Proof. intros H1 H2 i a Hi. by apply H2, H1. Qed.

Lemma linkedTo_grows seen seen' ts t n :
  seenGrows seen seen' -> linkedTo seen ts t n -> linkedTo seen' ts t n.
Proof.
  intros Hg Hl k b Hget. destruct (Hl k b Hget) as (j & tj & Hj & Htj & Hk & Hc).
  exists j, tj. split_and!; [done|done|done|by apply Hg].
Qed.

(** A new input node gets a new copy. *)
Lemma copies_alloc ts h seen node t :
  copies ts h seen -> ts !! node = Some t -> map_get node seen = None ->
  copies ts (h ++ [newWorkNode t]) (map_set node (length h) seen)
  /\ seenGrows seen (map_set node (length h) seen).
Proof.
  intros (G1 & G2 & G3) Ht Hnew.
  assert (seenGrows seen (map_set node (length h) seen)) as Hg.
  { intros i a Hi. rewrite map_get_set. destruct (decide (node = i)) as [->|]; [|done].
    congruence. }
  assert (forall i a, map_get i seen = Some a -> a < length h) as Hlt.
  { intros i a Hi. destruct (G1 i a Hi) as (_ & n & _ & Hn & _).
    by eapply lookup_lt_Some. }
  split; [|done]. split_and!.
  - intros i a. rewrite map_get_set. destruct (decide (node = i)) as [<-|Hne].
    + intros [= <-]. exists t, (newWorkNode t). split; [done|].
      split; [rewrite lookup_app_r by done; by rewrite Nat.sub_diag|].
      split; [by repeat split|]. intros k b Hget. done.
    + intros Hi. destruct (G1 i a Hi) as (t' & n & Ht' & Hn & Him & Hl).
      exists t', n. split_and!; [done|by apply lookup_app_l_Some|done|].
      by eapply linkedTo_grows.
  - intros a Ha. rewrite length_app in Ha. simpl in Ha.
    destruct (decide (a = length h)) as [->|Hne].
    + exists node. by rewrite map_get_set, decide_True.
    + destruct (G2 a) as [i Hi]; [lia|]. exists i. by apply Hg.
  - intros i i' a. rewrite !map_get_set.
    destruct (decide (node = i)) as [<-|Hi]; destruct (decide (node = i')) as [<-|Hi'];
      try done.
    + intros [= <-] Hi2. apply Hlt in Hi2. lia.
    + intros Hi2 [= <-]. apply Hlt in Hi2. lia.
    + apply G3.
Qed.

(** The copy of a dependency is attached to the copy of its parent. *)
Lemma copies_attach ts (h : Heap) seen ip tp parent p node t workNode :
  copies ts h seen ->
  ts !! ip = Some tp -> map_get ip seen = Some parent -> h !! parent = Some p ->
  node ∈ t_dependencies tp -> ts !! node = Some t ->
  map_get node seen = Some workNode ->
  copies ts (<[parent := attach (t_name t) workNode p]> h) seen.
Proof.
  intros (G1 & G2 & G3) Htp Hip Hp Hnode Ht Hwork. split_and!; [| |done].
  - intros i a Hi. destruct (G1 i a Hi) as (t' & n & Ht' & Hn & Him & Hl).
    destruct (decide (a = parent)) as [->|Hne].
    + assert (i = ip) as -> by by eapply G3.
      assert (t' = tp) as -> by congruence. assert (n = p) as -> by congruence.
      eexists tp, _. split; [done|].
      split; [by rewrite list_lookup_insert_eq by by eapply lookup_lt_Some|].
      split.
      * destruct Him as (?&?&?&?&?&Hod&?&?). repeat split; try done.
        simpl. by rewrite Hod.
      * intros k b. simpl. rewrite map_get_set.
        destruct (decide (t_name t = k)) as [<-|]; [|apply Hl].
        intros [= <-]. by exists node, t.
    + exists t', n. split_and!; [done| |done|done].
      by rewrite list_lookup_insert_ne.
  - intros a Ha. apply G2. by rewrite length_insert in Ha.
Qed.

Section CloneTree.
Variable ts : list HoisterTree.

(** What a call of the nested [addNode] for the dependency [node] of the
    input node copied to [parentNode] leaves: the copy of the parent has a
    dependency under the name of [node], and the input nodes the call has
    seen for the first time have all their dependencies. *)
Let added (node parentNode : addr) (seen : JsMap addr addr) (h : Heap)
    (seen' : JsMap addr addr) (w' : World) : Prop :=
  inputs w' = ts
  /\ copies ts (heap w') seen'
  /\ seenGrows seen seen'
  /\ namesGrow h (heap w')
  /\ (exists t p', ts !! node = Some t /\ heap w' !! parentNode = Some p'
        /\ map_has (t_name t) (dependencies p') = true)
  /\ (forall i a, map_get i seen' = Some a -> map_get i seen = None ->
        exists t n, ts !! i = Some t /\ heap w' !! a = Some n /\ full ts t n).

Lemma full_grows h h' a n t :
  namesGrow h h' -> h !! a = Some n -> full ts t n ->
  exists n', h' !! a = Some n' /\ full ts t n'.
Proof.
  intros Hg Ha Hf. destruct (Hg _ _ Ha) as (n' & Hn' & Hk).
  exists n'. split; [done|]. intros j tj Hj Htj. by apply Hk, (Hf j tj).
Qed.

(** The loop over the dependencies of an input node. *)
Lemma addNode_loop (call : addr -> JsMap addr addr -> M World (JsMap addr addr))
    ip tp parent l seen h seen' w' :
  (forall dep s w_c s' w_c',
     call dep s w_c = Returned s' w_c' ->
     inputs w_c = ts -> copies ts (heap w_c) s -> map_get ip s = Some parent ->
     dep ∈ t_dependencies tp ->
     added dep parent s (heap w_c) s' w_c') ->
  ts !! ip = Some tp ->
  (forall x, x ∈ l -> x ∈ t_dependencies tp) ->
  copies ts h seen -> map_get ip seen = Some parent ->
  foldM l seen (fun seen dep => call dep seen) (mkWorld ts h) = Returned seen' w' ->
  inputs w' = ts /\ copies ts (heap w') seen' /\ seenGrows seen seen'
  /\ namesGrow h (heap w')
  /\ (forall j tj, j ∈ l -> ts !! j = Some tj ->
        exists n, heap w' !! parent = Some n
                  /\ map_has (t_name tj) (dependencies n) = true)
  /\ (forall i a, map_get i seen' = Some a -> map_get i seen = None ->
        exists t n, ts !! i = Some t /\ heap w' !! a = Some n /\ full ts t n).
Proof using Type.
  intros Hcall Htp Hl Hcopies Hip Hfold.
  pose (J := fun (done : list addr) (s : JsMap addr addr) (w_c : World) =>
    inputs w_c = ts /\ copies ts (heap w_c) s /\ seenGrows seen s
    /\ namesGrow h (heap w_c)
    /\ (forall j tj, j ∈ done -> ts !! j = Some tj ->
          exists n, heap w_c !! parent = Some n
                    /\ map_has (t_name tj) (dependencies n) = true)
    /\ (forall i a, map_get i s = Some a -> map_get i seen = None ->
          exists t n, ts !! i = Some t /\ heap w_c !! a = Some n /\ full ts t n)).
  change (J ([] ++ l) seen' w').
  eapply (foldM_ind J); [| |exact Hfold].
  { unfold J. simpl. split_and!; [done|done|apply seenGrows_refl|apply namesGrow_refl| |].
    - intros j tj Hj. by apply elem_of_nil in Hj.
    - intros i a Hi Hn. congruence. }
  intros done dep s w_c s' w_c' (Hin & Hc & Hsg & Hng & Hdone & Hnew) Hdep Hstep.
  apply Hcall in Hstep as (Hin' & Hc' & Hsg' & Hng' & (t & p' & Ht & Hp' & Hhas) & Hnew');
    [|done|done|by apply Hsg|by apply Hl].
  unfold J. split_and!; [done|done|by eapply seenGrows_trans|by eapply namesGrow_trans| |].
  - intros j tj Hj Htj. apply elem_of_app in Hj as [Hj|Hj].
    + destruct (Hdone j tj Hj Htj) as (n & Hn & Hk).
      destruct (Hng' _ _ Hn) as (n' & Hn' & Hk'). exists n'. split; [done|by apply Hk'].
    + apply list_elem_of_singleton in Hj as ->. assert (tj = t) as -> by congruence.
      by exists p'.
  - intros i a Hi Hnone. destruct (map_get i s) as [a0|] eqn:Hi0.
    + assert (a0 = a) as -> by (apply Hsg' in Hi0; congruence).
      destruct (Hnew i a Hi0 Hnone) as (t' & n & Ht' & Hn & Hf).
      destruct (full_grows _ _ _ _ _ Hng' Hn Hf) as (n' & Hn' & Hf').
      by exists t', n'.
    + by apply Hnew'.
Qed.

Lemma addNode_mirrors fuel : forall node parentNode seen w seen' w' ip tp,
  addNode fuel node parentNode seen w = Returned seen' w' ->
  inputs w = ts -> copies ts (heap w) seen ->
  ts !! ip = Some tp -> map_get ip seen = Some parentNode ->
  node ∈ t_dependencies tp ->
  added node parentNode seen (heap w) seen' w'.
Proof using Type.
  induction fuel as [|fuel IH];
    intros node parentNode seen [ts0 h] seen' w' ip tp Hrun Hts Hcopies Htp Hip Hnode;
    [done|].
  simpl in Hts. subst ts0. simpl in Hrun, Hcopies.
  apply bind_Done in Hrun as (t & w0 & Hread & Hrun).
  apply readInput_Done in Hread as [Ht ->]. simpl in Ht.
  apply bind_Done in Hrun as ([workNode seen1] & [ts1 h1] & Hwork & Hrun).
  assert (ts1 = ts /\ copies ts h1 seen1 /\ seenGrows seen seen1 /\ namesGrow h h1
          /\ map_get node seen1 = Some workNode
          /\ (forall i, i <> node -> map_get i seen1 = map_get i seen))
    as (-> & Hc1 & Hsg1 & Hng1 & Hget1 & Hother1).
  { destruct (map_get node seen) as [wn|] eqn:Hget.
    - apply ret_Done in Hwork as [[= -> ->] [= -> ->]].
      split_and!; [done|done|apply seenGrows_refl|apply namesGrow_refl|done|done].
    - apply bind_Done in Hwork as (wn & w0 & Halloc & Hwork).
      apply onHeap_Done in Halloc as (h0 & Halloc & ->). simpl in *.
      apply alloc_Done in Halloc as [-> ->].
      apply ret_Done in Hwork as [[= -> ->] [= -> ->]].
      destruct (copies_alloc ts h seen node t Hcopies Ht Hget) as [Hc Hsg].
      split_and!; [done|done|done|apply namesGrow_app| |].
      + by rewrite map_get_set, decide_True.
      + intros i Hi. by rewrite map_get_set, decide_False. }
  simpl in Hrun.
  apply bind_Done in Hrun as (u & w2 & Hattach & Hrun).
  apply onHeap_Done in Hattach as (h2 & Hattach & ->). simpl in *.
  apply modify_Done in Hattach as (p & Hp & ->).
  set (h2 := <[parentNode := attach (t_name t) workNode p]> h1) in *.
  assert (copies ts h2 seen1) as Hc2.
  { eapply copies_attach; [exact Hc1|exact Htp|by apply Hsg1|exact Hp|exact Hnode
                           |exact Ht|exact Hget1]. }
  assert (namesGrow h1 h2) as Hng2 by by apply namesGrow_attach.
  assert (exists p', h2 !! parentNode = Some p'
            /\ map_has (t_name t) (dependencies p') = true) as (p2 & Hp2 & Hhas2).
  { eexists. unfold h2. rewrite list_lookup_insert_eq by by eapply lookup_lt_Some.
    split; [done|]. simpl. by rewrite map_has_set, decide_True. }
  unfold map_has in Hrun.
  destruct (map_get node seen) as [wn|] eqn:Hseen; simpl in Hrun.
  - (* seen before: the subgraph becomes coupled *)
    apply bind_Done in Hrun as (sc & w3 & Hmark & Hrun).
    apply onHeap_Done in Hmark as (h3 & Hmark & ->). simpl in *.
    apply ret_Done in Hrun as [-> ->]. simpl.
    apply markNodeCoupled_flagsOnly in Hmark.
    pose proof (namesGrow_flagsOnly _ _ Hmark) as Hng3.
    unfold added. simpl. split_and!.
    + done.
    + by eapply copies_flagsOnly.
    + done.
    + eapply namesGrow_trans; [exact Hng1|]. by eapply namesGrow_trans.
    + destruct (Hng3 _ _ Hp2) as (p3 & Hp3 & Hk3). exists t, p3.
      split_and!; [done|done|by apply Hk3].
    + intros i a Hi Hn. destruct (decide (i = node)) as [->|Hne]; [congruence|].
      rewrite Hother1 in Hi by done. congruence.
  - (* new: its dependencies are added *)
    eapply (addNode_loop (fun dep s => addNode fuel dep workNode s) node t workNode)
      in Hrun as (Hin' & Hc' & Hsg' & Hng' & Hdone & Hnew);
      [| |exact Ht|done|exact Hc2|exact Hget1].
    2:{ intros dep s w_c s' w_c' Hcall Hin_c Hc_c Hget_c Hdep.
        eapply IH; [exact Hcall|done|done|exact Ht|done|done]. }
    unfold added. split_and!.
    + done.
    + done.
    + by eapply seenGrows_trans.
    + eapply namesGrow_trans; [exact Hng1|]. by eapply namesGrow_trans.
    + destruct (Hng' _ _ Hp2) as (p3 & Hp3 & Hk3). exists t, p3.
      split_and!; [done|done|by apply Hk3].
    + intros i a Hi Hn. destruct (decide (i = node)) as [->|Hne].
      * assert (a = workNode) as -> by (apply Hsg' in Hget1; congruence).
        destruct Hc' as (G1 & _). destruct (G1 _ _ Hi) as (t' & n & Ht' & Hn' & _).
        assert (t' = t) as -> by congruence.
        exists t, n. split_and!; [done|done|].
        intros j tj Hj Htj. destruct (Hdone j tj Hj Htj) as (n0 & Hn0 & Hk).
        congruence.
      * apply Hnew; [done|]. rewrite Hother1 by done. done.
Qed.

End CloneTree.

(** X15: the work tree is the input graph, with the dependencies of a
    node kept by name.  After [cloneTree] on an empty heap there is a map
    [copyOf] from the input nodes reached to the work nodes, one to one and
    onto, that sends the root to the node returned and under which every
    work node is a new copy of its input node (name, ident, locator,
    reference, peer names; nothing hoisted, no reasons, the original
    dependencies being the dependencies); every dependency of a work node
    is the copy, under its name, of a dependency of the input node, and
    the name of every dependency of the input node is there. *)
Theorem cloneTree_mirrors fuel tree ts treeCopy w' :
  cloneTree fuel tree (mkWorld ts []) = Returned treeCopy w' ->
  exists copyOf : JsMap addr addr,
    map_get tree copyOf = Some treeCopy
    /\ copies ts (heap w') copyOf
    /\ forall i a t n, map_get i copyOf = Some a -> ts !! i = Some t ->
         heap w' !! a = Some n -> full ts t n.
Proof.
  intros Hrun. unfold cloneTree in Hrun.
  apply bind_Done in Hrun as (t & w0 & Hread & Hrun).
  apply readInput_Done in Hread as [Ht ->]. simpl in Ht.
  apply bind_Done in Hrun as (tc & w1 & Halloc & Hrun).
  apply onHeap_Done in Halloc as (h1 & Halloc & ->). simpl in *.
  apply alloc_Done in Halloc as [-> ->].
  apply bind_Done in Hrun as (seen & w2 & Hloop & Hrun).
  apply ret_Done in Hrun as [-> ->]. simpl in Hloop.
  assert (copies ts [] []) as Hc0.
  { split_and!; [done| |done]. simpl. lia. }
  destruct (copies_alloc ts [] [] tree t Hc0 Ht eq_refl) as [Hc1 _]. simpl in Hc1.
  eapply (addNode_loop ts (fun dep s => addNode fuel dep 0 s) tree t 0)
    in Hloop as (Hin' & Hc' & Hsg' & Hng' & Hdone & Hnew);
    [| |exact Ht|done|exact Hc1|simpl; by rewrite decide_True].
  2:{ intros dep s w_c s' w_c' Hcall Hin_c Hc_c Hget_c Hdep.
      eapply (addNode_mirrors ts); [exact Hcall|done|done|exact Ht|done|done]. }
  assert (map_get tree seen = Some 0) as Hroot.
  { apply Hsg'. simpl. by rewrite decide_True. }
  exists seen. split; [done|]. split; [done|].
  intros i a t' n Hi Ht' Hn. destruct (decide (i = tree)) as [->|Hne].
  - assert (a = 0) as -> by congruence. assert (t' = t) as -> by congruence.
    intros j tj Hj Htj. destruct (Hdone j tj Hj Htj) as (n0 & Hn0 & Hk). congruence.
  - destruct (Hnew i a Hi) as (t0 & n0 & Ht0 & Hn0 & Hf).
    { simpl. by rewrite decide_False. }
    rewrite Ht' in Ht0. injection Ht0 as <-. rewrite Hn in Hn0. by injection Hn0 as <-.
Qed.

Lemma cloneTree_mirrors_witness :
  exists w' copyOf,
    cloneTree 20 0 (mkWorld waitingPeer []) = Returned 0 w'
    /\ map_get 0 copyOf = Some 0
    /\ copies waitingPeer (heap w') copyOf.
Proof.
  eexists.
  destruct (cloneTree_mirrors 20 0 waitingPeer 0 _ eq_refl) as (copyOf & Hroot & Hc & _).
  exists copyOf. split; [reflexivity|]. split; [exact Hroot|exact Hc].
Defined.

(** ** shrinkTree *)

Lemma rkeeps_refl rs : rkeeps rs rs.
Proof. split; [done|]. intros a n Ha. by exists n. Qed.

Lemma rkeeps_trans rs1 rs2 rs3 : rkeeps rs1 rs2 -> rkeeps rs2 rs3 -> rkeeps rs1 rs3.
Proof.
  intros [L1 K1] [L2 K2]. split; [lia|]. intros a n Ha.
  destruct (K1 _ _ Ha) as (n' & Ha' & (?&?&?)).
  destruct (K2 _ _ Ha') as (n'' & Ha'' & (?&?&?)).
  exists n''. split; [done|]. repeat split; congruence.
Qed.

Lemma projects_same nx n n' : sameResult n n' -> projects nx n -> projects nx n'.
Proof.
  intros (H1 & H2 & H3) (P1 & P2 & P3). split_and!; [congruence|congruence|].
  intros ref. rewrite H3. apply P3.
Qed.

Lemma addResultDependency_projects h pn c (rs : Results) u rs' :
  addResultDependency pn c rs = Returned u rs' ->
  rkeeps rs rs' /\ (projected h rs -> projected h rs').
Proof.
  intros Hrun. apply addResultDependency_Done in Hrun as (p & Hp & ->).
  assert (pn < length rs) as Hlt by by eapply lookup_lt_Some.
  split.
  - split; [by rewrite length_insert|]. intros a n Ha.
    destruct (decide (a = pn)) as [->|Hne].
    + rewrite list_lookup_insert_eq by done. assert (n = p) as -> by congruence.
      eexists. split; [done|]. by repeat split.
    + rewrite list_lookup_insert_ne by done. by exists n.
  - intros Hproj a n Ha. destruct (decide (a = pn)) as [->|Hne].
    + rewrite list_lookup_insert_eq in Ha by done. injection Ha as <-.
      destruct (Hproj _ _ Hp) as (x & nx & Hx & Hpx).
      exists x, nx. split; [done|]. eapply projects_same; [|exact Hpx]. by repeat split.
    + rewrite list_lookup_insert_ne in Ha by done. by eapply Hproj.
Qed.

Lemma addResultNode_projects fuel h : forall node pw pn seen rs seen' rs',
  addResultNode fuel h node pw pn seen rs = Returned seen' rs' ->
  rkeeps rs rs' /\ (projected h rs -> projected h rs').
Proof.
  induction fuel as [|fuel IH]; intros node pw pn seen rs seen' rs' Hrun; [done|].
  simpl in Hrun.
  apply bind_Done in Hrun as (n & rs0 & Hn & Hrun).
  apply lift_Done in Hn as [Hn ->]. apply deref_Done in Hn.
  apply bind_Done in Hrun as (resultNode & rs1 & Hres & Hrun).
  assert (rkeeps rs rs1 /\ (projected h rs -> projected h rs1)) as [Hk1 Hp1].
  { destruct (bool_decide (pw = node)).
    - apply ret_Done in Hres as [_ ->]. split; [apply rkeeps_refl|done].
    - apply allocResult_Done in Hres as [-> ->]. split.
      + split; [rewrite length_app; lia|]. intros a m Ha. exists m.
        split; [by apply lookup_app_l_Some|done].
      + intros Hproj a m Ha. apply lookup_app_Some in Ha as [Ha|[_ Ha]].
        * by eapply Hproj.
        * apply list_lookup_singleton_Some in Ha as [_ <-].
          exists node, n. split; [done|]. by repeat split. }
  apply bind_Done in Hrun as (u & rs2 & Hadd & Hrun).
  apply (addResultDependency_projects h) in Hadd as [Hk2 Hp2].
  destruct (negb (set_has node seen)).
  2:{ apply ret_Done in Hrun as [_ ->]. split; [by eapply rkeeps_trans|auto]. }
  apply bind_Done in Hrun as (seen1 & rs3 & Hloop & Hrun).
  apply ret_Done in Hrun as [_ ->].
  assert (rkeeps rs2 rs3 /\ (projected h rs2 -> projected h rs3)) as [Hk3 Hp3].
  { eapply (foldM_inv (fun _ rs_c => rkeeps rs2 rs_c
                                    /\ (projected h rs2 -> projected h rs_c)));
      [split; [apply rkeeps_refl|done]| |exact Hloop].
    intros dep seen_c rs_c seen_c' rs_c' [Hk Hp] _ Hbody.
    apply bind_Done in Hbody as (d & rs_d & Hd & Hbody).
    apply lift_Done in Hd as [_ ->].
    destruct (negb _).
    - apply IH in Hbody as [Hk' Hp']. split; [by eapply rkeeps_trans|auto].
    - by apply ret_Done in Hbody as [_ ->]. }
  split; [|auto]. eapply rkeeps_trans; [exact Hk1|]. by eapply rkeeps_trans.
Qed.

(** X16: the output is made of the nodes of the hoisted tree.  The first
    node of the store [shrinkTree] returns has the name of the root of the
    work tree, the ident name read from its locator, and its references;
    and every node of the store has the name, the ident name and the
    references of some node of the work tree. *)
Theorem shrinkTree_projects fuel h tree rs :
  shrinkTree fuel h tree = Done rs ->
  (exists t root, h !! tree = Some t /\ rs !! 0 = Some root /\ projects t root)
  /\ projected h rs.
Proof.
  intros Hrun. unfold shrinkTree in Hrun.
  apply obind_Done in Hrun as (t & Ht & Hrun). apply deref_Done in Ht.
  match type of Hrun with
  | match ?m with _ => _ end = _ => destruct m as [seen' rs'| |] eqn:Hloop; [|done|done]
  end.
  injection Hrun as <-.
  set (treeCopy := mkResult (name t) (getIdentName (locator t))
                     (set_of_list (references t)) []) in *.
  assert (projects t treeCopy) as Hroot.
  { split_and!; [done|done|]. intros ref. apply elem_of_set_of_list. }
  assert (projected h [treeCopy]) as Hproj0.
  { intros a n Ha. apply list_lookup_singleton_Some in Ha as [_ <-]. by exists tree, t. }
  assert (rkeeps [treeCopy] rs' /\ (projected h [treeCopy] -> projected h rs'))
    as [[_ Hk] Hp].
  { eapply (foldM_inv (fun _ rs_c => rkeeps [treeCopy] rs_c
                                    /\ (projected h [treeCopy] -> projected h rs_c)));
      [split; [apply rkeeps_refl|done]| |exact Hloop].
    intros dep seen_c rs_c seen_c' rs_c' [Hk Hp] _ Hbody.
    apply addResultNode_projects in Hbody as [Hk' Hp'].
    split; [by eapply rkeeps_trans|auto]. }
  split; [|auto].
  destruct (Hk 0 treeCopy eq_refl) as (root & Hr & Hsame).
  exists t, root. split_and!; [done|done|]. by eapply projects_same.
Qed.

Lemma shrinkTree_projects_witness :
  exists rs, shrinkTree 10 waitingPeerHeap 0 = Done rs /\ projected waitingPeerHeap rs.
Proof.
  eexists. split; [reflexivity|].
  exact (proj2 (shrinkTree_projects 10 waitingPeerHeap 0 _ eq_refl)).
Defined.

(** X17: the root of the output has one child for each dependency name
    of the root of the hoisted tree.  For a well-formed work tree, a name
    is the name of a child of the first node of the store [shrinkTree]
    returns if and only if the root of the work tree has a dependency
    under it (peer dependencies included). *)
Theorem shrinkTree_root_children fuel h tree rs t :
  shrinkTree fuel h tree = Done rs ->
  heap_ok h = true -> h !! tree = Some t ->
  exists root, rs !! 0 = Some root
    /\ forall k, map_has k (dependencies t) = true
                 <-> exists c nc, c ∈ r_dependencies root /\ rs !! c = Some nc
                                  /\ r_name nc = k.
Proof.
  intros Hrun Hok Ht. unfold shrinkTree in Hrun.
  apply obind_Done in Hrun as (t' & Ht' & Hrun). apply deref_Done in Ht'.
  assert (t' = t) as -> by congruence.
  match type of Hrun with
  | match ?m with _ => _ end = _ => destruct m as [seen' rs'| |] eqn:Hloop; [|done|done]
  end.
  injection Hrun as <-.
  set (treeCopy := mkResult (name t) (getIdentName (locator t))
                     (set_of_list (references t)) []) in *.
  pose (I := fun (done : list addr) (seen : JsSet addr) (rs_c : Results) =>
    seen = [tree]
    /\ exists p, rs_c !! 0 = Some p /\ r_name p = name t
         /\ (forall x, x ∈ r_dependencies p -> x < length rs_c)
         /\ (forall c, c ∈ r_dependencies p ->
               exists d nd, d ∈ done /\ h !! d = Some nd
                            /\ r_name <$> rs_c !! c = Some (name nd))
         /\ (forall d nd, d ∈ done -> h !! d = Some nd ->
               exists c, c ∈ r_dependencies p
                         /\ r_name <$> rs_c !! c = Some (name nd))).
  assert (I ([] ++ map_values (dependencies t)) seen' rs')
    as (_ & root & Hroot & _ & _ & Hsound & Hcomplete).
  { eapply (foldM_ind I); [| |exact Hloop].
    - split; [done|]. exists treeCopy. split_and!; [done|done| | |].
      + intros x Hx. by apply elem_of_nil in Hx.
      + intros c Hc. by apply elem_of_nil in Hc.
      + intros d nd Hd. by apply elem_of_nil in Hd.
    - intros done dep seen_c rs_c seen_c' rs_c'
        (-> & p & Hp & Hname & Hvalid & Hs & Hc) _ Hbody.
      eapply addResultNode_spec in Hbody
        as [-> (nd & c & p0 & p' & Hnd & [Hlen Hnames] & Hothers & Hp0 & Hp' & Hdeps
                   & Hclt & Hcname & _)];
        [|done|by apply list_elem_of_singleton|exact Hp|exact Ht|done|done].
      assert (p0 = p) as -> by congruence.
      split; [done|]. exists p'. split; [done|].
      destruct (Hnames _ _ Hp) as (p2 & Hp2 & Hn2).
      assert (p2 = p') as -> by congruence.
      split; [congruence|].
      assert (forall x, x ∈ r_dependencies p ->
                r_name <$> rs_c' !! x = r_name <$> rs_c !! x) as Hstable.
      { intros x Hx. destruct (lookup_lt_is_Some_2 rs_c x (Hvalid x Hx)) as [nx Hnx].
        destruct (Hnames _ _ Hnx) as (nx' & Hnx' & Hnn). rewrite Hnx, Hnx'. simpl.
        by rewrite Hnn. }
      split_and!.
      + intros x. rewrite Hdeps, elem_of_set_add. intros [->|Hx]; [done|].
        specialize (Hvalid x Hx). lia.
      + intros c'. rewrite Hdeps, elem_of_set_add. intros [->|Hc'].
        * exists dep, nd. split_and!; [|done|done].
          apply elem_of_app. right. by apply list_elem_of_singleton.
        * destruct (Hs c' Hc') as (d & nd' & Hd & Hnd' & Hcn).
          exists d, nd'. split_and!; [apply elem_of_app; by left|done|].
          by rewrite Hstable.
      + intros d nd' Hd Hnd'. apply elem_of_app in Hd as [Hd|Hd].
        * destruct (Hc d nd' Hd Hnd') as (c' & Hc' & Hcn).
          exists c'. split; [rewrite Hdeps; apply elem_of_set_add; by right|].
          by rewrite Hstable.
        * apply list_elem_of_singleton in Hd as ->.
          assert (nd' = nd) as -> by congruence.
          exists c. split; [rewrite Hdeps; apply elem_of_set_add; by left|done]. }
  simpl in Hsound, Hcomplete.
  exists root. split; [done|]. intros k. split.
  - intros Hk. unfold map_has in Hk.
    destruct (map_get k (dependencies t)) as [d|] eqn:Hget; [|done].
    apply map_get_entries in Hget.
    destruct (heap_ok_entry _ _ _ _ _ Hok Ht Hget) as (nd & Hnd & Hnk).
    destruct (Hcomplete d nd) as (c & Hc & Hcn); [|done|].
    { apply map_values_elem. by exists k. }
    destruct (rs' !! c) as [nc|] eqn:Hnc; [|done].
    exists c, nc. split_and!; [done|done|]. simpl in Hcn. congruence.
  - intros (c & nc & Hc & Hnc & Hk).
    destruct (Hsound c Hc) as (d & nd & Hd & Hnd & Hcn).
    rewrite Hnc in Hcn. simpl in Hcn.
    apply map_values_elem in Hd as [k' Hin].
    destruct (heap_ok_entry _ _ _ _ _ Hok Ht Hin) as (nd' & Hnd' & Hnk).
    assert (nd' = nd) as -> by congruence.
    apply map_has_true. apply list_elem_of_fmap. exists (k', d).
    split; [|done]. simpl. congruence.
Qed.

Lemma shrinkTree_root_children_witness :
  exists rs root, shrinkTree 10 hoistedPeerHeap 0 = Done rs /\ rs !! 0 = Some root
    /\ exists c nc, c ∈ r_dependencies root /\ rs !! c = Some nc
                    /\ r_name nc = "c"%string.
Proof.
  eexists.
  destruct (shrinkTree_root_children 10 hoistedPeerHeap 0 _ _ eq_refl eq_refl eq_refl)
    as (root & Hroot & Hnames).
  exists root. split; [reflexivity|]. split; [exact Hroot|].
  apply Hnames. reflexivity.
Defined.

(** ** hoist, from the input to the output *)

(** X18: hoisting invents no package.  In the store that [hoist]
    returns for an input graph, the first node has the name of the input
    root, and every node has the name of some input node; the ident name
    of the output node is that of the input node whenever the latter is
    not empty and has no [@] after its first character. *)
Theorem hoist_output_from_input fuel toNumber env tree opts ts ret w' :
  hoist fuel toNumber env tree opts (mkWorld ts []) = Returned ret w' ->
  (exists t root, ts !! tree = Some t /\ result ret !! 0 = Some root
     /\ r_name root = t_name t
     /\ (plainName (t_identName t) -> r_identName root = t_identName t))
  /\ forall a n, result ret !! a = Some n ->
       exists i t, ts !! i = Some t /\ r_name n = t_name t
         /\ (plainName (t_identName t) -> r_identName n = t_identName t).
Proof.
  intros Hrun.
  apply hoist_Returned in Hrun
    as (treeCopy & w1 & Hclone & (n0 & path' & Hn0 & Hto) & Hshrink).
  pose proof Hclone as Hmirror.
  apply cloneTree_mirrors in Hmirror as (copyOf & Hroot & (G1 & G2 & _) & _).
  apply cloneTree_spec in Hclone as (Hok1 & _ & _); [|done].
  apply (proj1 (hoistTo_spec fuel)) in Hto as [Hsteps _]; [|done].
  apply rtc_stepTo_ext in Hsteps as [_ Hkeep Horigin].
  apply shrinkTree_projects in Hshrink as [(t' & root & Ht' & Hr & Hpr) Hproj].
  assert (forall t n, locator n = makeLocator (t_identName t) (t_reference t) ->
            plainName (t_identName t) -> getIdentName (locator n) = t_identName t)
    as Hident.
  { intros t n -> [Hne Hat]. unfold getIdentName.
    destruct (locator_parts (t_identName t) (t_reference t) Hne Hat) as (Hidx & Hnm & _).
    by rewrite Hidx. }
  split.
  - destruct (G1 _ _ Hroot) as (t & n & Ht & Hn & Him & _).
    assert (n = n0) as -> by congruence.
    destruct (Hkeep _ _ Hn0) as (n1 & Hn1 & Hnm & _ & Hloc & _).
    assert (t' = n1) as -> by congruence.
    destruct Him as (Hname & _ & Hlocator & _). destruct Hpr as (P1 & P2 & _).
    exists t, root. split_and!; [done|done|congruence|].
    intros Hplain. rewrite P2. apply Hident; [congruence|done].
  - intros a n Ha. destruct (Hproj _ _ Ha) as (x & nx & Hx & P1 & P2 & _).
    destruct (Horigin _ _ Hx) as (y & ny & Hy & Hnm & _ & Hloc).
    destruct (G2 y) as [i Hi]; [by eapply lookup_lt_Some|].
    destruct (G1 _ _ Hi) as (t & ny' & Ht & Hny' & (Hname & _ & Hlocator & _) & _).
    assert (ny' = ny) as -> by congruence.
    exists i, t. split_and!; [done|congruence|].
    intros Hplain. rewrite P2. apply Hident; [congruence|done].
Qed.

Lemma hoist_output_from_input_witness :
  exists ret w',
    hoist 20 Scenarios.noNumber None 0 Scenarios.noOptions (mkWorld waitingPeer [])
    = Returned ret w'
    /\ forall a n, result ret !! a = Some n ->
         exists i t, waitingPeer !! i = Some t /\ r_name n = t_name t
           /\ (plainName (t_identName t) -> r_identName n = t_identName t).
Proof.
  eexists _, _. split; [vm_compute; reflexivity|].
  eapply (hoist_output_from_input 20 Scenarios.noNumber None 0 Scenarios.noOptions
            waitingPeer).
  vm_compute. reflexivity.
Defined.

(** ** getSortedRegularDependencies *)

(** X19: [getSortedRegularDependencies] returns the regular dependencies,
    each once.  For a node whose dependencies are nodes of the heap stored
    under their names, the call returns (it does not throw), and the list
    it returns has no node twice and holds exactly the dependencies of the
    node that are not peer dependencies. *)
Theorem getSortedRegularDependencies_exact fuel h N n :
  h !! N = Some n -> deps_named h n = true ->
  length (dependencies n) < fuel ->
  exists sorted,
    getSortedRegularDependencies fuel h N = Done sorted
    /\ NoDup sorted
    /\ forall D, D ∈ sorted <-> regularDep h n D.
Proof.
  intros HN Hnamed Hfuel.
  destruct (getSortedRegularDependencies_total fuel h N n HN Hnamed Hfuel)
    as [sorted Hrun].
  exists sorted. split; [done|].
  destruct (getSortedRegularDependencies_spec fuel h N n sorted HN Hnamed Hrun)
    as (Hnd & Hmem & _).
  done.
Qed.

Lemma getSortedRegularDependencies_exact_witness :
  exists sorted,
    getSortedRegularDependencies 5 waitingPeerHeap 1 = Done sorted
    /\ NoDup sorted
    /\ forall D, D ∈ sorted
         <-> regularDep waitingPeerHeap
               (mkWork "a" ["1"%string] "a@1" "a@1"
                  [Some ("b"%string, 2); Some ("c"%string, 3)]
                  [Some ("b"%string, 2); Some ("c"%string, 3)] [] [] true []) D.
Proof.
  apply (getSortedRegularDependencies_exact 5 waitingPeerHeap 1); [reflexivity..|].
  simpl. lia.
Defined.

(** ** The nodes that are not hoisted *)

Lemma dependantsOf_set dt k l k' :
  dependantsOf (map_set k l dt) k' = if decide (k = k') then l else dependantsOf dt k'.
Proof. unfold dependantsOf. rewrite map_get_set. by destruct (decide (k = k')). Qed.

Section Classify.
Variables (rootNodePath : JsSet Locator) (hoistedDependencies_ : JsMap PackageName addr).
Variables (hoistIdents : JsMap PackageName (option Ident)).
Variables (hoistIdentMap : JsMap PackageName (list Ident)).
Variable options : InternalHoistOptions.

(** Who waits for whom is written down. *)
Lemma classifyDependencies_waits fuel h nodePath parentNode infos :
  classifyDependencies rootNodePath hoistedDependencies_ hoistIdents hoistIdentMap
    options fuel h nodePath parentNode = Done infos ->
  exists sorted,
    getSortedRegularDependencies fuel h parentNode = Done sorted
    /\ (forall sub info, map_get sub infos.1 = Some info -> sub ∈ sorted)
    /\ (forall sub ds d, map_get sub infos.1 = Some (DEPENDS ds) -> d ∈ ds ->
          waitsFor h infos.2 d sub).
Proof using Type.
  unfold classifyDependencies. intros Hrun.
  apply obind_Done in Hrun as (sorted & Hsorted & Hrun).
  exists sorted. split; [done|].
  pose (I := fun (st : HoistInfos * DependantTree) =>
    (forall sub info, map_get sub st.1 = Some info -> sub ∈ sorted)
    /\ (forall sub ds d, map_get sub st.1 = Some (DEPENDS ds) -> d ∈ ds ->
          waitsFor h st.2 d sub)).
  change (I infos). eapply (foldO_inv I); [| |exact Hrun].
  { split; intros; done. }
  intros x st st' [Hkeys Hwait] Hx Hstep.
  apply obind_Done in Hstep as (info & _ & Hstep).
  assert (forall dt', (forall k i, i ∈ dependantsOf st.2 k -> i ∈ dependantsOf dt' k) ->
            forall sub ds d, map_get sub st.1 = Some (DEPENDS ds) -> d ∈ ds ->
              waitsFor h dt' d sub) as Hmono.
  { intros dt' Hsub sub ds d Hget Hd.
    destruct (Hwait sub ds d Hget Hd) as (nd & nsub & Hnd & Hnsub & Hin).
    exists nd, nsub. split_and!; [done|done|by apply Hsub]. }
  assert (forall sub i, map_get sub (map_set x info st.1) = Some i -> sub ∈ sorted)
    as Hkeys'.
  { intros sub i. rewrite map_get_set. destruct (decide (x = sub)) as [<-|]; [done|].
    apply Hkeys. }
  destruct info as [|reason|ds0].
  - injection Hstep as <-. split; [done|]. simpl.
    intros sub ds d. rewrite map_get_set. destruct (decide (x = sub)); [done|].
    apply Hwait.
  - injection Hstep as <-. split; [done|]. simpl.
    intros sub ds d. rewrite map_get_set. destruct (decide (x = sub)); [done|].
    apply Hwait.
  - apply obind_Done in Hstep as (dt' & Hdt' & Hstep). injection Hstep as <-.
    split; [done|]. simpl.
    pose (J := fun (done : list addr) (dt : DependantTree) =>
      (forall k i, i ∈ dependantsOf st.2 k -> i ∈ dependantsOf dt k)
      /\ forall d, d ∈ done -> waitsFor h dt d x).
    assert (J ([] ++ ds0) dt') as [Hsub Hnew].
    { eapply (foldO_ind J); [| |exact Hdt'].
      - split; [done|]. intros d Hd. by apply elem_of_nil in Hd.
      - intros done d b b' [Hb1 Hb2] _ Hbody.
        apply obind_Done in Hbody as (nd & Hnd & Hbody). apply deref_Done in Hnd.
        apply obind_Done in Hbody as (sd & Hsd & Hbody). apply deref_Done in Hsd.
        injection Hbody as <-.
        assert (forall k i, i ∈ dependantsOf b k ->
                  i ∈ dependantsOf (map_set (name nd)
                         (set_add (name sd) (default [] (map_get (name nd) b))) b) k)
          as Hstepmono.
        { intros k i Hi. rewrite dependantsOf_set.
          destruct (decide (name nd = k)) as [<-|]; [|done].
          apply elem_of_set_add. by right. }
        split; [intros k i Hi; by apply Hstepmono, Hb1|].
        intros d' Hd'. apply elem_of_app in Hd' as [Hd'|Hd'].
        + destruct (Hb2 d' Hd') as (nd' & nsub & Hnd' & Hnsub & Hin).
          exists nd', nsub. split_and!; [done|done|by apply Hstepmono].
        + apply list_elem_of_singleton in Hd' as ->. exists nd, sd.
          split_and!; [done|done|]. rewrite dependantsOf_set, decide_True by done.
          apply elem_of_set_add. by left. }
    intros sub ds d. rewrite map_get_set. destruct (decide (x = sub)) as [<-|].
    + intros [= <-] Hd. by apply Hnew.
    + by apply Hmono.
Qed.

End Classify.

Section Unhoistable.
Variables (h : Heap) (p : HoisterWorkTree) (dt : DependantTree).

Lemma dependantsIn_mono un un' x :
  (forall y, y ∈ un -> y ∈ un') -> dependantsIn h p dt un x -> dependantsIn h p dt un' x.
Proof using Type. intros Hsub Hc nx k y Hx Hk Hget. by eapply Hsub, Hc. Qed.

(** A node is marked with the dependencies that wait for it. *)
Lemma addUnhoistableNode_closed fuel info : forall node st st',
  addUnhoistableNode fuel h p dt node info st = Done st' ->
  (forall x, x ∈ st.1 -> x ∈ st'.1)
  /\ node ∈ st'.1
  /\ forall x, x ∈ st'.1 -> x ∉ st.1 -> dependantsIn h p dt st'.1 x.
Proof using Type.
  induction fuel as [|fuel IH]; intros node st st' Hrun; [done|].
  simpl in Hrun. destruct (set_has node st.1) eqn:Hhas; simpl in Hrun.
  { injection Hrun as <-. apply set_has_true in Hhas. done. }
  apply obind_Done in Hrun as (nd & Hnd & Hrun). apply deref_Done in Hnd.
  pose (J := fun (done : list PackageName) (s : JsSet addr * HoistInfos) =>
    (forall x, x ∈ set_add node st.1 -> x ∈ s.1)
    /\ (forall x, x ∈ s.1 -> x ∉ set_add node st.1 -> dependantsIn h p dt s.1 x)
    /\ (forall k y, k ∈ done -> map_get k (dependencies p) = Some y -> y ∈ s.1)).
  assert (J ([] ++ default [] (map_get (name nd) dt)) st') as (Hsub & Hclosed & Hdone).
  { eapply (foldO_ind J); [| |exact Hrun].
    - split_and!; [done| |].
      + intros x Hx Hnx. done.
      + intros k y Hk. by apply elem_of_nil in Hk.
    - intros done k s s' (Hs1 & Hs2 & Hs3) _ Hbody.
      destruct (map_get k (dependencies p)) as [dependant|] eqn:Hget; [|done].
      apply IH in Hbody as (Hsub' & Hin' & Hnew').
      split_and!.
      + intros x Hx. by apply Hsub', Hs1.
      + intros x Hx Hnx. destruct (decide (x ∈ s.1)) as [Hold|Hfresh].
        * eapply dependantsIn_mono; [exact Hsub'|by apply Hs2].
        * by apply Hnew'.
      + intros k' y Hk' Hget'. apply elem_of_app in Hk' as [Hk'|Hk'].
        * by eapply Hsub', Hs3.
        * apply list_elem_of_singleton in Hk' as ->. congruence. }
  simpl in *. split_and!.
  - intros x Hx. apply Hsub, elem_of_set_add. by right.
  - apply Hsub, elem_of_set_add. by left.
  - intros x Hx Hnx. destruct (decide (x = node)) as [->|Hne].
    + intros nx k y Hx' Hk Hget. assert (nx = nd) as -> by congruence.
      by eapply Hdone.
    + apply Hclosed; [done|]. rewrite elem_of_set_add. intros [?|?]; done.
Qed.

Lemma collectUnhoistable_closed fuel parentNode hoistInfos un :
  h !! parentNode = Some p ->
  collectUnhoistable fuel h parentNode hoistInfos dt = Done un ->
  forall x, x ∈ un.1 -> dependantsIn h p dt un.1 x.
Proof using Type.
  intros Hp Hrun. unfold collectUnhoistable in Hrun.
  apply obind_Done in Hrun as (p' & Hp' & Hrun). apply deref_Done in Hp'.
  assert (p' = p) as -> by congruence.
  eapply (foldO_inv (fun s : JsSet addr * HoistInfos =>
            forall x, x ∈ s.1 -> dependantsIn h p dt s.1 x)); [| |exact Hrun].
  { intros x Hx. by apply elem_of_nil in Hx. }
  intros node s s' Hs _ Hbody. cbv beta in Hbody.
  destruct (map_get node s.2) as [[|reason|ds]|]; try by injection Hbody as <-.
  apply addUnhoistableNode_closed in Hbody as (Hsub & _ & Hnew).
  intros x Hx. destruct (decide (x ∈ s.1)) as [Hold|Hfresh].
  - eapply dependantsIn_mono; [exact Hsub|by apply Hs].
  - by apply Hnew.
Qed.

End Unhoistable.

(** X20: a node is hoisted only as the candidate of its name and with
    what it waits for.  When [hoistNodeDependencies] has classified the
    regular dependencies of a parent of a well-formed tree and collected
    the unhoistable ones, a node that is left to be hoisted was not
    classified [NO], its ident is the candidate in force for its name,
    and if it was classified [DEPENDS], none of the nodes it depends on
    is unhoistable. *)
Theorem hoisted_with_peers rootNodePath hoistedDependencies_ hoistIdents hoistIdentMap
    options fuel h nodePath parentNode p infos un node :
  heap_ok h = true -> h !! parentNode = Some p ->
  classifyDependencies rootNodePath hoistedDependencies_ hoistIdents hoistIdentMap
    options fuel h nodePath parentNode = Done infos ->
  collectUnhoistable fuel h parentNode infos.1 infos.2 = Done un ->
  node ∈ map_keys un.2 -> node ∉ un.1 ->
  exists info, map_get node infos.1 = Some info /\ notNO info
    /\ isCandidate h hoistIdents node
    /\ forall ds d, info = DEPENDS ds -> d ∈ ds -> d ∉ un.1.
Proof.
  intros Hok Hp Hclass Hcollect Hkey Hnot.
  destruct (collectUnhoistable_spec _ _ _ _ _ _ Hcollect node Hkey Hnot)
    as (info & Hinfo & Hno).
  exists info. split; [done|]. split; [done|].
  split; [by eapply classifyDependencies_candidates|].
  intros ds d -> Hd Hun. apply Hnot.
  destruct (classifyDependencies_waits _ _ _ _ _ _ _ _ _ _ Hclass)
    as (sorted & Hsorted & Hkeys & Hwaits).
  destruct (Hwaits node ds d Hinfo Hd) as (nd & nsub & Hnd & Hnsub & Hin).
  pose proof (heap_ok_named _ _ _ Hok Hp) as Hnamed.
  destruct (getSortedRegularDependencies_spec _ _ _ _ _ Hp Hnamed Hsorted)
    as (_ & Hmem & _).
  apply Hkeys, Hmem in Hinfo as (nsub' & Hval & Hnsub' & _).
  assert (nsub' = nsub) as -> by congruence.
  apply map_values_elem in Hval as [k Hentry].
  destruct (heap_ok_entry _ _ _ _ _ Hok Hp Hentry) as (nsub'' & Hn'' & <-).
  assert (nsub'' = nsub) as -> by congruence.
  apply map_entries_get in Hentry; [|by eapply heap_ok_NoDup].
  eapply (collectUnhoistable_closed h p infos.2); [exact Hp|exact Hcollect|exact Hun|..];
    [exact Hnd|exact Hin|exact Hentry].
Qed.

Lemma hoisted_with_peers_witness :
  exists info, map_get 2 [Some (3, YES); Some (2, DEPENDS [3])] = Some info
    /\ notNO info
    /\ isCandidate waitingPeerHeap
         (headIdents [Some ("."%string, [".@workspace:."%string]);
                      Some ("a"%string, ["a@1"%string]);
                      Some ("b"%string, ["b@1"%string]);
                      Some ("c"%string, ["c@1"%string])]) 2
    /\ forall ds d, info = DEPENDS ds -> d ∈ ds -> d ∉ ([] : list addr).
Proof.
  refine (hoisted_with_peers [".@workspace:."%string] []
            (headIdents [Some ("."%string, [".@workspace:."%string]);
                         Some ("a"%string, ["a@1"%string]);
                         Some ("b"%string, ["b@1"%string]);
                         Some ("c"%string, ["c@1"%string])])
            [Some ("."%string, [".@workspace:."%string]); Some ("a"%string, ["a@1"%string]);
             Some ("b"%string, ["b@1"%string]); Some ("c"%string, ["c@1"%string])]
            (mkInternalHoistOptions false (Num (-1))) 10 waitingPeerHeap [0] 1
            (mkWork "a" ["1"%string] "a@1" "a@1"
               [Some ("b"%string, 2); Some ("c"%string, 3)]
               [Some ("b"%string, 2); Some ("c"%string, 3)] [] [] true [])
            ([Some (3, YES); Some (2, DEPENDS [3])], [Some ("c"%string, ["b"%string])])
            ([], [Some (3, YES); Some (2, DEPENDS [3])]) 2
            eq_refl eq_refl eq_refl eq_refl _ _).
  - simpl. apply elem_of_cons. right. apply elem_of_cons. by left.
  - apply not_elem_of_nil.
Defined.

(** ** The rule for DEPENDS answers *)

(** What a DEPENDS answer lists is held by the direct parent. *)
Lemma getNodeHoistInfo_dependsOn_held h rootNodePath nodePath node parent pn
    hoistedDependencies_ hoistIdents hoistIdentMap outputReason ds :
  last nodePath = Some parent -> h !! parent = Some pn ->
  getNodeHoistInfo h rootNodePath nodePath node hoistedDependencies_
    hoistIdents hoistIdentMap outputReason = Done (DEPENDS ds) ->
  forall d, d ∈ ds -> d ∈ map_values (dependencies pn).
Proof.
  intros Hlast Hparent Hrun. unfold getNodeHoistInfo in Hrun.
  rewrite Hlast in Hrun.
  apply obind_Done in Hrun as (pn' & Hpn' & Hrun). apply deref_Done in Hpn'.
  assert (pn' = pn) as -> by congruence.
  apply obind_Done in Hrun as (n & Hn & Hrun). cbv zeta in Hrun.
  apply obind_Done in Hrun as (reason & _ & Hrun).
  apply obind_Done in Hrun as (avail & _ & Hrun).
  apply obind_Done in Hrun as (pc & Hpc & Hrun).
  assert (dependsOn pc = Some ds /\ ds <> []) as [Hds Hne].
  { destruct (dependsOn pc) as [[|d' ds']|];
      [by destruct (_ && _)| |by destruct (_ && _)].
    injection Hrun as <-. done. }
  clear Hrun.
  destruct (avail.1).
  2: { injection Hpc as <-. simpl in Hds. congruence. }
  apply last_Some in Hlast as [front ->].
  destruct front as [|root mid].
  { simpl in Hpc. injection Hpc as <-. simpl in Hds. congruence. }
  replace (tail ((root :: mid) ++ [parent])) with (mid ++ [parent]) in Hpc by done.
  rewrite rev_unit in Hpc. simpl in Hpc.
  apply obind_Done in Hpc as (p & Hp & Hpc). apply deref_Done in Hp.
  assert (p = pn) as -> by congruence.
  apply obind_Done in Hpc as (st1 & Hfold & Hpc). simpl in Hfold.
  destruct (arePeerDepsSatisfied st1) eqn:Hsat1; simpl in Hpc.
  - exfalso.
    apply checkPeerNames_satisfied in Hfold as (_ & _ & Hds1 & _); [|done|done].
    simpl in Hds1. apply checkPeers_upper in Hpc.
    rewrite Hds1, Hds in Hpc. destruct Hpc as [Hpc|Hpc]; congruence.
  - injection Hpc as ->. intros d Hd.
    destruct (checkPeerNames_dependsOn _ _ _ _ _ _ _ _ Hfold eq_refl eq_refl Hds d Hd)
      as (q & _ & Hget & _).
    apply map_values_elem. exists q. by apply map_get_entries.
Qed.

(** In a well-formed tree a node holds a dependency under its name. *)
Lemma held_by_name h parent p x :
  heap_ok h = true -> h !! parent = Some p -> x ∈ map_values (dependencies p) ->
  exists nx, h !! x = Some nx /\ map_get (name nx) (dependencies p) = Some x.
Proof.
  intros Hok Hp Hx. apply map_values_elem in Hx as [k Hentry].
  destruct (heap_ok_entry _ _ _ _ _ Hok Hp Hentry) as (nx & Hnx & <-).
  exists nx. split; [done|].
  apply map_entries_get in Hentry; [done|by eapply heap_ok_NoDup].
Qed.

Lemma map_get_key {K V} `{EqDecision K} (k : K) (v : V) m :
  map_get k m = Some v -> k ∈ map_keys m.
Proof. intros Hget. apply map_has_true. unfold map_has. by rewrite Hget. Qed.

Section DependsRule.
Variables (rootNodePath : JsSet Locator) (hoistedDependencies_ : JsMap PackageName addr).
Variables (hoistIdents : JsMap PackageName (option Ident)).
Variables (hoistIdentMap : JsMap PackageName (list Ident)).
Variable options : InternalHoistOptions.

(** Every answer is that of [getNodeHoistInfo], and who is written down
    as waiting was answered DEPENDS. *)
Lemma classifyDependencies_answers fuel h nodePath parentNode infos :
  classifyDependencies rootNodePath hoistedDependencies_ hoistIdents hoistIdentMap
    options fuel h nodePath parentNode = Done infos ->
  (forall sub info, map_get sub infos.1 = Some info ->
     getNodeHoistInfo h rootNodePath (nodePath ++ [parentNode]) sub
       hoistedDependencies_ hoistIdents hoistIdentMap
       (num_ge (debugLevel options) 2) = Done info)
  /\ (forall k i, i ∈ dependantsOf infos.2 k ->
        exists sub nsub ds d nd,
          map_get sub infos.1 = Some (DEPENDS ds) /\ d ∈ ds
          /\ h !! sub = Some nsub /\ name nsub = i
          /\ h !! d = Some nd /\ name nd = k).
Proof.
  unfold classifyDependencies. intros Hrun.
  apply obind_Done in Hrun as (sorted & _ & Hrun).
  pose (I := fun (st : JsMap addr HoistInfo * JsMap PackageName (JsSet PackageName)) =>
    (forall sub info, map_get sub st.1 = Some info ->
       getNodeHoistInfo h rootNodePath (nodePath ++ [parentNode]) sub
         hoistedDependencies_ hoistIdents hoistIdentMap
         (num_ge (debugLevel options) 2) = Done info)
    /\ (forall k i, i ∈ dependantsOf st.2 k ->
          exists sub nsub ds d nd,
            map_get sub st.1 = Some (DEPENDS ds) /\ d ∈ ds
            /\ h !! sub = Some nsub /\ name nsub = i
            /\ h !! d = Some nd /\ name nd = k)).
  change (I infos). eapply (foldO_inv I); [| |exact Hrun].
  { split; [done|]. intros k i Hi. by apply elem_of_nil in Hi. }
  intros x st st' [Hans Hdt] _ Hstep.
  apply obind_Done in Hstep as (info & Hinfo & Hstep).
  assert (forall sub info', map_get sub (map_set x info st.1) = Some info' ->
            getNodeHoistInfo h rootNodePath (nodePath ++ [parentNode]) sub
              hoistedDependencies_ hoistIdents hoistIdentMap
              (num_ge (debugLevel options) 2) = Done info') as Hans'.
  { intros sub info'. rewrite map_get_set. destruct (decide (x = sub)) as [<-|].
    - by intros [= <-].
    - apply Hans. }
  assert (forall k i, i ∈ dependantsOf st.2 k ->
            exists sub nsub ds d nd,
              map_get sub (map_set x info st.1) = Some (DEPENDS ds) /\ d ∈ ds
              /\ h !! sub = Some nsub /\ name nsub = i
              /\ h !! d = Some nd /\ name nd = k) as Hold.
  { intros k i Hi.
    destruct (Hdt k i Hi) as (sub & nsub & ds & d & nd & Hget & Hrest).
    exists sub, nsub, ds, d, nd. split; [|done].
    rewrite map_get_set. destruct (decide (x = sub)) as [->|]; [|done].
    apply Hans in Hget. congruence. }
  destruct info as [|reason|ds0].
  - by injection Hstep as <-.
  - by injection Hstep as <-.
  - apply obind_Done in Hstep as (dt' & Hdt' & Hstep). injection Hstep as <-.
    split; [done|]. simpl.
    assert (forall k i, i ∈ dependantsOf dt' k ->
              i ∈ dependantsOf st.2 k
              \/ exists d nd sd, d ∈ ds0 /\ h !! d = Some nd /\ name nd = k
                                 /\ h !! x = Some sd /\ name sd = i) as Hnew.
    { eapply (foldO_inv (fun dt : JsMap PackageName (JsSet PackageName) =>
        forall k i, i ∈ dependantsOf dt k ->
          i ∈ dependantsOf st.2 k
          \/ exists d nd sd, d ∈ ds0 /\ h !! d = Some nd /\ name nd = k
                             /\ h !! x = Some sd /\ name sd = i)); [| |exact Hdt'].
      { intros k i Hi. by left. }
      intros d b b' Hb Hd Hbody.
      apply obind_Done in Hbody as (nd & Hnd & Hbody). apply deref_Done in Hnd.
      apply obind_Done in Hbody as (sd & Hsd & Hbody). apply deref_Done in Hsd.
      injection Hbody as <-. intros k i. rewrite dependantsOf_set.
      destruct (decide (name nd = k)) as [<-|]; [|apply Hb].
      intros Hi. apply elem_of_set_add in Hi as [->|Hi]; [|by apply Hb].
      right. by exists d, nd, sd. }
    intros k i Hi. destruct (Hnew k i Hi) as [Hst|(d & nd & sd & Hd & Hnd & Hk & Hsd & Hn)].
    + by apply Hold.
    + exists x, sd, ds0, d, nd. split_and!; try done.
      by rewrite map_get_set, decide_True.
Qed.

End DependsRule.

Section Marking.
Variables (h : Heap) (p : HoisterWorkTree) (dt : JsMap PackageName (JsSet PackageName)).
Variable Q : addr -> Prop.
Hypothesis Qwaits : forall node nd k y,
  Q node -> h !! node = Some nd -> k ∈ dependantsOf dt (name nd) ->
  map_get k (dependencies p) = Some y -> Q y.

(** Marking goes from a node to the nodes that wait for it only. *)
Lemma addUnhoistableNode_sound fuel info : forall node st st',
  addUnhoistableNode fuel h p dt node info st = Done st' ->
  (node ∉ st.1 -> Q node) -> (forall x, x ∈ st.1 -> Q x) ->
  forall x, x ∈ st'.1 -> Q x.
Proof using Qwaits.
  induction fuel as [|fuel IH]; intros node st st' Hrun Hnode Hst; [done|].
  simpl in Hrun. destruct (set_has node st.1) eqn:Hhas; simpl in Hrun.
  { by injection Hrun as <-. }
  apply set_has_false in Hhas. specialize (Hnode Hhas).
  apply obind_Done in Hrun as (nd & Hnd & Hrun). apply deref_Done in Hnd.
  eapply (foldO_inv (fun s : JsSet addr * JsMap addr HoistInfo =>
            forall x, x ∈ s.1 -> Q x)); [| |exact Hrun].
  { simpl. intros x Hx. apply elem_of_set_add in Hx as [->|Hx]; [exact Hnode|by apply Hst]. }
  intros k s s' Hs Hk Hbody. cbv beta in Hbody.
  destruct (map_get k (dependencies p)) as [dependant|] eqn:Hget; [|done].
  eapply IH; [exact Hbody| |exact Hs].
  intros _. by eapply Qwaits.
Qed.

Lemma collectUnhoistable_sound fuel parentNode hoistInfos un :
  h !! parentNode = Some p ->
  collectUnhoistable fuel h parentNode hoistInfos dt = Done un ->
  (forall x reason, map_get x hoistInfos = Some (NO reason) -> Q x) ->
  forall x, x ∈ un.1 -> Q x.
Proof using Qwaits.
  intros Hp Hrun HNO. unfold collectUnhoistable in Hrun.
  apply obind_Done in Hrun as (p' & Hp' & Hrun). apply deref_Done in Hp'.
  assert (p' = p) as -> by congruence.
  assert ((forall x, x ∉ un.1 -> map_get x un.2 = map_get x hoistInfos)
          /\ forall x, x ∈ un.1 -> Q x) as [_ HQ]; [|exact HQ].
  eapply (foldO_inv (fun s : JsSet addr * JsMap addr HoistInfo =>
            (forall x, x ∉ s.1 -> map_get x s.2 = map_get x hoistInfos)
            /\ forall x, x ∈ s.1 -> Q x)); [| |exact Hrun].
  { split; [done|]. intros x Hx. by apply elem_of_nil in Hx. }
  intros node s s' [Hkeep Hs] _ Hbody. cbv beta in Hbody.
  destruct (map_get node s.2) as [[|reason|ds]|] eqn:Hget;
    try by injection Hbody as <-.
  pose proof (addUnhoistableNode_spec _ _ _ _ _ _ _ _ Hbody) as (Hsub & _ & Hkeep').
  split.
  - intros x Hx. rewrite Hkeep' by done. apply Hkeep. by auto.
  - eapply addUnhoistableNode_sound; [exact Hbody| |exact Hs].
    intros Hnot. rewrite Hkeep in Hget by done. by eapply HNO.
Qed.

End Marking.

(** Every node with the answer NO is marked. *)
Lemma collectUnhoistable_marks_NO fuel h parentNode hoistInfos dt un :
  collectUnhoistable fuel h parentNode hoistInfos dt = Done un ->
  forall x reason, map_get x hoistInfos = Some (NO reason) -> x ∈ un.1.
Proof.
  intros Hrun x reason Hx. unfold collectUnhoistable in Hrun.
  apply obind_Done in Hrun as (p & _ & Hrun).
  pose (I := fun (done : list addr) (s : JsSet addr * JsMap addr HoistInfo) =>
    (forall y, y ∉ s.1 -> map_get y s.2 = map_get y hoistInfos)
    /\ forall y reason, y ∈ done -> map_get y hoistInfos = Some (NO reason) -> y ∈ s.1).
  assert (I ([] ++ map_keys hoistInfos) un) as [_ Hall].
  { eapply (foldO_ind I); [| |exact Hrun].
    { split; [done|]. intros y r Hy. by apply elem_of_nil in Hy. }
    intros done node s s' [Hkeep Hdone] _ Hbody. cbv beta in Hbody.
    assert (forall s2 : JsSet addr * JsMap addr HoistInfo,
              (forall y, y ∈ s.1 -> y ∈ s2.1) ->
              (forall y, y ∉ s2.1 -> map_get y s2.2 = map_get y s.2) ->
              (forall r, map_get node hoistInfos = Some (NO r) -> node ∈ s2.1) ->
              I (done ++ [node]) s2) as Hgoal.
    { intros s2 Hsub Hkeep2 Hnode. split.
      - intros y Hy. rewrite Hkeep2 by done. apply Hkeep. by auto.
      - intros y r Hy Hr. apply elem_of_app in Hy as [Hy|Hy]; [by eapply Hsub, Hdone|].
        apply list_elem_of_singleton in Hy as ->. by eapply Hnode. }
    destruct (decide (node ∈ s.1)) as [Hin|Hnot].
    - assert (s' = s) as ->.
      { destruct (map_get node s.2) as [[|r|ds]|];
          try by injection Hbody as <-.
        destruct fuel as [|fuel]; [done|]. simpl in Hbody.
        apply set_has_true in Hin. rewrite Hin in Hbody. simpl in Hbody.
        by injection Hbody as <-. }
      by apply Hgoal.
    - rewrite (Hkeep _ Hnot) in Hbody.
      destruct (map_get node hoistInfos) as [[|r|ds]|] eqn:Hget.
      + injection Hbody as <-. by apply Hgoal.
      + apply addUnhoistableNode_spec in Hbody as (Hsub & Hin & Hkeep2).
        by apply Hgoal.
      + injection Hbody as <-. by apply Hgoal.
      + injection Hbody as <-. by apply Hgoal. }
  eapply Hall; [|exact Hx]. simpl. by eapply map_get_key.
Qed.

(** What [collectUnhoistable] marks: the nodes the answers leave where
    they are. *)
Lemma collectUnhoistable_exact rootNodePath hoistedDependencies_ hoistIdents hoistIdentMap
    options fuel h nodePath parentNode p infos un :
  heap_ok h = true -> h !! parentNode = Some p ->
  classifyDependencies rootNodePath hoistedDependencies_ hoistIdents hoistIdentMap
    options fuel h nodePath parentNode = Done infos ->
  collectUnhoistable fuel h parentNode infos.1 infos.2 = Done un ->
  forall node, node ∈ un.1 <-> cannotHoist infos.1 node.
Proof.
  intros Hok Hp Hclass Hcollect node.
  destruct (classifyDependencies_waits _ _ _ _ _ _ _ _ _ _ Hclass)
    as (sorted & Hsorted & Hkeys & Hwaits).
  destruct (classifyDependencies_answers _ _ _ _ _ _ _ _ _ _ Hclass) as [Hans Hdt].
  pose proof (heap_ok_named _ _ _ Hok Hp) as Hnamed.
  destruct (getSortedRegularDependencies_spec _ _ _ _ _ Hp Hnamed Hsorted)
    as (_ & Hmem & _).
  assert (forall sub info, map_get sub infos.1 = Some info ->
            sub ∈ map_values (dependencies p)) as Hheld.
  { intros sub info Hget. apply Hkeys, Hmem in Hget as (nsub & Hval & _). done. }
  split.
  - intros Hin.
    assert (cannotHoist infos.1 node /\ node ∈ map_values (dependencies p)) as [HQ _];
      [|exact HQ].
    eapply (collectUnhoistable_sound h p infos.2
              (fun x => cannotHoist infos.1 x /\ x ∈ map_values (dependencies p)));
      [|exact Hp|exact Hcollect| |exact Hin].
    + intros x nx k y [Hx Hxheld] Hnx Hk Hy.
      assert (y ∈ map_values (dependencies p)) as Hyheld.
      { apply map_values_elem. exists k. by apply map_get_entries. }
      split; [|done].
      destruct (Hdt _ _ Hk) as (sub & nsub & ds & d & nd & Hget & Hd & Hnsub & Hi & Hnd & Hnm).
      assert (y = sub) as ->.
      { destruct (held_by_name _ _ _ _ Hok Hp (Hheld _ _ Hget)) as (nsub' & Hnsub' & Hsub).
        assert (nsub' = nsub) as -> by congruence. rewrite Hi in Hsub. congruence. }
      assert (d = x) as ->.
      { assert (d ∈ map_values (dependencies p)) as Hdheld.
        { eapply getNodeHoistInfo_dependsOn_held; [|exact Hp|by apply Hans|exact Hd].
          apply last_snoc. }
        destruct (held_by_name _ _ _ _ Hok Hp Hdheld) as (nd' & Hnd' & Hdget).
        destruct (held_by_name _ _ _ _ Hok Hp Hxheld) as (nx' & Hnx' & Hxget).
        assert (nd' = nd) as -> by congruence. assert (nx' = nx) as -> by congruence.
        rewrite Hnm in Hdget. congruence. }
      by eapply cannot_DEPENDS.
    + intros x reason Hx. split; [by eapply cannot_NO|by eapply Hheld].
  - induction 1 as [node reason Hget|node ds d Hget Hd _ IH].
    + by eapply collectUnhoistable_marks_NO.
    + destruct (Hwaits node ds d Hget Hd) as (nd & nsub & Hnd & Hnsub & Hin).
      destruct (held_by_name _ _ _ _ Hok Hp (Hheld _ _ Hget)) as (nsub' & Hnsub' & Hsub).
      assert (nsub' = nsub) as -> by congruence.
      eapply (collectUnhoistable_closed h p infos.2); [exact Hp|exact Hcollect|exact IH|..];
        [exact Hnd|exact Hin|exact Hsub].
Qed.

(** ** C3: the cyclic peer pair *)



(** ** dumpDepTree *)

(** A call of [dumpPackage] counts at most one package more than it
    prints lines. *)
Lemma dumpPackage_count h fuel : forall pkg parents_ prefix nodeCount st,
  dumpPackage fuel h pkg parents_ prefix nodeCount = Done st ->
  (nodeCount <= st.2 <= nodeCount + 1 + Z.of_nat (length st.1))%Z.
Proof.
  induction fuel as [|fuel IH]; intros pkg parents_ prefix nodeCount st Hrun; [done|].
  simpl in Hrun.
  destruct ((MAX_NODES_TO_DUMP <? nodeCount)%Z || set_has pkg parents_).
  { injection Hrun as <-. simpl. lia. }
  apply obind_Done in Hrun as (p & _ & Hrun).
  eapply (foldO_inv (fun s : list DumpLine * Z =>
            (nodeCount + 1 <= s.2 <= nodeCount + 1 + Z.of_nat (length s.1))%Z))
    in Hrun; [lia|simpl; lia|].
  intros entry s s' Hs _ Hbody.
  apply obind_Done in Hbody as (d & _ & Hbody).
  destruct (negb _); [|injection Hbody as <-; done].
  apply obind_Done in Hbody as (sub & Hsub & Hbody). injection Hbody as <-.
  apply IH in Hsub. simpl. rewrite length_app. simpl. lia.
Qed.

(** X21: a dump is cut short only when it is long.  If [dumpDepTree]
    returns fewer than [MAX_NODES_TO_DUMP] lines, the dump does not carry
    the note that the tree is too large. *)
Theorem dumpDepTree_not_too_large fuel h tree dump :
  dumpDepTree fuel h tree = Done dump ->
  (Z.of_nat (length (dumpLines dump)) < MAX_NODES_TO_DUMP)%Z ->
  dumpTooLarge dump = false.
Proof.
  intros Hrun Hlen. unfold dumpDepTree in Hrun.
  apply obind_Done in Hrun as (st & Hst & Hrun). injection Hrun as <-.
  apply dumpPackage_count in Hst. simpl in *. apply Z.ltb_ge. lia.
Qed.

Lemma dumpDepTree_not_too_large_witness :
  exists dump, dumpDepTree 10 waitingPeerHeap 0 = Done dump
               /\ dumpTooLarge dump = false.
Proof.
  eexists. split; [reflexivity|].
  eapply (dumpDepTree_not_too_large 10 waitingPeerHeap 0); [reflexivity|].
  vm_compute. reflexivity.
Defined.

(** ** prettyPrintLocator *)

Lemma indexOfAt_shift c s : forall from pos from' pos',
  from <= pos -> from' <= pos' ->
  (Str.indexOfAt c s from pos = (-1)%Z /\ Str.indexOfAt c s from' pos' = (-1)%Z)
  \/ exists k, Str.indexOfAt c s from pos = Z.of_nat (pos + k)
               /\ Str.indexOfAt c s from' pos' = Z.of_nat (pos' + k).
Proof.
  induction s as [|a s IH]; intros from pos from' pos' H1 H2; simpl; [by left|].
  rewrite (proj2 (Nat.leb_le from pos)), (proj2 (Nat.leb_le from' pos')) by done.
  simpl. destruct (Ascii.eqb a c).
  - right. exists 0. by rewrite !Nat.add_0_r.
  - destruct (IH from (S pos) from' (S pos')) as [?|(k & -> & ->)]; [lia|lia|by left|].
    right. exists (S k). split; f_equal; lia.
Qed.

Lemma indexOfAt_none_shift c s from pos from' pos' :
  from <= pos -> from' <= pos' ->
  Str.indexOfAt c s from pos = (-1)%Z -> Str.indexOfAt c s from' pos' = (-1)%Z.
Proof.
  intros H1 H2 Hnone.
  destruct (indexOfAt_shift c s from pos from' pos' H1 H2) as [[_ ?]|(k & Hk & _)];
    [done|]. rewrite Hk in Hnone. lia.
Qed.

Lemma append_assoc (s t u : string) : ((s ++ t) ++ u = s ++ (t ++ u))%string.
Proof.
  induction s as [|a s IH]; [done|].
  change (String a ((s ++ t) ++ u) = String a (s ++ (t ++ u)))%string. by rewrite IH.
Qed.

Lemma npm_parts v :
  ("npm:" ++ v)%string = String "n" (String "p" (String "m" (String ":" v))).
Proof. done. Qed.

Lemma replaceFirst_npm v : replaceFirst "npm:" "" ("npm:" ++ v) = v.
Proof.
  unfold replaceFirst.
  assert (indexOfStringAt "npm:" ("npm:" ++ v) 0 = 0%Z) as ->
    by (rewrite npm_parts; simpl; by destruct v).
  cbv zeta. simpl (0 <? 0)%Z. cbv iota.
  assert (Str.substring ("npm:" ++ v) 0 0 = ""%string) as ->.
  { unfold Str.substring, Str.clamp. simpl. by destruct v. }
  change (0 + Str.len "npm:")%Z with (Z.of_nat (String.length "npm:")).
  by rewrite (Str_substringFrom_suffix "npm:" v).
Qed.

Lemma indexOf_hash_npm v :
  Str.indexOf "#"%char v 0 = (-1)%Z -> Str.indexOf "#"%char ("npm:" ++ v) 0 = (-1)%Z.
Proof.
  unfold Str.indexOf. intros Hv. rewrite npm_parts. simpl.
  eapply indexOfAt_none_shift; [| |exact Hv]; lia.
Qed.

(** X22: what the messages show for a locator.  For a name that is not
    empty and has no [@] after its first character, [prettyPrintLocator]
    prints the root workspace as a dot, a locator with an [npm:] reference
    as the name and the version, and a virtual locator as the name and the
    version of what it stands for, marked with [v:]. *)
Theorem prettyPrintLocator_shows name_ :
  plainName name_ ->
  prettyPrintLocator (makeLocator name_ "workspace:.") = "."%string
  /\ (forall version, Str.indexOf "#"%char version 0 = (-1)%Z ->
        prettyPrintLocator (makeLocator name_ ("npm:" ++ version))
        = (name_ ++ "@" ++ version)%string)
  /\ (forall hash version,
        Str.indexOf "#"%char hash 0 = (-1)%Z ->
        Str.indexOf "#"%char version 0 = (-1)%Z ->
        prettyPrintLocator
          (makeLocator name_ ("virtual:" ++ hash ++ String "#"%char ("npm:" ++ version)))
        = ("v:" ++ name_ ++ "@" ++ version)%string).
Proof.
  intros Hplain. split_and!.
  - unfold prettyPrintLocator. cbv zeta.
    destruct Hplain as [Hne Hat].
    destruct (locator_parts name_ "workspace:." Hne Hat) as (-> & _ & ->). done.
  - intros version Hv. unfold prettyPrintLocator. cbv zeta.
    destruct Hplain as [Hne Hat].
    destruct (locator_parts name_ ("npm:" ++ version) Hne Hat) as (-> & -> & ->).
    rewrite (indexOf_hash_npm _ Hv). change (0 <? -1)%Z with false. cbv iota.
    rewrite replaceFirst_npm. rewrite npm_parts. done.
  - intros hash version Hh Hv. unfold prettyPrintLocator. cbv zeta.
    set (reference := ("virtual:" ++ hash ++ String "#"%char ("npm:" ++ version))%string).
    destruct Hplain as [Hne Hat].
    destruct (locator_parts name_ reference Hne Hat) as (-> & -> & ->).
    assert (reference
            = String "v" (String "i" (String "r" (String "t" (String "u" (String "a"
                (String "l" (String ":" (hash ++ String "#"%char ("npm:" ++ version))))))))))
      as Hparts by done.
    assert (Str.indexOf "#"%char reference 0 = Z.of_nat (8 + String.length hash)) as Hidx.
    { rewrite Hparts. unfold Str.indexOf in *. simpl Str.indexOfAt.
      apply indexOfAt_app; [|lia]. eapply indexOfAt_none_shift; [| |exact Hh]; lia. }
    assert (splitSecond "#"%char reference = ("npm:" ++ version)%string) as Hsplit.
    { unfold splitSecond. cbv zeta. rewrite Hidx.
      assert (Str.substringFrom reference (Z.of_nat (8 + String.length hash) + 1)
              = ("npm:" ++ version)%string) as ->.
      { unfold reference. rewrite <- append_at, <- append_assoc.
        replace (Z.of_nat (8 + String.length hash) + 1)%Z
          with (Z.of_nat (String.length (("virtual:" ++ hash) ++ String "#"%char "")%string)).
        - apply Str_substringFrom_suffix.
        - rewrite !length_append. simpl. lia. }
      rewrite (indexOf_hash_npm _ Hv). done. }
    rewrite Hidx.
    destruct (0 <? Z.of_nat (8 + String.length hash))%Z eqn:Hpos;
      [|apply Z.ltb_ge in Hpos; lia].
    rewrite Hsplit, replaceFirst_npm. rewrite Hparts. simpl. by destruct hash.
Qed.

Lemma prettyPrintLocator_shows_witness :
  prettyPrintLocator "@scope/pkg@workspace:." = "."%string
  /\ prettyPrintLocator "@scope/pkg@npm:1.2.3" = "@scope/pkg@1.2.3"%string
  /\ prettyPrintLocator "@scope/pkg@virtual:abc#npm:1.2.3" = "v:@scope/pkg@1.2.3"%string.
Proof.
  destruct (prettyPrintLocator_shows "@scope/pkg") as (H1 & H2 & H3).
  { split; [done|reflexivity]. }
  split; [exact H1|]. split.
  - exact (H2 "1.2.3"%string eq_refl).
  - exact (H3 "abc"%string "1.2.3"%string eq_refl eq_refl).
Defined.

(** ** What reaches a root *)

Lemma goodNodes_ext G h h' l : ext h h' -> goodNodes G h l -> goodNodes G h' l.
Proof.
  intros Hext Hgn x Hx. destruct (Hgn x Hx) as (nx & Hnx & Hg).
  destruct (ext_keep _ _ Hext _ _ Hnx) as (nx' & Hnx' & Hsame).
  exists nx'. split; [done|]. by destruct Hsame as (-> & -> & _).
Qed.

Lemma goodRoot_change G h h' root r r' k c :
  ext h h' -> h !! root = Some r -> h' !! root = Some r' ->
  dependencies r' = dependencies r
  \/ (dependencies r' = map_set k c (dependencies r)
      /\ exists nc, h' !! c = Some nc /\ G k (ident nc)) ->
  goodRoot G h root -> goodRoot G h' root.
Proof.
  intros Hext Hr Hr' Hdeps (r0 & Hr0 & Hall). assert (r0 = r) as -> by congruence.
  exists r'. split; [done|]. intros k' d Hget.
  assert (map_get k' (dependencies r) = Some d ->
          exists nd, h' !! d = Some nd /\ G k' (ident nd)) as Hold.
  { intros Hget0. destruct (Hall _ _ Hget0) as (nd & Hnd & Hg).
    destruct (ext_keep _ _ Hext _ _ Hnd) as (nd' & Hnd' & Hsame).
    exists nd'. split; [done|]. by destruct Hsame as (_ & -> & _). }
  destruct Hdeps as [Hd|[Hd Hc]]; rewrite Hd in Hget; [by apply Hold|].
  rewrite map_get_set in Hget. destruct (decide (k = k')) as [<-|]; [|by apply Hold].
  by injection Hget as <-.
Qed.

Lemma goodRoot_frame G h h' root :
  ext h h' -> depsOf h' root = depsOf h root -> goodRoot G h root -> goodRoot G h' root.
Proof.
  intros Hext Hdeps Hgr. pose proof Hgr as (r & Hr & _).
  destruct (ext_keep _ _ Hext _ _ Hr) as (r' & Hr' & _).
  eapply (goodRoot_change G h h' root r r' "" root); [done|done|done| |done].
  left. unfold depsOf in Hdeps. rewrite Hr, Hr' in Hdeps. by injection Hdeps.
Qed.

(** [hoistNode] puts under a name of the root only the node it is called
    with. *)
Lemma hoistNode_good G root parentNode next node h next' h' :
  hoistNode root parentNode next node h = Returned next' h' ->
  parentNode ≠ root ->
  forall nd, h !! node = Some nd -> G (name nd) (ident nd) ->
    goodRoot G h root -> goodNodes G h next ->
    goodRoot G h' root /\ goodNodes G h' next'.
Proof.
  intros Hrun Hne nd Hnd Hg Hgr Hgn. unfold hoistNode in Hrun.
  apply bind_Done in Hrun as (nd' & h0 & Hread & Hrun).
  apply read_Done in Hread as [Hnd' ->]. assert (nd' = nd) as -> by congruence.
  apply bind_Done in Hrun as (u & h1 & Hmod & Hrun).
  apply modify_Done in Hmod as (p & Hp & ->).
  apply bind_Done in Hrun as (r & h1' & Hread & Hrun).
  apply read_Done in Hread as [Hr1 ->].
  set (h1 := <[parentNode := markHoisted (name nd) node p]> h) in *.
  assert (ext h h1) as Hext1 by (eapply ext_insert; [done|apply markHoisted_same]).
  assert (goodRoot G h1 root) as Hgr1.
  { eapply goodRoot_frame; [done| |done]. by apply depsOf_insert_ne. }
  assert (goodNodes G h1 next) as Hgn1 by by eapply goodNodes_ext.
  destruct (ext_keep _ _ Hext1 _ _ Hnd) as (nd1 & Hnd1 & Hsame1).
  destruct (map_get (name nd) (dependencies r)) as [hoistedNode|] eqn:Hget.
  - apply bind_Done in Hrun as (nd2 & h1' & Hread & Hrun).
    apply read_Done in Hread as [_ ->].
    apply bind_Done in Hrun as (u' & h2 & Hmod & Hrun).
    apply ret_Done in Hrun as [-> ->].
    apply modify_Done in Hmod as (hn & Hhn & ->).
    assert (ext h1 (<[hoistedNode := with_references
              (fold_left (fun refs reference => set_add reference refs)
                 (references nd2) (references hn)) hn]> h1)) as Hext2
      by (eapply ext_insert; [done|by repeat split]).
    split; [|by eapply goodNodes_ext].
    eapply goodRoot_frame; [done| |done].
    destruct (decide (root = hoistedNode)) as [->|].
    + by eapply depsOf_insert_same.
    + by apply depsOf_insert_ne.
  - destruct (bool_decide (ident r = ident nd)) eqn:Hid; simpl in Hrun.
    { by apply ret_Done in Hrun as [-> ->]. }
    apply bind_Done in Hrun as (u' & h2 & Hmod & Hrun).
    apply ret_Done in Hrun as [-> ->].
    apply modify_Done in Hmod as (r2 & Hr2 & ->).
    assert (r2 = r) as -> by congruence.
    set (r' := with_dependencies (map_set (name nd) node (dependencies r)) r).
    assert (ext h1 (<[root := r']> h1)) as Hext2
      by (eapply ext_insert; [done|apply with_dependencies_same]).
    destruct (ext_keep _ _ Hext2 _ _ Hnd1) as (nd2 & Hnd2 & Hsame2).
    assert (G (name nd2) (ident nd2)) as Hg2.
    { destruct Hsame2 as (-> & -> & _). by destruct Hsame1 as (-> & -> & _). }
    split.
    + eapply (goodRoot_change G h1 _ root r r' (name nd) node); [done|done| | |done].
      * apply list_lookup_insert_eq. by eapply lookup_lt_Some.
      * right. split; [done|]. exists nd2. split; [done|].
        replace (name nd) with (name nd2); [done|].
        destruct Hsame2 as (-> & _). by destruct Hsame1 as (-> & _).
    + intros x Hx. apply elem_of_set_add in Hx as [->|Hx]; [by exists nd2|].
      by eapply (goodNodes_ext G h1).
Qed.

Section HoistNodeDependenciesGood.
Variables (tree root : nat) (rootNodePath : list string).
Variable hoistedDependencies_ : list (option (string * nat)).
Variable hoistIdents : list (option (string * option string)).
Variable hoistIdentMap : list (option (string * list string)).
Variable options : InternalHoistOptions.
Variable G : PackageName -> Ident -> Prop.
Hypothesis HG : forall k i, mjoin (map_get k hoistIdents) = Some i -> G k i.

Local Abbreviation hoistNodeDeps :=
  (hoistNodeDependencies tree root rootNodePath hoistedDependencies_
     hoistIdents hoistIdentMap options).

Lemma hoistNodeDependencies_good fuel :
  forall nodePath locatorPath parentNode st h st' h',
    hoistNodeDeps fuel nodePath locatorPath parentNode st h = Returned st' h' ->
    heap_ok h = true ->
    forall r p,
      h !! root = Some r -> h !! parentNode = Some p ->
      locator r ∈ locatorPath -> locator p ≠ locator r ->
      (forall x, x ∈ st.1 -> x ≠ root /\ (x < length h)%nat) ->
      rootCandidates r hoistIdents ->
      regularNames h r st.2 ->
      goodRoot G h root -> goodNodes G h st.2 ->
      hoistPost root h r st st' h' /\ goodRoot G h' root /\ goodNodes G h' st'.2.
Proof using HG.
  induction fuel as [|fuel IH];
    intros nodePath locatorPath parentNode [seen next] h st' h' Hrun Hok r p Hr Hp
      Hrloc Hploc Hseen Hcands Hnext Hgr Hgn; [done|].
  simpl in Hrun. destruct (set_has parentNode seen) eqn:Hhas.
  { apply ret_Done in Hrun as [-> ->]. split; [|by split]. unfold hoistPost. simpl.
    split; [done|]. split; [done|]. split; [done|]. split; [by left|done]. }
  apply set_has_false in Hhas.
  assert (parentNode ≠ root) as Hproot by (intros ->; congruence).
  apply bind_Done in Hrun as (h0 & h0' & Hget & Hrun).
  apply get_st_Done in Hget as [-> ->].
  apply bind_Done in Hrun as (infos & h0' & Hclass & Hrun).
  apply lift_Done in Hclass as [Hclass ->].
  apply bind_Done in Hrun as (un & h0' & Hcoll & Hrun).
  apply lift_Done in Hcoll as [Hcoll ->].
  apply bind_Done in Hrun as (next1 & h1 & Hhoist & Hrun).
  apply bind_Done in Hrun as (u & h1' & Hcheck & Hrun).
  assert (h1' = h1) as ->.
  { unfold runSelfCheck in Hcheck. destruct (check options).
    - apply bind_Done in Hcheck as (hx & hx' & Hget & Hcheck).
      apply get_st_Done in Hget as [-> ->].
      apply bind_Done in Hcheck as (lg & hx' & Hlift & Hcheck).
      apply lift_Done in Hlift as [_ ->].
      destruct lg; [|by apply failCheck_Returned in Hcheck].
      by apply ret_Done in Hcheck as [_ ->].
    - by apply ret_Done in Hcheck as [_ ->]. }
  apply bind_Done in Hrun as (h1x & h1' & Hget & Hrun).
  apply get_st_Done in Hget as [-> ->].
  apply bind_Done in Hrun as (children & h1' & Hchildren & Hrun).
  apply lift_Done in Hchildren as [Hchildren ->].
  (* the hoistable nodes move to the root *)
  assert (rtc (step root) h h1
          /\ (forall x, x ≠ parentNode -> x ≠ root -> depsOf h1 x = depsOf h x)
          /\ (next1 = next \/ (keyCount h root < keyCount h1 root)%nat)
          /\ regularNames h1 r next1
          /\ goodRoot G h1 root /\ goodNodes G h1 next1)
    as (Hs1 & Hdeps1 & Hcount1 & Hnext1 & Hgr1 & Hgn1).
  { eapply (foldM_inv (fun next_c h_c =>
      rtc (step root) h h_c
      /\ (forall x, x ≠ parentNode -> x ≠ root -> depsOf h_c x = depsOf h x)
      /\ (next_c = next \/ (keyCount h root < keyCount h_c root)%nat)
      /\ regularNames h_c r next_c
      /\ goodRoot G h_c root /\ goodNodes G h_c next_c)); [| |exact Hhoist].
    { split; [done|]. split; [done|]. split; [by left|]. split; [done|]. by split. }
    intros node next_c h_c next_c' h_c' (Hs & Hd & Hc & Hn & Hgr_c & Hgn_c) Hnode Hbody.
    destruct (set_has node un.1) eqn:Hun; simpl in Hbody.
    { by apply ret_Done in Hbody as [-> ->]. }
    apply set_has_false in Hun.
    destruct (collectUnhoistable_spec _ _ _ _ _ _ Hcoll node Hnode Hun)
      as (info & Hinfo & Hnot).
    pose proof (classifyDependencies_candidates _ _ _ _ _ _ _ _ _ _ Hclass
                  _ _ Hinfo Hnot) as Hcand.
    destruct Hcand as (n0 & Hn0 & Hcand).
    destruct (rtc_step_lookup _ _ _ _ _ Hs Hn0) as (nd & Hnd & Hsame).
    destruct (rtc_step_lookup _ _ _ _ _ Hs Hr) as (r_c & Hr_c & Hrsame).
    assert (goodRoot G h_c' root /\ goodNodes G h_c' next_c') as [Hgr' Hgn'].
    { eapply hoistNode_good; [exact Hbody|done|exact Hnd| |done|done].
      destruct Hsame as (-> & -> & _). by apply HG. }
    eapply hoistNode_spec in Hbody as (Hs' & Hd' & Hc'); [|done|exact Hr_c|exact Hnd|].
    2:{ intros Hin. destruct Hsame as (Hn1 & Hi1 & _). destruct Hrsame as (_ & Hi2 & _ & Hp2 & _).
        rewrite Hi1, Hi2. eapply isCandidate_regular; [exact Hcands| |exact Hn0|].
        - by exists n0.
        - by rewrite <- Hn1, <- Hp2. }
    pose proof (rtc_step_keyCount _ _ _ Hs) as Hmono.
    pose proof (rtc_step_keyCount _ _ _ Hs') as Hmono'.
    split; [by etrans|].
    split; [intros x Hx Hxr; rewrite Hd' by done; by apply Hd|].
    destruct Hc' as [->|(-> & Hlt & Hnp)].
    - split; [destruct Hc; [by left|right; lia]|]. split; [|by split].
      eapply regularNames_ext; [by eapply rtc_step_ext|done].
    - split; [right; lia|]. split; [|by split].
      intros x Hx. apply elem_of_set_add in Hx as [->|Hx].
      + destruct (rtc_step_lookup _ _ _ _ _ Hs' Hnd) as (nd' & Hnd' & Hsame').
        exists nd'. split; [done|]. destruct Hsame' as [-> _].
        by destruct Hrsame as (_ & _ & _ & <- & _).
      + eapply regularNames_ext; [by eapply rtc_step_ext|done|done]. }
  (* the others are decoupled and visited *)
  pose proof (rtc_step_heap_ok _ _ _ Hs1 Hok) as Hok1.
  destruct (rtc_step_lookup _ _ _ _ _ Hs1 Hp) as (p1 & Hp1 & Hpsame).
  destruct (rtc_step_lookup _ _ _ _ _ Hs1 Hr) as (r1 & Hr1 & Hrsame).
  pose proof (getSortedRegularDependencies_spec _ _ _ _ _ Hp1
                (heap_ok_named _ _ _ Hok1 Hp1) Hchildren) as (_ & Hreg & _).
  set (I2 := fun (st_c : list nat * list nat) (h_c : list HoisterWorkTree) =>
      (rtc (step root) h1 h_c
       /\ st_c.1 = seen
       /\ (forall x, x ∈ seen -> depsOf h_c x = depsOf h1 x)
       /\ (st_c.2 = next1 \/ (keyCount h1 root < keyCount h_c root)%nat)
       /\ regularNames h_c r st_c.2)
      /\ (map_keys <$> depsOf h_c parentNode = map_keys <$> depsOf h1 parentNode)
      /\ goodRoot G h_c root /\ goodNodes G h_c st_c.2).
  assert (I2 st' h') as [(Hs2 & Hseen2 & Hdeps2 & Hcount2 & Hnext2) (_ & Hgr2 & Hgn2)].
  { eapply (foldM_inv I2); [| |exact Hrun]; unfold I2.
    { simpl. split; [|done]. split; [done|]. split; [done|]. split; [done|].
      split; [by left|done]. }
    clear Hrun. intros node [seen_c next_c] h_c [seen_c' next_c'] h_c'
      [(Hs & Hsn & Hd & Hc & Hn) (Hkeys & Hgr_c & Hgn_c)] Hnode Hbody.
    simpl in Hsn. subst seen_c. simpl in *.
    destruct (set_has node un.1) eqn:Hun; [|by apply ret_Done in Hbody as [[= -> ->] ->]].
    apply bind_Done in Hbody as (nd & h_c0 & Hread & Hbody).
    apply read_Done in Hread as [Hnd ->].
    destruct (bool_decide (locator nd ∈ locatorPath)) eqn:Hloc; simpl in Hbody;
      [by apply ret_Done in Hbody as [[= -> ->] ->]|].
    apply bool_decide_eq_false in Hloc.
    destruct (map_get node un.2) as [hoistInfo|]; [|done].
    apply bind_Done in Hbody as (u1 & h_a & Hreason & Hbody).
    apply bind_Done in Hbody as (dn & h_b & Hdec & Hbody).
    apply bind_Done in Hbody as (p_b & h_b0 & Hread & Hbody).
    apply read_Done in Hread as [Hp_b ->].
    apply bind_Done in Hbody as (st2 & h_d & Hrec & Hbody).
    apply ret_Done in Hbody as [[= -> ->] ->].
    (* the facts at h_c *)
    pose proof (rtc_step_heap_ok _ _ _ Hs Hok1) as Hok_c.
    destruct (rtc_step_lookup _ _ _ _ _ Hs Hp1) as (p_c & Hp_c & Hpsame_c).
    destruct (rtc_step_lookup _ _ _ _ _ Hs Hr1) as (r_c & Hr_c & Hrsame_c).
    (* the reason is recorded *)
    assert (exists p_a, h_a = <[parentNode := p_a]> h_c /\ sameNode p_c p_a
                        /\ dependencies p_a = dependencies p_c)
      as (p_a & -> & Hpsame_a & Hpdeps_a).
    { destruct hoistInfo as [|reason|ds].
      - apply ret_Done in Hreason as [_ ->]. exists p_c.
        split; [by rewrite list_insert_id|]. split; [apply sameNode_refl|done].
      - apply modify_Done in Hreason as (p_c' & Hp_c' & ->).
        assert (p_c' = p_c) as -> by congruence. eexists. split; [done|].
        split; [by repeat split|done].
      - apply ret_Done in Hreason as [_ ->]. exists p_c.
        split; [by rewrite list_insert_id|]. split; [apply sameNode_refl|done]. }
    set (h_a := <[parentNode := p_a]> h_c) in *.
    assert (rtc (step root) h_c h_a) as Hs_a by by eapply rtc_once, step_other.
    assert (h_a !! parentNode = Some p_a) as Hp_a
      by (unfold h_a; rewrite list_lookup_insert_eq; [done|by eapply lookup_lt_Some]).
    destruct (rtc_step_lookup _ _ _ _ _ Hs_a Hnd) as (nd_a & Hnd_a & Hndsame_a).
    (* the name of the node is one of the names of the parent *)
    assert (map_has (name nd_a) (dependencies p_a) = true) as Hhas_a.
    { apply map_has_true. rewrite Hpdeps_a.
      assert (map_keys (dependencies p_c) = map_keys (dependencies p1)) as ->.
      { unfold depsOf in Hkeys. rewrite Hp_c, Hp1 in Hkeys. simpl in Hkeys. congruence. }
      apply Hreg in Hnode as (n1 & Hin & Hn1 & _).
      apply map_values_elem in Hin as [k Hk].
      destruct (heap_ok_entry _ _ _ _ _ Hok1 Hp1 Hk) as (n1' & Hn1' & <-).
      assert (n1' = n1) as -> by congruence.
      destruct (rtc_step_lookup _ _ _ _ _ Hs Hn1) as (nd' & Hnd' & Hsame').
      assert (nd' = nd) as -> by congruence.
      destruct Hndsame_a as [-> _]. destruct Hsame' as [-> _].
      unfold map_keys. apply list_elem_of_fmap. by exists (name n1, node). }
    eapply decoupleGraphNode_spec in Hdec as (Hs_b & (nc & Hnc & Hncname & Hncloc & _)
                                               & Hold_b & (p_b' & Hp_b' & Hpdeps_b));
      [|exact Hp_a|exact Hnd_a|by left].
    assert (p_b' = p_b) as -> by congruence.
    (* the visit of the decoupled node *)
    assert (rtc (step root) h1 h_b) as Hs1b by (etrans; [exact Hs|]; by etrans).
    pose proof (rtc_step_heap_ok _ _ _ Hs1b Hok1) as Hok_b.
    destruct (rtc_step_lookup _ _ _ _ _ Hs1b Hr1) as (r_b & Hr_b & Hrsame_b).
    assert (sameNode r r_b) as Hrsame_b' by by eapply sameNode_trans.
    assert (length h1 <= length h_b)%nat as Hlen_b
      by by eapply ext_length, rtc_step_ext.
    assert (length h <= length h1)%nat as Hlen_1
      by by eapply ext_length, rtc_step_ext.
    assert (goodRoot G h_b root /\ goodNodes G h_b next_c) as [Hgr_b Hgn_b].
    { assert (ext h_c h_b) as Hext_cb
        by (eapply ext_trans; by eapply rtc_step_ext).
      split; [|by eapply goodNodes_ext].
      eapply goodRoot_frame; [exact Hext_cb| |exact Hgr_c].
      unfold depsOf. rewrite Hold_b; [|done|].
      - unfold h_a. by rewrite list_lookup_insert_ne.
      - unfold h_a. rewrite length_insert. by eapply lookup_lt_Some. }
    eapply IH in Hrec; [|exact Hok_b|exact Hr_b|exact Hnc| | | | | |exact Hgr_b|exact Hgn_b].
    2:{ destruct Hrsame_b' as (_ & _ & -> & _). apply elem_of_app. by left. }
    2:{ rewrite Hncloc. destruct Hndsame_a as (_ & _ & -> & _).
        destruct Hrsame_b' as (_ & _ & -> & _). intros Heq. apply Hloc. by rewrite Heq. }
    2:{ simpl. intros x Hx. apply elem_of_set_add in Hx as [->|Hx].
        - split; [done|]. by eapply lookup_lt_Some.
        - destruct (Hseen x Hx). split; [done|lia]. }
    2:{ by eapply rootCandidates_same. }
    2:{ simpl. apply (regularNames_same _ r r_b); [done|].
        eapply (regularNames_ext h_a h_b); [by eapply rtc_step_ext|].
        eapply (regularNames_ext h_c h_a); [by eapply rtc_step_ext|done]. }
    destruct Hrec as ((Hs_d & Hseen_d & Hdeps_d & Hcount_d & Hnext_d) & Hgr_d & Hgn_d).
    simpl in *.
    assert (forall x, x ≠ parentNode -> (x < length h_c)%nat ->
                      depsOf h_b x = depsOf h_c x) as Hframe.
    { intros x Hx Hlt. unfold depsOf. rewrite Hold_b.
      - unfold h_a. by rewrite list_lookup_insert_ne.
      - done.
      - unfold h_a. by rewrite length_insert. }
    assert (length h1 <= length h_c)%nat as Hlen_c
      by by eapply ext_length, rtc_step_ext.
    split.
    { split; [etrans; [exact Hs1b|exact Hs_d]|].
      split; [rewrite Hseen_d; by apply set_delete_add|].
      split.
      { intros x Hx. destruct (Hseen x Hx) as [Hxr Hxlt].
        rewrite Hdeps_d by (apply elem_of_set_add; auto).
        rewrite Hframe; [by apply Hd| |lia]. by intros ->. }
      split.
      { pose proof (rtc_step_keyCount _ _ _ Hs) as Hm1.
        pose proof (rtc_step_keyCount _ _ _ Hs_a) as Hm2.
        pose proof (rtc_step_keyCount _ _ _ Hs_b) as Hm3.
        pose proof (rtc_step_keyCount _ _ _ Hs_d) as Hm4.
        destruct Hcount_d as [->|Hlt]; [destruct Hc; [by left|right; lia]|right; lia]. }
      by apply (regularNames_same _ r r_b). }
    split; [|by split].
    rewrite Hdeps_d by (apply elem_of_set_add; auto).
    rewrite <- Hkeys. unfold depsOf. rewrite Hp_b', Hp_c. simpl. f_equal.
    destruct Hpdeps_b as [->| ->]; [by rewrite Hpdeps_a|].
    rewrite map_keys_set, Hhas_a. by rewrite Hpdeps_a. }
  split; [|by split].
  unfold hoistPost. simpl in *.
  split; [by etrans|]. split; [done|].
  split.
  { intros x Hx. destruct (Hseen x Hx) as [Hxr Hxlt].
    rewrite Hdeps2 by done. apply Hdeps1; [|done]. by intros ->. }
  split.
  { pose proof (rtc_step_keyCount _ _ _ Hs1) as Hm1.
    pose proof (rtc_step_keyCount _ _ _ Hs2) as Hm2.
    destruct Hcount2 as [->|Hlt]; [destruct Hcount1; [by left|right; lia]|right; lia]. }
  done.
Qed.
End HoistNodeDependenciesGood.

(** ** hoistGraph *)

Section HoistGraphGood.
Variables (tree root : nat) (rootNodePath : list string).
Variable hoistedDependencies_ : list (option (string * nat)).
Variable hoistIdents : list (option (string * option string)).
Variable hoistIdentMap : list (option (string * list string)).
Variable options : InternalHoistOptions.
Variable G : PackageName -> Ident -> Prop.
Hypothesis HG : forall k i, mjoin (map_get k hoistIdents) = Some i -> G k i.

Lemma hoistNewNodes_good fuel newNodes seen h st' h' :
  hoistNewNodes tree root rootNodePath hoistedDependencies_ hoistIdents hoistIdentMap
    options fuel newNodes seen h = Returned st' h' ->
  heap_ok h = true ->
  forall r, h !! root = Some r ->
    (forall x, x ∈ seen -> x ≠ root /\ (x < length h)%nat) ->
    rootCandidates r hoistIdents ->
    regularNames h r newNodes ->
    goodRoot G h root -> goodNodes G h newNodes ->
    rtc (step root) h h'
    /\ st'.1 = seen
    /\ (st'.2 = [] \/ (keyCount h root < keyCount h' root)%nat)
    /\ regularNames h' r st'.2
    /\ goodRoot G h' root /\ goodNodes G h' st'.2.
Proof using HG.
  intros Hrun Hok r Hr Hseen Hcands Hnew Hgr Hgn. unfold hoistNewNodes in Hrun.
  set (I := fun (st_c : list nat * list nat) (h_c : list HoisterWorkTree) =>
    rtc (step root) h h_c
    /\ st_c.1 = seen
    /\ (st_c.2 = [] \/ (keyCount h root < keyCount h_c root)%nat)
    /\ regularNames h_c r st_c.2
    /\ goodRoot G h_c root /\ goodNodes G h_c st_c.2).
  assert (I st' h') as HI; [|exact HI].
  eapply (foldM_inv I); [| |exact Hrun]; unfold I.
  { split; [done|]. split; [done|]. split; [by left|]. split; [|split; [done|]].
    - intros x Hx. by apply elem_of_nil in Hx.
    - intros x Hx. by apply elem_of_nil in Hx. }
  clear Hrun. intros dep [seen_c next_c] h_c st2 h_c'
    (Hs & Hsn & Hc & Hn & Hgr_c & Hgn_c) Hdep Hbody.
  simpl in Hsn. subst seen_c. simpl in *.
  apply bind_Done in Hbody as (d & h0 & Hread & Hbody).
  apply read_Done in Hread as [Hd ->].
  apply bind_Done in Hbody as (r_c & h0 & Hread & Hbody).
  apply read_Done in Hread as [Hr_c ->].
  destruct (bool_decide (locator d = locator r_c)) eqn:Hloc.
  { by apply ret_Done in Hbody as [-> ->]. }
  apply bool_decide_eq_false in Hloc.
  apply bind_Done in Hbody as (dd & h_b & Hdec & Hbody).
  apply bind_Done in Hbody as (r_b & h0 & Hread & Hbody).
  apply read_Done in Hread as [Hr_b ->].
  pose proof (rtc_step_heap_ok _ _ _ Hs Hok) as Hok_c.
  destruct (rtc_step_lookup _ _ _ _ _ Hs Hr) as (r_c' & Hr_c' & Hrsame_c).
  assert (r_c' = r_c) as -> by congruence.
  assert (name d ∉ peerNames r_c) as Hnp.
  { destruct (regularNames_ext _ _ _ _ (rtc_step_ext _ _ _ Hs) Hnew dep Hdep)
      as (d' & Hd' & Hnp).
    assert (d' = d) as -> by congruence.
    by destruct Hrsame_c as (_ & _ & _ & -> & _). }
  eapply decoupleGraphNode_spec in Hdec
    as (Hs_b & (nc & Hnc & Hncname & Hncloc & Hncid) & _ & (r_b0 & Hr_b0 & Hrdeps_b));
    [|exact Hr_c|exact Hd|by right].
  assert (goodRoot G h_b root /\ goodNodes G h_b next_c) as [Hgr_b Hgn_b].
  { pose proof (rtc_step_ext _ _ _ Hs_b) as Hext_b.
    split; [|by eapply goodNodes_ext].
    destruct (goodNodes_ext _ _ _ _ (rtc_step_ext _ _ _ Hs) Hgn dep Hdep)
      as (d' & Hd' & Hgd).
    assert (d' = d) as -> by congruence.
    eapply (goodRoot_change G h_c h_b root r_c r_b0 (name d) dd);
      [exact Hext_b|exact Hr_c|exact Hr_b0| |exact Hgr_c].
    destruct Hrdeps_b as [Hsame_b|Hset_b]; [by left|right].
    split; [done|]. exists nc. split; [done|]. by rewrite Hncid. }
  assert (rtc (step root) h h_b) as Hsb by by etrans.
  pose proof (rtc_step_heap_ok _ _ _ Hsb Hok) as Hok_b.
  destruct (rtc_step_lookup _ _ _ _ _ Hsb Hr) as (r_b' & Hr_b' & Hrsame_b).
  assert (r_b' = r_b) as -> by congruence.
  eapply hoistNodeDependencies_good in Hbody;
    [|exact HG|exact Hok_b|exact Hr_b|exact Hnc| | | | | |exact Hgr_b|exact Hgn_b].
  2:{ apply list_elem_of_singleton. done. }
  2:{ rewrite Hncloc. destruct Hrsame_b as (_ & _ & -> & _).
      by destruct Hrsame_c as (_ & _ & <- & _). }
  2:{ simpl. intros x Hx. destruct (Hseen x Hx). split; [done|].
      pose proof (ext_length _ _ (rtc_step_ext _ _ _ Hsb)). lia. }
  2:{ by eapply rootCandidates_same. }
  2:{ simpl. apply (regularNames_same _ r r_b); [done|].
      eapply (regularNames_ext h_c h_b); [exact (rtc_step_ext _ _ _ Hs_b)|done]. }
  destruct Hbody as ((Hs_d & Hseen_d & _ & Hcount_d & Hnext_d) & Hgr_d & Hgn_d).
  simpl in *.
  split; [by etrans|]. split; [done|].
  split.
  { pose proof (rtc_step_keyCount _ _ _ Hs) as Hm1.
    pose proof (rtc_step_keyCount _ _ _ Hs_b) as Hm2.
    pose proof (rtc_step_keyCount _ _ _ Hs_d) as Hm3.
    destruct Hcount_d as [->|Hlt]; [destruct Hc; [by left|right; lia]|right; lia]. }
  split; [|by split].
  by apply (regularNames_same _ r r_b).
Qed.

Lemma hoistGraphLoop_good fuel :
  forall newNodes seen h u h',
    hoistGraphLoop tree root rootNodePath hoistedDependencies_ hoistIdents hoistIdentMap
      options fuel newNodes seen h = Returned u h' ->
    heap_ok h = true ->
    forall r, h !! root = Some r ->
      (forall x, x ∈ seen -> x ≠ root /\ (x < length h)%nat) ->
      rootCandidates r hoistIdents ->
      regularNames h r newNodes ->
      goodRoot G h root -> goodNodes G h newNodes ->
      goodRoot G h' root.
Proof using HG.
  induction fuel as [|fuel IH];
    intros newNodes seen h u h' Hrun Hok r Hr Hseen Hcands Hnew Hgr Hgn; [done|].
  simpl in Hrun. apply bind_Done in Hrun as (st & h1 & Hround & Hrun).
  eapply hoistNewNodes_good in Hround as (Hs & Hsn & _ & Hnext & Hgr1 & Hgn1); eauto.
  destruct (st.2) as [|x next] eqn:Hst2.
  { by apply ret_Done in Hrun as [_ ->]. }
  destruct (rtc_step_lookup _ _ _ _ _ Hs Hr) as (r1 & Hr1 & Hrsame).
  eapply IH; [exact Hrun|by eapply rtc_step_heap_ok|exact Hr1| | | |done|done].
  - rewrite Hsn. intros y Hy. destruct (Hseen y Hy). split; [done|].
    pose proof (ext_length _ _ (rtc_step_ext _ _ _ Hs)). lia.
  - by eapply rootCandidates_same.
  - by apply (regularNames_same _ r r1).
Qed.

Lemma hoistGraph_good fuel h u h' :
  hoistGraph tree root rootNodePath hoistedDependencies_ hoistIdents hoistIdentMap
    options fuel h = Returned u h' ->
  heap_ok h = true ->
  forall r, h !! root = Some r ->
    rootCandidates r hoistIdents ->
    goodRoot G h root ->
    goodRoot G h' root.
Proof using HG.
  intros Hrun Hok r Hr Hcands Hgr. unfold hoistGraph in Hrun.
  apply bind_Done in Hrun as (h0 & h0' & Hget & Hrun).
  apply get_st_Done in Hget as [-> ->].
  apply bind_Done in Hrun as (sorted & h0' & Hsorted & Hrun).
  apply lift_Done in Hsorted as [Hsorted ->].
  eapply getSortedRegularDependencies_spec in Hsorted as (_ & Hreg & _);
    [|exact Hr|by eapply heap_ok_named].
  eapply hoistGraphLoop_good; [exact Hrun|done|exact Hr| |done| |done|].
  - intros x Hx. by apply elem_of_nil in Hx.
  - intros x Hx. rewrite elem_of_set_of_list in Hx.
    apply Hreg in Hx as (d & _ & Hd & Hnp). eauto.
  - intros x Hx. rewrite elem_of_set_of_list in Hx.
    apply Hreg in Hx as (d & Hin & Hd & _). exists d. split; [done|].
    apply map_values_elem in Hin as [k Hk].
    destruct (heap_ok_entry _ _ _ _ _ Hok Hr Hk) as (d' & Hd' & <-).
    assert (d' = d) as -> by congruence.
    destruct Hgr as (r' & Hr' & Hall). assert (r' = r) as -> by congruence.
    apply map_entries_get in Hk; [|by eapply heap_ok_NoDup].
    destruct (Hall _ _ Hk) as (d2 & Hd2 & Hg). congruence.
Qed.
End HoistGraphGood.

(** The passes of the loop of [hoistTo]: the candidate lists only get
    shorter, so what they allow at the start is allowed in every pass. *)
Lemma nextCandidate_listed (G : PackageName -> Ident -> Prop) r c name_ :
  (forall k l, map_get k (c_hoistIdentMap c) = Some l -> forall i, i ∈ l -> G k i) ->
  forall k l, map_get k (c_hoistIdentMap (nextCandidate r c name_)) = Some l ->
              forall i, i ∈ l -> G k i.
Proof.
  intros Hall k l. unfold nextCandidate.
  destruct (map_get name_ (c_hoistIdentMap c)) as [idents|] eqn:Hget; [|by apply Hall].
  destruct ((1 <? length idents)%nat && _); [|by apply Hall].
  simpl. rewrite map_get_set. destruct (decide (name_ = k)) as [<-|]; [|by apply Hall].
  intros [= <-] i Hi. apply (Hall name_ idents Hget).
  destruct idents as [|i0 idents]; [done|]. by right.
Qed.

Lemma hoistToLoop_good (G : PackageName -> Ident -> Prop) fuel :
  forall tree root rootNodePath hoistedDependencies_ c options h u h',
    hoistToLoop fuel tree root rootNodePath hoistedDependencies_ c options h = Returned u h' ->
    heap_ok h = true ->
    forall r, h !! root = Some r ->
      candidates_ok r c ->
      (forall k l, map_get k (c_hoistIdentMap c) = Some l -> forall i, i ∈ l -> G k i) ->
      goodRoot G h root ->
      goodRoot G h' root.
Proof.
  induction fuel as [|fuel IH];
    intros tree root rootNodePath hd c options h u h' Hrun Hok r Hr Hc Hlisted Hgr; [done|].
  simpl in Hrun. apply bind_Done in Hrun as (u1 & h1 & Hgraph & Hrun).
  assert (goodRoot G h1 root) as Hgr1.
  { eapply (hoistGraph_good _ _ _ _ _ _ _ G); [|exact Hgraph|done|exact Hr| |done].
    - intros k i Hk. destruct Hc as [_ Hhead]. rewrite Hhead in Hk.
      destruct (map_get k (c_hoistIdentMap c)) as [l|] eqn:Hl; [|done]. simpl in Hk.
      apply (Hlisted k l Hl). destruct l as [|i0 l]; [done|].
      injection Hk as ->. by left.
    - by apply candidates_ok_root. }
  eapply hoistGraph_spec in Hgraph; [|done|exact Hr|by apply candidates_ok_root].
  apply bind_Done in Hrun as (r1 & h1' & Hread & Hrun).
  apply read_Done in Hread as [Hr1 ->].
  match type of Hrun with context [fold_left ?f ?l ?a] => set (c' := fold_left f l a) in * end.
  destruct (wasStateChanged c').
  - destruct (rtc_step_lookup _ _ _ _ _ Hgraph Hr) as (r1' & Hr1' & Hrsame).
    assert (r1' = r1) as -> by congruence.
    eapply IH; [exact Hrun|by eapply rtc_step_heap_ok|exact Hr1| | |done].
    + assert (candidates_ok r c') as Hc'.
      { unfold c'. apply fold_left_inv; [by destruct c|].
        intros c0 k Hc0 _. by apply nextCandidate_ok. }
      destruct Hc' as [Hun Hhead]. destruct Hrsame as (Hn & Hi & _ & Hp & _).
      split; [|done]. intros q Hq. rewrite Hn, Hi. apply Hun. by rewrite <- Hp.
    + unfold c'. apply (fold_left_inv (fun c0 : Candidates =>
        forall k l, map_get k (c_hoistIdentMap c0) = Some l -> forall i, i ∈ l -> G k i));
        [done|].
      intros c0 k Hc0 _. by apply nextCandidate_listed.
  - by apply ret_Done in Hrun as [_ ->].
Qed.

(** X23: only candidates reach a root.  For the candidates
    [getHoistIdentMap] gives for the root of a well-formed tree, every
    dependency the root has after the loop of [hoistTo] is a package of
    the name it is held under whose ident is listed for that name, or is
    the ident of what the root held under that name before the loop. *)
Theorem hoistToLoop_brings_candidates fuel tree rootNode rootNodePath hoistedDependencies_
    popularityMap identMap options h u h' r :
  heap_ok h = true -> h !! rootNode = Some r ->
  getHoistIdentMap h rootNode popularityMap = Done identMap ->
  hoistToLoop fuel tree rootNode rootNodePath hoistedDependencies_
    (mkCandidates (headIdents identMap) identMap false) options h = Returned u h' ->
  exists r', h' !! rootNode = Some r'
    /\ forall k d, map_get k (dependencies r') = Some d ->
         exists nd, h' !! d = Some nd /\ name nd = k
                    /\ listedOrHeld identMap h r k (ident nd).
Proof.
  intros Hok Hr Hmap Hrun.
  pose proof (candidates_ok_initial _ _ _ _ _ Hr Hmap) as Hc.
  assert (goodRoot (listedOrHeld identMap h r) h' rootNode) as (r' & Hr' & Hall).
  { eapply hoistToLoop_good; [exact Hrun|done|exact Hr|done| |].
    - intros k l Hl i Hi. left. eauto.
    - exists r. split; [done|]. intros k d Hget.
      apply map_get_entries in Hget as Hin.
      destruct (heap_ok_entry _ _ _ _ _ Hok Hr Hin) as (nd & Hnd & _).
      exists nd. split; [done|]. right. eauto. }
  eapply hoistToLoop_spec in Hrun; [|done|exact Hr|done].
  pose proof (rtc_step_heap_ok _ _ _ Hrun Hok) as Hok'.
  exists r'. split; [done|]. intros k d Hget.
  destruct (Hall _ _ Hget) as (nd & Hnd & Hg). exists nd. split; [done|]. split; [|done].
  apply map_get_entries in Hget.
  destruct (heap_ok_entry _ _ _ _ _ Hok' Hr' Hget) as (nd' & Hnd' & <-). congruence.
Qed.

Lemma hoistToLoop_brings_candidates_witness :
  exists h' r r',
    hoistToLoop 20 0 0 [".@workspace:."%string] []
      (mkCandidates
         (headIdents [Some ("."%string, [".@workspace:."%string]);
                      Some ("a"%string, ["a@1"%string]);
                      Some ("b"%string, ["b@1"%string]);
                      Some ("c"%string, ["c@1"%string])])
         [Some ("."%string, [".@workspace:."%string]); Some ("a"%string, ["a@1"%string]);
          Some ("b"%string, ["b@1"%string]); Some ("c"%string, ["c@1"%string])] false)
      (mkInternalHoistOptions false (Num (-1))) waitingPeerHeap = Returned tt h'
    /\ waitingPeerHeap !! 0 = Some r
    /\ h' !! 0 = Some r'
    /\ map_keys (dependencies r') = ["a"%string; "c"%string; "b"%string]
    /\ (forall k d, map_get k (dependencies r') = Some d ->
          exists nd, h' !! d = Some nd /\ name nd = k
            /\ listedOrHeld
                 [Some ("."%string, [".@workspace:."%string]);
                  Some ("a"%string, ["a@1"%string]);
                  Some ("b"%string, ["b@1"%string]); Some ("c"%string, ["c@1"%string])]
                 waitingPeerHeap r k (ident nd)).
Proof.
  eexists. eexists.
  destruct (hoistToLoop_brings_candidates 20 0 0 [".@workspace:."%string] []
              waitingPeerPopularity _ (mkInternalHoistOptions false (Num (-1)))
              waitingPeerHeap tt _ _ eq_refl eq_refl eq_refl eq_refl)
    as (r' & Hr' & Hall).
  exists r'. split; [reflexivity|]. split; [reflexivity|]. split; [exact Hr'|].
  split; [|exact Hall].
  vm_compute in Hr'. injection Hr' as <-. reflexivity.
Defined.
